(* ===== verification/_CoqProject ===== *)
-Q . S2P
Prelude.v
Merkle.v
MerkleTree.v
MerkleProofs.v
MerkleTests.v
Haskell.v
SpecCrypto.v
SpecCryptoProofs.v
SpecMerkle.v
MerkleAgainstSpec.v
Blocks.v
HeaderEncoding.v
Ledger.v
LedgerProofs.v
LedgerForgery.v
Validators.v
Engine.v
EngineProofs.v
Signatures.v
SignatureTests.v
Net.v
Events.v
Protocol.v
ProtocolTests.v
Transport.v
Discovery.v
P2P.v
NodeCore.v
Runtime.v
Api.v
Storage.v
Defaults.v
StorageTasks.v
StorageReads.v
Simulation.v
Report.v
