(* ===== verification/Prelude.v ===== *)
(** * Crypto_Coin: a verification of the node

    Crypto_Coin is a blockchain node in Rust.  The repository (src/) has two
    cryptographic crates and four crates of the node:
    - src/crypto/merkle: Merkle trees over 32-byte hashes and inclusion proofs;
    - src/crypto/signatures: Ed25519 keys and signatures, addresses, a VRF and
      commitments;
    - src/node/p2p: the wire protocol, the TCP transport, peer discovery, and the
      manager that drives the latter two;
    - src/node/storage: the index of stored blocks;
    - src/node/node-core: configuration, metrics and the runtime;
    - src/node/api: JSON-RPC messages and the API configuration;
    - src/tests/integration: simulated validators and the tests that run them;
    - src/formal-protocol: an executable specification in Haskell of Merkle trees, blocks
      and a consensus engine.

    The crates of the node call each other only inside p2p (the manager owns a
    transport and a discovery table); the crypto crates are called by nothing yet.

    ** Files

    - Prelude.v (this file): outcomes of code that can panic or not terminate
      ([exec]), [Result], machine integers in the two build profiles, bytes, arrays,
      hash maps with an unknown iteration order ([MapIter]), hints and tactics.
    - Merkle.v: the functions of merkle/src/lib.rs, by their names ([MerkleProof]'s
      [compute_root] is [proof_compute_root]).  MerkleTree.v: padding, building, roots.
      MerkleProofs.v: checking and generating proofs.  MerkleTests.v: the crate's unit
      tests, as programs that return or panic.
    - Haskell.v: the machine integers of the specification.  SpecCrypto.v, SpecCryptoProofs.v:
      its stand-in cryptography (Protocol/Crypto.hs) and what it computes.  SpecMerkle.v: its
      Merkle trees (Protocol/Merkle.hs), with that hash.  MerkleAgainstSpec.v: the crate's
      trees against them.
    - Blocks.v: the specification's data, serialization and creation of blocks
      (Protocol/Types.hs, Block.hs).  HeaderEncoding.v: what the encodings determine.
      Ledger.v: validation of transactions and blocks (Block.hs).  LedgerProofs.v: its exact
      conditions and conservation of value.  LedgerForgery.v: what it accepts from
      outsiders, and created blocks.
    - Validators.v: validator sets, super-majority and proposers (Consensus/Types.hs,
      Engine.hs).  Engine.v: the consensus engine (Engine.hs) in a state and exception monad
      [IO].  EngineProofs.v: its steps as a relation, invariants, rounds, decisions.
    - Signatures.v: the functions of signatures/src/lib.rs over the class [Crates] of
      the cryptographic crates.  SignatureTests.v: its unit tests.
    - Net.v: the interface [SocketAddrOps] of std's socket addresses, and IPv4
      addresses as its instance.  Events.v: broadcast channels and their subscribers.
    - Protocol.v, Transport.v, Discovery.v, P2P.v: p2p/src/{protocol,transport,discovery,
      lib}.rs.  The managers are records with the fields of the structs; a method is a
      function from the record to the record and the result.  P2P.v composes the
      others and is proved against their lemmas.  ProtocolTests.v: the unit tests of
      protocol.rs.
    - Storage.v: storage/src/lib.rs with calls one at a time.  StorageTasks.v: the same
      operations cut at their locks and interleaved by a step relation.  StorageReads.v:
      what the interleaved readers return.
    - NodeCore.v, Runtime.v: node-core/src.  Api.v: api/src/lib.rs.  Defaults.v: the
      default configurations of all crates against each other.
    - Simulation.v: the network of tests/integration/mod.rs and its tests.  Report.v: the
      line it prints, with the rate in IEEE binary64 (SpecFloat).

    Channels of events ([event_tx]) are lists of the events sent; the results of those
    sends are discarded by the code.  What the code reads from the outside (instants,
    connection attempts, random shuffles) is an argument.  Third-party crates are type
    classes of operations ([Sha3_256], [Crates], [Sha256], [NetOps], [Shuffle], [JsonOps],
    [LogOps], [TaskOps], [BincodeOps]) with classes of laws that state their documented behaviour; every
    theorem with such a law is applied to a concrete instance in a witness.

    ** Theorems

    - Merkle: roots are those of perfect hashed trees and bind the slice up to
      collisions of the digest; [verify] is sound up to padding and index aliases, and complete; generated proofs have
      the right shape, verify for one or two hashes and not for more; padding ends for
      all sizes up to 2^63.  Half of the crate's tests fail for
      every digest that does not collide on the strings they hash.
    - Specification: the crate builds the specification's trees on power-of-two lengths
      and others on other lengths, where the specification does not pad (the digests in
      them are different functions); its generated proofs are the specification's.  Two super-majorities share a correct validator unless the
      products of powers wrap, in which case they can be disjoint; the count and the power
      criterion agree for equal powers; every active validator proposes once per
      rotation.
    - Ledger: a transaction is accepted exactly under the four conditions the code tests, and
      otherwise refused with the first that fails; an accepted block creates no value
      unless a sum wraps; header encodings are unambiguous for hashes and validators of
      known lengths; a created block is valid up to its signature.  With the specification's hash and signatures, which are
      placeholders, anyone can sign, spend and produce, and a header binds only the first
      transaction.
    - Engine: decisions are irrevocable; a round of an engine that does not propose handles
      every message of its queue and ends.  As the sources collect no votes, no engine ever
      decides on its own.
    - Signatures: key generation, signing and verification fit together; VRF proofs
      verify, but bind no output; commitments bind values of one length; four of
      the crate's tests always pass, the other four up to a stated accident (a collision,
      a zero key or address, a signature that fits a second key).
    - Wire: frames round trip, decoding is the exact inverse of encoding, changed
      payloads are noticed; messages on a stream decode to what was sent; a broadcast
      is independent sends; a failed send leaves a known part of the frame.
    - Discovery and P2P: an invariant of the routing table over all sequences of
      operations, bans are permanent, the selection of peers to dial is sound, bounded and
      complete, pruning is exact; only the last bootstrap peer is ever dialled, and at
      most one connection exists.
    - Storage: the indexes refine a log of blocks; concurrent calls terminate and
      settle, and are serializable without competition for a height or a hash and not
      with it; reads by hash, of the head and of the height are atomic, see the stores that
      returned before them and never go backwards, and reads by height see them where no
      blocks compete.
    - Node: counters hold the totals (modulo 2^64 in release, exactly or with a panic in
      development), whatever the interleaving; the reported height is the greatest
      announced; a runtime's shutdown waits for the first unfinished task, and a second
      one for ever; subscribers read the last 256 events; the defaults of the crates
      agree.
    - Simulation: every round has consensus exactly when fewer than a third of the
      validators are faulty, and the correct ones agree; seven of the eight tests pass; the rate
      printed is exactly 100.0 or 0.0.

    ** Bounds

    Integers are [Z] at the width of the source where they can overflow (the shift of
    [next_power_of_two], the length fields of frames and messages, counters, heights);
    indices below the length of a slice are [nat].  A slice has at most 2^63 - 1 elements
    ([is_slice]).  Loops that are not structural take fuel: [next_power_of_two] 65
    iterations, enough for every power of two of a 64-bit word; [build_tree] and
    [collect_siblings] the length of the slice, which their recursion halves; [chunkSize]
    the length of the string; a consensus round the depth of view changes inside it, which
    is 0 for the votes of the sources.  That the
    fuel is enough is part of the theorems, which conclude [Ret], and so is where the
    code does not terminate ([NoFuel] for every fuel).

    ** Not modelled

    The [Drop] implementations, which only log; the modules that storage and api declare
    but do not contain, and the State module of the specification's tests;
    [merkleTreeDepth], a floating-point logarithm, which for more than one leaf is taken of
    0 and converted to an integer (a result that depends on the compiler) and whose value
    nothing uses; the beacon and checkpoint types of the specification, which have no
    operations; its property tests, written against functions that do not exist.  The
    Haskell modules do not type check as they are; where the model has to choose, the file
    says so. *)
From stdpp Require Export prelude gmap strings list.
From Stdlib Require Export Strings.Byte.

(** * Outcomes of Rust code

    [Ret]: the call returns a value.  [Panic]: it panics (an index out of
    range, an [unwrap] of [Err], an overflow in a profile with overflow
    checks).  [NoFuel]: the loop or recursion did not finish within the fuel
    given to the model; a body for which every fuel gives [NoFuel] diverges. *)
Inductive exec (A : Type) : Type :=
| Ret (a : A)
| Panic
| NoFuel.
Arguments Ret {A} a.
Arguments Panic {A}.
Arguments NoFuel {A}.

#[export] Instance exec_ret : MRet exec := λ A a, Ret a.
#[export] Instance exec_bind : MBind exec := λ A B f m,
  match m with
  | Ret a => f a
  | Panic => Panic
  | NoFuel => NoFuel
  end.

(** An indexing expression [v[i]] or an [unwrap]: it panics on [None]. *)
Definition or_panic {A} (o : option A) : exec A :=
  match o with Some a => Ret a | None => Panic end.

(** [assert!]. *)
Definition rust_assert (b : bool) : exec unit := if b then Ret tt else Panic.

(** Rust's [Result]. *)
Inductive Result (T E : Type) : Type :=
| Ok (t : T)
| Err (e : E).
Arguments Ok {T E} t.
Arguments Err {T E} e.

Definition is_ok {T E} (r : Result T E) : bool :=
  match r with Ok _ => true | Err _ => false end.

(** [r?] and [map_err]. *)
Definition and_then {T U E} (r : Result T E) (k : T → Result U E) : Result U E :=
  match r with Ok t => k t | Err e => Err e end.
Definition map_err {T E F} (f : E → F) (r : Result T E) : Result T F :=
  match r with Ok t => Ok t | Err e => Err (f e) end.

(** * Machine integers

    A w-bit unsigned integer is a [Z]; the wrap-around is written out. *)
Definition u16_max : Z := 2 ^ 16 - 1.
Definition u32_max : Z := 2 ^ 32 - 1.
Definition u64_max : Z := 2 ^ 64 - 1.

(** [x as u32], and the low 64 bits of [x]. *)
Definition as_u32 (x : Z) : Z := x mod 2 ^ 32.
Definition wrap64 (x : Z) : Z := x mod 2 ^ 64.

Definition is_u32 (x : Z) : Prop := (0 ≤ x ≤ u32_max)%Z.
Definition is_u64 (x : Z) : Prop := (0 ≤ x ≤ u64_max)%Z.

(** The build profile decides what [+] does on overflow: [dev] builds panic,
    [release] builds wrap (the workspace sets no [overflow-checks]). *)
Inductive profile := dev | release.

Definition u64_add (p : profile) (a b : Z) : exec Z :=
  if bool_decide (a + b ≤ u64_max)%Z then Ret (a + b)%Z
  else match p with dev => Panic | release => Ret (wrap64 (a + b)) end.

(** The length of a slice as a [usize].  An allocation holds at most
    [isize::MAX] bytes, so no slice is longer. *)
Definition len {A} (l : list A) : Z := Z.of_nat (length l).
Definition isize_max : Z := 2 ^ 63 - 1.
Definition is_slice {A} (l : list A) : Prop := (len l ≤ isize_max)%Z.

(** * Bytes *)
Definition byte_to_Z (b : byte) : Z := Z.of_N (Byte.to_N b).
Definition byte_of_Z (z : Z) : byte :=
  default x00 (Byte.of_N (Z.to_N (z mod 256))).

#[export] Instance byte_eq_decision : EqDecision byte := Byte.byte_eq_dec.
#[export] Program Instance byte_countable : Countable byte :=
  inj_countable Byte.to_N Byte.of_N _.
Next Obligation. intros b. apply Byte.of_to_N. Qed.

(** [u32::to_be_bytes] and [u32::from_be_bytes]. *)
Definition u32_to_be_bytes (x : Z) : list byte :=
  [ byte_of_Z (Z.shiftr x 24); byte_of_Z (Z.shiftr x 16);
    byte_of_Z (Z.shiftr x 8); byte_of_Z x ].
Definition u32_from_be_bytes (b0 b1 b2 b3 : byte) : Z :=
  Z.lor (Z.shiftl (byte_to_Z b0) 24)
    (Z.lor (Z.shiftl (byte_to_Z b1) 16)
       (Z.lor (Z.shiftl (byte_to_Z b2) 8) (byte_to_Z b3))).

(** A byte-string literal [b"..."]: the bytes of its characters. *)
Definition byte_of_char (c : Ascii.ascii) : byte :=
  default x00 (Byte.of_N (Ascii.N_of_ascii c)).
Definition bytes_of_string (s : string) : list byte :=
  byte_of_char <$> String.list_ascii_of_string s.

(** * Fixed-size arrays [[u8; n]] *)
Definition array (n : nat) : Type := dsig (λ l : list byte, length l = n).
Definition abytes {n} (a : array n) : list byte := `a.

(** The proof that an array carries is decided, so on a concrete list it evaluates
    to [I] and equal arrays have equal normal forms. *)
Definition pack_length {n} (l : list byte) (H : length l = n) :
    Is_true (bool_decide (length l = n)) :=
  match decide (length l = n) as d
    return Is_true (@bool_decide (length l = n) d) with
  | left _ => I
  | right C => False_rect _ (C H)
  end.
Definition mk_array {n} (l : list byte) (H : length l = n) : array n := l ↾ pack_length l H.

Lemma length_filled (n : nat) (b : byte) : length (replicate n b) = n.
Proof. apply length_replicate. Qed.
(** [[b; n]]. *)
Definition filled (n : nat) (b : byte) : array n := mk_array _ (length_filled n b).
Definition zeroed (n : nat) : array n := filled n x00.

Lemma length_copy_prefix (n : nat) (bs : list byte) :
  length (take (length bs `min` n) bs ++ replicate (n - length bs `min` n) x00) = n.
Proof. rewrite length_app, length_take, length_replicate. lia. Qed.
(** The constructors [Hash::new], [Signature::new] and [NodeId::from_bytes]
    share this body: a zeroed array whose first [min(len, n)] bytes are copied
    from the slice. *)
Definition copy_prefix (n : nat) (bs : list byte) : array n :=
  mk_array _ (length_copy_prefix n bs).

(** A slice expression [v[a..b]]: it panics out of range. *)
Definition slice {A} (l : list A) (a b : nat) : exec (list A) :=
  if bool_decide (a ≤ b ∧ b ≤ length l) then Ret (take (b - a) (drop a l)) else Panic.

(** [arr.copy_from_slice(l)] into an array of size [n]: it panics when the lengths
    differ. *)
Definition array_from_slice (n : nat) (l : list byte) : exec (array n) :=
  match decide (length l = n) with
  | left H => Ret (mk_array l H)
  | right _ => Panic
  end.

(** * Hash maps

    Iterating a [HashMap] visits every entry once, in an order the language leaves
    open: the order is a parameter. *)
Class MapIter (K : Type) `{Countable K} := map_iter : ∀ {V}, gmap K V → list (K * V).
Class MapIterLaws (K : Type) `{MapIter K} : Prop :=
  map_iter_perm : ∀ {V} (m : gmap K V), map_iter m ≡ₚ map_to_list m.

(** The order of the model's own maps. *)
Definition map_iter_default {K} `{Countable K} : MapIter K := λ V m, map_to_list m.

#[global] Arguments Nat.div : simpl never.
#[global] Arguments Nat.modulo : simpl never.
#[global] Arguments Nat.pow : simpl never.
#[global] Arguments Z.pow : simpl never.
#[global] Arguments abytes {n} a : simpl never.
#[global] Arguments copy_prefix n bs : simpl never.

(** * Automation

    [solve_exec] runs the monadic code of a goal whose tests are decided by the
    context; [crypto] is the hint database of the side conditions that recur in
    the components (lengths of arrays, bounds of bytes and of wrapped integers). *)
Create HintDb crypto discriminated.
Create Rewrite HintDb crypto.

Ltac unfold_exec := unfold mbind, mret, exec_bind, exec_ret, or_panic in *.
Ltac solve_exec :=
  repeat (simpl in *; first
    [ progress unfold_exec
    | progress simplify_eq
    | case_bool_decide
    | case_match ]); try done; eauto with crypto; try lia.

(** Destructs the arrays and dependent pairs of the context that carry a
    decidable proof. *)
Ltac array_eq := apply dsig_eq; simpl.

(** Membership and inclusion of lists built with [::] and [++]. *)
Ltac elem_list :=
  try (intros ?);
  repeat first [ rewrite elem_of_app | rewrite elem_of_cons | rewrite list_elem_of_singleton ];
  naive_solver.

(** ** Outcomes *)
Lemma exec_bind_Ret {A B} (m : exec A) (f : A → exec B) (b : B) :
  m ≫= f = Ret b ↔ ∃ a, m = Ret a ∧ f a = Ret b.
Proof. split; [destruct m; naive_solver|]. intros (a & -> & ?). done. Qed.

Lemma or_panic_Ret {A} (o : option A) (a : A) : or_panic o = Ret a ↔ o = Some a.
Proof. split; destruct o; simpl; intros; by simplify_eq. Qed.

Lemma rust_assert_true (P : Prop) `{Decision P} : P → rust_assert (bool_decide P) = Ret tt.
Proof. intros. unfold rust_assert. by rewrite bool_decide_true. Qed.

Lemma rust_assert_false (P : Prop) `{Decision P} : ¬ P → rust_assert (bool_decide P) = Panic.
Proof. intros. unfold rust_assert. by rewrite bool_decide_false. Qed.

(** ** Integers *)
Lemma as_u32_small (x : Z) : is_u32 x → as_u32 x = x.
Proof. unfold is_u32, u32_max, as_u32. intros. rewrite Z.mod_small; lia. Qed.

Lemma as_u32_range (x : Z) : is_u32 (as_u32 x).
Proof. unfold is_u32, u32_max, as_u32. pose proof (Z.mod_pos_bound x (2 ^ 32)). lia. Qed.

Lemma wrap64_range (x : Z) : is_u64 (wrap64 x).
Proof. unfold is_u64, u64_max, wrap64. pose proof (Z.mod_pos_bound x (2 ^ 64)). lia. Qed.

Lemma u64_add_Ret (p : profile) (a b c : Z) :
  is_u64 a → is_u64 b → u64_add p a b = Ret c → is_u64 c.
Proof.
  unfold u64_add, is_u64. intros Ha Hb H. case_bool_decide; simplify_eq; [lia|].
  destruct p; simplify_eq. apply wrap64_range.
Qed.

Lemma u64_add_exact (p : profile) (a b : Z) :
  (a + b ≤ u64_max)%Z → u64_add p a b = Ret (a + b)%Z.
Proof. intros. unfold u64_add. by rewrite bool_decide_true. Qed.

(** ** Bytes and big-endian words *)
Lemma byte_to_Z_range (b : byte) : (0 ≤ byte_to_Z b < 256)%Z.
Proof. unfold byte_to_Z. pose proof (Byte.to_N_bounded b). lia. Qed.

Lemma byte_to_of_Z (z : Z) : byte_to_Z (byte_of_Z z) = (z mod 256)%Z.
Proof.
  unfold byte_to_Z, byte_of_Z. pose proof (Z.mod_pos_bound z 256 eq_refl).
  destruct (Byte.of_N (Z.to_N (z mod 256))) as [b|] eqn:E; simpl.
  - apply Byte.to_of_N in E. rewrite E. lia.
  - apply Byte.of_N_None_iff in E. lia.
Qed.

Lemma byte_to_Z_inj (b1 b2 : byte) : byte_to_Z b1 = byte_to_Z b2 → b1 = b2.
Proof.
  unfold byte_to_Z. intros H%N2Z.inj.
  pose proof (Byte.of_to_N b1). pose proof (Byte.of_to_N b2). congruence.
Qed.

Lemma byte_of_to_Z (b : byte) : byte_of_Z (byte_to_Z b) = b.
Proof.
  apply byte_to_Z_inj. rewrite byte_to_of_Z. apply Z.mod_small, byte_to_Z_range.
Qed.

Lemma lor_shiftl_add (a n b : Z) :
  (0 ≤ n)%Z → (0 ≤ b < 2 ^ n)%Z → Z.lor (Z.shiftl a n) b = (a * 2 ^ n + b)%Z.
Proof.
  intros Hn Hb. assert (Hland : Z.land (Z.shiftl a n) b = 0%Z).
  { apply Z.bits_inj'; intros i Hi. rewrite Z.land_spec, Z.bits_0.
    destruct (Z.ltb_spec i n); [by rewrite Z.shiftl_spec_low by lia|].
    rewrite andb_comm. destruct (decide (b = 0%Z)) as [->|]; [by rewrite Z.bits_0|].
    rewrite Z.bits_above_log2; [done|lia|].
    apply Z.log2_lt_pow2; [lia|]. eapply Z.lt_le_trans; [apply Hb|].
    apply Z.pow_le_mono_r; lia. }
  rewrite <-Z.shiftl_mul_pow2 by lia.
  by rewrite Z.add_nocarry_lor.
Qed.

Lemma u32_from_be_bytes_sum (b0 b1 b2 b3 : byte) :
  u32_from_be_bytes b0 b1 b2 b3 =
  (byte_to_Z b0 * 2 ^ 24 + byte_to_Z b1 * 2 ^ 16 + byte_to_Z b2 * 2 ^ 8 + byte_to_Z b3)%Z.
Proof.
  unfold u32_from_be_bytes.
  pose proof (byte_to_Z_range b0); pose proof (byte_to_Z_range b1);
    pose proof (byte_to_Z_range b2); pose proof (byte_to_Z_range b3).
  rewrite (lor_shiftl_add _ 8%Z) by lia. rewrite (lor_shiftl_add _ 16%Z) by lia. rewrite (lor_shiftl_add _ 24%Z) by lia.
  lia.
Qed.

Lemma u32_from_be_bytes_range (b0 b1 b2 b3 : byte) : is_u32 (u32_from_be_bytes b0 b1 b2 b3).
Proof.
  rewrite u32_from_be_bytes_sum. unfold is_u32, u32_max.
  pose proof (byte_to_Z_range b0); pose proof (byte_to_Z_range b1);
    pose proof (byte_to_Z_range b2); pose proof (byte_to_Z_range b3). lia.
Qed.

Lemma u32_be_bytes_roundtrip (x : Z) :
  is_u32 x →
  u32_from_be_bytes (byte_of_Z (Z.shiftr x 24)) (byte_of_Z (Z.shiftr x 16))
    (byte_of_Z (Z.shiftr x 8)) (byte_of_Z x) = x.
Proof.
  unfold is_u32, u32_max. intros Hx. rewrite u32_from_be_bytes_sum, !byte_to_of_Z.
  rewrite !Z.shiftr_div_pow2 by lia.
  replace (2 ^ 24)%Z with (256 * 256 * 256)%Z by done.
  replace (2 ^ 16)%Z with (256 * 256)%Z by done.
  replace (2 ^ 8)%Z with 256%Z by done.
  Z.to_euclidean_division_equations. lia.
Qed.

Lemma u32_be_bytes_roundtrip' (b0 b1 b2 b3 : byte) :
  u32_to_be_bytes (u32_from_be_bytes b0 b1 b2 b3) = [b0; b1; b2; b3].
Proof.
  unfold u32_to_be_bytes. rewrite u32_from_be_bytes_sum.
  pose proof (byte_to_Z_range b0); pose proof (byte_to_Z_range b1);
    pose proof (byte_to_Z_range b2); pose proof (byte_to_Z_range b3).
  rewrite !Z.shiftr_div_pow2 by lia.
  replace (2 ^ 24)%Z with (256 * 256 * 256)%Z by done.
  replace (2 ^ 16)%Z with (256 * 256)%Z by done.
  replace (2 ^ 8)%Z with 256%Z by done.
  repeat f_equal; apply byte_to_Z_inj; rewrite byte_to_of_Z;
    Z.to_euclidean_division_equations; lia.
Qed.

(** ** Arrays *)
Lemma length_abytes {n} (a : array n) : length (abytes a) = n.
Proof. apply (proj2_dsig a). Qed.

Lemma abytes_inj {n} (a b : array n) : abytes a = abytes b → a = b.
Proof. apply dsig_eq. Qed.

Lemma abytes_mk_array {n} (l : list byte) (H : length l = n) : abytes (mk_array l H) = l.
Proof. done. Qed.

Lemma copy_prefix_abytes {n} (a : array n) : copy_prefix n (abytes a) = a.
Proof.
  apply abytes_inj. unfold copy_prefix. rewrite abytes_mk_array, length_abytes.
  rewrite Nat.min_id, Nat.sub_diag. simpl.
  rewrite app_nil_r. apply take_ge. by rewrite length_abytes.
Qed.

Lemma copy_prefix_app {n} (a : array n) (rest : list byte) :
  copy_prefix n (abytes a ++ rest) = a.
Proof.
  apply abytes_inj. unfold copy_prefix. rewrite abytes_mk_array, length_app, length_abytes.
  replace ((n + length rest) `min` n) with n by lia.
  rewrite Nat.sub_diag. simpl. rewrite app_nil_r.
  apply take_app_length'. by rewrite length_abytes.
Qed.

Lemma slice_Ret {A} (l : list A) (a b : nat) :
  a ≤ b ≤ length l → slice l a b = Ret (take (b - a) (drop a l)).
Proof. intros. unfold slice. by rewrite bool_decide_true. Qed.

Lemma array_from_slice_Ret (n : nat) (l : list byte) (H : length l = n) :
  array_from_slice n l = Ret (mk_array l H).
Proof.
  unfold array_from_slice. destruct (decide (length l = n)); [|done].
  f_equal. by apply abytes_inj.
Qed.

Lemma array_from_slice_abytes {n} (a : array n) : array_from_slice n (abytes a) = Ret a.
Proof. rewrite (array_from_slice_Ret n _ (length_abytes a)). f_equal. by apply abytes_inj. Qed.

#[export] Hint Resolve length_abytes as_u32_range wrap64_range byte_to_Z_range
  u32_from_be_bytes_range : crypto.
#[export] Hint Rewrite @length_abytes @abytes_mk_array @copy_prefix_abytes @copy_prefix_app
  : crypto.

(** ** Hash maps *)
Lemma elem_of_map_iter {K V} `{MapIterLaws K} (m : gmap K V) (k : K) (v : V) :
  (k, v) ∈ map_iter m ↔ m !! k = Some v.
Proof. rewrite map_iter_perm. apply elem_of_map_to_list. Qed.

Lemma NoDup_map_iter_keys {K V} `{MapIterLaws K} (m : gmap K V) : NoDup (map_iter m).*1.
Proof. rewrite map_iter_perm. apply NoDup_fst_map_to_list. Qed.

Lemma length_map_iter {K V} `{MapIterLaws K} (m : gmap K V) : length (map_iter m) = size m.
Proof. rewrite map_iter_perm. apply length_map_to_list. Qed.

(** * A concrete digest for evaluating the models

    The hash functions of the program (sha3, sha2, blake2) are crates outside the
    repository and parameters of the models.  FNV-1a, widened to [n] bytes with
    zeros, instantiates them where a theorem is evaluated on an input. *)
Definition fnv1a64 (bs : list byte) : Z :=
  foldl (λ h b, wrap64 (Z.lxor h (byte_to_Z b) * 0x100000001b3)) 0xcbf29ce484222325%Z bs.
Definition fnv_digest (n : nat) (bs : list byte) : array n :=
  let h := fnv1a64 bs in
  copy_prefix n (u32_to_be_bytes (as_u32 (Z.shiftr h 32)) ++ u32_to_be_bytes (as_u32 h)).
