(* ===== verification/Merkle.v ===== *)
(** The Merkle tree crate (src/crypto/merkle/src/lib.rs): hashes, trees, proofs
    and the functions that build and check them.  The sha3 crate is the
    parameter [Sha3_256]; slices are lists, indices are [nat] (every index the
    code computes is below the length of the slice), and the one computation that
    can leave the width of [usize], [next_power_of_two], is done on 64-bit
    integers. *)
From S2P Require Import Prelude.

(** The digest of the sha3 crate, [Sha3_256::digest]. *)
Class Sha3_256 := sha3_digest : list byte → array 32.

(** [pub struct Hash(pub [u8; 32])]. *)
Record Hash := mkHash { hash_bytes : array 32 }.

#[export] Instance Hash_eq_decision : EqDecision Hash.
Proof. solve_decision. Defined.

Definition hash_new (bytes : list byte) : Hash := mkHash (copy_prefix 32 bytes).
Definition hash_zero : Hash := mkHash (zeroed 32).

(** ** Trees *)
Inductive MerkleTree :=
| Leaf (h : Hash)
| Node (hash : Hash) (left right : MerkleTree).

Definition root_hash (t : MerkleTree) : Hash :=
  match t with
  | Leaf h => h
  | Node hash _ _ => hash
  end.

Fixpoint depth (t : MerkleTree) : nat :=
  match t with
  | Leaf _ => 1
  | Node _ l _ => 1 + depth l
  end.

Record MerkleProof := mkMerkleProof {
  index : nat;
  leaf : Hash;
  siblings : list Hash;
}.

(** ** Powers of two *)

(** [while p < n { p <<= 1; }] on a 64-bit [p]: the shift drops the top bit. *)
Fixpoint next_power_of_two_loop (fuel : nat) (p n : Z) : exec Z :=
  match fuel with
  | 0 => NoFuel
  | S fuel =>
      if (p <? n)%Z then next_power_of_two_loop fuel (wrap64 (Z.shiftl p 1)) n
      else Ret p
  end.

Definition next_power_of_two_fuel (fuel : nat) (n : Z) : exec Z :=
  if (n <=? 1)%Z then Ret 1%Z else next_power_of_two_loop fuel 1 n.

(** 64 iterations reach every power of two of a 64-bit word. *)
Definition next_power_of_two (n : Z) : exec Z := next_power_of_two_fuel 65 n.

Definition pad_to_power_of_two (hashes : list Hash) : exec (list Hash) :=
  if bool_decide (hashes = []) then Ret [hash_zero]
  else
    next_pow2 ← next_power_of_two (len hashes);
    if (len hashes =? next_pow2)%Z then Ret hashes
    else Ret (resize (Z.to_nat next_pow2) hash_zero hashes).

(** [(padded as f64).log2().ceil()] is taken on the power of two [padded], which
    an [f64] holds exactly: its value is the exponent, [Z.log2_up padded]. *)
Definition tree_depth (num_leaves : Z) : exec Z :=
  if (num_leaves <=? 1)%Z then Ret 1%Z
  else
    padded ← next_power_of_two num_leaves;
    Ret (Z.log2_up padded + 1)%Z.

Section Operations.
Context {SHA3 : Sha3_256}.

Definition sha3_256 (data : list byte) : Hash := hash_new (abytes (sha3_digest data)).

(** The string that is hashed for an inner node. *)
Definition node_preimage (left right : Hash) : list byte :=
  abytes (hash_bytes left) ++ abytes (hash_bytes right).

Definition combine_hashes (left right : Hash) : Hash := sha3_256 (node_preimage left right).

Definition hash_leaf (h : Hash) : Hash := combine_hashes h h.

(** ** Proof checking *)

(** One iteration of the loop of [MerkleProof::compute_root]. *)
Definition proof_step (st : Hash * nat) (sibling : Hash) : Hash * nat :=
  let '(current, idx) := st in
  (if bool_decide (idx `mod` 2 = 0) then combine_hashes current sibling
   else combine_hashes sibling current, idx `div` 2).

Definition proof_compute_root (p : MerkleProof) : Hash :=
  (foldl proof_step (leaf p, index p) (siblings p)).1.

Definition verify (p : MerkleProof) (root : Hash) : bool :=
  bool_decide (proof_compute_root p = root).

(** ** Building trees *)
Fixpoint build_tree_fuel (fuel : nat) (hashes : list Hash) : exec MerkleTree :=
  match fuel with
  | 0 => NoFuel
  | S fuel =>
      if bool_decide (length hashes = 1) then
        h ← or_panic (hashes !! 0);
        Ret (Leaf h)
      else
        let mid := length hashes `div` 2 in
        left ← build_tree_fuel fuel (take mid hashes);
        right ← build_tree_fuel fuel (drop mid hashes);
        Ret (Node (combine_hashes (root_hash left) (root_hash right)) left right)
  end.

(** The recursion is no deeper than the slice is long. *)
Definition build_tree (hashes : list Hash) : exec MerkleTree :=
  build_tree_fuel (length hashes) hashes.

Definition compute_root (hashes : list Hash) : exec Hash :=
  if bool_decide (hashes = []) then Ret hash_zero
  else
    padded ← pad_to_power_of_two hashes;
    tree ← build_tree padded;
    Ret (root_hash tree).

(** ** Generating proofs *)

(** The [while current.len() > 1] loop of [collect_siblings]. *)
Fixpoint collect_siblings_loop (fuel : nat) (current : list Hash) (index : nat)
    (siblings : list Hash) : exec (list Hash) :=
  match fuel with
  | 0 => NoFuel
  | S fuel =>
      if bool_decide (1 < length current) then
        let mid := length current `div` 2 in
        let sibling_idx :=
          if bool_decide (index < mid) then mid + index `mod` mid else index `mod` mid in
        sibling ← or_panic (current !! sibling_idx);
        let next :=
          if bool_decide (index < mid) then take mid current else drop mid current in
        collect_siblings_loop fuel next (index `mod` mid) (siblings ++ [sibling])
      else Ret siblings
  end.

Definition collect_siblings (hashes : list Hash) (index : nat) : exec (list Hash) :=
  if bool_decide (length hashes ≤ 1) then Ret []
  else collect_siblings_loop (length hashes) hashes index [].

Definition generate_proof (hashes : list Hash) (index : nat) : exec (option MerkleProof) :=
  if bool_decide (hashes = []) || bool_decide (length hashes ≤ index) then Ret None
  else
    padded ← pad_to_power_of_two hashes;
    leaf ← or_panic (hashes !! index);
    siblings ← collect_siblings padded index;
    Ret (Some (mkMerkleProof index leaf siblings)).

End Operations.

(** ** Printing *)
Section Printing.
(** The hex crate's [encode]. *)
Context (hex_encode : list byte → string).

Definition hash_debug (h : Hash) : string := "0x" +:+ hex_encode (abytes (hash_bytes h)).

Definition hash_display (h : Hash) : string := "0x" +:+ hex_encode (take 8 (abytes (hash_bytes h))).

End Printing.
