(* ===== verification/MerkleTree.v ===== *)
(** Theorems on the Merkle crate's trees: [next_power_of_two] (its value, its
    termination and the sizes on which it loops), padding, the shape of
    [build_tree] and the binding of [compute_root]. *)
From S2P Require Import Prelude Merkle.

(** * Specification vocabulary *)

(** The leaves of a tree, left to right. *)
Fixpoint leaves (t : MerkleTree) : list Hash :=
  match t with
  | Leaf h => [h]
  | Node _ l r => leaves l ++ leaves r
  end.

Section Spec.
Context {SHA3 : Sha3_256}.

(** Every inner node carries the hash of its children. *)
Fixpoint hashed (t : MerkleTree) : Prop :=
  match t with
  | Leaf _ => True
  | Node h l r => h = combine_hashes (root_hash l) (root_hash r) ∧ hashed l ∧ hashed r
  end.

(** All leaves are at depth [k]. *)
Fixpoint perfect (k : nat) (t : MerkleTree) : Prop :=
  match k, t with
  | 0, Leaf _ => True
  | S k, Node _ l r => perfect k l ∧ perfect k r
  | _, _ => False
  end.

(** The strings hashed for the inner nodes of a tree. *)
Fixpoint tree_preimages (t : MerkleTree) : list (list byte) :=
  match t with
  | Leaf _ => []
  | Node _ l r =>
      node_preimage (root_hash l) (root_hash r) :: tree_preimages l ++ tree_preimages r
  end.

(** The digest has no collision among the strings of [ss].  (Over all strings no
    digest of 32 bytes is injective, so the theorems ask for it only on the
    strings that the computation at hand hashes.) *)
Definition coll_free (ss : list (list byte)) : Prop :=
  Forall (λ x, Forall (λ y, sha3_256 x = sha3_256 y → x = y) ss) ss.

#[export] Instance coll_free_dec ss : Decision (coll_free ss).
Proof. unfold coll_free. apply _. Defined.

End Spec.

(** * Powers of two *)
Lemma wrap64_shiftl_pow2 (k : Z) :
  (0 ≤ k ≤ 63)%Z →
  wrap64 (Z.shiftl (2 ^ k) 1) = if bool_decide (k = 63)%Z then 0%Z else (2 ^ (k + 1))%Z.
Proof.
  intros Hk. unfold wrap64. rewrite Z.shiftl_mul_pow2, <-Z.pow_add_r by lia.
  case_bool_decide as E; [by subst|].
  apply Z.mod_small. split; [apply Z.pow_nonneg; lia|].
  apply Z.pow_lt_mono_r; lia.
Qed.

Lemma next_power_of_two_loop_reaches (fuel : nat) (k j n : Z) :
  (0 ≤ k ≤ j)%Z → (j ≤ 63)%Z → (∀ i, 0 ≤ i < j → 2 ^ i < n)%Z → (n ≤ 2 ^ j)%Z →
  (j - k < Z.of_nat fuel)%Z →
  next_power_of_two_loop fuel (2 ^ k) n = Ret (2 ^ j)%Z.
Proof.
  revert k. induction fuel as [|fuel IH]; intros k Hk Hj Hlow Hn Hf; [lia|]. simpl.
  destruct (Z.ltb_spec (2 ^ k) n) as [Hlt|Hge].
  - assert (k < j)%Z.
    { destruct (Z.lt_ge_cases k j); [done|]. replace k with j in Hlt by lia. lia. }
    rewrite wrap64_shiftl_pow2 by lia. rewrite bool_decide_false by lia.
    apply IH; [lia|lia|done|lia|lia].
  - destruct (Z.lt_ge_cases k j) as [Hlt|]; [specialize (Hlow k); lia|].
    by replace j with k by lia.
Qed.

Lemma next_power_of_two_value (n : Z) :
  (1 ≤ n ≤ 2 ^ 63)%Z → next_power_of_two n = Ret (2 ^ Z.log2_up n)%Z.
Proof.
  intros Hn. unfold next_power_of_two, next_power_of_two_fuel.
  destruct (Z.leb_spec n 1) as [H1|H1]; [by replace n with 1%Z by lia|].
  pose proof (Z.log2_up_spec n H1) as [Hlo Hhi].
  assert (Z.log2_up n ≤ 63)%Z by (apply Z.log2_up_le_pow2; lia).
  pose proof (Z.log2_up_nonneg n).
  change 1%Z with (2 ^ 0)%Z. apply next_power_of_two_loop_reaches; try lia.
  intros i Hi. eapply Z.le_lt_trans; [|exact Hlo]. apply Z.pow_le_mono_r; lia.
Qed.

(** Once the shift has dropped the only set bit the loop never ends. *)
Lemma next_power_of_two_loop_zero (fuel : nat) (n : Z) :
  (0 < n)%Z → next_power_of_two_loop fuel 0 n = NoFuel.
Proof.
  intros Hn. induction fuel as [|fuel IH]; [done|]. simpl.
  rewrite (proj2 (Z.ltb_lt 0 n)) by lia. exact IH.
Qed.

Lemma next_power_of_two_loop_overflow (fuel : nat) (k n : Z) :
  (0 ≤ k ≤ 63)%Z → (2 ^ 63 < n)%Z → next_power_of_two_loop fuel (2 ^ k) n = NoFuel.
Proof.
  revert k. induction fuel as [|fuel IH]; intros k Hk Hn; [done|]. simpl.
  assert (2 ^ k ≤ 2 ^ 63)%Z by (apply Z.pow_le_mono_r; lia).
  rewrite (proj2 (Z.ltb_lt _ n)) by lia. rewrite wrap64_shiftl_pow2 by lia.
  case_bool_decide; [apply next_power_of_two_loop_zero; lia|]. apply IH; lia.
Qed.

(** C32: for every size up to 2^63 the shift loop ends, and its result is the least
    power of two that is not below the size. *)
Theorem next_power_of_two_least (n : Z) :
  (1 ≤ n ≤ 2 ^ 63)%Z →
  ∃ k, next_power_of_two n = Ret (2 ^ k)%Z ∧ (0 ≤ k ≤ 63)%Z ∧ (n ≤ 2 ^ k)%Z ∧
       ∀ j, (0 ≤ j)%Z → (n ≤ 2 ^ j)%Z → (k ≤ j)%Z.
Proof.
  intros Hn. exists (Z.log2_up n). split; [by apply next_power_of_two_value|].
  repeat split.
  - apply Z.log2_up_nonneg.
  - apply Z.log2_up_le_pow2; lia.
  - apply Z.log2_log2_up_spec; lia.
  - intros j Hj Hle. apply Z.log2_up_le_pow2; lia.
Qed.

Lemma next_power_of_two_least_witness :
  (1 ≤ 100 ≤ 2 ^ 63)%Z ∧
  ∃ k, next_power_of_two 100 = Ret (2 ^ k)%Z ∧ (0 ≤ k ≤ 63)%Z ∧ (100 ≤ 2 ^ k)%Z ∧
       ∀ j, (0 ≤ j)%Z → (100 ≤ 2 ^ j)%Z → (k ≤ j)%Z.
Proof. split; [lia|]. apply (next_power_of_two_least 100). lia. Defined.

(** Above 2^63 the loop never ends: [p <<= 1] drops the top bit, [p] becomes 0
    and stays below [n], whatever the number of iterations. *)
Theorem next_power_of_two_diverges (n : Z) :
  (2 ^ 63 < n)%Z → ∀ fuel, next_power_of_two_fuel fuel n = NoFuel.
Proof.
  intros Hn fuel. unfold next_power_of_two_fuel.
  destruct (Z.leb_spec n 1); [lia|]. change 1%Z with (2 ^ 0)%Z.
  by apply next_power_of_two_loop_overflow.
Qed.

Lemma next_power_of_two_diverges_witness :
  (2 ^ 63 < u64_max)%Z ∧ ∀ fuel, next_power_of_two_fuel fuel u64_max = NoFuel.
Proof. split; [done|]. by apply (next_power_of_two_diverges u64_max). Defined.

(** * Padding *)

(** The level of the padded tree over [n] leaves. *)
Definition level (n : nat) : nat := Nat.log2_up n.

Lemma pow2_of_nat (k : nat) : Z.of_nat (2 ^ k) = (2 ^ Z.of_nat k)%Z.
Proof. by rewrite Nat2Z.inj_pow. Qed.

Lemma level_upper (n : nat) : 1 ≤ n → n ≤ 2 ^ level n.
Proof.
  intros. unfold level. destruct (decide (n = 1)) as [->|]; [done|].
  apply Nat.log2_up_spec. lia.
Qed.

Lemma level_pow2 (k : nat) : level (2 ^ k) = k.
Proof. apply Nat.log2_up_pow2. lia. Qed.

Lemma log2_up_of_nat (n : nat) : 1 ≤ n → Z.log2_up (Z.of_nat n) = Z.of_nat (level n).
Proof.
  intros Hn. unfold level. destruct (decide (n = 1)) as [->|]; [done|].
  pose proof (Nat.log2_up_spec n) as Hs. pose proof (Nat.log2_up_pos n) as Hp.
  set (k := Nat.log2_up n) in *.
  apply Z.log2_up_unique; [lia|]. split.
  - replace (Z.pred (Z.of_nat k)) with (Z.of_nat (Nat.pred k)) by lia.
    rewrite <-pow2_of_nat. lia.
  - rewrite <-pow2_of_nat. lia.
Qed.

Lemma next_power_of_two_len {A} (l : list A) :
  l ≠ [] → is_slice l → next_power_of_two (len l) = Ret (2 ^ Z.of_nat (level (length l)))%Z.
Proof.
  unfold is_slice, isize_max, len. intros Hne Hs.
  assert (1 ≤ length l) by (destruct l; [done|simpl; lia]).
  rewrite next_power_of_two_value by lia. by rewrite log2_up_of_nat.
Qed.

(** Padding appends zero hashes up to the least power of two. *)
Lemma pad_value (hs : list Hash) :
  hs ≠ [] → is_slice hs →
  pad_to_power_of_two hs =
  Ret (hs ++ replicate (2 ^ level (length hs) - length hs) hash_zero).
Proof.
  intros Hne Hs. unfold pad_to_power_of_two. rewrite bool_decide_false by done.
  rewrite next_power_of_two_len by done. simpl. unfold len in *.
  assert (Hlen : 1 ≤ length hs) by (destruct hs; [done|simpl; lia]).
  pose proof (level_upper _ Hlen). rewrite <-pow2_of_nat.
  destruct (Z.eqb_spec (Z.of_nat (length hs)) (Z.of_nat (2 ^ level (length hs)))) as [E|E].
  - apply Nat2Z.inj in E. rewrite <-E, Nat.sub_diag. simpl. by rewrite app_nil_r.
  - rewrite Nat2Z.id. by rewrite resize_ge by lia.
Qed.

Lemma pad_length (hs padded : list Hash) :
  hs ≠ [] → is_slice hs → pad_to_power_of_two hs = Ret padded →
  length padded = 2 ^ level (length hs).
Proof.
  intros Hne Hs Hp. rewrite pad_value in Hp by done. simplify_eq.
  assert (1 ≤ length hs) by (destruct hs; [done|simpl; lia]).
  pose proof (level_upper (length hs)). rewrite length_app, length_replicate. lia.
Qed.

Lemma pad_lookup (hs padded : list Hash) (i : nat) :
  hs ≠ [] → is_slice hs → pad_to_power_of_two hs = Ret padded → i < length hs →
  padded !! i = hs !! i.
Proof.
  intros Hne Hs Hp Hi. rewrite pad_value in Hp by done. simplify_eq.
  by rewrite lookup_app_l.
Qed.

(** [tree_depth] is one more than the exponent of the padded size. *)
Lemma tree_depth_level {A} (l : list A) :
  l ≠ [] → is_slice l → tree_depth (len l) = Ret (Z.of_nat (S (level (length l)))).
Proof.
  intros Hne Hs. unfold tree_depth.
  assert (Hlen : 1 ≤ length l) by (destruct l; [done|simpl; lia]).
  destruct (Z.leb_spec (len l) 1) as [H1|H1].
  - unfold len in H1. by replace (length l) with 1 by lia.
  - rewrite next_power_of_two_len by done. simpl. f_equal.
    rewrite Z.log2_up_pow2 by lia. lia.
Qed.

(** * Trees *)
Section Trees.
Context {SHA3 : Sha3_256}.

Lemma div2_split (n : nat) : 2 ≤ n → 1 ≤ n `div` 2 < n ∧ 1 ≤ n - n `div` 2 < n.
Proof. intros. pose proof (Nat.div_mod_eq n 2). pose proof (Nat.mod_upper_bound n 2). lia. Qed.

(** [build_tree] returns on every non-empty slice: its leaves are the slice, its
    inner nodes hash their children. *)
Lemma build_tree_fuel_total (fuel : nat) (hs : list Hash) :
  hs ≠ [] → length hs ≤ fuel →
  ∃ t, build_tree_fuel fuel hs = Ret t ∧ leaves t = hs ∧ hashed t.
Proof.
  revert hs. induction fuel as [|fuel IH]; intros hs Hne Hf.
  { destruct hs; [done|simpl in *; lia]. }
  simpl. case_bool_decide as H1.
  { destruct hs as [|h [|]]; try done. by exists (Leaf h). }
  assert (H2 : 2 ≤ length hs) by (destruct hs as [|? [|]]; simpl in *; [done|lia|lia]).
  destruct (div2_split _ H2).
  destruct (IH (take (length hs `div` 2) hs)) as (tl & -> & Hl1 & Hl2).
  { intros E%(f_equal length). rewrite length_take in E. simpl in E. lia. }
  { rewrite length_take. lia. }
  destruct (IH (drop (length hs `div` 2) hs)) as (tr & -> & Hr1 & Hr2).
  { intros E%(f_equal length). rewrite length_drop in E. simpl in E. lia. }
  { rewrite length_drop. lia. }
  eexists; split; [done|]. simpl. rewrite Hl1, Hr1, take_drop. done.
Qed.

(** Over a power of two of leaves the tree is perfect. *)
Lemma build_tree_fuel_perfect (fuel k : nat) (hs : list Hash) (t : MerkleTree) :
  length hs = 2 ^ k → build_tree_fuel fuel hs = Ret t → perfect k t.
Proof.
  revert fuel hs t. induction k as [|k IH]; intros [|fuel] hs t Hlen; simpl; try done.
  - rewrite bool_decide_true by done. rewrite exec_bind_Ret. by intros (h & _ & [= <-]).
  - rewrite bool_decide_false
      by (rewrite Hlen, Nat.pow_succ_r'; pose proof (Nat.pow_nonzero 2 k); lia).
    rewrite Hlen, Nat.pow_succ_r', (Nat.mul_comm 2), Nat.div_mul by done.
    rewrite exec_bind_Ret. intros (tl & Hl & H).
    apply exec_bind_Ret in H as (tr & Hr & [= <-]). simpl in *. split.
    + eapply IH; [|exact Hl]. rewrite length_take, Hlen, Nat.pow_succ_r'. lia.
    + eapply IH; [|exact Hr]. rewrite length_drop, Hlen, Nat.pow_succ_r'. lia.
Qed.

(** More fuel does not change the tree. *)
Lemma build_tree_fuel_mono (fuel fuel' : nat) (hs : list Hash) (t : MerkleTree) :
  fuel ≤ fuel' → build_tree_fuel fuel hs = Ret t → build_tree_fuel fuel' hs = Ret t.
Proof.
  revert fuel' hs t. induction fuel as [|fuel IH]; intros [|fuel'] hs t Hf; simpl; try done; [lia|].
  case_bool_decide; [done|]. rewrite exec_bind_Ret. intros (tl & Hl & Hb).
  apply exec_bind_Ret in Hb as (tr & Hr & [= <-]).
  rewrite (IH fuel' _ tl ltac:(lia) Hl). simpl. by rewrite (IH fuel' _ tr ltac:(lia) Hr).
Qed.

(** The tree over two or more hashes is the node over the trees of its halves. *)
Lemma build_tree_node (hs : list Hash) (t lo hi : MerkleTree) :
  2 ≤ length hs → build_tree hs = Ret t →
  build_tree (take (length hs `div` 2) hs) = Ret lo →
  build_tree (drop (length hs `div` 2) hs) = Ret hi →
  t = Node (combine_hashes (root_hash lo) (root_hash hi)) lo hi.
Proof.
  unfold build_tree. intros H2 Ht Hlo Hhi. pose proof (div2_split _ H2) as [Hd Hd'].
  apply (build_tree_fuel_mono _ (pred (length hs))) in Hlo; [|rewrite length_take; lia].
  apply (build_tree_fuel_mono _ (pred (length hs))) in Hhi; [|rewrite length_drop; lia].
  revert Ht. replace (length hs) with (S (pred (length hs))) at 1 by lia. simpl.
  rewrite bool_decide_false by lia. rewrite Hlo. simpl. rewrite Hhi. simpl. by intros [= <-].
Qed.

Lemma perfect_length (k : nat) (t : MerkleTree) : perfect k t → length (leaves t) = 2 ^ k.
Proof.
  revert t. induction k as [|k IH]; intros [h|h l r]; simpl; try done.
  intros [Hl Hr]. rewrite length_app, (IH l), (IH r), Nat.pow_succ_r' by done. lia.
Qed.

Lemma perfect_depth (k : nat) (t : MerkleTree) : perfect k t → depth t = S k.
Proof.
  revert t. induction k as [|k IH]; intros [h|h l r]; simpl; try done.
  intros [Hl _]. by rewrite (IH l).
Qed.

(** The tree over the padded slice, which [compute_root] builds. *)
Lemma compute_root_tree (hs : list Hash) :
  hs ≠ [] → is_slice hs →
  ∃ padded t, pad_to_power_of_two hs = Ret padded ∧ build_tree padded = Ret t ∧
    leaves t = padded ∧ hashed t ∧ perfect (level (length hs)) t ∧
    compute_root hs = Ret (root_hash t).
Proof.
  intros Hne Hs. pose proof (pad_value hs Hne Hs) as Hp.
  pose proof (pad_length _ _ Hne Hs Hp) as Hlen.
  set (padded := hs ++ _) in *.
  destruct (build_tree_fuel_total (length padded) padded) as (t & Ht & Hl & Hh); [|done|].
  { intros E. apply (f_equal length) in E. rewrite Hlen in E. simpl in E.
    pose proof (Nat.pow_nonzero 2 (level (length hs))). lia. }
  exists padded, t. repeat split; try done.
  - eapply build_tree_fuel_perfect; [|exact Ht]. done.
  - unfold compute_root. rewrite bool_decide_false by done. rewrite Hp. simpl.
    unfold build_tree. by rewrite Ht.
Qed.

(** * Binding *)
Lemma node_preimage_inj (a b c d : Hash) :
  node_preimage a b = node_preimage c d → a = c ∧ b = d.
Proof.
  unfold node_preimage. intros [H1 H2]%app_inj_1; [|by rewrite !length_abytes].
  destruct a, b, c, d; simpl in *.
  apply abytes_inj in H1, H2. by subst.
Qed.

Lemma coll_free_combine (ss : list (list byte)) (a b c d : Hash) :
  coll_free ss → node_preimage a b ∈ ss → node_preimage c d ∈ ss →
  combine_hashes a b = combine_hashes c d → a = c ∧ b = d.
Proof.
  unfold coll_free. rewrite Forall_forall. intros Hf Hab Hcd Heq.
  specialize (Hf _ Hab). rewrite Forall_forall in Hf.
  by apply node_preimage_inj, Hf.
Qed.

Lemma coll_free_subseteq (ss ss' : list (list byte)) :
  ss' ⊆ ss → coll_free ss → coll_free ss'.
Proof.
  unfold coll_free. rewrite !Forall_forall. intros Hsub Hf x Hx.
  apply Forall_forall. intros y Hy. specialize (Hf x (Hsub x Hx)).
  rewrite Forall_forall in Hf. auto.
Qed.

(** Two hashed trees of one level with one root are equal. *)
Lemma hashed_root_inj (k : nat) (t1 t2 : MerkleTree) :
  perfect k t1 → perfect k t2 → hashed t1 → hashed t2 →
  coll_free (tree_preimages t1 ++ tree_preimages t2) →
  root_hash t1 = root_hash t2 → t1 = t2.
Proof.
  revert t1 t2. induction k as [|k IH]; intros [h1|h1 l1 r1] [h2|h2 l2 r2]; simpl; try done.
  { by intros _ _ _ _ _ ->. }
  intros [Hl1 Hr1] [Hl2 Hr2] (-> & Hhl1 & Hhr1) (-> & Hhl2 & Hhr2) Hcf Heq.
  apply (coll_free_combine _ _ _ _ _ Hcf) in Heq as [El Er]; [|elem_list..].
  assert (l1 = l2) as <-.
  { apply IH; [done..| |done]. eapply coll_free_subseteq; [|exact Hcf]. elem_list. }
  assert (r1 = r2) as <-.
  { apply IH; [done..| |done]. eapply coll_free_subseteq; [|exact Hcf]. elem_list. }
  done.
Qed.

Lemma pad_inj (hs1 hs2 padded : list Hash) :
  hs1 ≠ [] → hs2 ≠ [] → is_slice hs1 → is_slice hs2 → length hs1 = length hs2 →
  pad_to_power_of_two hs1 = Ret padded → pad_to_power_of_two hs2 = Ret padded → hs1 = hs2.
Proof.
  intros ???? Hlen H1 H2. rewrite pad_value in H1, H2 by done.
  rewrite <-H1 in H2. injection H2 as H2. by apply app_inj_1 in H2 as [<- _].
Qed.

(** The strings that [compute_root] hashes. *)
Definition root_preimages (hs : list Hash) : list (list byte) :=
  match padded ← pad_to_power_of_two hs; build_tree padded with
  | Ret t => tree_preimages t
  | _ => []
  end.

(** C29: [build_tree] returns exactly on the non-empty slices; the tree holds the
    slice's hashes in order and every inner node is the hash of its children.  On
    the empty slice the recursion never ends, whatever the fuel. *)
Theorem build_tree_correct (hs : list Hash) :
  ((∃ t, build_tree hs = Ret t ∧ leaves t = hs ∧ hashed t) ↔ hs ≠ []) ∧
  (hs = [] → ∀ fuel, build_tree_fuel fuel hs = NoFuel).
Proof.
  split; [split|].
  - intros (t & Ht & Hl & _) ->. done.
  - intros Hne. apply build_tree_fuel_total; [done|lia].
  - intros -> fuel. induction fuel as [|fuel IH]; [done|]. simpl.
    change (0 `div` 2) with 0. simpl. by rewrite IH.
Qed.

(** C23: on every non-empty slice [compute_root] returns, it is the root of the
    tree over the padded slice, that tree is perfect, and [tree_depth] computes its
    depth. *)
Theorem compute_root_correct (hs : list Hash) :
  hs ≠ [] → is_slice hs →
  ∃ padded t, pad_to_power_of_two hs = Ret padded ∧ build_tree padded = Ret t ∧
    leaves t = hs ++ replicate (2 ^ level (length hs) - length hs) hash_zero ∧
    perfect (level (length hs)) t ∧
    compute_root hs = Ret (root_hash t) ∧
    tree_depth (len hs) = Ret (Z.of_nat (depth t)).
Proof.
  intros Hne Hs. destruct (compute_root_tree hs Hne Hs) as (padded & t & Hp & Ht & Hl & _ & Hk & Hr).
  exists padded, t. repeat split; try done.
  - rewrite pad_value in Hp by done. congruence.
  - by rewrite tree_depth_level, (perfect_depth (level (length hs))) by done.
Qed.

(** C5: the root binds the slice: two slices of one length with one root are equal,
    unless the digest collides on two of the strings hashed for the roots. *)
Theorem compute_root_binding (hs1 hs2 : list Hash) (root : Hash) :
  is_slice hs1 → length hs1 = length hs2 →
  compute_root hs1 = Ret root → compute_root hs2 = Ret root →
  coll_free (root_preimages hs1 ++ root_preimages hs2) →
  hs1 = hs2.
Proof.
  intros Hs1 Hlen H1 H2 Hcf.
  destruct (decide (hs1 = [])) as [->|Hne1]; [by destruct hs2|].
  assert (hs2 ≠ []) as Hne2 by (by intros ->; destruct hs1).
  assert (is_slice hs2) as Hs2 by (unfold is_slice, len in *; lia).
  destruct (compute_root_tree hs1 Hne1 Hs1) as (p1 & t1 & Hp1 & Ht1 & Hl1 & Hh1 & Hk1 & Hr1).
  destruct (compute_root_tree hs2 Hne2 Hs2) as (p2 & t2 & Hp2 & Ht2 & Hl2 & Hh2 & Hk2 & Hr2).
  unfold root_preimages in Hcf. rewrite Hp1, Hp2 in Hcf. simpl in Hcf.
  rewrite Ht1, Ht2 in Hcf. rewrite Hlen in Hk1.
  assert (t1 = t2) as <- by (eapply hashed_root_inj; [done..|congruence]).
  eapply pad_inj; [done..|by rewrite Hp1, <-Hl1|by rewrite Hp2, <-Hl2].
Qed.

End Trees.

(** * Evaluation on a slice of three hashes *)
Section Sample.

Definition sample_sha3 : Sha3_256 := fnv_digest 32.
Definition sample_hashes : list Hash :=
  (λ b, sha3_256 (SHA3 := sample_sha3) [b]) <$> [x01; x02; x03].
Definition sample_root : Hash :=
  match compute_root (SHA3 := sample_sha3) sample_hashes with
  | Ret root => root
  | _ => hash_zero
  end.

Lemma compute_root_correct_witness :
  ∃ padded t, pad_to_power_of_two sample_hashes = Ret padded ∧
    build_tree (SHA3 := sample_sha3) padded = Ret t ∧
    leaves t = sample_hashes ++ [hash_zero] ∧
    perfect 2 t ∧ compute_root (SHA3 := sample_sha3) sample_hashes = Ret (root_hash t) ∧
    tree_depth (len sample_hashes) = Ret (Z.of_nat (depth t)).
Proof. apply (compute_root_correct (SHA3 := sample_sha3) sample_hashes); done. Defined.

Lemma compute_root_binding_witness :
  compute_root (SHA3 := sample_sha3) sample_hashes = Ret sample_root ∧
  sample_hashes = sample_hashes.
Proof.
  assert (compute_root (SHA3 := sample_sha3) sample_hashes = Ret sample_root) as Hr
    by (vm_compute; reflexivity).
  split; [exact Hr|].
  apply (compute_root_binding (SHA3 := sample_sha3) sample_hashes sample_hashes sample_root);
    [done|done|exact Hr|exact Hr|].
  apply (bool_decide_unpack _). vm_compute. exact I.
Defined.

End Sample.
