(* ===== verification/MerkleProofs.v ===== *)
(** Theorems on Merkle proofs: soundness and completeness of [verify], and what
    [generate_proof] returns (its shape, the sizes for which its proofs verify and
    the sizes for which they do not). *)
From S2P Require Import Prelude Merkle MerkleTree.

(** The leaf next to [i] under the same parent. *)
Definition neighbour (i : nat) : nat := if bool_decide (i `mod` 2 = 0) then S i else pred i.

Section Proofs.
Context {SHA3 : Sha3_256}.

(** The strings hashed by [compute_root] on a proof. *)
Fixpoint path_preimages (st : Hash * nat) (sibs : list Hash) : list (list byte) :=
  match sibs with
  | [] => []
  | s :: sibs =>
      (if bool_decide (st.2 `mod` 2 = 0) then node_preimage st.1 s else node_preimage s st.1)
        :: path_preimages (proof_step st s) sibs
  end.
Definition proof_preimages (p : MerkleProof) : list (list byte) :=
  path_preimages (leaf p, index p) (siblings p).

(** The authentication path of leaf [i] in a tree of level [k]: the hashes of the
    sibling subtrees, from the leaf up. *)
Fixpoint auth_path (k : nat) (t : MerkleTree) (i : nat) : list Hash :=
  match k, t with
  | S k, Node _ l r =>
      if bool_decide ((i `div` 2 ^ k) `mod` 2 = 0) then auth_path k l i ++ [root_hash r]
      else auth_path k r i ++ [root_hash l]
  | _, _ => []
  end.

(** * The fold of [MerkleProof::compute_root] *)
Lemma fold_index (st : Hash * nat) (sibs : list Hash) :
  (foldl proof_step st sibs).2 = st.2 `div` 2 ^ length sibs.
Proof.
  revert st. induction sibs as [|s sibs IH]; intros [c i]; simpl; [by rewrite Nat.div_1_r|].
  rewrite IH. simpl. rewrite Nat.Div0.div_div, Nat.pow_succ_r'. done.
Qed.

Lemma fold_snoc (st : Hash * nat) (sibs : list Hash) (s : Hash) :
  (foldl proof_step st (sibs ++ [s])).1 =
  if bool_decide ((st.2 `div` 2 ^ length sibs) `mod` 2 = 0)
  then combine_hashes (foldl proof_step st sibs).1 s
  else combine_hashes s (foldl proof_step st sibs).1.
Proof.
  rewrite foldl_app. simpl. rewrite <-fold_index.
  by destruct (foldl proof_step st sibs).
Qed.

Lemma path_preimages_snoc (st : Hash * nat) (sibs : list Hash) (s : Hash) :
  path_preimages st (sibs ++ [s]) =
  path_preimages st sibs ++
  [if bool_decide ((st.2 `div` 2 ^ length sibs) `mod` 2 = 0)
   then node_preimage (foldl proof_step st sibs).1 s
   else node_preimage s (foldl proof_step st sibs).1].
Proof.
  revert st. induction sibs as [|s' sibs IH]; intros [c i].
  { simpl. by rewrite Nat.div_1_r. }
  simpl. rewrite IH. simpl. rewrite Nat.Div0.div_div, Nat.pow_succ_r'. done.
Qed.

(** Position [i mod 2^(k+1)] in terms of the top bit and [i mod 2^k]. *)
Lemma mod_pow2_succ (i k : nat) :
  i `mod` 2 ^ S k = (if bool_decide ((i `div` 2 ^ k) `mod` 2 = 0) then 0 else 2 ^ k) + i `mod` 2 ^ k.
Proof.
  rewrite Nat.pow_succ_r', (Nat.mul_comm 2), Nat.Div0.mod_mul_r.
  pose proof (Nat.mod_upper_bound (i `div` 2 ^ k) 2).
  case_bool_decide as E; [rewrite E; lia|].
  replace ((i `div` 2 ^ k) `mod` 2) with 1 by lia. lia.
Qed.

Lemma lookup_mod_pow2_succ (k i : nat) (l r : list Hash) :
  length l = 2 ^ k →
  (l ++ r) !! (i `mod` 2 ^ S k) =
  if bool_decide ((i `div` 2 ^ k) `mod` 2 = 0) then l !! (i `mod` 2 ^ k) else r !! (i `mod` 2 ^ k).
Proof.
  intros Hl. rewrite mod_pow2_succ. pose proof (Nat.mod_upper_bound i (2 ^ k)).
  pose proof (Nat.pow_nonzero 2 k). case_bool_decide.
  - by rewrite lookup_app_l by lia.
  - rewrite lookup_app_r by lia. f_equal. lia.
Qed.

(** * Soundness *)
Lemma fold_sound (k : nat) (t : MerkleTree) (l : Hash) (i : nat) (sibs : list Hash) :
  perfect k t → hashed t → length sibs = k →
  coll_free (tree_preimages t ++ path_preimages (l, i) sibs) →
  (foldl proof_step (l, i) sibs).1 = root_hash t →
  leaves t !! (i `mod` 2 ^ k) = Some l.
Proof.
  revert t sibs. induction k as [|k IH]; intros [h|h tl tr] sibs; simpl; try done.
  { intros _ _ ->%nil_length_inv _. simpl. intros ->. done. }
  intros [Hpl Hpr] (-> & Hhl & Hhr) Hlen Hcf.
  destruct sibs as [|s sibs _] using rev_ind; [done|].
  rewrite length_app in Hlen; simpl in Hlen.
  rewrite fold_snoc. rewrite path_preimages_snoc in Hcf. simpl in Hcf |- *.
  assert (length sibs = k) as Hk by lia. rewrite Hk in Hcf |- *.
  rewrite lookup_mod_pow2_succ by by apply perfect_length.
  assert (Hcl : coll_free (tree_preimages tl ++ path_preimages (l, i) sibs))
    by (eapply coll_free_subseteq; [|exact Hcf]; elem_list).
  assert (Hcr : coll_free (tree_preimages tr ++ path_preimages (l, i) sibs))
    by (eapply coll_free_subseteq; [|exact Hcf]; elem_list).
  revert Hcf. case_bool_decide; intros Hcf Heq;
    apply (coll_free_combine _ _ _ _ _ Hcf) in Heq as [H1 H2]; [|elem_list..];
    apply (IH _ sibs); done || lia.
Qed.

(** * Completeness *)
Lemma auth_path_length (k : nat) (t : MerkleTree) (i : nat) :
  perfect k t → length (auth_path k t i) = k.
Proof.
  revert t. induction k as [|k IH]; intros [h|h l r]; simpl; try done.
  intros [Hl Hr]. case_bool_decide; rewrite length_app, IH by done; simpl; lia.
Qed.

Lemma fold_complete (k : nat) (t : MerkleTree) (l : Hash) (i : nat) :
  perfect k t → hashed t → leaves t !! (i `mod` 2 ^ k) = Some l →
  (foldl proof_step (l, i) (auth_path k t i)).1 = root_hash t.
Proof.
  revert t. induction k as [|k IH]; intros [h|h tl tr];
    cbn [perfect hashed leaves root_hash auth_path]; try done.
  { intros _ _. rewrite Nat.pow_0_r, Nat.mod_1_r. by intros [= ->]. }
  intros [Hpl Hpr] (-> & Hhl & Hhr).
  rewrite lookup_mod_pow2_succ by by apply perfect_length.
  case_bool_decide as E; intros Hl; rewrite fold_snoc; rewrite auth_path_length by done;
    simpl; [rewrite bool_decide_true by done|rewrite bool_decide_false by done];
    by rewrite IH.
Qed.

(** The slice's hash at a position, or the zero hash that pads it. *)
Definition padded_at (hs : list Hash) (i : nat) : Hash := default hash_zero (hs !! i).

Lemma padded_lookup (hs : list Hash) (k i : nat) (h : Hash) :
  (hs ++ replicate k hash_zero) !! i = Some h → h = padded_at hs i.
Proof.
  unfold padded_at. intros [Hl|[Hl Hr]]%lookup_app_Some; [by rewrite Hl|].
  apply lookup_replicate in Hr as [-> _]. by rewrite (proj2 (lookup_ge_None hs i)).
Qed.

(** C2: soundness of proofs.  If [verify] accepts a proof against the root of a slice, and
    the proof has as many siblings as the tree has levels below the root, then, unless the
    digest collides on two of the strings hashed for the root and the proof, the proof's
    leaf is the hash of the padded slice at the proof's index modulo the number of leaves:
    for an index inside the slice it is the slice's hash at that index.  An index beyond
    the slice is not refused: it stands for the zero hash of the padding or for the
    position it is congruent to. *)
Theorem verify_sound (hs : list Hash) (root : Hash) (p : MerkleProof) :
  is_slice hs →
  compute_root hs = Ret root →
  tree_depth (len hs) = Ret (Z.of_nat (S (length (siblings p)))) →
  coll_free (root_preimages hs ++ proof_preimages p) →
  verify p root = true →
  leaf p = padded_at hs (index p `mod` 2 ^ length (siblings p)) ∧
  (index p < length hs → hs !! index p = Some (leaf p)).
Proof.
  intros Hs Hroot Hdepth Hcf Hv.
  assert (leaf p = padded_at hs (index p `mod` 2 ^ length (siblings p))) as Hleaf.
  { unfold verify in Hv. apply bool_decide_eq_true in Hv. unfold proof_compute_root in Hv.
    destruct (decide (hs = [])) as [->|Hne].
    { injection Hroot as <-. injection Hdepth as Hdepth. destruct (siblings p); [exact Hv|simpl in Hdepth; lia]. }
    destruct (compute_root_tree hs Hne Hs) as (padded & t & Hp & Ht & Hl & Hh & Hk & Hr).
    unfold root_preimages in Hcf. rewrite Hp in Hcf. simpl in Hcf. rewrite Ht in Hcf.
    rewrite tree_depth_level in Hdepth by done. injection Hdepth as Hdepth.
    replace (length (siblings p)) with (level (length hs)) by lia.
    rewrite pad_value in Hp by done. injection Hp as <-.
    eapply padded_lookup. rewrite <-Hl. eapply (fold_sound _ _ _ _ (siblings p)); [done|done|lia|exact Hcf|congruence]. }
  split; [done|]. intros Hi. rewrite Hleaf, Nat.mod_small.
  - destruct (lookup_lt_is_Some_2 hs (index p) Hi) as [h Hh]. unfold padded_at. by rewrite Hh.
  - rewrite tree_depth_level in Hdepth by (done || intros ->; simpl in Hi; lia). injection Hdepth as Hdepth.
    pose proof (level_upper (length hs)). replace (length (siblings p)) with (level (length hs)) by lia. lia.
Qed.

(** An index is one of many.  [verify] reads as many bits of the index as there are siblings
    and does not compare the index with the number of leaves: adding a multiple of
    [2 ^ length siblings] to the index of a proof changes nothing. *)
Theorem verify_index_aliases (p : MerkleProof) (root : Hash) (m : nat) :
  verify (mkMerkleProof (index p + m * 2 ^ length (siblings p)) (leaf p) (siblings p)) root = verify p root.
Proof.
  destruct p as [i l sibs]. unfold verify, proof_compute_root. cbn [index leaf siblings].
  apply bool_decide_ext. enough ((foldl proof_step (l, i + m * 2 ^ length sibs) sibs).1 = (foldl proof_step (l, i) sibs).1)
    as -> by done.
  revert l i. induction sibs as [|s sibs IH]; intros l i; [done|].
  cbn [foldl proof_step length]. rewrite Nat.pow_succ_r', (Nat.mul_comm 2), Nat.mul_assoc.
  rewrite Nat.Div0.mod_add, Nat.div_add by done. apply IH.
Qed.

(** C6: completeness of [verify].  The authentication path of every leaf, the root
    hashes of the sibling subtrees read off the tree that [compute_root] builds, is
    accepted against the root. *)
Theorem verify_complete (hs : list Hash) (i : nat) (l : Hash) (padded : list Hash)
    (t : MerkleTree) (root : Hash) :
  is_slice hs → hs !! i = Some l →
  pad_to_power_of_two hs = Ret padded → build_tree padded = Ret t →
  compute_root hs = Ret root →
  verify (mkMerkleProof i l (auth_path (level (length hs)) t i)) root = true.
Proof.
  intros Hs Hi Hp Ht Hroot.
  assert (Hne : hs ≠ []) by (by intros ->).
  destruct (compute_root_tree hs Hne Hs) as (padded' & t' & Hp' & Ht' & Hl & Hh & Hk & Hr).
  rewrite Hp in Hp'; injection Hp' as <-. rewrite Ht in Ht'; injection Ht' as <-.
  rewrite Hroot in Hr; injection Hr as ->. pose proof (lookup_lt_Some _ _ _ Hi). pose proof (level_upper (length hs)).
  unfold verify. apply bool_decide_eq_true. unfold proof_compute_root. simpl.
  apply fold_complete; [done|done|].
  rewrite Nat.mod_small by lia. rewrite <-Hi, Hl. by apply pad_lookup.
Qed.

(** * [collect_siblings] *)

(** The sibling index of the code is the same position in the other half. *)
Lemma sibling_index (k i : nat) :
  i < 2 ^ S k →
  (if bool_decide (i < 2 ^ k) then 2 ^ k + i `mod` 2 ^ k else i `mod` 2 ^ k) < 2 ^ S k.
Proof.
  rewrite Nat.pow_succ_r'. intros. pose proof (Nat.mod_upper_bound i (2 ^ k)).
  pose proof (Nat.pow_nonzero 2 k). case_bool_decide; lia.
Qed.

Lemma half_pow2 (k : nat) : 2 ^ S k `div` 2 = 2 ^ k.
Proof. by rewrite Nat.pow_succ_r', (Nat.mul_comm 2), Nat.div_mul. Qed.

Lemma half_length (k : nat) (hs : list Hash) :
  length hs = 2 ^ S k → length (take (2 ^ k) hs) = 2 ^ k ∧ length (drop (2 ^ k) hs) = 2 ^ k.
Proof. rewrite Nat.pow_succ_r', length_take, length_drop. lia. Qed.

Lemma neighbour_small (i : nat) : i < 2 → neighbour i = 1 - i.
Proof. unfold neighbour. intros. destruct i as [|[|]]; [done..|lia]. Qed.

Lemma neighbour_mod (k i : nat) :
  neighbour (i `mod` 2 ^ S k) =
  neighbour i `mod` 2 ^ S k ∧ neighbour i `div` 2 ^ S k = i `div` 2 ^ S k.
Proof.
  rewrite Nat.pow_succ_r'. pose proof (Nat.pow_nonzero 2 k) as Hnz.
  pose proof (Nat.div_mod_eq i (2 * 2 ^ k)) as Hd.
  pose proof (Nat.mod_upper_bound i (2 * 2 ^ k)) as Hm.
  set (m := 2 ^ k) in *. set (q := i `div` (2 * m)) in *. set (r := i `mod` (2 * m)) in *.
  assert (Hpar : i `mod` 2 = r `mod` 2).
  { rewrite Hd. replace (2 * m * q + r) with (r + q * m * 2) by lia. apply Nat.Div0.mod_add. }
  unfold neighbour. rewrite Hpar. pose proof (Nat.div_mod_eq r 2).
  pose proof (Nat.mod_upper_bound r 2). case_bool_decide.
  - assert (S r < 2 * m) by lia. split.
    + rewrite Hd. replace (S (2 * m * q + r)) with (S r + q * (2 * m)) by lia.
      rewrite Nat.Div0.mod_add. symmetry. apply Nat.mod_small. lia.
    + rewrite Hd. replace (S (2 * m * q + r)) with (S r + q * (2 * m)) by lia.
      rewrite Nat.div_add, Nat.div_small by lia. lia.
  - assert (1 ≤ r) by (destruct r; [done|lia]). split.
    + rewrite Hd. replace (Nat.pred (2 * m * q + r)) with (Nat.pred r + q * (2 * m)) by lia.
      rewrite Nat.Div0.mod_add. symmetry. apply Nat.mod_small. lia.
    + rewrite Hd. replace (Nat.pred (2 * m * q + r)) with (Nat.pred r + q * (2 * m)) by lia.
      rewrite Nat.div_add, Nat.div_small by lia. lia.
Qed.

Lemma neighbour_half (k i : nat) :
  i < 2 ^ S (S k) →
  neighbour i = (if bool_decide (i < 2 ^ S k) then 0 else 2 ^ S k) + neighbour (i `mod` 2 ^ S k) ∧
  neighbour (i `mod` 2 ^ S k) < 2 ^ S k.
Proof.
  intros Hi. destruct (neighbour_mod k i) as [-> Hd].
  pose proof (Nat.pow_nonzero 2 (S k)) as Hnz.
  pose proof (Nat.div_mod_eq (neighbour i) (2 ^ S k)) as He.
  pose proof (Nat.mod_upper_bound (neighbour i) (2 ^ S k)). rewrite Hd in He.
  case_bool_decide.
  - rewrite Nat.div_small in He by done. lia.
  - assert (i `div` 2 ^ S k = 1) as Hq; [|rewrite Hq in He; lia].
    rewrite (Nat.pow_succ_r' _ (S k)) in Hi. symmetry.
    apply (Nat.div_unique _ _ _ (i - 2 ^ S k)); lia.
Qed.

(** The loop over a power of two of hashes appends one hash per level; the last one
    is the leaf next to [i]. *)
Lemma collect_siblings_loop_total (k fuel i : nat) (hs acc : list Hash) :
  length hs = 2 ^ k → i < 2 ^ k → k < fuel →
  ∃ sibs, collect_siblings_loop fuel hs i acc = Ret (acc ++ sibs) ∧ length sibs = k ∧
          (k ≠ 0 → last sibs = hs !! neighbour i).
Proof.
  revert fuel i hs acc. induction k as [|k IH]; intros [|fuel] i hs acc Hlen Hi Hf; try lia.
  { simpl. rewrite bool_decide_false by (rewrite Hlen, Nat.pow_0_r; lia).
    exists []. by rewrite app_nil_r. }
  simpl. rewrite bool_decide_true
    by (rewrite Hlen, Nat.pow_succ_r'; pose proof (Nat.pow_nonzero 2 k); lia).
  rewrite Hlen, half_pow2.
  destruct (lookup_lt_is_Some_2 hs (if bool_decide (i < 2 ^ k) then 2 ^ k + i `mod` 2 ^ k
    else i `mod` 2 ^ k)) as [s Hs]; [rewrite Hlen; by apply sibling_index|].
  destruct (half_length _ _ Hlen) as [Ht Hd].
  destruct (IH fuel (i `mod` 2 ^ k) (if bool_decide (i < 2 ^ k) then take (2 ^ k) hs
    else drop (2 ^ k) hs) (acc ++ [s])) as (sibs & Hloop & Hk & Hlast).
  { by case_bool_decide. }
  { apply Nat.mod_upper_bound, Nat.pow_nonzero. lia. }
  { lia. }
  exists (s :: sibs). rewrite Hs. simpl. rewrite Hloop, <-app_assoc. split; [done|].
  split; [lia|]. intros _. destruct k as [|k].
  - apply nil_length_inv in Hk as ->. simpl. rewrite <-Hs.
    rewrite Nat.pow_0_r, Nat.mod_1_r. rewrite neighbour_small by done.
    change (2 ^ 1) with 2 in Hi. by destruct i as [|[|]]; [..|lia].
  - rewrite last_cons. destruct (neighbour_half k i Hi) as [-> Hlt].
    rewrite Hlast by done. case_bool_decide.
    + rewrite Nat.add_0_l, lookup_take_lt by done.
      destruct (lookup_lt_is_Some_2 hs (neighbour (i `mod` 2 ^ S k))) as [x ->]; [|done].
      rewrite Hlen, (Nat.pow_succ_r' _ (S k)). lia.
    + rewrite lookup_drop.
      destruct (lookup_lt_is_Some_2 hs (2 ^ S k + neighbour (i `mod` 2 ^ S k))) as [x ->]; [|done].
      rewrite Hlen, (Nat.pow_succ_r' _ (S k)). lia.
Qed.

(** [collect_siblings] on the padded slice. *)
Lemma collect_siblings_total (k i : nat) (padded : list Hash) :
  length padded = 2 ^ k → i < 2 ^ k →
  ∃ sibs, collect_siblings padded i = Ret sibs ∧ length sibs = k ∧
          (k ≠ 0 → last sibs = padded !! neighbour i).
Proof.
  intros Hlen Hi. unfold collect_siblings. case_bool_decide as H1.
  - exists []. destruct k; [done|]. rewrite Hlen, Nat.pow_succ_r' in H1.
    pose proof (Nat.pow_nonzero 2 k). lia.
  - destruct (collect_siblings_loop_total k (length padded) i padded []) as (sibs & H & Hk);
      [done|done| |by exists sibs].
    rewrite Hlen. apply Nat.pow_gt_lin_r. lia.
Qed.

(** * [generate_proof] *)
Lemma generate_proof_value (hs padded : list Hash) (i : nat) (l : Hash) :
  is_slice hs → hs !! i = Some l → pad_to_power_of_two hs = Ret padded →
  ∃ sibs, generate_proof hs i = Ret (Some (mkMerkleProof i l sibs)) ∧
    length sibs = level (length hs) ∧
    (level (length hs) ≠ 0 → last sibs = padded !! neighbour i).
Proof.
  intros Hs Hi Hp. pose proof (lookup_lt_Some _ _ _ Hi) as Hlt.
  assert (Hne : hs ≠ []) by (by intros ->).
  pose proof (pad_length _ _ Hne Hs Hp) as Hlen. pose proof (level_upper (length hs)).
  destruct (collect_siblings_total (level (length hs)) i padded) as (sibs & Hc & Hk);
    [done|lia|].
  exists sibs. split; [|done]. unfold generate_proof.
  rewrite !bool_decide_false by (done || lia). simpl. rewrite Hp. simpl.
  rewrite Hi. simpl. by rewrite Hc.
Qed.

Lemma generate_proof_out_of_range (hs : list Hash) (i : nat) :
  length hs ≤ i → generate_proof hs i = Ret None.
Proof.
  intros Hi. unfold generate_proof. rewrite (bool_decide_true (length hs ≤ i)) by done.
  by rewrite orb_true_r.
Qed.

(** [generate_proof] returns on every slice and index: nothing when the index is
    out of range, otherwise a proof that names the index and its hash, with one
    sibling per level below the root of the tree. *)
Theorem generate_proof_shape (hs : list Hash) (i : nat) :
  is_slice hs →
  (length hs ≤ i → generate_proof hs i = Ret None) ∧
  (i < length hs → ∃ p, generate_proof hs i = Ret (Some p) ∧
    index p = i ∧ hs !! i = Some (leaf p) ∧
    tree_depth (len hs) = Ret (Z.of_nat (S (length (siblings p))))).
Proof.
  intros Hs. split; intros Hi.
  - by apply generate_proof_out_of_range.
  - destruct (lookup_lt_is_Some_2 hs i Hi) as [l Hl].
    assert (Hne : hs ≠ []) by (by intros ->).
    destruct (generate_proof_value hs _ i l Hs Hl (pad_value hs Hne Hs)) as (sibs & Hg & Hk & _).
    eexists; split; [exact Hg|]. simpl. by rewrite tree_depth_level, Hk.
Qed.

(** For one or two hashes the generated proof is accepted against the root. *)
Theorem generated_proof_accepted (hs : list Hash) (i : nat) :
  1 ≤ length hs ≤ 2 → i < length hs →
  ∃ p root, generate_proof hs i = Ret (Some p) ∧ compute_root hs = Ret root ∧
    verify p root = true.
Proof.
  intros Hlen Hi. destruct hs as [|a [|b [|]]]; simpl in *; try lia.
  - destruct i; [|lia]. eexists _, _. split; [reflexivity|]. split; [reflexivity|].
    by apply bool_decide_eq_true.
  - destruct i as [|[|]]; [| |lia]; eexists _, _; (split; [reflexivity|]);
      (split; [reflexivity|]); by apply bool_decide_eq_true.
Qed.

Lemma level_ge_2 (n : nat) : 3 ≤ n → ∃ k, level n = S (S k).
Proof.
  intros Hn. unfold level. pose proof (Nat.log2_up_le_mono 3 n Hn) as H.
  change (Nat.log2_up 3) with 2 in H. exists (Nat.log2_up n - 2). lia.
Qed.

(** What an accepted path combines at the root: its last sibling is the hash of the
    half of the tree that does not hold the index. *)
Lemma fold_top (ss : list (list byte)) (k i : nat) (l s a b : Hash) (sibs : list Hash) :
  length sibs = S k → i < 2 ^ S k → last sibs = Some s →
  coll_free ss → path_preimages (l, i) sibs ⊆ ss → node_preimage a b ∈ ss →
  (foldl proof_step (l, i) sibs).1 = combine_hashes a b →
  s = if bool_decide (i < 2 ^ k) then b else a.
Proof.
  intros Hk Hi Hlast Hcf Hsub Hab. apply last_Some in Hlast as [sibs' ->].
  rewrite length_app in Hk. simpl in Hk.
  rewrite fold_snoc. rewrite path_preimages_snoc in Hsub. simpl in *.
  assert (length sibs' = k) as Hk' by lia. rewrite Hk' in Hsub |- *.
  assert (bool_decide ((i `div` 2 ^ k) `mod` 2 = 0) = bool_decide (i < 2 ^ k)) as Hbit.
  { apply bool_decide_ext. pose proof (mod_pow2_succ i k) as Hm.
    pose proof (Nat.mod_upper_bound i (2 ^ k)). pose proof (Nat.pow_nonzero 2 k).
    rewrite (Nat.mod_small i (2 ^ S k)) in Hm by done. case_bool_decide; lia. }
  rewrite Hbit in *. specialize (Hsub _ (proj2 (elem_of_app _ _ _) (or_intror (list_elem_of_here _ _)))).
  destruct (bool_decide (i < 2 ^ k)); intros Heq;
    by apply (coll_free_combine _ _ _ _ _ Hcf) in Heq as [??].
Qed.

(** C31: for three or more hashes the generated proof is rejected.  [collect_siblings]
    records leaves where the path needs the hashes of subtrees, root to leaf: the
    last sibling, which [verify] combines at the root, is the leaf next to the
    index.  So unless that leaf happens to be the root hash of the other half of
    the tree, or the digest collides on the strings hashed, [verify] is false. *)
Theorem generated_proof_rejected (hs padded : list Hash) (i : nat) (p : MerkleProof)
    (root : Hash) (lo hi : MerkleTree) :
  is_slice hs → 3 ≤ length hs →
  generate_proof hs i = Ret (Some p) → compute_root hs = Ret root →
  pad_to_power_of_two hs = Ret padded →
  build_tree (take (length padded `div` 2) padded) = Ret lo →
  build_tree (drop (length padded `div` 2) padded) = Ret hi →
  coll_free (root_preimages hs ++ proof_preimages p) →
  padded !! neighbour i ≠ Some (root_hash (if bool_decide (i < length padded `div` 2) then hi else lo)) →
  verify p root = false.
Proof.
  intros Hs H3 Hg Hroot Hp Hlo Hhi Hcf Hnb.
  destruct (decide (i < length hs)) as [Hi|Hi].
  2: { by rewrite generate_proof_out_of_range in Hg by lia. }
  destruct (lookup_lt_is_Some_2 hs i Hi) as [l Hl].
  destruct (generate_proof_value hs padded i l Hs Hl Hp) as (sibs & Hg' & Hk & Hlast).
  rewrite Hg in Hg'. injection Hg' as ->.
  assert (Hne : hs ≠ []) by (by intros ->).
  pose proof (pad_length _ _ Hne Hs Hp) as Hlen.
  destruct (compute_root_tree hs Hne Hs) as (padded' & t & Hp' & Ht & Hlv & Hh & Hpf & Hr).
  rewrite Hp in Hp'; injection Hp' as <-. rewrite Hroot in Hr; injection Hr as ->.
  destruct (level_ge_2 _ H3) as [k Hlev]. rewrite Hlev in *.
  assert (2 ≤ length padded) by (rewrite Hlen, !Nat.pow_succ_r'; pose proof (Nat.pow_nonzero 2 k); lia).
  rewrite (build_tree_node padded t lo hi) in * by done. simpl in *.
  unfold root_preimages in Hcf. rewrite Hp in Hcf. simpl in Hcf. rewrite Ht in Hcf.
  unfold verify. apply bool_decide_eq_false. intros Heq. apply Hnb. rewrite <-Hlast by done.
  pose proof (level_upper (length hs)). rewrite Hlev in *.
  destruct sibs as [|s sibs _] using rev_ind; [done|]. rewrite last_snoc. f_equal.
  rewrite Hlen, half_pow2.
  assert (s = if bool_decide (i < 2 ^ S k) then root_hash hi else root_hash lo) as Hs'.
  { eapply (fold_top _ (S k) i l); [exact Hk|lia|apply last_snoc|exact Hcf| | |exact Heq];
      simpl; elem_list. }
  by rewrite Hs'; case_bool_decide.
Qed.

(** * Different slices with one root *)

(** One level up: the hashes of adjacent pairs. *)
Fixpoint pair_up (hs : list Hash) : list Hash :=
  match hs with
  | a :: b :: hs => combine_hashes a b :: pair_up hs
  | _ => []
  end.

Lemma pair_up_app (k : nat) (hs1 hs2 : list Hash) :
  length hs1 = 2 * k → pair_up (hs1 ++ hs2) = pair_up hs1 ++ pair_up hs2.
Proof.
  revert hs1. induction k as [|k IH]; intros hs1 Hlen.
  { by apply nil_length_inv in Hlen as ->. }
  destruct hs1 as [|a [|b hs1]]; simpl in *; try lia. rewrite IH by lia. done.
Qed.

(** Dropping the lowest level of a tree keeps its root. *)
Lemma pair_up_tree (k : nat) (t : MerkleTree) :
  perfect (S k) t → hashed t →
  ∃ t', perfect k t' ∧ hashed t' ∧ root_hash t' = root_hash t ∧ leaves t' = pair_up (leaves t).
Proof.
  revert t. induction k as [|k IH]; intros [h|h l r]; try done.
  { destruct l as [a|], r as [b|]; simpl; try tauto. intros _ [-> _].
    by exists (Leaf (combine_hashes a b)). }
  intros [Hl Hr] (-> & Hhl & Hhr).
  destruct (IH l Hl Hhl) as (l' & Hl1 & Hl2 & Hl3 & Hl4).
  destruct (IH r Hr Hhr) as (r' & Hr1 & Hr2 & Hr3 & Hr4).
  exists (Node (combine_hashes (root_hash l) (root_hash r)) l' r'). simpl.
  rewrite Hl3, Hr3. repeat split; try done.
  rewrite Hl4, Hr4. symmetry. apply (pair_up_app (2 ^ k)).
  by rewrite (perfect_length (S k)), Nat.pow_succ_r'.
Qed.

(** A hashed perfect tree is determined by its leaves. *)
Lemma perfect_leaves_inj (k : nat) (t1 t2 : MerkleTree) :
  perfect k t1 → perfect k t2 → hashed t1 → hashed t2 → leaves t1 = leaves t2 → t1 = t2.
Proof.
  revert t1 t2. induction k as [|k IH]; intros [h1|h1 l1 r1] [h2|h2 l2 r2]; simpl; try done.
  { by intros _ _ _ _ [= ->]. }
  intros [Hl1 Hr1] [Hl2 Hr2] (-> & Hhl1 & Hhr1) (-> & Hhl2 & Hhr2) [E1 E2]%app_inj_1.
  - by rewrite (IH l1 l2), (IH r1 r2).
  - by rewrite !(perfect_length k).
Qed.

Lemma pad_pow2 (k : nat) (hs : list Hash) :
  length hs = 2 ^ k → is_slice hs → pad_to_power_of_two hs = Ret hs.
Proof.
  intros Hlen Hs. rewrite pad_value; [|intros ->; simpl in Hlen; pose proof (Nat.pow_nonzero 2 k); lia|done].
  by rewrite Hlen, level_pow2, Nat.sub_diag, app_nil_r.
Qed.

Lemma pair_up_length (k : nat) (hs : list Hash) : length hs = 2 * k → length (pair_up hs) = k.
Proof.
  revert hs. induction k as [|k IH]; intros hs Hlen.
  { by apply nil_length_inv in Hlen as ->. }
  destruct hs as [|a [|b hs]]; simpl in *; try lia. by rewrite IH by lia.
Qed.

(** The root of a slice whose length is a power of two is also the root of the
    slice, half as long, of the hashes of its adjacent pairs.  The leaves are not
    hashed on their way into the tree ([hash_leaf] has no caller), so inner nodes
    can be presented as leaves. *)
Theorem compute_root_interior_as_leaves (k : nat) (hs : list Hash) :
  length hs = 2 ^ S k → is_slice hs → compute_root (pair_up hs) = compute_root hs.
Proof.
  intros Hlen Hs.
  assert (Hlen' : length (pair_up hs) = 2 ^ k) by (apply pair_up_length; by rewrite Hlen, Nat.pow_succ_r').
  pose proof (Nat.pow_nonzero 2 k) as Hnz.
  assert (Hs' : is_slice (pair_up hs)).
  { unfold is_slice, len in *. rewrite Hlen'. rewrite Hlen, Nat.pow_succ_r' in Hs. lia. }
  assert (hs ≠ []) as Hne by (intros ->; rewrite Nat.pow_succ_r' in Hlen; simpl in Hlen; lia).
  assert (pair_up hs ≠ []) as Hne' by (intros E; rewrite E in Hlen'; simpl in Hlen'; lia).
  destruct (compute_root_tree hs Hne Hs) as (p & t & Hp & _ & Hl & Hh & Hk & ->).
  destruct (compute_root_tree _ Hne' Hs') as (p' & t' & Hp' & _ & Hl' & Hh' & Hk' & ->).
  rewrite (pad_pow2 (S k)) in Hp by done. rewrite (pad_pow2 k) in Hp' by done. simplify_eq.
  rewrite Hlen, level_pow2 in Hk. rewrite Hlen', level_pow2 in Hk'.
  destruct (pair_up_tree k t Hk Hh) as (t'' & Hk'' & Hh'' & Hr'' & Hl'').
  rewrite (perfect_leaves_inj k t' t'') by (done || congruence). by rewrite Hr''.
Qed.

(** The root does not bind the length of the slice: a zero hash appended to a
    slice that is being padded leaves the root unchanged. *)
Theorem compute_root_padding_ambiguous (hs : list Hash) :
  hs ≠ [] → length hs ≠ 2 ^ level (length hs) → is_slice (hs ++ [hash_zero]) →
  compute_root (hs ++ [hash_zero]) = compute_root hs.
Proof.
  intros Hne Hpow Hs'.
  assert (Hs : is_slice hs) by (unfold is_slice, len in *; rewrite length_app in Hs'; simpl in *; lia).
  assert (1 ≤ length hs) as H1 by (destruct hs; [done|simpl; lia]).
  pose proof (level_upper _ H1).
  assert (length hs ≠ 1) by (intros E; rewrite E in Hpow; done).
  assert (level (S (length hs)) = level (length hs)) as Hlev.
  { unfold level in *. apply Nat.log2_up_unique; [apply Nat.log2_up_pos; lia|].
    pose proof (Nat.log2_up_spec (length hs)). lia. }
  unfold compute_root. rewrite !bool_decide_false by (done || by destruct hs).
  rewrite !pad_value by (done || by destruct hs). simpl.
  rewrite length_app. simpl. rewrite Nat.add_1_r, Hlev, <-app_assoc.
  replace (2 ^ level (length hs) - length hs) with (S (2 ^ level (length hs) - S (length hs))) by lia.
  done.
Qed.

End Proofs.

(** * Evaluation on the sample slice of three hashes *)
Section Sample.

Definition sample_padded : list Hash := sample_hashes ++ [hash_zero].
Definition sample_tree (hs : list Hash) : MerkleTree :=
  match build_tree (SHA3 := sample_sha3) hs with Ret t => t | _ => Leaf hash_zero end.
Definition sample_leaf : Hash := default hash_zero (sample_hashes !! 1).
Definition sample_honest_proof : MerkleProof :=
  mkMerkleProof 1 sample_leaf (auth_path 2 (sample_tree sample_padded) 1).
Definition sample_generated_proof : MerkleProof :=
  match generate_proof sample_hashes 1 with
  | Ret (Some p) => p
  | _ => sample_honest_proof
  end.

Lemma verify_sound_witness :
  verify (SHA3 := sample_sha3) sample_honest_proof sample_root = true ∧
  sample_hashes !! 1 = Some sample_leaf.
Proof.
  assert (verify (SHA3 := sample_sha3) sample_honest_proof sample_root = true) as Hv
    by (vm_compute; reflexivity).
  split; [exact Hv|].
  apply (verify_sound (SHA3 := sample_sha3) sample_hashes sample_root sample_honest_proof);
    [done|vm_compute; reflexivity|vm_compute; reflexivity| |exact Hv|apply Nat.ltb_lt; reflexivity].
  apply (bool_decide_unpack _). vm_compute. exact I.
Defined.

Lemma verify_complete_witness :
  verify (SHA3 := sample_sha3)
    (mkMerkleProof 1 sample_leaf (auth_path 2 (sample_tree sample_padded) 1)) sample_root = true.
Proof.
  apply (verify_complete (SHA3 := sample_sha3) sample_hashes 1 sample_leaf sample_padded);
    [done|vm_compute; reflexivity..].
Defined.

Lemma generate_proof_shape_witness :
  (3 ≤ 7 → generate_proof sample_hashes 7 = Ret None) ∧
  (7 < 3 → ∃ p, generate_proof sample_hashes 7 = Ret (Some p) ∧
    index p = 7 ∧ sample_hashes !! 7 = Some (leaf p) ∧
    tree_depth (len sample_hashes) = Ret (Z.of_nat (S (length (siblings p))))).
Proof. apply (generate_proof_shape sample_hashes 7). done. Defined.

Lemma generated_proof_accepted_witness :
  ∃ p root, generate_proof (take 2 sample_hashes) 1 = Ret (Some p) ∧
    compute_root (SHA3 := sample_sha3) (take 2 sample_hashes) = Ret root ∧
    verify (SHA3 := sample_sha3) p root = true.
Proof. apply (generated_proof_accepted (SHA3 := sample_sha3) (take 2 sample_hashes) 1); simpl; lia. Defined.

Lemma generated_proof_rejected_witness :
  generate_proof sample_hashes 1 = Ret (Some sample_generated_proof) ∧
  verify (SHA3 := sample_sha3) sample_generated_proof sample_root = false.
Proof.
  split; [vm_compute; reflexivity|].
  apply (generated_proof_rejected (SHA3 := sample_sha3) sample_hashes sample_padded 1
    sample_generated_proof sample_root (sample_tree (take 2 sample_padded))
    (sample_tree (drop 2 sample_padded)));
    [done|apply Nat.leb_le; reflexivity|vm_compute; reflexivity..| |].
  - apply (bool_decide_unpack _). vm_compute. exact I.
  - apply (bool_decide_unpack _). vm_compute. exact I.
Defined.

Lemma compute_root_interior_as_leaves_witness :
  compute_root (SHA3 := sample_sha3) (pair_up (SHA3 := sample_sha3) sample_padded) =
  compute_root (SHA3 := sample_sha3) sample_padded.
Proof. apply (compute_root_interior_as_leaves (SHA3 := sample_sha3) 1 sample_padded); done. Defined.

Lemma compute_root_padding_ambiguous_witness :
  compute_root (SHA3 := sample_sha3) (sample_hashes ++ [hash_zero]) =
  compute_root (SHA3 := sample_sha3) sample_hashes.
Proof. apply (compute_root_padding_ambiguous (SHA3 := sample_sha3) sample_hashes); done. Defined.

End Sample.
