(* ===== verification/MerkleTests.v ===== *)
(** The unit tests of the Merkle crate (src/crypto/merkle/src/lib.rs, [mod tests]): each
    test is a computation that panics when an assertion fails.  The theorem says which
    of them pass, for every digest that does not collide on the strings they hash. *)
From S2P Require Import Prelude Merkle MerkleTree MerkleProofs.

Section Tests.
Context {SHA3 : Sha3_256}.

Definition test_hashes : list Hash :=
  [sha3_256 (bytes_of_string "tx1"); sha3_256 (bytes_of_string "tx2");
   sha3_256 (bytes_of_string "tx3"); sha3_256 (bytes_of_string "tx4")].

Definition test_single_leaf : exec unit :=
  let h := sha3_256 (bytes_of_string "single") in
  root ← compute_root [h];
  rust_assert (bool_decide (root = hash_leaf h)).

Definition test_two_leaves : exec unit :=
  let hashes := test_hashes in
  first_two ← slice hashes 0 2;
  root ← compute_root first_two;
  h0 ← or_panic (hashes !! 0);
  h1 ← or_panic (hashes !! 1);
  let expected := combine_hashes (hash_leaf h0) (hash_leaf h1) in
  rust_assert (bool_decide (root = expected)).

Definition test_four_leaves : exec unit :=
  let hashes := test_hashes in
  root ← compute_root hashes;
  h0 ← or_panic (hashes !! 0);
  h1 ← or_panic (hashes !! 1);
  h2 ← or_panic (hashes !! 2);
  h3 ← or_panic (hashes !! 3);
  let left := combine_hashes (hash_leaf h0) (hash_leaf h1) in
  let right := combine_hashes (hash_leaf h2) (hash_leaf h3) in
  let expected := combine_hashes left right in
  rust_assert (bool_decide (root = expected)).

Definition test_proof_generation : exec unit :=
  let hashes := test_hashes in
  root ← compute_root hashes;
  proof ← generate_proof hashes 0;
  proof ← or_panic proof;
  _ ← rust_assert (verify proof root);
  _ ← rust_assert (bool_decide (index proof = 0));
  h0 ← or_panic (hashes !! 0);
  rust_assert (bool_decide (leaf proof = h0)).

(** The body of the loop of [test_proof_verification]. *)
Definition check_proof (hashes : list Hash) (root : Hash) (i : nat) : exec unit :=
  proof ← generate_proof hashes i;
  proof ← or_panic proof;
  rust_assert (verify proof root).

Definition test_proof_verification : exec unit :=
  let hashes := test_hashes in
  root ← compute_root hashes;
  foldl (λ acc i, _ ← acc; check_proof hashes root i) (Ret tt) (seq 0 (length hashes)).

Definition test_invalid_proof : exec unit :=
  let hashes := test_hashes in
  root ← compute_root hashes;
  proof ← generate_proof hashes 0;
  proof ← or_panic proof;
  let proof := mkMerkleProof (index proof) (sha3_256 (bytes_of_string "tampered")) (siblings proof) in
  rust_assert (negb (verify proof root)).

Definition test_empty_tree : exec unit :=
  root ← compute_root [];
  rust_assert (bool_decide (root = hash_zero)).

Definition test_three_leaves_padding : exec unit :=
  hashes ← slice test_hashes 0 3;
  padded ← pad_to_power_of_two hashes;
  _ ← rust_assert (bool_decide (length padded = 4));
  h3 ← or_panic (padded !! 3);
  rust_assert (bool_decide (h3 = hash_zero)).

Definition expect_power (n expected : Z) : exec unit :=
  p ← next_power_of_two n;
  rust_assert (bool_decide (p = expected)).

Definition test_power_of_two : exec unit :=
  _ ← expect_power 1 1;
  _ ← expect_power 2 2;
  _ ← expect_power 3 4;
  _ ← expect_power 4 4;
  _ ← expect_power 5 8;
  expect_power 100 128.

Definition test_build_tree_depth : exec unit :=
  padded ← pad_to_power_of_two test_hashes;
  tree ← build_tree padded;
  rust_assert (bool_decide (depth tree = 3)).

(** ** The strings the tests hash *)
Definition tx (s : string) : Hash := sha3_256 (bytes_of_string s).
Definition own_leaf (s : string) : list byte := node_preimage (tx s) (tx s).
Definition test_strings : list (list byte) :=
  (bytes_of_string <$> ["single"; "tx1"; "tx2"; "tx3"; "tx4"; "tampered"]) ++
  (own_leaf <$> ["single"; "tx1"; "tx2"; "tx3"; "tx4"]) ++
  [node_preimage (tx "tx1") (tx "tx2"); node_preimage (tx "tx3") (tx "tx4");
   node_preimage (tx "tx1") (tx "tx3"); node_preimage (tx "tampered") (tx "tx3");
   node_preimage (hash_leaf (tx "tx1")) (hash_leaf (tx "tx2"));
   node_preimage (hash_leaf (tx "tx3")) (hash_leaf (tx "tx4"));
   node_preimage (combine_hashes (tx "tx1") (tx "tx2")) (combine_hashes (tx "tx3") (tx "tx4"));
   node_preimage (combine_hashes (hash_leaf (tx "tx1")) (hash_leaf (tx "tx2")))
     (combine_hashes (hash_leaf (tx "tx3")) (hash_leaf (tx "tx4")));
   node_preimage (combine_hashes (tx "tx1") (tx "tx3")) (tx "tx2");
   node_preimage (combine_hashes (tx "tampered") (tx "tx3")) (tx "tx2")].

(** ** Lemmas *)
Lemma test_root4 (a b c d : Hash) :
  compute_root [a; b; c; d] = Ret (combine_hashes (combine_hashes a b) (combine_hashes c d)).
Proof. reflexivity. Qed.

Lemma test_proof4 (a b c d : Hash) :
  generate_proof [a; b; c; d] 0 = Ret (Some (mkMerkleProof 0 a [c; b])).
Proof. reflexivity. Qed.

Lemma verify_proof4 (l b c root : Hash) :
  verify (mkMerkleProof 0 l [c; b]) root =
  bool_decide (combine_hashes (combine_hashes l c) b = root).
Proof. reflexivity. Qed.

Lemma length_node_preimage (a b : Hash) : length (node_preimage a b) = 64.
Proof. unfold node_preimage. by rewrite length_app, !length_abytes. Qed.

(** Two of the strings with one hash are equal. *)
Lemma coll_free_inj (ss : list (list byte)) (x y : list byte) :
  coll_free ss → x ∈ ss → y ∈ ss → sha3_256 x = sha3_256 y → x = y.
Proof.
  intros Hcf Hx Hy. unfold coll_free in Hcf. rewrite Forall_forall in Hcf.
  specialize (Hcf x Hx). rewrite Forall_forall in Hcf. auto.
Qed.

(** A short string does not hash to the hash of an inner node. *)
Lemma tx_not_node (ss : list (list byte)) (s : string) (a b : Hash) :
  coll_free ss → bytes_of_string s ∈ ss → node_preimage a b ∈ ss →
  length (bytes_of_string s) ≠ 64 → tx s ≠ combine_hashes a b.
Proof.
  intros Hcf Hs Hn Hlen He. apply (coll_free_inj ss) in He; [|done..].
  apply Hlen. by rewrite He, length_node_preimage.
Qed.

Ltac in_strings :=
  unfold test_strings, own_leaf; cbn [fmap list_fmap app];
  solve [repeat first [apply list_elem_of_here | apply list_elem_of_further]].

(** The first sibling that [generate_proof] records for four hashes is no part of the
    path, so no leaf makes the proof verify. *)
Lemma proof4_rejected (s : string) (Hs : s ∈ ["tx1"; "tampered"]) :
  coll_free test_strings →
  combine_hashes (combine_hashes (tx s) (tx "tx3")) (tx "tx2") ≠
  combine_hashes (combine_hashes (tx "tx1") (tx "tx2")) (combine_hashes (tx "tx3") (tx "tx4")).
Proof.
  intros Hcf He. apply (coll_free_combine test_strings) in He as [_ He]; [|done| |in_strings].
  - revert He. apply (tx_not_node test_strings); [done|in_strings..|by vm_compute].
  - repeat (apply elem_of_cons in Hs as [->|Hs]; [in_strings|]). by apply elem_of_nil in Hs.
Qed.

(** A transaction's hash is not the hash of its own leaf. *)
Lemma tx_not_own_leaf (s : string) (Hs : s ∈ ["single"; "tx1"; "tx2"; "tx3"; "tx4"]) :
  coll_free test_strings → tx s ≠ hash_leaf (tx s).
Proof.
  intros Hcf. apply (tx_not_node test_strings); [done|..];
    repeat (apply elem_of_cons in Hs as [->|Hs]; [first [in_strings|by vm_compute]|]); by apply elem_of_nil in Hs.
Qed.

(** What the crate's own tests say of it.  For every digest without a collision among
    the strings the tests hash: the tests of padding, of the tree's depth, of the empty
    tree, of the powers of two and of the tampered proof pass; the three tests of
    the root, which expect the leaves to be hashed once more, and the two tests that
    check generated proofs of four hashes panic. *)
Theorem merkle_tests_verdict :
  coll_free test_strings →
  (test_empty_tree = Ret tt ∧ test_three_leaves_padding = Ret tt ∧ test_power_of_two = Ret tt ∧
   test_build_tree_depth = Ret tt ∧ test_invalid_proof = Ret tt) ∧
  test_single_leaf = Panic ∧ test_two_leaves = Panic ∧ test_four_leaves = Panic ∧
  test_proof_generation = Panic ∧ test_proof_verification = Panic.
Proof.
  intros Hcf.
  assert (tx "tx1" ≠ hash_leaf (tx "tx1")) as H1 by (apply tx_not_own_leaf; [elem_list|done]).
  split; [|repeat split].
  - repeat split. unfold test_invalid_proof, test_hashes.
    rewrite test_root4. cbn [mbind exec_bind]. rewrite test_proof4. cbn [mbind exec_bind or_panic index siblings].
    rewrite verify_proof4, (bool_decide_false (combine_hashes _ _ = _))
      by (apply (proof4_rejected "tampered"); [elem_list|done]). done.
  - unfold test_single_leaf. apply rust_assert_false, (tx_not_own_leaf "single"); [elem_list|done].
  - unfold test_two_leaves. apply rust_assert_false.
    change (combine_hashes (tx "tx1") (tx "tx2") ≠ combine_hashes (hash_leaf (tx "tx1")) (hash_leaf (tx "tx2"))).
    intros He. by apply (coll_free_combine test_strings) in He as [? _]; [|done|in_strings..].
  - unfold test_four_leaves, test_hashes. rewrite test_root4. apply rust_assert_false.
    intros He. apply (coll_free_combine test_strings) in He as [He _]; [|done|in_strings..].
    by apply (coll_free_combine test_strings) in He as [? _]; [|done|in_strings..].
  - unfold test_proof_generation, test_hashes. rewrite test_root4. cbn [mbind exec_bind].
    rewrite test_proof4. cbn [mbind exec_bind or_panic].
    rewrite verify_proof4, (bool_decide_false (combine_hashes _ _ = _))
      by (apply (proof4_rejected "tx1"); [elem_list|done]). done.
  - unfold test_proof_verification, test_hashes. rewrite test_root4. cbn [mbind exec_bind length seq foldl].
    match goal with |- context [check_proof ?hs ?r 0] => assert (check_proof hs r 0 = Panic) as -> end; [|done].
    unfold check_proof. rewrite test_proof4. cbn [mbind exec_bind or_panic].
    rewrite verify_proof4. apply rust_assert_false, (proof4_rejected "tx1"); [elem_list|done].
Qed.

End Tests.

(** * A digest that keeps a few bytes of both halves of a string *)
Section Sample.

Definition halves_digest : Sha3_256 := λ bs,
  copy_prefix 32 (byte_of_Z (len bs) :: take 6 bs ++ take 6 (drop 32 bs)).

(** Strings with pairwise distinct hashes do not collide. *)
Lemma NoDup_coll_free {SHA3 : Sha3_256} (ss : list (list byte)) :
  NoDup (sha3_256 <$> ss) → coll_free ss.
Proof.
  intros Hnd. apply Forall_forall. intros x Hx. apply Forall_forall. intros y Hy He.
  apply list_elem_of_lookup in Hx as [i Hi]. apply list_elem_of_lookup in Hy as [j Hj].
  assert (i = j) as ->; [|congruence].
  eapply (NoDup_lookup _ _ _ (sha3_256 x)); [done|..]; rewrite list_lookup_fmap;
    [by rewrite Hi|by rewrite Hj, He].
Qed.

Lemma merkle_tests_verdict_witness :
  test_invalid_proof (SHA3 := halves_digest) = Ret tt ∧
  test_proof_verification (SHA3 := halves_digest) = Panic.
Proof.
  destruct (merkle_tests_verdict (SHA3 := halves_digest)) as ((_ & _ & _ & _ & H1) & _ & _ & _ & _ & H2).
  - apply NoDup_coll_free. apply (bool_decide_unpack _). vm_compute. exact I.
  - split; [exact H1|exact H2].
Defined.

End Sample.
