(* ===== verification/Haskell.v ===== *)
(** The machine integers of the Haskell specification (src/formal-protocol): [Int] is a
    signed 64-bit integer, [Word64] an unsigned one, and the arithmetic of both wraps;
    [shiftL] by 64 or more gives 0. *)
From S2P Require Import Prelude.

Definition int64 (x : Z) : Z := ((x + 2 ^ 63) mod 2 ^ 64 - 2 ^ 63)%Z.
Definition is_int64 (x : Z) : Prop := (- 2 ^ 63 ≤ x < 2 ^ 63)%Z.
Definition shiftL (x k : Z) : Z := if bool_decide (64 ≤ k)%Z then 0%Z else int64 (Z.shiftl x k).

(** [sum] of [Word64]s. *)
Definition sum_word64 (xs : list Z) : Z := foldl (λ acc x, wrap64 (acc + x)) 0%Z xs.

(** The sum of the numbers themselves. *)
Definition sum_Z (xs : list Z) : Z := foldr Z.add 0%Z xs.

Lemma int64_small (x : Z) : is_int64 x → int64 x = x.
Proof. unfold is_int64, int64. intros. rewrite Z.mod_small; lia. Qed.

Lemma wrap64_small (x : Z) : is_u64 x → wrap64 x = x.
Proof. unfold is_u64, u64_max, wrap64. intros. rewrite Z.mod_small; lia. Qed.

Lemma sum_word64_wrap (xs : list Z) : sum_word64 xs = wrap64 (sum_Z xs).
Proof.
  unfold sum_word64, sum_Z.
  assert (∀ acc, foldl (λ acc x, wrap64 (acc + x)) (wrap64 acc) xs = wrap64 (acc + foldr Z.add 0%Z xs)) as H.
  { induction xs as [|x xs IH]; intros acc; simpl; [by rewrite Z.add_0_r|].
    replace (wrap64 (wrap64 acc + x)) with (wrap64 (acc + x)).
    - rewrite IH. f_equal. lia.
    - unfold wrap64. by rewrite Zplus_mod_idemp_l. }
  apply (H 0%Z).
Qed.

Lemma sum_Z_nonneg (xs : list Z) : Forall (λ x, 0 ≤ x)%Z xs → (0 ≤ sum_Z xs)%Z.
Proof. unfold sum_Z. induction 1; simpl; lia. Qed.

Lemma sum_Z_app (xs ys : list Z) : sum_Z (xs ++ ys) = (sum_Z xs + sum_Z ys)%Z.
Proof. unfold sum_Z. induction xs; simpl; lia. Qed.

Lemma sum_Z_Permutation (xs ys : list Z) : xs ≡ₚ ys → sum_Z xs = sum_Z ys.
Proof. unfold sum_Z. induction 1; simpl; lia. Qed.
