(* ===== verification/SpecCrypto.v ===== *)
(** The cryptography of the specification
    (src/formal-protocol/crypto-coin-protocol/src/CryptoCoin/Protocol/Crypto.hs).  Its hash,
    signatures, key derivation and cipher are development stand-ins that the file
    defines itself, so they are modelled as they are written and what they do can be
    proved.  [ByteString]s are lists of bytes; the newtypes of keys, signatures and addresses
    are the byte strings they wrap. *)
From Stdlib Require Import Btauto.
From S2P Require Import Prelude Haskell.

Definition ByteString : Type := list byte.

(** [xor] on [Word8]. *)
Definition xor (a b : byte) : byte := byte_of_Z (Z.lxor (byte_to_Z a) (byte_to_Z b)).

Definition hashLength : Z := 32.
Definition signatureLength : Z := 64.
Definition publicKeyLength : Z := 32.
Definition privateKeyLength : Z := 64.
Definition addressLength : Z := 20.

(** * The hash *)

(** [replicate] of a negative number is empty. *)
Definition padSHA3 (bs : ByteString) : ByteString :=
  let rate := 136%Z in
  let paddingLen := (rate - len bs mod rate - 2)%Z in
  if bool_decide (paddingLen < 0)%Z
  then bs ++ [x06] ++ replicate (Z.to_nat (rate + paddingLen)) x00 ++ [x80]
  else bs ++ [x06] ++ replicate (Z.to_nat paddingLen) x00 ++ [x80].

(** The recursion drops [n] bytes of a non-empty string, so its length is fuel enough for
    every positive [n] ([chunkSize_eq]). *)
Fixpoint chunkSize_fuel (fuel : nat) (n : nat) (bs : ByteString) : list ByteString :=
  match fuel, bs with
  | S fuel, _ :: _ => take n bs :: chunkSize_fuel fuel n (drop n bs)
  | _, _ => []
  end.
Definition chunkSize (n : nat) (bs : ByteString) : list ByteString := chunkSize_fuel (length bs) n bs.

Definition absorb (state block : ByteString) : ByteString := zip_with xor state block.

Definition xorEnd (state last : ByteString) : ByteString := take 32 state.

Definition sha3_256 (input : ByteString) : ByteString :=
  let initHash := replicate 32 x00 in
  let padded := padSHA3 input in
  let blocks := chunkSize 136 padded in
  xorEnd (foldl absorb initHash blocks) [x06].

Definition sha3_512 (input : ByteString) : ByteString :=
  let h := sha3_256 (input ++ replicate 32 x00) in
  let h2 := sha3_256 (h ++ input) in
  h ++ h2.

Definition blake2b_160 (input : ByteString) : ByteString := take 20 (sha3_256 input).
Definition blake2b_256 (input : ByteString) : ByteString := sha3_256 input.

Definition hkdf_derive (salt info : ByteString) (length : nat) : ByteString :=
  let prk := sha3_256 (salt ++ [x01]) in
  let okm := sha3_256 (prk ++ info ++ [x01]) in
  take length okm.

(** The newtype [Hash] around the digest; [hashToScalar] and [hashToGroup] have one body. *)
Definition hash (input : ByteString) : ByteString := sha3_256 input.
Definition hashToScalar (input : ByteString) : ByteString := take 32 (sha3_256 input).
Definition hashToGroup (input : ByteString) : ByteString := take 32 (sha3_256 input).
Definition hashWithPrefix (prefix input : ByteString) : ByteString := hash (prefix ++ input).

(** * Keys and signatures *)
Definition ed25519_keypair (seed : ByteString) : ByteString * ByteString :=
  let pubKey := take 32 (sha3_512 seed) in
  let privKey := seed ++ pubKey in
  (privKey, pubKey).

Definition ed25519_sign (privKey msg : ByteString) : ByteString :=
  let seed := take 32 privKey in
  let r := sha3_512 (seed ++ msg) in
  let R := take 32 r in
  let S := take 32 (sha3_512 (R ++ privKey ++ msg)) in
  R ++ S.

Definition ed25519_verify (pubKey sig msg : ByteString) : bool :=
  let r := take 32 sig in
  let s := drop 32 sig in
  let expected := sha3_512 (r ++ pubKey ++ msg) in
  let sExpected := take 32 expected in
  bool_decide (s = sExpected).

Definition ed25519_derivePublic (privKey : ByteString) : ByteString :=
  let seed := take 32 privKey in take 32 (sha3_512 seed).

(** [BS.null] of the signature. *)
Definition sign (privKey data_ : ByteString) : option ByteString :=
  let signature := ed25519_sign privKey data_ in
  match signature with [] => None | _ => Some signature end.

Definition verify (pubKey signature data_ : ByteString) : bool := ed25519_verify pubKey signature data_.
Definition signDetached : ByteString → ByteString → option ByteString := sign.
Definition verifyDetached : ByteString → ByteString → ByteString → bool := verify.

(** The system's random source is a string of zeros. *)
Definition generateRandomBytes (n : nat) : ByteString := replicate n x00.

Definition generateKeyPair : ByteString * ByteString := ed25519_keypair (generateRandomBytes 32).
Definition generateKeyPairFromSeed (seed : ByteString) : ByteString * ByteString := ed25519_keypair seed.
Definition derivePublicKey (privKey : ByteString) : ByteString := ed25519_derivePublic privKey.
Definition keyGenDeterministic (masterSeed derivationPath : ByteString) : ByteString * ByteString :=
  let derivedKey := hkdf_derive masterSeed derivationPath 32 in
  generateKeyPairFromSeed derivedKey.

Definition deriveAddress (pubKey : ByteString) : ByteString := blake2b_160 pubKey.
Definition deriveAddressFromPublicKey (pubKeyBytes : ByteString) : ByteString := blake2b_160 pubKeyBytes.
Definition verifyAddress (addr pubKey : ByteString) : bool := bool_decide (deriveAddress pubKey = addr).

Definition deriveKey : ByteString → ByteString → nat → ByteString := hkdf_derive.

Definition serializeWord32 (w : Z) : ByteString :=
  [byte_of_Z (Z.shiftr w 24); byte_of_Z (Z.shiftr w 16); byte_of_Z (Z.shiftr w 8); byte_of_Z w].

Definition deriveChildKey (parentPriv : ByteString) (index : Z) : ByteString * ByteString :=
  let derivationData := parentPriv ++ serializeWord32 index in
  let childSeed := hkdf_derive parentPriv derivationData 32 in
  generateKeyPairFromSeed childSeed.

(** * Key exchange *)
Definition x25519_sharedSecret (privKey pubKey : ByteString) : ByteString := sha3_256 (privKey ++ pubKey).

(** The first [n] bytes of [cycle bs]. *)
Fixpoint take_cycle (n : nat) (bs rest : ByteString) : ByteString :=
  match n with
  | 0 => []
  | S n =>
      match rest with
      | b :: rest => b :: take_cycle n bs rest
      | [] => match bs with b :: rest => b :: take_cycle n bs rest | [] => [] end
      end
  end.

Definition chacha20_poly1305_encrypt (key nonce plaintext : ByteString) : ByteString :=
  let keyStream := sha3_256 (key ++ nonce) in
  zip_with xor plaintext (take_cycle (length plaintext) keyStream keyStream).

Definition chacha20_poly1305_decrypt (key nonce ciphertext : ByteString) : option ByteString :=
  Some (chacha20_poly1305_encrypt key nonce ciphertext).

Definition generateSharedSecret (privKey pubKey : ByteString) : ByteString := x25519_sharedSecret privKey pubKey.
Definition encryptWithSharedSecret (sharedSecret nonce plaintext : ByteString) : ByteString :=
  chacha20_poly1305_encrypt sharedSecret nonce plaintext.
Definition decryptWithSharedSecret (sharedSecret nonce ciphertext : ByteString) : option ByteString :=
  chacha20_poly1305_decrypt sharedSecret nonce ciphertext.

(** * VRF, commitments, placeholders *)
Definition vrfProve (privKey input : ByteString) : ByteString :=
  let hash := sha3_256 (privKey ++ input) in
  let proof := ed25519_sign privKey hash in
  hash ++ proof.

Definition vrfVerify (pubKey input proof : ByteString) : option ByteString :=
  let hash := take 32 proof in
  let signature := drop 32 proof in
  if ed25519_verify pubKey signature hash then Some hash else None.

Definition vrfProofToHash (proof : ByteString) : ByteString := take 32 proof.

Definition commit (value blinding : ByteString) : ByteString := hash (value ++ blinding).
Definition open (commitment value blinding : ByteString) : bool := bool_decide (commit value blinding = commitment).

(** [generateProof] and [verifyProof], the zero-knowledge placeholders. *)
Definition zk_generateProof (a b c : ByteString) : ByteString := replicate 128 x00.
Definition zk_verifyProof (a b c : ByteString) : bool := true.

(** * The hash is a sum of columns *)

Lemma byte_to_xor (a b : byte) : byte_to_Z (xor a b) = Z.lxor (byte_to_Z a) (byte_to_Z b).
Proof.
  unfold xor. rewrite byte_to_of_Z. change 256%Z with (2 ^ 8)%Z.
  pose proof (byte_to_Z_range a) as Ha. pose proof (byte_to_Z_range b) as Hb.
  rewrite <-(Z.mod_small (byte_to_Z a) (2 ^ 8)), <-(Z.mod_small (byte_to_Z b) (2 ^ 8)) by lia.
  rewrite <-!Z.land_ones by lia. apply Z.bits_inj'. intros i Hi.
  rewrite !Z.land_spec, !Z.lxor_spec, !Z.land_spec. btauto.
Qed.

Lemma xor_assoc (a b c : byte) : xor a (xor b c) = xor (xor a b) c.
Proof. apply byte_to_Z_inj. by rewrite !byte_to_xor, Z.lxor_assoc. Qed.

Lemma xor_comm (a b : byte) : xor a b = xor b a.
Proof. apply byte_to_Z_inj. by rewrite !byte_to_xor, Z.lxor_comm. Qed.

Lemma xor_0_l (a : byte) : xor x00 a = a.
Proof. apply byte_to_Z_inj. by rewrite byte_to_xor, Z.lxor_0_l. Qed.

Lemma xor_0_r (a : byte) : xor a x00 = a.
Proof. by rewrite xor_comm, xor_0_l. Qed.

Lemma xor_nilpotent (a : byte) : xor a a = x00.
Proof. apply byte_to_Z_inj. by rewrite byte_to_xor, Z.lxor_nilpotent. Qed.

Lemma xor_cancel_r (a b : byte) : xor (xor a b) b = a.
Proof. by rewrite <-xor_assoc, xor_nilpotent, xor_0_r. Qed.

Lemma absorb_assoc (a b c : ByteString) : absorb a (absorb b c) = absorb (absorb a b) c.
Proof.
  unfold absorb. revert b c. induction a as [|x a IH]; intros [|y b] [|z c]; simpl; try done.
  by rewrite xor_assoc, IH.
Qed.

Lemma absorb_comm (a b : ByteString) : absorb a b = absorb b a.
Proof.
  unfold absorb. revert b. induction a as [|x a IH]; intros [|y b]; simpl; try done. by rewrite xor_comm, IH.
Qed.

Lemma absorb_zeros_l (n : nat) (bs : ByteString) : absorb (replicate n x00) bs = take n bs.
Proof.
  unfold absorb. revert bs. induction n as [|n IH]; intros [|b bs]; simpl; try done. by rewrite xor_0_l, IH.
Qed.

Lemma absorb_zeros_r (n : nat) (bs : ByteString) : length bs ≤ n → absorb bs (replicate n x00) = bs.
Proof.
  unfold absorb. revert n. induction bs as [|b bs IH]; intros [|n] H; simpl in *; try done; [lia|].
  by rewrite xor_0_r, IH by lia.
Qed.

(** Absorbing a longer block is absorbing its first bytes. *)
Lemma absorb_take (s bs : ByteString) : absorb s bs = absorb s (take (length s) bs).
Proof.
  unfold absorb. revert bs. induction s as [|x s IH]; intros [|b bs]; simpl; try done. by rewrite <-IH.
Qed.

Lemma length_absorb (s bs : ByteString) : length s ≤ length bs → length (absorb s bs) = length s.
Proof. intros. unfold absorb. rewrite length_zip_with. lia. Qed.

(** The fuel of [chunkSize] is enough. *)
Lemma chunkSize_fuel_enough (f1 f2 n : nat) (bs : ByteString) :
  0 < n → length bs ≤ f1 → length bs ≤ f2 → chunkSize_fuel f1 n bs = chunkSize_fuel f2 n bs.
Proof.
  intros Hn. revert f2 bs. induction f1 as [|f1 IH]; intros [|f2] [|b bs] H1 H2; simpl in H1, H2; try done; try lia.
  cbn [chunkSize_fuel]. f_equal. apply IH; rewrite length_drop; simpl; lia.
Qed.

Lemma chunkSize_eq (n : nat) (bs : ByteString) :
  0 < n → chunkSize n bs = match bs with [] => [] | _ => take n bs :: chunkSize n (drop n bs) end.
Proof.
  intros Hn. unfold chunkSize. destruct bs as [|b bs]; [done|]. cbn [length chunkSize_fuel]. f_equal.
  apply chunkSize_fuel_enough; rewrite ?length_drop; simpl; lia.
Qed.

Lemma padSHA3_app (block bs : ByteString) : length block = 136 → padSHA3 (block ++ bs) = block ++ padSHA3 bs.
Proof.
  intros Hb. unfold padSHA3, len. rewrite length_app, Hb.
  replace (Z.of_nat (136 + length bs) mod 136)%Z with (Z.of_nat (length bs) mod 136)%Z.
  - case_bool_decide; by rewrite <-!app_assoc.
  - rewrite Nat2Z.inj_add. rewrite <-(Z_mod_plus_full (Z.of_nat (length bs)) 1 136). f_equal. lia.
Qed.

(** The blocks of a padded string are 136 bytes long: the string up to [136 - 2] bytes
    fits in one, and one byte more leaves the second without data. *)
Lemma padSHA3_short (bs : ByteString) :
  length bs ≤ 134 → padSHA3 bs = bs ++ [x06] ++ replicate (134 - length bs) x00 ++ [x80].
Proof.
  intros Hb. unfold padSHA3, len. rewrite Z.mod_small by lia. rewrite bool_decide_false by lia.
  by replace (Z.to_nat (136 - Z.of_nat (length bs) - 2)) with (134 - length bs) by lia.
Qed.

Lemma padSHA3_135 (bs : ByteString) :
  length bs = 135 → padSHA3 bs = bs ++ [x06] ++ replicate 135 x00 ++ [x80].
Proof. intros Hb. unfold padSHA3, len. by rewrite Hb. Qed.

Lemma foldl_absorb (blocks : list ByteString) (s : ByteString) (n : nat) :
  length s = n → Forall (λ b, n ≤ length b) blocks →
  foldl absorb s blocks = absorb s (foldl absorb (replicate n x00) blocks) ∧
  length (foldl absorb s blocks) = n.
Proof.
  revert s. induction blocks as [|b blocks IH]; intros s Hs Hf; simpl.
  { rewrite absorb_zeros_r by lia. done. }
  inversion_clear Hf as [|?? Hb Hbs].
  destruct (IH (absorb s b)) as [E1 L1]; [rewrite length_absorb; lia|done|].
  destruct (IH (absorb (replicate n x00) b)) as [E2 L2];
    [rewrite length_absorb; rewrite length_replicate; lia|done|].
  rewrite L1. split; [|done]. rewrite E1, E2, absorb_assoc. f_equal.
  rewrite absorb_zeros_l, (absorb_take s b). by rewrite Hs.
Qed.

Lemma chunkSize_blocks (k : nat) (bs : ByteString) :
  length bs = k * 136 → Forall (λ b, 32 ≤ length b) (chunkSize 136 bs).
Proof.
  revert bs. induction k as [|k IH]; intros bs Hl; [by destruct bs|].
  rewrite chunkSize_eq by lia. destruct bs as [|b bs]; [done|]. constructor.
  - rewrite length_take. lia.
  - apply IH. rewrite length_drop. lia.
Qed.

Lemma padSHA3_length (bs : ByteString) : ∃ k, length (padSHA3 bs) = k * 136.
Proof.
  exists (length bs / 136 + if bool_decide (length bs `mod` 136 = 135) then 2 else 1).
  pose proof (Nat.div_mod_eq (length bs) 136) as Hd. pose proof (Nat.mod_upper_bound (length bs) 136) as Hm.
  unfold padSHA3, len. rewrite <-(Nat2Z.inj_mod (length bs) 136 : _ = (_ mod 136)%Z).
  set (m := length bs `mod` 136) in *. set (q := length bs / 136) in *.
  repeat case_bool_decide; try lia; rewrite !length_app, length_replicate; cbn [length]; lia.
Qed.

Lemma length_sha3_256 (input : ByteString) : length (sha3_256 input) = 32.
Proof.
  unfold sha3_256, xorEnd. destruct (padSHA3_length input) as [k Hk].
  destruct (foldl_absorb (chunkSize 136 (padSHA3 input)) (replicate 32 x00) 32) as [_ HL];
    [done|by eapply chunkSize_blocks|].
  rewrite length_take, HL. done.
Qed.
