(* ===== verification/SpecCryptoProofs.v ===== *)
(** What the stand-in cryptography of the specification (SpecCrypto.v) does: the hash adds up
    the first 32 bytes of each block of 136, so it returns the beginning of a short
    string; with it, keys, signatures, the VRF and the cipher are computed on their
    inputs. *)
From S2P Require Import Prelude Haskell SpecCrypto.

(** * The hash *)

Lemma chunkSize_app (block bs : ByteString) :
  length block = 136 → chunkSize 136 (block ++ bs) = block :: chunkSize 136 bs.
Proof.
  intros Hb. rewrite chunkSize_eq by lia. destruct block as [|x block]; [done|].
  cbn [app]. change (x :: block ++ bs) with ((x :: block) ++ bs).
  by rewrite take_app_length', drop_app_length' by done.
Qed.

(** A block adds its first 32 bytes. *)
Lemma sha3_256_block (block bs : ByteString) :
  length block = 136 → sha3_256 (block ++ bs) = absorb (take 32 block) (sha3_256 bs).
Proof.
  intros Hb. unfold sha3_256, xorEnd. rewrite padSHA3_app, chunkSize_app by done. cbn [foldl].
  destruct (padSHA3_length bs) as [k Hk]. pose proof (chunkSize_blocks k _ Hk) as Hc.
  rewrite absorb_zeros_l.
  destruct (foldl_absorb (chunkSize 136 (padSHA3 bs)) (take 32 block) 32) as [E L];
    [rewrite length_take; lia|done|].
  destruct (foldl_absorb (chunkSize 136 (padSHA3 bs)) (replicate 32 x00) 32) as [_ L']; [done..|].
  rewrite (take_ge (foldl absorb (take 32 block) _)), (take_ge (foldl absorb (replicate 32 x00) _)) by lia. done.
Qed.

Lemma sha3_256_nil_blocks (bs : ByteString) :
  length bs = 136 → take 32 (foldl absorb (replicate 32 x00) (chunkSize 136 bs)) = take 32 bs.
Proof.
  intros Hb. rewrite <-(app_nil_r bs) at 1. rewrite chunkSize_app by done. cbn [foldl chunkSize chunkSize_fuel length].
  rewrite absorb_zeros_l. by rewrite take_take, Nat.min_id.
Qed.

Lemma sha3_256_short (bs : ByteString) : length bs ≤ 134 → sha3_256 bs = take 32 (padSHA3 bs).
Proof.
  intros Hb. unfold sha3_256, xorEnd. apply sha3_256_nil_blocks.
  rewrite padSHA3_short by done. rewrite !length_app, length_replicate. simpl. lia.
Qed.

(** A string of 32 to 135 bytes hashes to its beginning. *)
Lemma sha3_256_prefix (bs : ByteString) : 32 ≤ length bs ≤ 135 → sha3_256 bs = take 32 bs.
Proof.
  intros Hb. destruct (decide (length bs = 135)) as [H135|].
  - unfold sha3_256, xorEnd. rewrite padSHA3_135 by done.
    change ([x06] ++ replicate 135 x00 ++ [x80]) with ([x06] ++ (replicate 135 x00 ++ [x80])).
    rewrite app_assoc, chunkSize_app by (rewrite length_app; simpl; lia). cbn [foldl].
    rewrite absorb_zeros_l, take_app_le by lia.
    change (chunkSize 136 (replicate 135 x00 ++ [x80])) with [replicate 135 x00 ++ [x80]]. cbn [foldl].
    rewrite absorb_take, length_take, Nat.min_l by lia.
    change (take 32 (replicate 135 x00 ++ [x80])) with (replicate 32 x00).
    rewrite absorb_zeros_r by (rewrite length_take; lia). by rewrite take_take.
  - rewrite sha3_256_short, padSHA3_short by lia. by rewrite take_app_le by lia.
Qed.

Lemma sha3_512_take (bs : ByteString) : take 32 (sha3_512 bs) = sha3_256 (bs ++ replicate 32 x00).
Proof. unfold sha3_512. by rewrite take_app_length' by by rewrite length_sha3_256. Qed.

(** The hash of the specification resists nothing.  A string of 32 to 135 bytes hashes
    to its first 32 bytes, so every 32-byte value is its own preimage and later bytes do
    not matter; a block of 136 bytes adds its first 32 bytes by exclusive or, so blocks
    commute, and prefixing any string by a block of zeros does not change its hash. *)
Theorem sha3_256_no_resistance :
  (∀ bs, 32 ≤ length bs ≤ 135 → sha3_256 bs = take 32 bs) ∧
  (∀ block bs, length block = 136 → sha3_256 (block ++ bs) = absorb (take 32 block) (sha3_256 bs)) ∧
  (∀ a b bs, length a = 136 → length b = 136 → sha3_256 (a ++ b ++ bs) = sha3_256 (b ++ a ++ bs)) ∧
  (∀ bs, sha3_256 (replicate 136 x00 ++ bs) = sha3_256 bs).
Proof.
  split; [apply sha3_256_prefix|]. split; [apply sha3_256_block|]. split.
  - intros a b bs Ha Hb. rewrite !sha3_256_block by done. rewrite !absorb_assoc. f_equal. apply absorb_comm.
  - intros bs. rewrite sha3_256_block by done.
    change (take 32 (replicate 136 x00)) with (replicate 32 x00).
    rewrite absorb_zeros_l. apply take_ge. by rewrite length_sha3_256.
Qed.

(** * Keys and signatures *)

Lemma keypair_is_seed (seed : ByteString) :
  length seed = 32 → ed25519_keypair seed = (seed ++ seed, seed).
Proof.
  intros Hs. unfold ed25519_keypair. rewrite sha3_512_take, sha3_256_prefix
    by (rewrite length_app, length_replicate; lia).
  by rewrite take_app_length'.
Qed.

Lemma length_sign_r (priv msg : ByteString) : length (take 32 (sha3_512 (take 32 priv ++ msg))) = 32.
Proof. rewrite sha3_512_take. apply length_sha3_256. Qed.

Lemma ed25519_verify_split (pub r s msg : ByteString) :
  length r = 32 →
  ed25519_verify pub (r ++ s) msg = bool_decide (s = sha3_256 (r ++ pub ++ msg ++ replicate 32 x00)).
Proof.
  intros Hr. unfold ed25519_verify.
  rewrite take_app_length', drop_app_length', sha3_512_take by done. by rewrite <-!app_assoc.
Qed.

(** A signature that anyone can make. *)
Definition forge (r pub msg : ByteString) : ByteString := r ++ take 32 (sha3_512 (r ++ pub ++ msg)).

Lemma forge_verifies (r pub msg : ByteString) : length r = 32 → ed25519_verify pub (forge r pub msg) msg = true.
Proof.
  intros Hr. unfold forge. rewrite ed25519_verify_split by done. apply bool_decide_eq_true_2.
  rewrite sha3_512_take. by rewrite <-!app_assoc.
Qed.

(** Signatures can be forged.  The keys made from a 32-byte seed are the seed itself,
    twice as the private and once as the public key; and for every public key, message
    and 32 bytes [r] the string [forge] makes of public data verifies, and it makes a VRF
    proof of any output of 32 bytes. *)
Theorem signature_forgery (pub msg r : ByteString) :
  length r = 32 →
  (∀ seed, length seed = 32 → generateKeyPairFromSeed seed = (seed ++ seed, seed)) ∧
  verify pub (forge r pub msg) msg = true ∧
  (∀ input, length msg = 32 → vrfVerify pub input (msg ++ forge r pub msg) = Some msg).
Proof.
  intros Hr. split; [apply keypair_is_seed|]. split; [by apply forge_verifies|]. intros input Hm. unfold vrfVerify.
  by rewrite take_app_length', drop_app_length', forge_verifies by done.
Qed.

(** The second half of an honest signature: the first half, with the padding byte of a
    message of 8 to 39 bytes added to it. *)
Lemma sign_short (priv msg : ByteString) (R : ByteString) :
  length R = 32 → length priv = 64 → length msg ≤ 7 →
  sha3_256 (R ++ priv ++ msg ++ replicate 32 x00) = R.
Proof.
  intros HR Hp Hm. rewrite sha3_256_prefix by (rewrite !length_app, length_replicate; lia).
  by rewrite take_app_length'.
Qed.

Lemma zeros_end (k : nat) : k ≤ 31 → sha3_256 (replicate k x00) = replicate k x00 ++ x06 :: replicate (31 - k) x00.
Proof.
  intros Hk. rewrite sha3_256_short, padSHA3_short by (rewrite length_replicate; lia).
  rewrite length_replicate, take_app, length_replicate, (take_ge (replicate k _)) by (rewrite length_replicate; lia).
  f_equal. replace (32 - k) with (S (31 - k)) by lia. cbn [app take]. f_equal.
  rewrite take_app_le by (rewrite length_replicate; lia). rewrite take_replicate. f_equal. lia.
Qed.

Lemma sign_marked (priv msg : ByteString) (R : ByteString) :
  length R = 32 → length priv = 64 → 8 ≤ length msg ≤ 39 →
  sha3_256 (R ++ priv ++ msg ++ replicate 32 x00) ≠ R.
Proof.
  intros HR Hp Hm He. set (k := length msg - 8).
  assert (R ++ priv ++ msg ++ replicate 32 x00 =
          (R ++ priv ++ msg ++ replicate (40 - length msg) x00) ++ replicate k x00) as Hsplit.
  { rewrite <-!app_assoc. do 3 f_equal. rewrite <-replicate_add. f_equal. lia. }
  rewrite Hsplit, sha3_256_block in He by (rewrite !length_app, length_replicate; lia).
  rewrite take_app_length', zeros_end in He by (done || lia).
  apply (f_equal (λ l : list byte, l !! k)) in He. unfold absorb, ByteString in *. rewrite lookup_zip_with in He.
  rewrite lookup_app_r, length_replicate, Nat.sub_diag in He by (rewrite length_replicate; lia). cbn [lookup list_lookup] in He.
  destruct (lookup_lt_is_Some_2 R k) as [x Hx]; [lia|]. rewrite Hx in He. simpl in He.
  injection He as He. apply (f_equal (xor x)) in He. rewrite xor_assoc, xor_nilpotent, xor_0_l in He. done.
Qed.

Lemma verify_short (pub msg R S : ByteString) :
  length R = 32 → length pub = 32 → length msg ≤ 39 →
  ed25519_verify pub (R ++ S) msg = bool_decide (S = R).
Proof.
  intros HR Hp Hm. rewrite ed25519_verify_split by done.
  rewrite sha3_256_prefix by (rewrite !length_app, length_replicate; lia).
  by rewrite take_app_length'.
Qed.

Lemma honest_verify (seed msg : ByteString) :
  length seed = 32 → length msg ≤ 39 →
  ed25519_verify seed (ed25519_sign (seed ++ seed) msg) msg = bool_decide (length msg ≤ 7).
Proof.
  intros Hs Hm. unfold ed25519_sign. pose proof (length_sign_r (seed ++ seed) msg) as HR.
  set (R := take 32 (sha3_512 (take 32 (seed ++ seed) ++ msg))) in *.
  clearbody R. rewrite verify_short by done. rewrite sha3_512_take, <-!app_assoc, (app_assoc seed seed).
  assert (length (seed ++ seed) = 64) by (rewrite length_app; lia). apply bool_decide_ext. split.
  - intros He. destruct (decide (length msg ≤ 7)); [done|]. exfalso. revert He. apply sign_marked; [done|done|lia].
  - intros. by apply sign_short.
Qed.

Lemma sign_Some (priv msg : ByteString) : sign priv msg = Some (ed25519_sign priv msg).
Proof.
  unfold sign. destruct (ed25519_sign priv msg) as [|b bs] eqn:E; [|done].
  apply (f_equal length) in E. unfold ed25519_sign in E. rewrite length_app, length_sign_r in E. discriminate E.
Qed.

(** Which honest signatures verify.  With keys made from a 32-byte seed, signing never
    fails; the signature of a message of up to 7 bytes verifies and the signature of a
    message of 8 to 39 bytes, a hash for instance, does not, because the two sides hash
    keys of different lengths.  So no VRF proof verifies under its own key. *)
Theorem honest_signatures (seed msg input : ByteString) :
  length seed = 32 →
  let '(priv, pub) := generateKeyPairFromSeed seed in
  (∃ sig, sign priv msg = Some sig ∧
     (length msg ≤ 7 → verify pub sig msg = true) ∧
     (8 ≤ length msg ≤ 39 → verify pub sig msg = false)) ∧
  vrfVerify pub input (vrfProve priv input) = None.
Proof.
  intros Hs. unfold generateKeyPairFromSeed. rewrite keypair_is_seed by done. split.
  - eexists. split; [apply sign_Some|]. unfold verify.
    split; intros; rewrite honest_verify by lia; [by apply bool_decide_eq_true_2|apply bool_decide_eq_false_2; lia].
  - unfold vrfVerify, vrfProve. pose proof (length_sha3_256 ((seed ++ seed) ++ input)) as Hh.
    rewrite take_app_length', drop_app_length' by done. rewrite honest_verify by lia.
    by rewrite bool_decide_eq_false_2 by lia.
Qed.

(** * The cipher and the key exchange *)

Lemma length_take_cycle (n : nat) (bs rest : ByteString) : bs ≠ [] → length (take_cycle n bs rest) = n.
Proof.
  intros Hne. revert rest. induction n as [|n IH]; intros [|b rest]; simpl; try done; [|by rewrite IH].
  destruct bs; [done|]. simpl. by rewrite IH.
Qed.

Lemma take_cycle_self (n : nat) (bs rest : ByteString) : n ≤ length rest → take_cycle n bs rest = take n rest.
Proof. revert rest. induction n as [|n IH]; intros [|b rest] H; simpl in *; try done; [lia|]. rewrite IH; [done|lia]. Qed.

Lemma xor_stream_cancel (p ks : ByteString) : length p ≤ length ks → absorb (absorb p ks) ks = p.
Proof.
  unfold absorb. revert ks. induction p as [|x p IH]; intros [|k ks] H; simpl in *; try done; [lia|].
  rewrite xor_cancel_r, IH; [done|lia].
Qed.

(** The cipher of the specification.  Decrypting returns the plaintext under every key
    and nonce and keeps lengths; but with a 32-byte key and a nonce of at most 103 bytes
    the nonce is not used and the key stream is the key itself, so encrypting 32 zeros
    returns the key; and the secret "shared" between a private key and any
    public key is the first one's seed. *)
Theorem cipher_roundtrip (key nonce plaintext : ByteString) :
  decryptWithSharedSecret key nonce (encryptWithSharedSecret key nonce plaintext) = Some plaintext ∧
  length (encryptWithSharedSecret key nonce plaintext) = length plaintext ∧
  (length key = 32 → length nonce ≤ 103 →
     encryptWithSharedSecret key nonce plaintext = encryptWithSharedSecret key [] plaintext ∧
     encryptWithSharedSecret key nonce (replicate 32 x00) = key) ∧
  (∀ seed pub, length seed = 32 → length pub = 32 →
     generateSharedSecret (generateKeyPairFromSeed seed).1 pub = seed).
Proof.
  assert (∀ k n, sha3_256 (k ++ n) ≠ []) as Hne.
  { intros k n E. pose proof (length_sha3_256 (k ++ n)) as H. by rewrite E in H. }
  unfold decryptWithSharedSecret, encryptWithSharedSecret, chacha20_poly1305_decrypt, chacha20_poly1305_encrypt.
  cbv zeta.
  split; [|split; [|split]].
  - rewrite length_zip_with, length_take_cycle, Nat.min_id by done. f_equal.
    apply xor_stream_cancel. by rewrite length_take_cycle.
  - rewrite length_zip_with, length_take_cycle by done. lia.
  - intros Hk Hn.
    assert (sha3_256 (key ++ nonce) = key) as ->
      by (rewrite sha3_256_prefix by (rewrite length_app; lia); by rewrite take_app_length').
    assert (sha3_256 (key ++ []) = key) as ->
      by (rewrite sha3_256_prefix by (rewrite length_app; simpl; lia); by rewrite take_app_length').
    split; [done|]. rewrite length_replicate.
    rewrite (take_cycle_self 32 key key) by lia. rewrite (take_ge key) by lia.
    rewrite (absorb_zeros_l 32 key : zip_with xor _ _ = _). apply take_ge. lia.
  - intros seed pub Hs Hp. unfold generateKeyPairFromSeed, generateSharedSecret, x25519_sharedSecret.
    rewrite keypair_is_seed by done. cbn [fst].
    rewrite sha3_256_prefix by (rewrite !length_app; lia). by rewrite <-app_assoc, take_app_length'.
Qed.

(** * Samples *)
Definition sample_seed : ByteString := bytes_of_string "an example seed of 32 bytes long".

Lemma sha3_256_no_resistance_witness :
  sha3_256 (sample_seed ++ [x07]) = sample_seed ∧
  sha3_256 (replicate 136 x00 ++ sample_seed) = sha3_256 sample_seed.
Proof.
  destruct sha3_256_no_resistance as (H1 & _ & _ & H4). split; [|apply H4].
  rewrite H1 by (vm_compute; lia). reflexivity.
Defined.

Lemma signature_forgery_witness :
  verify sample_seed (forge sample_seed sample_seed [x01]) [x01] = true.
Proof. apply (signature_forgery sample_seed [x01] sample_seed). reflexivity. Defined.

Lemma honest_signatures_witness :
  vrfVerify sample_seed [x01] (vrfProve (sample_seed ++ sample_seed) [x01]) = None.
Proof.
  pose proof (honest_signatures sample_seed [] [x01] eq_refl) as H.
  assert (generateKeyPairFromSeed sample_seed = (sample_seed ++ sample_seed, sample_seed)) as E
    by (vm_compute; reflexivity).
  rewrite E in H. exact (proj2 H).
Defined.

Lemma cipher_roundtrip_witness :
  encryptWithSharedSecret sample_seed [x01] (replicate 32 x00) = sample_seed.
Proof.
  destruct (cipher_roundtrip sample_seed [x01] []) as (_ & _ & H & _).
  apply H; [reflexivity|vm_compute; lia].
Defined.
