(* ===== verification/SpecMerkle.v ===== *)
(** The Merkle trees of the executable specification
    (src/formal-protocol/crypto-coin-protocol/src/CryptoCoin/Protocol/Merkle.hs, Haskell).
    [Int] is a signed 64-bit integer that wraps; [shiftL] by 64 or more gives 0.  A [Hash]
    is a byte string of any length, and [Crypto.hash] is the stand-in of SpecCrypto.v.  A
    value that is never forced (the depth that [generateProof] passes around) is not
    computed.  MerkleAgainstSpec.v compares these trees with the Rust crate's. *)
From S2P Require Import Prelude Haskell SpecCrypto SpecCryptoProofs.

(** [newtype Hash = Hash ByteString]. *)
Definition Hash : Type := ByteString.

Inductive MerkleTree :=
| MerkleLeaf (h : Hash)
| MerkleNode (h : Hash) (left right : MerkleTree).

Definition rootHash (t : MerkleTree) : Hash :=
  match t with
  | MerkleLeaf h => h
  | MerkleNode h _ _ => h
  end.

(** [go] of [countLeadingZeros]. *)
Fixpoint countLeadingZeros_go (bits : nat) (val : Z) : Z :=
  match bits with
  | 0 => 0
  | S bits =>
      if bool_decide (val >= shiftL 1 (Z.of_nat bits))%Z then 0
      else int64 (1 + countLeadingZeros_go bits (shiftL val 1))
  end.

Definition countLeadingZeros (x : Z) : Z := countLeadingZeros_go 64 x.

Definition nextPowerOfTwo (n : Z) : Z :=
  if bool_decide (n ≤ 1)%Z then 1
  else shiftL 1 (int64 (64 - countLeadingZeros (int64 (n - 1)))).

Definition emptyTreeHash : Hash := replicate 32 x00.

Definition combineHashes (left right : Hash) : Hash :=
  hash (left ++ right).

Definition hashLeaf (h : Hash) : Hash := combineHashes h h.

(** The newtype [MerkleRoot] is the hash it wraps. *)
Definition combineRoots (h1 h2 : Hash) : Hash := combineHashes h1 h2.

(** [replicate] of a negative number is empty. *)
Definition padToPowerOfTwo (hashes : list Hash) : list Hash :=
  match hashes with
  | [] => [emptyTreeHash]
  | _ =>
      let nextPow2 := nextPowerOfTwo (len hashes) in
      if bool_decide (len hashes = nextPow2) then hashes
      else hashes ++ replicate (Z.to_nat (int64 (nextPow2 - len hashes))) emptyTreeHash
  end.

Fixpoint buildTree_fuel (fuel : nat) (hashes : list Hash) : exec MerkleTree :=
  match fuel with
  | 0 => NoFuel
  | S fuel =>
      match hashes with
      | [h] => Ret (MerkleLeaf h)
      | _ =>
          let half := length hashes `div` 2 in
          left ← buildTree_fuel fuel (take half hashes);
          right ← buildTree_fuel fuel (drop half hashes);
          Ret (MerkleNode (combineHashes (rootHash left) (rootHash right)) left right)
      end
  end.

Definition buildTree (hashes : list Hash) : exec MerkleTree := buildTree_fuel (length hashes) hashes.

Definition computeRoot (hashes : list Hash) : exec Hash :=
  match hashes with
  | [] => Ret emptyTreeHash
  | [h] => Ret (hashLeaf h)
  | _ =>
      t ← buildTree (padToPowerOfTwo hashes);
      Ret (rootHash t)
  end.

Definition computeRootFromLeaves : list Hash → exec Hash := computeRoot.

(** [go] of [generateProof]. *)
Fixpoint generateProof_go (fuel : nat) (i : nat) (hs : list Hash) : exec (option (list Hash)) :=
  match fuel with
  | 0 => NoFuel
  | S fuel =>
      match hs with
      | [h] => Ret (Some [h])
      | _ =>
          if bool_decide (length hs ≤ i) then Ret None
          else
            let half := length hs `div` 2 in
            let leftHashes := take half hs in
            let rightHashes := drop half hs in
            let siblingIdx := if bool_decide (i < half) then half + i `mod` half else i `mod` half in
            sibling ← or_panic (hs !! siblingIdx);
            rest ← (if bool_decide (i < half) then generateProof_go fuel i leftHashes
                    else generateProof_go fuel (i - half) rightHashes);
            Ret (match rest with Some rest => Some (sibling :: rest) | None => None end)
      end
  end.

(** A padded list of two hashes or more is refused with a negative index at once, and the
    indices of the recursive calls are not negative. *)
Definition generateProof (idx : Z) (hashes : list Hash) : exec (option (list Hash)) :=
  match hashes with
  | [] => Ret None
  | [h] => Ret (Some [h])
  | _ =>
      let padded := padToPowerOfTwo hashes in
      if bool_decide (idx < 0)%Z then Ret None
      else generateProof_go (length padded) (Z.to_nat idx) padded
  end.

(** The order of byte strings. *)
Fixpoint bytes_le (a b : list byte) : bool :=
  match a, b with
  | [], _ => true
  | _ :: _, [] => false
  | x :: a, y :: b =>
      bool_decide (byte_to_Z x < byte_to_Z y)%Z || bool_decide (x = y) && bytes_le a b
  end.

Definition combineSingles (h1 h2 : Hash) : Hash :=
  let le := bytes_le h1 h2 in
  combineHashes (if le then h1 else h2) (if le then h2 else h1).

Definition verifyProof (leafHash : Hash) (proof : list Hash) (expectedRoot : Hash) : bool :=
  bool_decide (foldl combineSingles leafHash proof = expectedRoot).

(** * The specification does not pad *)

(** [1 `shiftL` 63] is the least [Int], so no value has leading zeros by this count. *)
Lemma countLeadingZeros_0 (x : Z) : is_int64 x → countLeadingZeros x = 0%Z.
Proof.
  intros Hx. unfold countLeadingZeros. cbn [countLeadingZeros_go]. rewrite bool_decide_true; [done|].
  change (shiftL 1 (Z.of_nat 63)) with (- 2 ^ 63)%Z. unfold is_int64 in Hx. lia.
Qed.

Lemma nextPowerOfTwo_0 (n : Z) : (2 ≤ n < 2 ^ 63)%Z → nextPowerOfTwo n = 0%Z.
Proof.
  intros Hn. unfold nextPowerOfTwo. rewrite bool_decide_false by lia.
  rewrite (int64_small (n - 1)), countLeadingZeros_0 by (unfold is_int64; lia). done.
Qed.

Lemma padToPowerOfTwo_id (hs : list Hash) : 2 ≤ length hs → is_slice hs → padToPowerOfTwo hs = hs.
Proof.
  intros H2 Hs. unfold is_slice, isize_max, len in Hs. destruct hs as [|h hs]; [simpl in H2; lia|].
  unfold padToPowerOfTwo. rewrite nextPowerOfTwo_0 by (unfold len; lia). rewrite bool_decide_false by (unfold len; lia).
  rewrite int64_small by (unfold is_int64, len; lia).
  replace (Z.to_nat (0 - len (h :: hs))) with 0 by (unfold len; lia). simpl. by rewrite app_nil_r.
Qed.

(** * What is built *)
Fixpoint spec_leaves (t : MerkleTree) : list Hash :=
  match t with
  | MerkleLeaf h => [h]
  | MerkleNode _ l r => spec_leaves l ++ spec_leaves r
  end.

(** Every inner node hashes its children. *)
Fixpoint spec_hashed (t : MerkleTree) : Prop :=
  match t with
  | MerkleLeaf _ => True
  | MerkleNode h l r => h = combineHashes (rootHash l) (rootHash r) ∧ spec_hashed l ∧ spec_hashed r
  end.

Lemma half_bounds (n : nat) : 2 ≤ n → 1 ≤ n `div` 2 < n ∧ 1 ≤ n - n `div` 2 < n.
Proof. intros. pose proof (Nat.div_mod_eq n 2). pose proof (Nat.mod_upper_bound n 2). lia. Qed.

Lemma buildTree_fuel_total (fuel : nat) (hs : list Hash) :
  hs ≠ [] → length hs ≤ fuel →
  ∃ t, buildTree_fuel fuel hs = Ret t ∧ spec_leaves t = hs ∧ spec_hashed t.
Proof.
  revert hs. induction fuel as [|fuel IH]; intros hs Hne Hf; [by destruct hs; simpl in Hf; [|lia]|].
  cbn [buildTree_fuel]. destruct hs as [|h [|h' hs]]; [done|by exists (MerkleLeaf h)|].
  set (l := h :: h' :: hs) in *. destruct (half_bounds (length l)) as [H1 H2]; [simpl; lia|].
  assert (∀ l' : list Hash, 1 ≤ length l' → l' ≠ []) as Hnil by (by intros [|??] ?; [simpl in *; lia|]).
  destruct (IH (take (length l `div` 2) l)) as (tl & -> & Hl & Hhl);
    [apply Hnil; rewrite length_take; lia|rewrite length_take; lia|].
  destruct (IH (drop (length l `div` 2) l)) as (tr & -> & Hr & Hhr);
    [apply Hnil; rewrite length_drop; lia|rewrite length_drop; lia|].
  eexists. split; [done|]. cbn [spec_leaves spec_hashed]. by rewrite Hl, Hr, take_drop.
Qed.

(** The root of two or more hashes is that of the tree over them, without padding. *)
Lemma computeRoot_tree (hs : list Hash) :
  2 ≤ length hs → is_slice hs →
  ∃ t, buildTree hs = Ret t ∧ spec_leaves t = hs ∧ spec_hashed t ∧ computeRoot hs = Ret (rootHash t).
Proof.
  intros H2 Hs. pose proof (padToPowerOfTwo_id hs H2 Hs) as Hp.
  destruct (buildTree_fuel_total (length hs) hs) as (t & Ht & Hl & Hh); [by intros ->; simpl in H2; lia|done|].
  exists t. split; [done|]. split; [done|]. split; [done|].
  unfold computeRoot, buildTree. destruct hs as [|h [|h' hs]]; [simpl in H2; lia..|]. by rewrite Hp, Ht.
Qed.

(** * Roots with the specification's hash *)

(** A hash as [Crypto.hash] returns it. *)
Definition full (h : Hash) : Prop := length h = 32.

Lemma combineHashes_left (l r : Hash) : full l → full r → combineHashes l r = l.
Proof.
  unfold full, combineHashes, hash. intros Hl Hr.
  rewrite sha3_256_prefix by (rewrite length_app; lia). by rewrite take_app_length'.
Qed.

Lemma spec_hashed_root_first (t : MerkleTree) :
  Forall full (spec_leaves t) → spec_hashed t → head (spec_leaves t) = Some (rootHash t) ∧ full (rootHash t).
Proof.
  induction t as [h|h l IHl r IHr]; cbn [spec_leaves spec_hashed rootHash]; [by intros Hf _; inversion Hf|].
  intros [Hl Hr]%Forall_app (-> & Hhl & Hhr). destruct (IHl Hl Hhl) as [El Fl], (IHr Hr Hhr) as [_ Fr].
  rewrite combineHashes_left by done. split; [|done]. by destruct (spec_leaves l).
Qed.

Lemma computeRoot_first (h : Hash) (hs : list Hash) :
  Forall full (h :: hs) → is_slice (h :: hs) → computeRoot (h :: hs) = Ret h.
Proof.
  intros Hf Hs. destruct hs as [|h' hs].
  { inversion Hf. cbn. unfold hashLeaf. by rewrite combineHashes_left. }
  destruct (computeRoot_tree (h :: h' :: hs)) as (t & _ & Hl & Hh & ->); [simpl; lia|done|].
  rewrite <-Hl in Hf. destruct (spec_hashed_root_first t Hf Hh) as [E _]. rewrite Hl in E. by injection E as <-.
Qed.

Lemma combineSingles_min (h1 h2 : Hash) :
  full h1 → full h2 → combineSingles h1 h2 = if bytes_le h1 h2 then h1 else h2.
Proof. intros. unfold combineSingles. destruct (bytes_le h1 h2); by rewrite combineHashes_left. Qed.

(** The specification's Merkle root binds one hash.  On hashes of 32 bytes, as its hash
    function returns them, the root of every non-empty list is its first element, whatever
    follows; and the proof that consists of the root alone is accepted for a leaf exactly
    when the root is not the greater of the two. *)
Theorem spec_root_is_first (h leaf : Hash) (hs : list Hash) :
  Forall full (leaf :: h :: hs) → is_slice (h :: hs) →
  computeRoot (h :: hs) = Ret h ∧
  verifyProof leaf [h] h = (bool_decide (leaf = h) || negb (bytes_le leaf h)).
Proof.
  intros [Hleaf Hf]%Forall_cons Hs. split; [by apply computeRoot_first|]. apply Forall_cons in Hf as [Hh _].
  unfold verifyProof. cbn [foldl]. rewrite combineSingles_min by done.
  destruct (bytes_le leaf h); simpl; [by rewrite orb_false_r|]. by rewrite orb_true_r, bool_decide_true.
Qed.

Lemma spec_root_is_first_witness :
  computeRoot [replicate 32 x02; replicate 32 x01; replicate 32 x03] = Ret (replicate 32 x02).
Proof.
  apply (spec_root_is_first (replicate 32 x02) emptyTreeHash [replicate 32 x01; replicate 32 x03]);
    [by repeat constructor|]. vm_compute. discriminate.
Defined.
