(* ===== verification/MerkleAgainstSpec.v ===== *)
(** The Rust crate's Merkle trees (Merkle.v) against the specification's (SpecMerkle.v).  The
    two hash with different functions: the crate with the sha3 crate's digest, a parameter
    here, the specification with the stand-in of SpecCrypto.v.  So the comparison is between
    the trees, not between the digests in their inner nodes. *)
From S2P Require Import Prelude Haskell SpecCrypto SpecCryptoProofs SpecMerkle Merkle MerkleTree MerkleProofs MerkleTests.

(** The bytes of the crate's hash, a hash of the specification. *)
Definition bytes_of (h : Merkle.Hash) : SpecMerkle.Hash := abytes (hash_bytes h).

(** The same tree, whatever the inner nodes hold. *)
Fixpoint same_tree (t : Merkle.MerkleTree) (s : SpecMerkle.MerkleTree) : Prop :=
  match t, s with
  | Leaf h, MerkleLeaf h' => h' = bytes_of h
  | Node _ l r, MerkleNode _ l' r' => same_tree l l' ∧ same_tree r r'
  | _, _ => False
  end.

Lemma same_tree_leaves t s : same_tree t s → spec_leaves s = bytes_of <$> leaves t.
Proof.
  revert s. induction t as [h|h l IHl r IHr]; intros [h'|h' l' r']; simpl; try done; [by intros ->|].
  intros [Hl Hr]. by rewrite (IHl l'), (IHr r'), fmap_app.
Qed.

Section Digest.
Context {SHA3 : Sha3_256}.

Lemma build_tree_nil (fuel : nat) : build_tree_fuel fuel [] = NoFuel.
Proof. induction fuel as [|fuel IH]; [done|]. cbn [build_tree_fuel]. change (take _ []) with (@nil Merkle.Hash). by rewrite IH. Qed.

Lemma build_same_tree (fuel : nat) (hs : list Merkle.Hash) (t : Merkle.MerkleTree) :
  build_tree_fuel fuel hs = Ret t →
  ∃ s, buildTree_fuel fuel (bytes_of <$> hs) = Ret s ∧ same_tree t s.
Proof.
  revert hs t. induction fuel as [|fuel IH]; intros hs t; [done|]. cbn [build_tree_fuel buildTree_fuel].
  destruct hs as [|h [|h' hs]].
  - cbn. rewrite bool_decide_false by done. intros (x & Hx & _)%exec_bind_Ret. change (take _ []) with (@nil Merkle.Hash) in Hx.
    by rewrite build_tree_nil in Hx.
  - intros [= <-]. by exists (MerkleLeaf (bytes_of h)).
  - set (l := h :: h' :: hs). rewrite bool_decide_false by (simpl; lia).
    change (bytes_of <$> l) with (bytes_of h :: bytes_of h' :: (bytes_of <$> hs)) at 1. cbv iota.
    rewrite length_fmap, <-fmap_take, <-fmap_drop.
    intros (tl & Hl & (tr & Hr & [= <-])%exec_bind_Ret)%exec_bind_Ret.
    destruct (IH _ _ Hl) as (sl & -> & Sl), (IH _ _ Hr) as (sr & -> & Sr). by eexists.
Qed.

(** On a list whose length is not a power of two the crate pads. *)
Lemma level_exact (n : nat) : 1 ≤ n → n = 2 ^ level n ↔ ∃ k, n = 2 ^ k.
Proof. intros Hn. split; [by exists (level n)|]. intros [k ->]. by rewrite level_pow2. Qed.

(** C12: the crate's root against the specification's, each with its own hash function.  On
    the empty list both are 32 zero bytes; on a single hash the crate returns it and the
    specification hashes it with itself; on two hashes or more each root is that of a tree
    whose inner nodes hash their children, the specification's over the list as it is (its
    [nextPowerOfTwo] gives 0, so it does not pad), the crate's over the list padded with
    zero hashes; and these are the same tree exactly when the length is a power of two. *)
Theorem root_against_spec (hs : list Merkle.Hash) :
  is_slice hs →
  match hs with
  | [] => compute_root hs = Ret hash_zero ∧ computeRoot [] = Ret (bytes_of hash_zero)
  | [h] => compute_root hs = Ret h ∧ computeRoot [bytes_of h] = Ret (hashLeaf (bytes_of h))
  | _ => ∃ t s,
      compute_root hs = Ret (root_hash t) ∧ build_tree (leaves t) = Ret t ∧ hashed t ∧
      leaves t = hs ++ replicate (2 ^ level (length hs) - length hs) hash_zero ∧
      computeRoot (bytes_of <$> hs) = Ret (rootHash s) ∧ buildTree (spec_leaves s) = Ret s ∧ spec_hashed s ∧
      spec_leaves s = bytes_of <$> hs ∧
      (same_tree t s ↔ ∃ k, length hs = 2 ^ k)
  end.
Proof.
  intros Hs. destruct hs as [|h [|h' hs']] eqn:E; [done|done|]. rewrite <-E in *.
  assert (2 ≤ length hs) as H2 by (rewrite E; simpl; lia). clear E h h' hs'.
  assert (hs ≠ []) as Hne by (intros ->; simpl in H2; lia).
  destruct (compute_root_tree hs Hne Hs) as (padded & t & Hp & Ht & Hl & Hh & _ & Hr).
  rewrite pad_value in Hp by done. injection Hp as <-.
  destruct (computeRoot_tree (bytes_of <$> hs)) as (s & Hb & Hsl & Hsh & Hsr);
    [by rewrite length_fmap|unfold is_slice, len in *; by rewrite length_fmap|].
  exists t, s. rewrite Hl, Hsl. do 8 (split; [done|]). rewrite <-level_exact by lia. split.
  - intros Hsame%same_tree_leaves. rewrite Hsl, Hl in Hsame. apply (f_equal length) in Hsame.
    rewrite !length_fmap, length_app, length_replicate in Hsame. pose proof (level_upper (length hs)). lia.
  - intros Hpow. rewrite <-Hpow, Nat.sub_diag, app_nil_r in Ht. unfold build_tree in Ht.
    destruct (build_same_tree _ _ _ Ht) as (s' & Hs' & Hsame). unfold buildTree in Hb.
    rewrite length_fmap in Hb. congruence.
Qed.

(** ** Proofs *)
Lemma generateProof_go_collect (k fuel fuel' i : nat) (hs acc : list Merkle.Hash) :
  length hs = 2 ^ k → i < 2 ^ k → k < fuel → k < fuel' →
  ∃ sibs l, collect_siblings_loop fuel hs i acc = Ret (acc ++ sibs) ∧ hs !! i = Some l ∧
    generateProof_go fuel' i (bytes_of <$> hs) = Ret (Some (bytes_of <$> sibs ++ [l])).
Proof.
  revert fuel fuel' i hs acc. induction k as [|k IH]; intros [|fuel] [|fuel'] i hs acc Hlen Hi Hf Hf'; try lia.
  { change (2 ^ 0) with 1 in *. destruct hs as [|h [|]]; simpl in Hlen; try lia.
    exists [], h. replace i with 0 by lia. cbn. by rewrite app_nil_r. }
  pose proof (Nat.pow_nonzero 2 k) as Hnz. rewrite Nat.pow_succ_r' in Hi.
  pose proof Hlen as Hlen'. rewrite Nat.pow_succ_r' in Hlen'.
  destruct (half_length _ _ Hlen) as [Ht Hd].
  assert (length hs `div` 2 = 2 ^ k) as Hhalf by (rewrite Hlen; apply half_pow2).
  assert (i `mod` 2 ^ k = if bool_decide (i < 2 ^ k) then i else i - 2 ^ k) as Hmod.
  { case_bool_decide; [by apply Nat.mod_small|]. symmetry. apply (Nat.mod_unique _ _ 1); lia. }
  destruct (lookup_lt_is_Some_2 hs (if bool_decide (i < 2 ^ k) then 2 ^ k + i `mod` 2 ^ k else i `mod` 2 ^ k))
    as [s Hs]; [rewrite Hmod; case_bool_decide; lia|].
  destruct (IH fuel fuel' (i `mod` 2 ^ k) (if bool_decide (i < 2 ^ k) then take (2 ^ k) hs else drop (2 ^ k) hs)
    (acc ++ [s])) as (sibs & l & Hc & Hl & Hg); [by case_bool_decide|rewrite Hmod; case_bool_decide; lia|lia|lia|].
  exists (s :: sibs), l. cbn [collect_siblings_loop generateProof_go].
  rewrite bool_decide_true by lia. rewrite Hhalf, Hs. cbn [mbind exec_bind or_panic]. rewrite Hc, <-app_assoc.
  split; [done|]. rewrite Hmod in Hl, Hg. split.
  { case_bool_decide; [by rewrite lookup_take_lt in Hl by lia|]. rewrite lookup_drop in Hl.
    by replace (2 ^ k + (i - 2 ^ k)) with i in Hl by lia. }
  destruct hs as [|h0 [|h1 hs]]; [simpl in Hlen'; lia..|].
  set (hs' := h0 :: h1 :: hs) in *. change (bytes_of <$> hs') with (bytes_of h0 :: bytes_of h1 :: (bytes_of <$> hs)) at 1.
  cbv iota. rewrite length_fmap, Hhalf. rewrite (bool_decide_false (length _ ≤ i)) by lia.
  rewrite list_lookup_fmap, Hs. cbn [fmap option_fmap option_map mbind exec_bind or_panic].
  rewrite <-fmap_take, <-fmap_drop.
  assert ((if bool_decide (i < 2 ^ k) then generateProof_go fuel' i (bytes_of <$> take (2 ^ k) hs')
    else generateProof_go fuel' (i - 2 ^ k) (bytes_of <$> drop (2 ^ k) hs')) = Ret (Some (bytes_of <$> sibs ++ [l]))) as ->.
  { by case_bool_decide. }
  done.
Qed.

(** The crate's proofs are the specification's.  On every list whose length is a power
    of two above one, the specification's proof of an index is the list of siblings that
    the crate's [generate_proof] records, followed by the leaf. *)
Theorem proof_matches_spec (k i : nat) (hs : list Merkle.Hash) :
  length hs = 2 ^ S k → is_slice hs → i < length hs →
  ∃ p, generate_proof hs i = Ret (Some p) ∧
    generateProof (Z.of_nat i) (bytes_of <$> hs) = Ret (Some (bytes_of <$> siblings p ++ [leaf p])).
Proof.
  intros Hlen Hs Hi. assert (2 ≤ length hs) as H2.
  { rewrite Hlen, Nat.pow_succ_r'. pose proof (Nat.pow_nonzero 2 k). lia. }
  destruct (generateProof_go_collect (S k) (length hs) (length hs) i hs []) as (sibs & l & Hc & Hl & Hg);
    [done|lia|rewrite Hlen; apply Nat.pow_gt_lin_r; lia..|].
  exists (mkMerkleProof i l sibs). split.
  - unfold generate_proof. rewrite !bool_decide_false by (lia || intros ->; simpl in H2; lia).
    cbn [orb]. rewrite (pad_pow2 (S k)) by done. cbn [mbind exec_bind]. rewrite Hl. cbn [mbind exec_bind or_panic].
    unfold collect_siblings. rewrite bool_decide_false by lia. by rewrite Hc.
  - assert (padToPowerOfTwo (bytes_of <$> hs) = bytes_of <$> hs) as Hp.
    { apply padToPowerOfTwo_id; [by rewrite length_fmap|]. unfold is_slice, len in *. by rewrite length_fmap. }
    unfold generateProof. destruct hs as [|h0 [|h1 hs]]; [simpl in H2; lia..|]. csimpl in *.
    rewrite Hp, bool_decide_false, Nat2Z.id by lia. cbn [length]. rewrite length_fmap. exact Hg.
Qed.

End Digest.

(** * Three hashes under the digest of MerkleTests.v *)
Section Sample.

Definition h1 : Merkle.Hash := hash_new [x01].
Definition h2 : Merkle.Hash := hash_new [x02].
Definition h3 : Merkle.Hash := hash_new [x03].

Lemma root_against_spec_witness :
  ∃ t s, compute_root (SHA3 := halves_digest) [h1; h2; h3] = Ret (root_hash t) ∧
    computeRoot (bytes_of <$> [h1; h2; h3]) = Ret (rootHash s) ∧ leaves t = [h1; h2; h3; hash_zero] ∧
    spec_leaves s = bytes_of <$> [h1; h2; h3].
Proof.
  destruct (root_against_spec (SHA3 := halves_digest) [h1; h2; h3])
    as (t & s & H1 & _ & _ & H2 & H3 & _ & _ & H4 & _); [done|].
  exists t, s. split; [exact H1|]. split; [exact H3|]. split; [exact H2|exact H4].
Defined.

Lemma proof_matches_spec_witness :
  ∃ p, generate_proof [h1; h2; h3; h1] 2 = Ret (Some p) ∧
    generateProof 2 (bytes_of <$> [h1; h2; h3; h1]) = Ret (Some (bytes_of <$> siblings p ++ [leaf p])).
Proof. apply (proof_matches_spec 1 2 [h1; h2; h3; h1]); [reflexivity|done|]. simpl. lia. Defined.

End Sample.
