(* ===== verification/Blocks.v ===== *)
(** The blocks of the specification: their data (Protocol/Types.hs), serialization, hashing,
    signing and creation (Protocol/Block.hs, under src/formal-protocol).  A newtype is the
    type it wraps: identifiers, keys, addresses and signatures are byte strings, amounts
    and numbers are [Word64]s, roots are hashes, and a [Hash] is a byte string of any length
    (nothing checks it; the genesis block uses the empty one in its identifiers).  A [POSIXTime] is a number of
    picoseconds.  [IO] actions take the time they read as an argument. *)
From stdpp Require Import sorting.
From S2P Require Import Prelude Haskell SpecCrypto SpecCryptoProofs SpecMerkle.

(** * Data *)
Definition Address : Type := ByteString.
Definition ValidatorId : Type := Address.
Definition UTxOId : Type := ByteString * Z.
Definition Amount : Type := Z.
Definition Timestamp : Type := Z.

Record InclusionProof := mkInclusionProof {
  mpLeaf : Hash;
  mpSiblings : list Hash;
  mpIndex : Z;
}.

Record TxInput := mkTxInput {
  tiUtxoId : UTxOId;
  tiProof : option InclusionProof;
}.

Record TxOutput := mkTxOutput {
  toAddress : Address;
  toAmount : Amount;
  toData : option ByteString;
}.

Record Transaction := mkTransaction {
  txId : ByteString;
  txInputs : list TxInput;
  txOutputs : list TxOutput;
  txSignature : ByteString;
  txPublicKey : ByteString;
  txNonce : Z;
  txFee : Amount;
}.

Record UTxO := mkUTxO {
  uId : UTxOId;
  uAddress : Address;
  uAmount : Amount;
  uData : option ByteString;
}.

Abbreviation UTxOSet := (gmap UTxOId UTxO).

Inductive VoteType := VotePrepare | VoteCommit.

Record Vote := mkVote {
  vValidator : ValidatorId;
  vBlockHash : Hash;
  vRound : Z;
  vVoteType : VoteType;
  vSignature : ByteString;
}.

Record BlockHeader := mkBlockHeader {
  bhParentHash : Hash;
  bhBlockNumber : Z;
  bhSlotNumber : Z;
  bhEpochNumber : Z;
  bhTimestamp : Timestamp;
  bhValidator : ValidatorId;
  bhMerkleRoot : Hash;
  bhStateRoot : Hash;
  bhNonce : Z;
  bhVersion : Z;
  bhSignature : ByteString;
}.

Record BlockBody := mkBlockBody {
  bbTransactions : list Transaction;
  bbVotes : list Vote;
}.

Record Block := mkBlock {
  bHeader : BlockHeader;
  bBody : BlockBody;
}.

Record SecurityParam := mkSecurityParam { spK : Z; spT : Z }.

Record ProtocolParams := mkProtocolParams {
  ppSecurityParam : SecurityParam;
  ppEpochLength : Z;
  ppSlotLength : Z;
  ppMaxBlockSize : Z;
  ppMaxTxSize : Z;
  ppMinStake : Z;
  ppSlashingRate : Z;
  ppRewardRate : Z;
}.

Record GenesisConfig := mkGenesisConfig {
  gcInitialValidators : list (ValidatorId * Z);
  gcInitialUtxos : list (Address * Amount);
  gcGenesisTime : Timestamp;
  gcProtocolParams : ProtocolParams;
}.

(** ** Errors *)
Inductive ValidationError :=
| VEInvalidBlockStructure (msg : string)
| VEInvalidSignature
| VEInsufficientFunds (input output : Amount)
| VEDoubleSpend (id : UTxOId)
| VEInvalidNonce
| VETransactionTooLarge (actual max : Z)
| VEBlockTooLarge (actual max : Z)
| VEMerkleRootMismatch (expected computed : Hash)
| VEStateRootMismatch (expected computed : Hash).

Inductive ConsensusError :=
| CEInvalidValidator (v : ValidatorId)
| CEInsufficientVotes (got needed : Z)
| CEDoubleVote (v : ValidatorId)
| CEUnknownBlock (h : Hash)
| CEForkNotFinalized
| CEEpochMismatch (a b : Z)
| CESlotMismatch (a b : Z)
| CELeaderElectionFailed.

Inductive ProtocolError :=
| PEValidationError (e : ValidationError)
| PEConsensusError (e : ConsensusError)
| PECryptoError (msg : string)
| PEInternalError (msg : string).

(** * Serialization *)
Definition serializeHash (h : Hash) : ByteString := h.

(** [go n w]: the [n] low bytes of [w], the highest first. *)
Fixpoint serializeWord64_go (n : nat) (w : Z) : ByteString :=
  match n with
  | 0 => []
  | S n' => byte_of_Z (w / 2 ^ (8 * Z.of_nat n')) :: serializeWord64_go n' w
  end.
Definition serializeWord64 (w : Z) : ByteString := serializeWord64_go 8 w.

Definition serializeWord8 (w : Z) : ByteString := [byte_of_Z w].

(** [round] to the nearest second, a half to the even one, modulo 2^64. *)
Definition round_seconds (t : Timestamp) : Z :=
  let n := (t / 10 ^ 12)%Z in
  let r := (t mod 10 ^ 12)%Z in
  wrap64 (match (2 * r ?= 10 ^ 12)%Z with
          | Lt => n
          | Gt => n + 1
          | Eq => if Z.even n then n else n + 1
          end).
Definition serializeTimestamp (t : Timestamp) : ByteString := serializeWord64 (round_seconds t).

Definition serializeValidatorId (v : ValidatorId) : ByteString := v.
Definition serializeAddress (a : Address) : ByteString := a.
Definition serializeAmount (a : Amount) : ByteString := serializeWord64 a.
Definition serializeTxId (t : ByteString) : ByteString := t.
Definition serializeUTxOId (u : UTxOId) : ByteString := serializeTxId u.1 ++ serializeWord64 u.2.
Definition serializeInput (input : TxInput) : ByteString := serializeUTxOId (tiUtxoId input).
Definition serializeInputs (inputs : list TxInput) : ByteString := concat (serializeInput <$> inputs).
Definition serializeOutput (output : TxOutput) : ByteString :=
  serializeAddress (toAddress output) ++ serializeAmount (toAmount output).
Definition serializeOutputs (outputs : list TxOutput) : ByteString := concat (serializeOutput <$> outputs).

Definition serializeHeader (h : BlockHeader) : ByteString := concat [
  serializeHash (bhParentHash h);
  serializeWord64 (bhBlockNumber h);
  serializeWord64 (bhSlotNumber h);
  serializeWord64 (bhEpochNumber h);
  serializeTimestamp (bhTimestamp h);
  serializeValidatorId (bhValidator h);
  serializeHash (bhMerkleRoot h);
  serializeHash (bhStateRoot h);
  serializeWord64 (bhNonce h);
  serializeWord32 (bhVersion h)].

(** The two functions of this name in Block.hs, one for headers and one for transactions. *)
Definition serializeForSigning_header (h : BlockHeader) : ByteString := concat [
  serializeHash (bhParentHash h);
  serializeWord64 (bhBlockNumber h);
  serializeWord64 (bhSlotNumber h);
  serializeWord64 (bhEpochNumber h);
  serializeTimestamp (bhTimestamp h);
  serializeValidatorId (bhValidator h);
  serializeHash (bhMerkleRoot h);
  serializeHash (bhStateRoot h);
  serializeWord64 (bhNonce h);
  serializeWord32 (bhVersion h)].
Definition serializeForSigning (tx : Transaction) : ByteString := concat [
  serializeTxId (txId tx);
  serializeInputs (txInputs tx);
  serializeOutputs (txOutputs tx);
  serializeWord64 (txNonce tx);
  serializeAmount (txFee tx)].

Definition serializeUTxOEntry (uid : UTxOId) (utxo : UTxO) : ByteString :=
  serializeUTxOId uid ++ serializeAddress (uAddress utxo) ++ serializeAmount (uAmount utxo).

Definition fromEnum (t : VoteType) : Z := match t with VotePrepare => 0 | VoteCommit => 1 end.

Definition serializeVote (vote : Vote) : ByteString := concat [
  serializeValidatorId (vValidator vote);
  serializeHash (vBlockHash vote);
  serializeWord64 (vRound vote);
  serializeWord8 (fromEnum (vVoteType vote))].
Definition serializeVotes (votes : list Vote) : ByteString := concat (serializeVote <$> votes).

Definition serializeTransaction (tx : Transaction) : ByteString := serializeForSigning tx.
Definition serializeTransactions (txs : list Transaction) : ByteString := concat (serializeTransaction <$> txs).
Definition serializeBody (body : BlockBody) : ByteString :=
  serializeTransactions (bbTransactions body) ++ serializeVotes (bbVotes body).

(** * Hashes and roots *)

(** [Crypto.hash] with its result as a hash. *)
Definition crypto_hash (bs : ByteString) : Hash := SpecCrypto.hash bs.

Definition txHash (tx : Transaction) : Hash := crypto_hash (serializeForSigning tx).
Definition voteHash (vote : Vote) : Hash := crypto_hash (concat [
  serializeValidatorId (vValidator vote);
  serializeHash (vBlockHash vote);
  serializeWord64 (vRound vote);
  serializeWord8 (fromEnum (vVoteType vote))]).

Definition hashBlockHeader (h : BlockHeader) : Hash := crypto_hash (serializeHeader h).
Definition hashBlock (block : Block) : Hash := hashBlockHeader (bHeader block).

Definition computeMerkleRoot (hashes : list Hash) : exec Hash := computeRoot hashes.
Definition bodyTransactionRoot (body : BlockBody) : exec Hash := computeMerkleRoot (txHash <$> bbTransactions body).
Definition bodyVoteRoot (body : BlockBody) : exec Hash := computeMerkleRoot (voteHash <$> bbVotes body).

(** [Map.toAscList]: by the identifier's bytes, then by the output's index. *)
Definition entry_le (e1 e2 : UTxOId * UTxO) : Prop :=
  if bool_decide (e1.1.1 = e2.1.1) then (e1.1.2 ≤ e2.1.2)%Z else bytes_le e1.1.1 e2.1.1 = true.
#[export] Instance entry_le_dec e1 e2 : Decision (entry_le e1 e2).
Proof. unfold entry_le. case_bool_decide; apply _. Defined.
Definition toAscList (m : UTxOSet) : list (UTxOId * UTxO) := merge_sort entry_le (map_to_list m).

Definition computeStateRoot (utxoMap : UTxOSet) : exec Hash :=
  let sortedEntries := toAscList utxoMap in
  let entryHashes := (λ e : UTxOId * UTxO, crypto_hash (serializeUTxOEntry e.1 e.2)) <$> sortedEntries in
  computeRoot entryHashes.

(** The index is the length of the list of one entry. *)
Definition computeGenesisStateRoot (gc : GenesisConfig) : exec Hash :=
  let initialEntries :=
    (λ e : Address * Amount,
       let uid : UTxOId := ([], Z.of_nat (length [e])) in
       crypto_hash (serializeUTxOEntry uid (mkUTxO uid e.1 e.2 None))) <$> gcInitialUtxos gc in
  computeRoot initialEntries.

(** * Signing and creating *)
Definition set_signature (sig : ByteString) (h : BlockHeader) : BlockHeader :=
  mkBlockHeader (bhParentHash h) (bhBlockNumber h) (bhSlotNumber h) (bhEpochNumber h) (bhTimestamp h)
    (bhValidator h) (bhMerkleRoot h) (bhStateRoot h) (bhNonce h) (bhVersion h) sig.

Definition signBlock (privKey : ByteString) (header : BlockHeader) : Result ByteString ProtocolError :=
  let headerBytes := serializeHeader header in
  match sign privKey headerBytes with
  | Some sig => Ok sig
  | None => Err (PECryptoError "signing failed")
  end.

(** [derivePublicKey] of Block.hs: the address is taken for the key. *)
Definition validatorPublicKey (v : ValidatorId) : ByteString := v.

Definition verifyBlockSignature (header : BlockHeader) : bool :=
  let pubKey := validatorPublicKey (bhValidator header) in
  let sig := bhSignature header in
  let data_ := serializeForSigning_header header in
  verify pubKey sig data_.

(** [succ] of a [Word64] fails on the greatest one. *)
Definition succ (w : Z) : exec Z := if bool_decide (w = u64_max) then Panic else Ret (w + 1)%Z.

Definition createBlock (timestamp : Timestamp) (parentHeader : BlockHeader) (slot epoch : Z)
    (validator : ValidatorId) (privKey : ByteString) (txs : list Transaction) (votes : list Vote)
    (utxoSet : UTxOSet) : exec (Result Block ProtocolError) :=
  blockNumber ← succ (bhBlockNumber parentHeader);
  txRoot ← computeMerkleRoot (txHash <$> txs);
  voteRoot ← computeMerkleRoot (voteHash <$> votes);
  let bodyRoot := combineRoots txRoot voteRoot in
  stateRoot ← computeStateRoot utxoSet;
  let header := mkBlockHeader (hashBlockHeader parentHeader) blockNumber slot epoch timestamp validator
    bodyRoot stateRoot 0 1 [] in
  match signBlock privKey header with
  | Err err => Ret (Err err)
  | Ok signature => Ret (Ok (mkBlock (set_signature signature header) (mkBlockBody txs votes)))
  end.

Definition createGenesisBlock (timestamp : Timestamp) (genesisConfig : GenesisConfig) (privKey : ByteString)
    : exec (Result Block ProtocolError) :=
  let genTime := gcGenesisTime genesisConfig in
  let actualTime := if bool_decide (genTime > 0)%Z then genTime else timestamp in
  stateRoot ← computeGenesisStateRoot genesisConfig;
  let header := mkBlockHeader (replicate 32 x00) 0 0 0 actualTime [] (replicate 32 x00) stateRoot 0 1 [] in
  match signBlock privKey header with
  | Err err => Ret (Err err)
  | Ok signature => Ret (Ok (mkBlock (set_signature signature header) (mkBlockBody [] [])))
  end.

(** ** Queries *)
Definition blockTransactions (b : Block) : list Transaction := bbTransactions (bBody b).
Definition blockVotes (b : Block) : list Vote := bbVotes (bBody b).
Definition blockNumber (b : Block) : Z := bhBlockNumber (bHeader b).
Definition blockParentHash (b : Block) : Hash := bhParentHash (bHeader b).
Definition blockValidator (b : Block) : ValidatorId := bhValidator (bHeader b).
Definition blockTimestamp (b : Block) : Timestamp := bhTimestamp (bHeader b).
