(* ===== verification/HeaderEncoding.v ===== *)
(** The encodings that are signed and hashed (Blocks.v): the one of headers determines every
    field but the signature as long as the lengths of the hashes and the validator are
    known, and not otherwise; the one of transactions does not separate inputs from outputs. *)
From S2P Require Import Prelude Haskell SpecCrypto SpecCryptoProofs SpecMerkle Blocks.

(** The number that a big-endian byte string writes. *)
Fixpoint big_endian (bs : ByteString) : Z :=
  match bs with
  | [] => 0
  | b :: bs => byte_to_Z b * 256 ^ len bs + big_endian bs
  end.

Lemma length_serializeWord64_go (n : nat) (w : Z) : length (serializeWord64_go n w) = n.
Proof. induction n; simpl; congruence. Qed.

Lemma big_endian_word64_go (n : nat) (w : Z) : big_endian (serializeWord64_go n w) = (w mod 256 ^ Z.of_nat n)%Z.
Proof.
  induction n as [|n IH]; [by rewrite Z.mod_1_r|].
  cbn [serializeWord64_go big_endian]. unfold len. rewrite IH, length_serializeWord64_go, byte_to_of_Z.
  rewrite Z.pow_mul_r by lia. change (2 ^ 8)%Z with 256%Z.
  replace (Z.of_nat (S n)) with (Z.of_nat n + 1)%Z by lia. rewrite Z.pow_add_r, Z.pow_1_r by lia.
  rewrite Z.rem_mul_r by lia. lia.
Qed.

Lemma serializeWord64_inj (w1 w2 : Z) :
  is_u64 w1 → is_u64 w2 → serializeWord64 w1 = serializeWord64 w2 → w1 = w2.
Proof.
  unfold is_u64, u64_max. intros H1 H2 H%(f_equal big_endian). unfold serializeWord64 in H.
  rewrite !big_endian_word64_go in H. change (256 ^ Z.of_nat 8)%Z with (2 ^ 64)%Z in H.
  rewrite !Z.mod_small in H by lia. done.
Qed.

Lemma serializeWord32_inj (w1 w2 : Z) :
  is_u32 w1 → is_u32 w2 → serializeWord32 w1 = serializeWord32 w2 → w1 = w2.
Proof.
  intros H1 H2 [= E1 E2 E3 E4]. rewrite <-(u32_be_bytes_roundtrip w1), <-(u32_be_bytes_roundtrip w2) by done. congruence.
Qed.

Lemma length_serializeWord64 (w : Z) : length (serializeWord64 w) = 8.
Proof. apply length_serializeWord64_go. Qed.

(** The numbers of a header are in the ranges of their types. *)
Record header_typed (h : BlockHeader) : Prop := {
  number_typed : is_u64 (bhBlockNumber h);
  slot_typed : is_u64 (bhSlotNumber h);
  epoch_typed : is_u64 (bhEpochNumber h);
  nonce_typed : is_u64 (bhNonce h);
  version_typed : is_u32 (bhVersion h);
}.

(** The fields of variable length have the same lengths. *)
Record same_lengths (h1 h2 : BlockHeader) : Prop := {
  parent_length : length (bhParentHash h1) = length (bhParentHash h2);
  validator_length : length (bhValidator h1) = length (bhValidator h2);
  merkle_root_length : length (bhMerkleRoot h1) = length (bhMerkleRoot h2);
  state_root_length : length (bhStateRoot h1) = length (bhStateRoot h2);
}.

(** Splits the equation of two concatenations whose first parts have the same length. *)
Ltac split_app H E :=
  apply app_inj_1 in H as [E H]; [|first [assumption|by rewrite !length_serializeWord64_go]].

(** C21: the encoding of headers is unambiguous among headers of one layout.  Hashes and
    validators are byte strings of any length and are written without it; two headers
    whose parent hashes, validators, Merkle roots and state roots have the same lengths
    (32, 20, 32 and 32 bytes where they come from the hash and address functions) that
    serialize to the same string, for hashing or for signing, agree in all fields but the
    signature, and in the time up to the second it is rounded to. *)
Theorem serializeHeader_inj (h1 h2 : BlockHeader) :
  header_typed h1 → header_typed h2 → same_lengths h1 h2 →
  serializeHeader h1 = serializeHeader h2 ∨ serializeForSigning_header h1 = serializeForSigning_header h2 →
  bhParentHash h1 = bhParentHash h2 ∧ bhBlockNumber h1 = bhBlockNumber h2 ∧
  bhSlotNumber h1 = bhSlotNumber h2 ∧ bhEpochNumber h1 = bhEpochNumber h2 ∧
  round_seconds (bhTimestamp h1) = round_seconds (bhTimestamp h2) ∧ bhValidator h1 = bhValidator h2 ∧
  bhMerkleRoot h1 = bhMerkleRoot h2 ∧ bhStateRoot h1 = bhStateRoot h2 ∧ bhNonce h1 = bhNonce h2 ∧
  bhVersion h1 = bhVersion h2.
Proof.
  intros [] [] [] H. assert (serializeHeader h1 = serializeHeader h2) as HE by (by destruct H). clear H.
  unfold serializeHeader, serializeTimestamp, serializeValidatorId, serializeHash, serializeWord64 in HE.
  cbn [concat] in HE. rewrite !app_nil_r in HE.
  split_app HE E1. split_app HE E2. split_app HE E3. split_app HE E4. split_app HE E5. split_app HE E6.
  split_app HE E7. split_app HE E8. split_app HE E9.
  assert (∀ t, is_u64 (round_seconds t)) as Hr by (intros t; apply wrap64_range).
  apply serializeWord64_inj in E2, E3, E4, E5, E9; [|auto..].
  apply serializeWord32_inj in HE; [|assumption..]. tauto.
Qed.

(** A header that takes the first byte of its Merkle root for the last of its validator. *)
Definition shift_byte (b : byte) (root : ByteString) (h : BlockHeader) : BlockHeader :=
  mkBlockHeader (bhParentHash h) (bhBlockNumber h) (bhSlotNumber h) (bhEpochNumber h) (bhTimestamp h)
    (bhValidator h ++ [b]) root (bhStateRoot h) (bhNonce h) (bhVersion h) (bhSignature h).

(** Between layouts the encoding is ambiguous.  A header and the one that counts the first
    byte of the Merkle root to the validator are different, serialize to the same string
    and have the same hash. *)
Theorem header_encoding_ambiguous (h : BlockHeader) (b : byte) (root : ByteString) :
  bhMerkleRoot h = b :: root →
  shift_byte b root h ≠ h ∧ serializeHeader (shift_byte b root h) = serializeHeader h ∧
  serializeForSigning_header (shift_byte b root h) = serializeForSigning_header h ∧
  hashBlockHeader (shift_byte b root h) = hashBlockHeader h.
Proof.
  intros Hroot.
  assert (serializeHeader (shift_byte b root h) = serializeHeader h) as E.
  { unfold serializeHeader, shift_byte. cbn. rewrite Hroot. unfold serializeValidatorId, serializeHash.
    by rewrite <-app_assoc. }
  split; [|split; [done|split; [done|exact (f_equal crypto_hash E)]]].
  intros Eh%(f_equal (λ h, length (bhValidator h))). cbn in Eh. rewrite length_app in Eh. simpl in Eh. lia.
Qed.

(** * Transactions *)

(** Seven inputs are as long as ten outputs, so a signature of the one transaction is a
    signature of the other, and both have the same hash. *)
Definition ambiguous_number : Z := 0x0101010101010101.
Definition seven_inputs : Transaction :=
  mkTransaction (replicate 32 x00) (replicate 7 (mkTxInput (replicate 32 x01, ambiguous_number) None)) [] [] [] 0%Z 0%Z.
Definition ten_outputs : Transaction :=
  mkTransaction (replicate 32 x00) [] (replicate 10 (mkTxOutput (replicate 20 x01) ambiguous_number None)) [] [] 0%Z 0%Z.

(** Inputs and outputs are not separated in what is signed: a transaction with seven inputs
    and no output and one with ten outputs and no input have the same hash, and every
    signature of the one is a signature of the other. *)
Theorem transaction_encoding_ambiguous :
  txHash seven_inputs = txHash ten_outputs ∧
  ∀ pk sig, verify pk sig (serializeForSigning seven_inputs) = verify pk sig (serializeForSigning ten_outputs).
Proof.
  assert (serializeForSigning seven_inputs = serializeForSigning ten_outputs) as E by (vm_compute; reflexivity).
  split; [exact (f_equal crypto_hash E)|]. intros pk sig. exact (f_equal (verify pk sig) E).
Qed.

Definition sample_header : BlockHeader :=
  mkBlockHeader emptyTreeHash 4 4 0 0%Z (replicate 20 x03) emptyTreeHash emptyTreeHash 0 1 [].

Lemma header_encoding_ambiguous_witness :
  hashBlockHeader (shift_byte x00 (replicate 31 x00) sample_header) = hashBlockHeader sample_header.
Proof. apply (header_encoding_ambiguous sample_header x00 (replicate 31 x00)). reflexivity. Defined.

(** The time 0.3 seconds later and another signature. *)
Lemma serializeHeader_inj_witness :
  round_seconds (bhTimestamp sample_header) = round_seconds (300 * 10 ^ 9)%Z.
Proof.
  apply (serializeHeader_inj sample_header
    (mkBlockHeader emptyTreeHash 4 4 0 (300 * 10 ^ 9)%Z (replicate 20 x03) emptyTreeHash emptyTreeHash 0 1 [x01]));
    [constructor; split; vm_compute; discriminate..|by constructor|left; vm_compute; reflexivity].
Defined.
