(* ===== verification/Ledger.v ===== *)
(** The validation of transactions and blocks in the specification (Protocol/Block.hs under
    src/formal-protocol), over the data of Blocks.v.  [Either] is [Result]; a function that
    hashes lists or takes a successor returns in [exec], whose [Panic] is an exception. *)
From S2P Require Import Prelude Haskell SpecCrypto SpecCryptoProofs SpecMerkle Blocks.

(** * Chain state *)
Record ValidatorState := mkValidatorState {
  vsStake : Z;
  vsIsActive : bool;
  vsLastVote : option Z;
  vsMissedSlots : Z;
}.

(** A [Set Vote] as a list. *)
Record ConsensusState := mkConsensusState {
  csCurrentEpoch : Z;
  csCurrentSlot : Z;
  csLastFinalizedBlock : Hash;
  csValidatorSet : list (ValidatorId * Z);
  csPendingProposals : gmap Z Hash;
  csVotes : gmap Hash (list Vote);
}.

Record ChainState := mkChainState {
  csUtxoSet : UTxOSet;
  csConsensus : ConsensusState;
  csValidatorStates : gmap ValidatorId ValidatorState;
  csTipHash : Hash;
  csTipNumber : Z;
}.

(** * The error monad *)

(** [if bad then Left e else Right ()]. *)
Definition check {E} (bad : bool) (e : E) : Result unit E := if bad then Err e else Ok tt.

Fixpoint mapM_ {A B E} (f : A → Result B E) (l : list A) : Result unit E :=
  match l with
  | [] => Ok tt
  | a :: l => and_then (f a) (λ _, mapM_ f l)
  end.

(** Sequencing with the rest of an action that may raise an exception. *)
Definition then_exec {A B E} (r : Result A E) (k : A → exec (Result B E)) : exec (Result B E) :=
  match r with Ok a => k a | Err e => Ret (Err e) end.

Notation "r ;;? k" := (and_then r (λ _, k)) (at level 100, k at level 200, right associativity).
Notation "r ;;! k" := (then_exec r (λ _, k)) (at level 100, k at level 200, right associativity).

(** * Transactions *)
Definition validateInput (utxoMap : UTxOSet) (input : TxInput) : Result unit ValidationError :=
  match utxoMap !! tiUtxoId input with
  | None => Err (VEDoubleSpend (tiUtxoId input))
  | Some _ => Ok tt
  end.

Definition sumInputs (tx : Transaction) (m : UTxOSet) : Amount :=
  foldl (λ acc input,
    match m !! tiUtxoId input with
    | Some utxo => wrap64 (acc + uAmount utxo)
    | None => acc
    end) 0%Z (txInputs tx).

Definition sumOutputs (tx : Transaction) : Amount :=
  foldl (λ acc o, wrap64 (acc + toAmount o)) 0%Z (txOutputs tx).

(** [head] is taken of a list with a repeated element. *)
Definition validateTransaction (utxoMap : UTxOSet) (tx : Transaction) : Result Transaction ValidationError :=
  let txData := serializeForSigning tx in
  check (negb (verify (txPublicKey tx) (txSignature tx) txData)) VEInvalidSignature ;;?
  mapM_ (validateInput utxoMap) (txInputs tx) ;;?
  let inputIds := tiUtxoId <$> txInputs tx in
  check (bool_decide (length inputIds ≠ size (list_to_set inputIds : gset UTxOId)))
    (VEDoubleSpend (List.hd ([], 0%Z) inputIds)) ;;?
  let totalInput := sumInputs tx utxoMap in
  let totalOutput := sumOutputs tx in
  check (bool_decide (totalOutput > totalInput)%Z) (VEInsufficientFunds totalInput totalOutput) ;;?
  Ok tx.

(** * Blocks *)
Fixpoint nubOrd_go (s : gset UTxOId) (l : list UTxOId) : list UTxOId :=
  match l with
  | [] => []
  | x :: xs => if bool_decide (x ∈ s) then nubOrd_go s xs else x :: nubOrd_go ({[x]} ∪ s) xs
  end.
Definition nubOrd (l : list UTxOId) : list UTxOId := nubOrd_go ∅ l.

Definition block_inputs (txs : list Transaction) : list UTxOId :=
  concat ((λ tx, tiUtxoId <$> txInputs tx) <$> txs).

Definition validateBlockBody (chainState : ChainState) (body : BlockBody) (header : BlockHeader)
    : Result BlockBody ValidationError :=
  let txs := bbTransactions body in
  let utxo := csUtxoSet chainState in
  mapM_ (validateTransaction utxo) txs ;;?
  let inputIds := block_inputs txs in
  check (bool_decide (length inputIds ≠ length (nubOrd inputIds)))
    (VEInvalidBlockStructure "duplicate UTxO inputs in block") ;;?
  Ok body.

Definition validateBlockHeader (chainState : ChainState) (header : BlockHeader) (params : ProtocolParams)
    : exec (Result BlockHeader ValidationError) :=
  check (bool_decide (bhParentHash header ≠ csTipHash chainState))
    (VEInvalidBlockStructure "parent hash does not match chain tip") ;;!
  next ← succ (csTipNumber chainState);
  check (bool_decide (bhBlockNumber header ≠ next))
    (VEInvalidBlockStructure "block number is not sequential") ;;!
  check (negb (verifyBlockSignature header)) VEInvalidSignature ;;!
  check (bool_decide (bhVersion header ≠ 1%Z)) (VEInvalidBlockStructure "unsupported block version") ;;!
  Ret (Ok header).

Definition validateBlockSize (body : BlockBody) (params : ProtocolParams) : Result unit ValidationError :=
  let actualSize := as_u32 (len (serializeBody body)) in
  check (bool_decide (actualSize > ppMaxBlockSize params)%Z) (VEBlockTooLarge actualSize (ppMaxBlockSize params)).

Definition validateBlock (chainState : ChainState) (block : Block) (params : ProtocolParams)
    : exec (Result Block ValidationError) :=
  let header := bHeader block in
  let body := bBody block in
  validateBlockSize body params ;;!
  h ← validateBlockHeader chainState header params;
  h ;;!
  validateBlockBody chainState body header ;;!
  computedTxRoot ← computeMerkleRoot (txHash <$> bbTransactions body);
  computedVoteRoot ← computeMerkleRoot (voteHash <$> bbVotes body);
  let computedBodyRoot := combineRoots computedTxRoot computedVoteRoot in
  Ret (if bool_decide (computedBodyRoot ≠ bhMerkleRoot header)
       then Err (VEMerkleRootMismatch (bhMerkleRoot header) computedBodyRoot)
       else Ok block).
