(* ===== verification/LedgerProofs.v ===== *)
(** What the validation of Ledger.v guarantees and what it does not: the exact conditions
    for a transaction, conservation of value over a block and where the wrap-around of
    [Word64] breaks it, and which parts of a block its header binds. *)
From S2P Require Import Prelude Haskell SpecCrypto SpecCryptoProofs SpecMerkle Blocks Ledger.

(** * The error monad *)
Lemma and_then_Ok {A B E} (r : Result A E) (k : A → Result B E) (b : B) :
  and_then r k = Ok b ↔ ∃ a, r = Ok a ∧ k a = Ok b.
Proof. destruct r; simpl; naive_solver. Qed.

Lemma check_Ok {E} (bad : bool) (e : E) : check bad e = Ok tt ↔ bad = false.
Proof. by destruct bad. Qed.

Lemma mapM_Ok {A B E} (f : A → Result B E) (l : list A) :
  mapM_ f l = Ok tt ↔ Forall (λ a, is_ok (f a) = true) l.
Proof.
  induction l as [|a l IH]; simpl; [by split; constructor|]. rewrite Forall_cons, <-IH. destruct (f a); simpl; naive_solver.
Qed.

(** [mapM_] fails with the error of the first element that fails. *)
Lemma mapM_Err {A B E} (f : A → Result B E) (l : list A) (e : E) :
  mapM_ f l = Err e ↔
  ∃ l1 a l2, l = l1 ++ a :: l2 ∧ Forall (λ a, is_ok (f a) = true) l1 ∧ f a = Err e.
Proof.
  split.
  - induction l as [|a l IH]; simpl; [done|]. destruct (f a) as [b|e'] eqn:Ha; simpl.
    + intros (l1 & a' & l2 & -> & Hl & He)%IH. exists (a :: l1), a', l2. split; [done|].
      split; [|done]. constructor; [by rewrite Ha|done].
    + intros [= ->]. exists [], a, l. naive_solver.
  - intros (l1 & a & l2 & -> & Hl & He). induction Hl as [|a' l1 Ha' _ IH]; simpl; [by rewrite He|].
    destruct (f a'); [done|by inversion Ha'].
Qed.

(** * Duplicates *)
Lemma size_list_to_set_NoDup (l : list UTxOId) :
  size (list_to_set l : gset UTxOId) ≤ length l ∧
  (length l = size (list_to_set l : gset UTxOId) ↔ NoDup l).
Proof.
  induction l as [|x l [Hle IH]]; [split; [by rewrite list_to_set_nil, size_empty|]; split; [constructor|done]|].
  cbn [list_to_set]. rewrite NoDup_cons, <-IH. destruct (decide (x ∈ l)) as [Hx|Hx].
  - rewrite subseteq_union_1_L by set_solver. simpl. split; [lia|]. split; [lia|naive_solver].
  - rewrite size_union, size_singleton by set_solver. simpl. split; [lia|]. split; [|lia]. intros. split; [done|lia].
Qed.

Lemma nubOrd_go_NoDup (s : gset UTxOId) (l : list UTxOId) :
  length (nubOrd_go s l) ≤ length l ∧
  (length l = length (nubOrd_go s l) ↔ NoDup l ∧ ∀ x, x ∈ l → x ∉ s).
Proof.
  revert s. induction l as [|x l IH]; intros s; cbn [nubOrd_go].
  { split; [done|]. split; [|done]. intros _. split; [constructor|]. intros x []%not_elem_of_nil. }
  rewrite NoDup_cons. case_bool_decide as Hx.
  - destruct (IH s) as [Hle _]. simpl. split; [lia|]. split; [lia|]. intros [_ H]. destruct (H x); [left|done].
  - destruct (IH ({[x]} ∪ s)) as [Hle Heq]. simpl. split; [lia|].
    rewrite (inj_iff S), Heq. split.
    + intros [Hn Ha]. split; [split; [|done]|]. { intros Hin. by apply Ha in Hin; set_solver. }
      intros y [->|Hy]%elem_of_cons; [done|]. by apply Ha in Hy; set_solver.
    + intros [[Hnx Hn] Ha]. split; [done|]. intros y Hy. pose proof (Ha y ltac:(by right)).
      assert (y ≠ x) by (by intros ->). set_solver.
Qed.

Lemma nubOrd_NoDup (l : list UTxOId) : length l = length (nubOrd l) ↔ NoDup l.
Proof. destruct (nubOrd_go_NoDup ∅ l) as [_ H]. unfold nubOrd. rewrite H. set_solver. Qed.

(** * Sums *)

(** What the inputs of a list are worth, and what the outputs are. *)
Definition amount_at (m : UTxOSet) (id : UTxOId) : Z := default 0%Z (uAmount <$> m !! id).
Definition value_of (m : UTxOSet) (ids : list UTxOId) : Z := sum_Z (amount_at m <$> ids).
Definition output_value (tx : Transaction) : Z := sum_Z (toAmount <$> txOutputs tx).
Definition total_value (m : UTxOSet) : Z := sum_Z ((λ e : UTxOId * UTxO, uAmount e.2) <$> map_to_list m).

Lemma sumOutputs_wrap (tx : Transaction) : sumOutputs tx = wrap64 (output_value tx).
Proof.
  unfold sumOutputs, output_value. rewrite <-sum_word64_wrap. unfold sum_word64.
  generalize 0%Z. induction (txOutputs tx); intros acc; simpl; [done|]. by rewrite IHl.
Qed.

Lemma sumInputs_wrap (tx : Transaction) (m : UTxOSet) :
  sumInputs tx m = wrap64 (value_of m (tiUtxoId <$> txInputs tx)).
Proof.
  unfold sumInputs, value_of. rewrite <-sum_word64_wrap. unfold sum_word64.
  assert (∀ acc, wrap64 acc = acc →
    foldl (λ acc input, match m !! tiUtxoId input with Some utxo => wrap64 (acc + uAmount utxo) | None => acc end)
      acc (txInputs tx) =
    foldl (λ acc x, wrap64 (acc + x)) acc (amount_at m <$> (tiUtxoId <$> txInputs tx))) as H; [|by apply H].
  assert (∀ x, wrap64 (wrap64 x) = wrap64 x) as Hww by (intros; unfold wrap64; apply Zmod_mod).
  induction (txInputs tx) as [|i l IH]; intros acc Hacc; csimpl; [done|].
  assert (amount_at m (tiUtxoId i) = default 0%Z (uAmount <$> m !! tiUtxoId i)) as -> by done.
  destruct (m !! tiUtxoId i); simpl; [by apply IH|]. rewrite Z.add_0_r, Hacc. by apply IH.
Qed.

Lemma wrap64_le (x : Z) : (0 ≤ x → wrap64 x ≤ x)%Z.
Proof. intros. unfold wrap64. apply Z.mod_le; lia. Qed.

(** * Transactions *)

(** The conditions of [validateTransaction], in the order it tests them. *)
Record tx_ok (m : UTxOSet) (tx : Transaction) : Prop := {
  tx_signed : verify (txPublicKey tx) (txSignature tx) (serializeForSigning tx) = true;
  tx_inputs_exist : Forall (λ i, is_Some (m !! tiUtxoId i)) (txInputs tx);
  tx_inputs_distinct : NoDup (tiUtxoId <$> txInputs tx);
  tx_balanced : (sumOutputs tx ≤ sumInputs tx m)%Z;
}.

Lemma validateInputs_Ok (m : UTxOSet) (l : list TxInput) :
  mapM_ (validateInput m) l = Ok tt ↔ Forall (λ i, is_Some (m !! tiUtxoId i)) l.
Proof.
  rewrite mapM_Ok. apply Forall_proper; [|done]. intros i. unfold validateInput.
  destruct (m !! tiUtxoId i); simpl; split; naive_solver.
Qed.

Lemma duplicate_check (ids : list UTxOId) :
  bool_decide (length ids ≠ size (list_to_set ids : gset UTxOId)) = bool_decide (¬ NoDup ids).
Proof. apply bool_decide_ext. by rewrite (proj2 (size_list_to_set_NoDup ids)). Qed.

Lemma validateTransaction_Ok (m : UTxOSet) (tx tx' : Transaction) :
  validateTransaction m tx = Ok tx' ↔ tx' = tx ∧ tx_ok m tx.
Proof.
  unfold validateTransaction. rewrite duplicate_check. split.
  - intros ([] & H1%check_Ok & H)%and_then_Ok. apply and_then_Ok in H as ([] & H2%validateInputs_Ok & H).
    apply and_then_Ok in H as ([] & H3%check_Ok & H). apply and_then_Ok in H as ([] & H4%check_Ok & [= ->]).
    apply negb_false_iff in H1. apply bool_decide_eq_false in H3, H4. split; [done|].
    constructor; [done|done|by apply dec_stable|lia].
  - intros [-> [H1 H2%validateInputs_Ok H3 H4]]. rewrite H1, H2. simpl.
    rewrite bool_decide_eq_false_2 by (intros H; by apply H). simpl. by rewrite bool_decide_eq_false_2 by lia.
Qed.

(** C13: what each verdict on a transaction means.  It is accepted, unchanged, exactly when it
    is signed, its inputs exist and are distinct, and its outputs are not worth more than
    its inputs, both sums modulo 2^64; otherwise the error is the first of the tests that
    fails: the missing input, the first input of a list with duplicates, or the two sums.
    No other error is returned; in particular a transaction is not refused for having no
    inputs or no outputs. *)
Theorem validateTransaction_exact (m : UTxOSet) (tx : Transaction) :
  let signed := verify (txPublicKey tx) (txSignature tx) (serializeForSigning tx) in
  let present (l : list TxInput) := Forall (λ i, is_Some (m !! tiUtxoId i)) l in
  let ids := tiUtxoId <$> txInputs tx in
  match validateTransaction m tx with
  | Ok tx' => tx' = tx ∧ tx_ok m tx
  | Err VEInvalidSignature => signed = false
  | Err (VEDoubleSpend id) =>
      signed = true ∧
      ((∃ l1 i l2, txInputs tx = l1 ++ i :: l2 ∧ present l1 ∧ tiUtxoId i = id ∧ m !! id = None) ∨
       present (txInputs tx) ∧ ¬ NoDup ids ∧ head ids = Some id)
  | Err (VEInsufficientFunds total_in total_out) =>
      signed = true ∧ present (txInputs tx) ∧ NoDup ids ∧
      total_in = wrap64 (value_of m ids) ∧ total_out = wrap64 (output_value tx) ∧ (total_out > total_in)%Z
  | Err _ => False
  end.
Proof.
  cbv zeta. destruct (validateTransaction m tx) as [tx'|e] eqn:E; [by apply validateTransaction_Ok|].
  unfold validateTransaction in E. rewrite duplicate_check in E.
  destruct (verify _ _ _) eqn:Hv; simpl in E; [|by injection E as <-].
  destruct (mapM_ (validateInput m) (txInputs tx)) as [[]|e'] eqn:Hin; simpl in E.
  - apply validateInputs_Ok in Hin. case_bool_decide as Hd; simpl in E.
    + injection E as <-. split; [done|]. right. split; [done|]. split; [done|].
      destruct (tiUtxoId <$> txInputs tx); [destruct Hd; constructor|done].
    + case_bool_decide; simpl in E; [|done]. injection E as <-.
      rewrite sumOutputs_wrap, sumInputs_wrap in *. done.
  - injection E as <-. apply mapM_Err in Hin as (l1 & i & l2 & Hl & Hp & Hi).
    unfold validateInput in Hi. destruct (m !! tiUtxoId i) eqn:Hm; [done|]. injection Hi as <-.
    split; [done|]. left. exists l1, i, l2. split; [done|]. split; [|done].
    by apply validateInputs_Ok, mapM_Ok.
Qed.

(** * Conservation of value *)

Lemma total_value_delete (m : UTxOSet) (id : UTxOId) (u : UTxO) :
  m !! id = Some u → total_value m = (uAmount u + total_value (delete id m))%Z.
Proof.
  intros Hm. unfold total_value.
  rewrite (sum_Z_Permutation _ _ (fmap_Permutation _ _ _ (Permutation_sym (map_to_list_delete m id u Hm)))). done.
Qed.

(** Every amount is a [Word64]. *)
Definition amounts_ok (m : UTxOSet) : Prop := map_Forall (λ _ u, (0 ≤ uAmount u)%Z) m.

Lemma total_value_nonneg (m : UTxOSet) : amounts_ok m → (0 ≤ total_value m)%Z.
Proof.
  intros Hm. apply sum_Z_nonneg, Forall_fmap, Forall_forall. intros [id u] H%elem_of_map_to_list. by apply (Hm id).
Qed.

Lemma value_of_nonneg (m : UTxOSet) (ids : list UTxOId) : amounts_ok m → (0 ≤ value_of m ids)%Z.
Proof.
  intros Hm. apply sum_Z_nonneg, Forall_fmap, Forall_forall. intros id _. unfold compose, amount_at.
  destruct (m !! id) as [u|] eqn:Hu; simpl; [by apply (Hm id)|lia].
Qed.

(** Distinct inputs are worth no more than the whole set. *)
Lemma value_of_le (m : UTxOSet) (ids : list UTxOId) :
  amounts_ok m → NoDup ids → (value_of m ids ≤ total_value m)%Z.
Proof.
  revert m. induction ids as [|id ids IH]; intros m Hm Hn; [by apply total_value_nonneg|].
  apply NoDup_cons in Hn as [Hid Hn].
  change (value_of m (id :: ids)) with (amount_at m id + value_of m ids)%Z.
  assert (value_of m ids = value_of (delete id m) ids) as ->.
  { unfold value_of. f_equal. apply list_fmap_ext. intros i id' Hid'. unfold amount_at. do 2 f_equal.
    symmetry. apply lookup_delete_ne. intros ->. by apply Hid, list_elem_of_lookup_2 with i. }
  assert (amounts_ok (delete id m)) as Hm' by by apply map_Forall_delete.
  specialize (IH _ Hm' Hn). unfold amount_at. destruct (m !! id) as [u|] eqn:Hu; simpl.
  - rewrite (total_value_delete m id u) by done. lia.
  - rewrite delete_id in IH by done. by rewrite delete_id by done.
Qed.

Lemma value_of_app (m : UTxOSet) (l1 l2 : list UTxOId) : value_of m (l1 ++ l2) = (value_of m l1 + value_of m l2)%Z.
Proof. unfold value_of. by rewrite fmap_app, sum_Z_app. Qed.

Lemma tx_conserves (m : UTxOSet) (tx : Transaction) :
  amounts_ok m → tx_ok m tx → (0 ≤ output_value tx ≤ u64_max)%Z →
  (output_value tx ≤ value_of m (tiUtxoId <$> txInputs tx))%Z.
Proof.
  intros Hm [_ _ _ Hb] Hr. rewrite sumOutputs_wrap, sumInputs_wrap in Hb.
  rewrite wrap64_small in Hb by done. pose proof (wrap64_le _ (value_of_nonneg m (tiUtxoId <$> txInputs tx) Hm)). lia.
Qed.

Lemma validateBlockBody_Ok (cs : ChainState) (body body' : BlockBody) (header : BlockHeader) :
  validateBlockBody cs body header = Ok body' ↔
  body' = body ∧ Forall (tx_ok (csUtxoSet cs)) (bbTransactions body) ∧ NoDup (block_inputs (bbTransactions body)).
Proof.
  unfold validateBlockBody.
  assert (mapM_ (validateTransaction (csUtxoSet cs)) (bbTransactions body) = Ok tt ↔
          Forall (tx_ok (csUtxoSet cs)) (bbTransactions body)) as HF.
  { rewrite mapM_Ok. apply Forall_proper; [|done]. intros tx. split.
    - destruct (validateTransaction _ tx) eqn:E; [|done]. apply validateTransaction_Ok in E as [_ Hok]. done.
    - intros Hok. by rewrite (proj2 (validateTransaction_Ok _ tx tx) (conj eq_refl Hok)). }
  rewrite <-HF, <-nubOrd_NoDup, and_then_Ok. split.
  - intros ([] & H1 & ([] & H2%check_Ok & [= ->])%and_then_Ok). apply bool_decide_eq_false in H2.
    split; [done|]. split; [done|]. by apply dec_stable.
  - intros (-> & H1 & H2). exists tt. split; [done|]. rewrite bool_decide_eq_false_2; [done|]. intros Hne. by apply Hne.
Qed.

(** C10: an accepted block creates no value.  When the amounts of the set are not negative and
    no transaction's outputs overflow a [Word64], the outputs of all transactions of an
    accepted body together are worth no more than the inputs they spend, and these no
    more than the whole set of unspent outputs. *)
Theorem block_conserves_value (cs : ChainState) (body body' : BlockBody) (header : BlockHeader) :
  validateBlockBody cs body header = Ok body' → amounts_ok (csUtxoSet cs) →
  Forall (λ tx, 0 ≤ output_value tx ≤ u64_max)%Z (bbTransactions body) →
  (sum_Z (output_value <$> bbTransactions body) ≤
   value_of (csUtxoSet cs) (block_inputs (bbTransactions body)) ≤ total_value (csUtxoSet cs))%Z.
Proof.
  intros (_ & Hok & Hnd)%validateBlockBody_Ok Hm Hr. split; [|by apply value_of_le].
  clear Hnd. induction Hok as [|tx txs Htx _ IH]; [done|]. apply Forall_cons in Hr as [Hr Hrs].
  change (block_inputs (tx :: txs)) with ((tiUtxoId <$> txInputs tx) ++ block_inputs txs).
  rewrite value_of_app. change (sum_Z (output_value <$> tx :: txs)) with (output_value tx + sum_Z (output_value <$> txs))%Z.
  specialize (IH Hrs). pose proof (tx_conserves _ _ Hm Htx Hr). lia.
Qed.
