(* ===== verification/LedgerForgery.v ===== *)
(** What an outsider can make the validation of Ledger.v accept.  With the signatures of
    SpecCrypto.v every transaction and header can be signed by anyone (an output's owner is
    not compared with the key either); sums wrap; and the hash keeps little of what it is
    given, so neither the header nor the body of a block is bound by its hashes. *)
From stdpp Require Import sorting.
From S2P Require Import Prelude Haskell SpecCrypto SpecCryptoProofs SpecMerkle Blocks HeaderEncoding Ledger LedgerProofs.

(** * Transactions *)

Definition zeros32 : ByteString := replicate 32 x00.

(** A transaction with a forged signature. *)
Definition forged_tx (ids : list UTxOId) (outs : list TxOutput) (pk : ByteString) : Transaction :=
  let tx sig := mkTransaction [] ((λ id, mkTxInput id None) <$> ids) outs sig pk 0%Z 0%Z in
  tx (forge zeros32 pk (serializeForSigning (tx []))).

Lemma forged_tx_ids (ids : list UTxOId) (outs : list TxOutput) (pk : ByteString) :
  tiUtxoId <$> txInputs (forged_tx ids outs pk) = ids.
Proof. unfold forged_tx. simpl. rewrite <-list_fmap_compose. by rewrite list_fmap_id. Qed.

Lemma forged_tx_signed (ids : list UTxOId) (outs : list TxOutput) (pk : ByteString) :
  verify (txPublicKey (forged_tx ids outs pk)) (txSignature (forged_tx ids outs pk))
    (serializeForSigning (forged_tx ids outs pk)) = true.
Proof. apply (forge_verifies zeros32). reflexivity. Qed.

Lemma forged_tx_ok (m : UTxOSet) (ids : list UTxOId) (outs : list TxOutput) (pk : ByteString) :
  Forall (λ id, is_Some (m !! id)) ids → NoDup ids →
  (wrap64 (sum_Z (toAmount <$> outs)) ≤ wrap64 (value_of m ids))%Z → tx_ok m (forged_tx ids outs pk).
Proof.
  intros Hids Hnd Hle. constructor.
  - apply forged_tx_signed.
  - apply (Forall_fmap tiUtxoId (λ id, is_Some (m !! id))). by rewrite forged_tx_ids.
  - by rewrite forged_tx_ids.
  - by rewrite sumOutputs_wrap, sumInputs_wrap, forged_tx_ids.
Qed.

(** C27: anyone can spend anything.  For every public key there is an accepted transaction that
    spends any distinct existing outputs, whoever owns them, and pays any outputs that
    balance modulo 2^64; in particular one without inputs that pays 2^64 to any address. *)
Theorem anyone_can_spend (m : UTxOSet) (ids : list UTxOId) (outs : list TxOutput) (pk addr : ByteString) :
  Forall (λ id, is_Some (m !! id)) ids → NoDup ids →
  (wrap64 (sum_Z (toAmount <$> outs)) ≤ wrap64 (value_of m ids))%Z →
  (∃ tx, validateTransaction m tx = Ok tx ∧ txPublicKey tx = pk ∧
     tiUtxoId <$> txInputs tx = ids ∧ txOutputs tx = outs) ∧
  (∃ tx, validateTransaction m tx = Ok tx ∧ txPublicKey tx = pk ∧ txInputs tx = [] ∧
     output_value tx = (2 ^ 64)%Z ∧ Forall (λ o, toAddress o = addr ∧ is_u64 (toAmount o)) (txOutputs tx)).
Proof.
  intros Hids Hnd Hle. split.
  - exists (forged_tx ids outs pk). split; [by apply validateTransaction_Ok; split; [|apply forged_tx_ok]|].
    split; [done|]. split; [apply forged_tx_ids|done].
  - set (coins := [mkTxOutput addr (2 ^ 63)%Z None; mkTxOutput addr (2 ^ 63)%Z None]).
    exists (forged_tx [] coins pk). split.
    + apply validateTransaction_Ok. split; [done|]. apply forged_tx_ok; [constructor|constructor|].
      vm_compute. discriminate.
    + split; [done|]. split; [done|]. split; [done|]. repeat constructor; vm_compute; discriminate.
Qed.

(** Empty transactions are accepted.  For every public key there is an accepted transaction
    without inputs and without outputs, and one that spends any existing output and pays
    nothing. *)
Theorem empty_transactions_accepted (m : UTxOSet) (id : UTxOId) (pk : ByteString) :
  is_Some (m !! id) →
  (∃ tx, validateTransaction m tx = Ok tx ∧ txPublicKey tx = pk ∧ txInputs tx = [] ∧ txOutputs tx = []) ∧
  (∃ tx, validateTransaction m tx = Ok tx ∧ txPublicKey tx = pk ∧ tiUtxoId <$> txInputs tx = [id] ∧ txOutputs tx = []).
Proof.
  intros Hid. split; [exists (forged_tx [] [] pk)|exists (forged_tx [id] [] pk)];
    (split; [apply validateTransaction_Ok; split; [done|apply forged_tx_ok]|done]).
  - constructor.
  - constructor.
  - vm_compute. discriminate.
  - by apply Forall_singleton.
  - apply NoDup_singleton.
  - change (wrap64 (sum_Z (toAmount <$> []))) with 0%Z. apply wrap64_range.
Qed.

(** * Blocks *)

(** The root of a list is its first hash, and the body's root is that of its first
    transaction. *)
Lemma crypto_hash_full (bs : ByteString) : full (crypto_hash bs).
Proof. apply length_sha3_256. Qed.

Lemma crypto_hashes_full {A} (f : A → ByteString) (l : list A) : Forall full ((λ a, crypto_hash (f a)) <$> l).
Proof. apply Forall_fmap, Forall_true. intros a. apply crypto_hash_full. Qed.

Lemma computeMerkleRoot_first (hs : list Hash) :
  Forall full hs → is_slice hs → computeMerkleRoot hs = Ret (default emptyTreeHash (head hs)).
Proof. destruct hs as [|h hs]; [done|]. apply computeRoot_first. Qed.

Lemma first_full (hs : list Hash) : Forall full hs → full (default emptyTreeHash (head hs)).
Proof. destruct hs as [|h hs]; [done|]. by intros [? _]%Forall_cons. Qed.

Definition body_root (body : BlockBody) : Hash := default emptyTreeHash (head (txHash <$> bbTransactions body)).

Definition body_slices (body : BlockBody) : Prop := is_slice (bbTransactions body) ∧ is_slice (bbVotes body).

Lemma is_slice_fmap {A B} (f : A → B) (l : list A) : is_slice l → is_slice (f <$> l).
Proof. unfold is_slice, len. by rewrite length_fmap. Qed.

(** The two roots of a body, and what they combine to. *)
Lemma body_roots (body : BlockBody) :
  body_slices body →
  ∃ votes, computeMerkleRoot (txHash <$> bbTransactions body) = Ret (body_root body) ∧
    computeMerkleRoot (voteHash <$> bbVotes body) = Ret votes ∧ combineRoots (body_root body) votes = body_root body.
Proof.
  intros [Ht Hv]. pose proof (crypto_hashes_full serializeForSigning (bbTransactions body)) as Ft.
  assert (Forall full (voteHash <$> bbVotes body)) as Fv
    by (apply Forall_fmap, Forall_true; intros v; apply crypto_hash_full).
  eexists. rewrite !computeMerkleRoot_first by (done || by apply is_slice_fmap).
  split; [done|]. split; [done|]. apply combineHashes_left; by apply first_full.
Qed.

(** The conditions on a header. *)
Record header_ok (cs : ChainState) (h : BlockHeader) : Prop := {
  header_parent : bhParentHash h = csTipHash cs;
  header_tip : csTipNumber cs ≠ u64_max;
  header_number : bhBlockNumber h = (csTipNumber cs + 1)%Z;
  header_signed : verifyBlockSignature h = true;
  header_version : bhVersion h = 1%Z;
}.

Lemma validateBlockHeader_Ok (cs : ChainState) (h h' : BlockHeader) (params : ProtocolParams) :
  validateBlockHeader cs h params = Ret (Ok h') ↔ h' = h ∧ header_ok cs h.
Proof.
  unfold validateBlockHeader, succ, then_exec, check. split.
  - destruct (bool_decide (bhParentHash h ≠ _)) eqn:E1; [done|].
    destruct (bool_decide (csTipNumber cs = _)) eqn:E2; cbn [mbind exec_bind]; [done|].
    destruct (bool_decide (bhBlockNumber h ≠ _)) eqn:E3; [done|].
    destruct (verifyBlockSignature h) eqn:Hv; cbn [negb]; [|done].
    destruct (bool_decide (bhVersion h ≠ _)) eqn:E4; [done|]. intros [= ->].
    apply bool_decide_eq_false in E1, E2, E3, E4. split; [done|]. constructor; try done; by apply dec_stable.
  - intros [-> [-> Ht -> Hv ->]]. rewrite !bool_decide_false by naive_solver. simpl.
    rewrite !bool_decide_false by naive_solver. by rewrite Hv.
Qed.

Lemma validateBlock_Ok (cs : ChainState) (b b' : Block) (params : ProtocolParams) :
  body_slices (bBody b) →
  validateBlock cs b params = Ret (Ok b') ↔
  b' = b ∧ validateBlockSize (bBody b) params = Ok tt ∧ header_ok cs (bHeader b) ∧
  validateBlockBody cs (bBody b) (bHeader b) = Ok (bBody b) ∧ bhMerkleRoot (bHeader b) = body_root (bBody b).
Proof.
  intros Hs. destruct (body_roots (bBody b) Hs) as (votes & Etx & Evote & Eroot).
  unfold validateBlock. rewrite Etx, Evote. cbn [mbind exec_bind]. cbv zeta. rewrite Eroot. split.
  - destruct (validateBlockSize _ _) as [[]|] eqn:Hsize; cbn [then_exec]; [|done].
    destruct (validateBlockHeader cs (bHeader b) params) as [[h|]| |] eqn:Hh; cbn [mbind exec_bind then_exec]; try done.
    destruct (validateBlockBody cs (bBody b) (bHeader b)) as [body|] eqn:Hb; cbn [then_exec]; [|done].
    case_bool_decide as Hr; [done|]. intros [= ->].
    apply validateBlockHeader_Ok in Hh as [_ Hh]. pose proof Hb as Hb'. apply validateBlockBody_Ok in Hb' as [-> _].
    naive_solver.
  - intros (-> & -> & Hh & Hb & Hr). cbn [then_exec].
    rewrite (proj2 (validateBlockHeader_Ok cs _ _ params) (conj eq_refl Hh)). cbn [mbind exec_bind then_exec].
    rewrite Hb. cbn [then_exec]. by rewrite bool_decide_false by (intros Hn; by apply Hn).
Qed.

(** Anyone can produce blocks, in any name.  On a chain whose number is not the greatest,
    every body that validates makes an accepted block under a header with any validator
    (of the set or not), slot, epoch, time, state root and nonce, with a signature made
    without a key. *)
Theorem anyone_can_produce (cs : ChainState) (body : BlockBody) (params : ProtocolParams)
    (validator : ValidatorId) (slot epoch nonce : Z) (time : Timestamp) (stateRoot : Hash) :
  csTipNumber cs ≠ u64_max → body_slices body → validateBlockSize body params = Ok tt →
  (∀ header, validateBlockBody cs body header = Ok body) →
  ∃ sig, let header := mkBlockHeader (csTipHash cs) (csTipNumber cs + 1) slot epoch time validator
           (body_root body) stateRoot nonce 1 sig in
    validateBlock cs (mkBlock header body) params = Ret (Ok (mkBlock header body)).
Proof.
  intros Ht Hs Hsize Hbody.
  set (header sig := mkBlockHeader (csTipHash cs) (csTipNumber cs + 1) slot epoch time validator
    (body_root body) stateRoot nonce 1 sig).
  exists (forge zeros32 validator (serializeForSigning_header (header []))).
  apply validateBlock_Ok; [done|]. split; [done|]. split; [done|]. split; [|by split].
  constructor; try done. apply (forge_verifies zeros32). reflexivity.
Qed.

(** C28: a header binds only the first transaction.  When a block is accepted, so is every
    block with the same header and another body that validates, has room and starts with
    the same transaction: its other transactions and all its votes can be replaced. *)
Theorem body_not_bound (cs : ChainState) (b : Block) (body' : BlockBody) (params : ProtocolParams) :
  validateBlock cs b params = Ret (Ok b) → body_slices (bBody b) → body_slices body' →
  validateBlockSize body' params = Ok tt → validateBlockBody cs body' (bHeader b) = Ok body' →
  head (bbTransactions body') = head (bbTransactions (bBody b)) →
  validateBlock cs (mkBlock (bHeader b) body') params = Ret (Ok (mkBlock (bHeader b) body')).
Proof.
  intros H Hs Hs' Hsize Hb Hhd. apply validateBlock_Ok in H as (_ & _ & Hh & _ & Hr); [|done].
  apply validateBlock_Ok; [done|]. do 4 (split; [done|]). cbn [bHeader bBody]. rewrite Hr. unfold body_root.
  by destruct (bbTransactions body'), (bbTransactions (bBody b)); simplify_eq/=.
Qed.

(** ** Hashes of headers *)
(** A header with hashes of 32 bytes and a validator of 20. *)
Definition header_full (h : BlockHeader) : Prop :=
  full (bhParentHash h) ∧ length (bhValidator h) = 20 ∧ full (bhMerkleRoot h) ∧ full (bhStateRoot h).

(** The first block of such a header ends in its state root. *)
Lemma serializeHeader_block (h : BlockHeader) :
  header_full h →
  ∃ block, length block = 136 ∧ take 32 block = serializeHash (bhParentHash h) ∧
    serializeHeader h = block ++ drop 20 (serializeHash (bhStateRoot h)) ++ serializeWord64 (bhNonce h) ++
      serializeWord32 (bhVersion h).
Proof.
  intros (Hp & Hv & Hm & Hs). unfold full in *. eexists (serializeHash (bhParentHash h) ++ serializeWord64 (bhBlockNumber h) ++
    serializeWord64 (bhSlotNumber h) ++ serializeWord64 (bhEpochNumber h) ++ serializeTimestamp (bhTimestamp h) ++
    bhValidator h ++ serializeHash (bhMerkleRoot h) ++ take 20 (serializeHash (bhStateRoot h))).
  split; [|split].
  - rewrite !length_app, length_take. unfold serializeTimestamp, serializeHash.
    rewrite !length_serializeWord64, Hp, Hv, Hm, Hs. done.
  - by rewrite take_app_length'.
  - unfold serializeHeader. cbn [concat]. rewrite app_nil_r, <-!app_assoc. unfold serializeValidatorId.
    do 7 f_equal. by rewrite (app_assoc (take _ _)), take_drop.
Qed.

(** Block hashes say little.  Two headers with hashes of 32 bytes, validators of 20 and the same parent,
    state root, nonce and version have the same hash, whatever their numbers, slots,
    epochs, times, validators and Merkle roots. *)
Theorem header_hash_collision (h1 h2 : BlockHeader) :
  header_full h1 → header_full h2 →
  bhParentHash h1 = bhParentHash h2 → bhStateRoot h1 = bhStateRoot h2 →
  bhNonce h1 = bhNonce h2 → bhVersion h1 = bhVersion h2 →
  hashBlockHeader h1 = hashBlockHeader h2.
Proof.
  intros H1 H2 Hp Hs Hn Hv.
  destruct (serializeHeader_block h1 H1) as (b1 & L1 & T1 & E1), (serializeHeader_block h2 H2) as (b2 & L2 & T2 & E2).
  unfold hashBlockHeader, crypto_hash, hash. rewrite E1, E2.
  rewrite (sha3_256_block b1), (sha3_256_block b2) by done. by rewrite T1, T2, Hp, Hs, Hn, Hv.
Qed.

(** * Created blocks *)

(** C20: what [createBlock] makes.  From a parent whose number is not the greatest it returns a
    block, and on the chain with that parent as its tip, if the transactions validate and
    the body has room, validating it depends on the signature alone. *)
Theorem created_block_verdict (time : Timestamp) (parent : BlockHeader) (slot epoch : Z)
    (validator : ValidatorId) (privKey : ByteString) (txs : list Transaction) (votes : list Vote)
    (cs : ChainState) (params : ProtocolParams) :
  let body := mkBlockBody txs votes in
  bhBlockNumber parent ≠ u64_max → is_slice txs → is_slice votes → is_slice (map_to_list (csUtxoSet cs)) →
  csTipHash cs = hashBlockHeader parent → csTipNumber cs = bhBlockNumber parent →
  validateBlockSize body params = Ok tt → Forall (tx_ok (csUtxoSet cs)) txs → NoDup (block_inputs txs) →
  ∃ b, createBlock time parent slot epoch validator privKey txs votes (csUtxoSet cs) = Ret (Ok b) ∧
    bBody b = body ∧
    validateBlock cs b params =
      Ret (if verifyBlockSignature (bHeader b) then Ok b else Err VEInvalidSignature).
Proof.
  intros body Hn Ht Hv Hu Htip Hnum Hsize Hok Hnd.
  assert (computeStateRoot (csUtxoSet cs) = Ret (default emptyTreeHash
    (head ((λ e : UTxOId * UTxO, crypto_hash (serializeUTxOEntry e.1 e.2)) <$> toAscList (csUtxoSet cs))))) as Hroot.
  { apply computeMerkleRoot_first; [apply (crypto_hashes_full (λ e : UTxOId * UTxO, serializeUTxOEntry e.1 e.2))|].
    apply is_slice_fmap. unfold is_slice, len, toAscList in *.
    by rewrite (Permutation_length (merge_sort_Permutation _ _)). }
  unfold createBlock, succ. rewrite (bool_decide_eq_false_2 (bhBlockNumber parent = _)) by done.
  destruct (body_roots body) as (root & Etx & Evote & Eroot); [done|].
  cbn [bbTransactions bbVotes body] in Etx, Evote.
  rewrite Etx, Evote, Hroot. cbn [mbind exec_bind]. cbv zeta. rewrite Eroot.
  unfold signBlock. rewrite sign_Some. eexists. split; [done|]. split; [done|].
  match goal with |- validateBlock _ (mkBlock ?h _) _ = _ => set (header := h) end. cbn [bHeader].
  destruct (verifyBlockSignature header) eqn:Hsig.
  - apply validateBlock_Ok; [done|]. split; [done|]. split; [done|]. split; [|split].
    + constructor; cbn; congruence.
    + by apply validateBlockBody_Ok.
    + done.
  - unfold validateBlock. cbn [bBody bHeader]. fold body. rewrite Hsize. cbn [then_exec].
    unfold validateBlockHeader, check, succ. rewrite Hnum, Htip.
    rewrite (bool_decide_eq_false_2 (bhParentHash header ≠ _)) by (intros H; by apply H). cbn [then_exec].
    rewrite (bool_decide_eq_false_2 (bhBlockNumber parent = _)) by done. cbn [mbind exec_bind].
    rewrite (bool_decide_eq_false_2 (bhBlockNumber header ≠ _)) by (intros H; by apply H).
    cbn [then_exec]. by rewrite Hsig.
Qed.

(** * A chain with one unspent output *)
Definition sample_id : UTxOId := (replicate 32 x01, 0%Z).
Definition sample_utxo : UTxOSet := {[ sample_id := mkUTxO sample_id (replicate 20 x02) 100%Z None ]}.
Definition sample_params : ProtocolParams := mkProtocolParams (mkSecurityParam 10 1) 100 1000 10000 1000 0 1 1.
Definition sample_chain : ChainState :=
  mkChainState sample_utxo (mkConsensusState 0 4 emptyTreeHash [] ∅ ∅) ∅ (hashBlockHeader sample_header) 4.
Definition sample_tx : Transaction :=
  forged_tx [sample_id] [mkTxOutput (replicate 20 x09) 60%Z None; mkTxOutput (replicate 20 x08) 40%Z None] [x07].
Definition sample_vote : Vote := mkVote [x05] emptyTreeHash 1 VoteCommit [].
Definition sample_body : BlockBody := mkBlockBody [sample_tx] [].

Lemma sample_tx_ok : tx_ok (csUtxoSet sample_chain) sample_tx.
Proof.
  apply forged_tx_ok; [|apply NoDup_singleton|vm_compute; discriminate].
  apply Forall_singleton. exists (mkUTxO sample_id (replicate 20 x02) 100%Z None). apply lookup_singleton_eq.
Qed.

Lemma sample_inputs_distinct : NoDup (block_inputs [sample_tx]).
Proof.
  change (block_inputs [sample_tx]) with ((tiUtxoId <$> txInputs sample_tx) ++ []).
  unfold sample_tx. rewrite forged_tx_ids. apply NoDup_singleton.
Qed.

Lemma sample_body_ok (votes : list Vote) (header : BlockHeader) :
  validateBlockBody sample_chain (mkBlockBody [sample_tx] votes) header = Ok (mkBlockBody [sample_tx] votes).
Proof.
  apply validateBlockBody_Ok. split; [done|].
  split; [apply Forall_singleton, sample_tx_ok|apply sample_inputs_distinct].
Qed.

Lemma sample_amounts_ok : amounts_ok (csUtxoSet sample_chain).
Proof. apply map_Forall_singleton. simpl. lia. Qed.

Lemma block_conserves_value_witness :
  (sum_Z (output_value <$> [sample_tx]) ≤ value_of sample_utxo (block_inputs [sample_tx]) ≤ total_value sample_utxo)%Z.
Proof.
  apply (block_conserves_value sample_chain sample_body sample_body sample_header).
  - apply sample_body_ok.
  - apply sample_amounts_ok.
  - apply Forall_singleton. split; vm_compute; discriminate.
Defined.

Lemma anyone_can_spend_witness :
  ∃ tx, validateTransaction sample_utxo tx = Ok tx ∧ txPublicKey tx = [x07] ∧
    tiUtxoId <$> txInputs tx = [sample_id] ∧ txOutputs tx = [mkTxOutput [x07] 100%Z None].
Proof.
  apply (anyone_can_spend sample_utxo [sample_id] [mkTxOutput [x07] 100%Z None] [x07] []);
    [|apply NoDup_singleton|vm_compute; discriminate].
  apply Forall_singleton. exists (mkUTxO sample_id (replicate 20 x02) 100%Z None). apply lookup_singleton_eq.
Defined.

Lemma empty_transactions_accepted_witness :
  ∃ tx, validateTransaction sample_utxo tx = Ok tx ∧ txPublicKey tx = [x07] ∧ txInputs tx = [] ∧ txOutputs tx = [].
Proof.
  apply (empty_transactions_accepted sample_utxo sample_id [x07]).
  exists (mkUTxO sample_id (replicate 20 x02) 100%Z None). apply lookup_singleton_eq.
Defined.

Lemma anyone_can_produce_witness :
  ∃ sig, let header := mkBlockHeader (csTipHash sample_chain) 5 7 0 0%Z [x09] (body_root sample_body) emptyTreeHash 0 1 sig in
    validateBlock sample_chain (mkBlock header sample_body) sample_params = Ret (Ok (mkBlock header sample_body)).
Proof.
  apply (anyone_can_produce sample_chain sample_body sample_params [x09] 7 0 0 0%Z emptyTreeHash);
    [discriminate|split; vm_compute; discriminate|vm_compute; reflexivity|].
  intros header. apply sample_body_ok.
Defined.

(** A block on that chain that is accepted. *)
Definition sample_block : Block :=
  let header sig := mkBlockHeader (csTipHash sample_chain) 5 7 0 0%Z [x09] (body_root sample_body) emptyTreeHash 0 1 sig in
  mkBlock (header (forge zeros32 [x09] (serializeForSigning_header (header [])))) sample_body.

Lemma sample_block_ok : validateBlock sample_chain sample_block sample_params = Ret (Ok sample_block).
Proof.
  apply validateBlock_Ok; [split; vm_compute; discriminate|]. split; [done|]. split; [vm_compute; reflexivity|].
  split; [|split; [apply sample_body_ok|done]]. constructor; done.
Qed.

Lemma body_not_bound_witness :
  validateBlock sample_chain (mkBlock (bHeader sample_block) (mkBlockBody [sample_tx] [sample_vote])) sample_params =
  Ret (Ok (mkBlock (bHeader sample_block) (mkBlockBody [sample_tx] [sample_vote]))).
Proof.
  apply body_not_bound.
  - exact sample_block_ok.
  - split; vm_compute; discriminate.
  - split; vm_compute; discriminate.
  - vm_compute. reflexivity.
  - apply sample_body_ok.
  - reflexivity.
Defined.

Lemma header_hash_collision_witness :
  hashBlockHeader sample_header =
  hashBlockHeader (mkBlockHeader emptyTreeHash 5 6 7 8%Z (replicate 20 x0b) (replicate 32 x01) emptyTreeHash 0 1 []).
Proof. apply header_hash_collision; first [reflexivity | repeat split]. Defined.

(** A block signed with a validator's own key is rejected. *)
Lemma created_block_verdict_witness :
  ∃ b, createBlock 0%Z sample_header 5 0 sample_seed (sample_seed ++ sample_seed) [sample_tx] [sample_vote] sample_utxo
         = Ret (Ok b) ∧
    validateBlock sample_chain b sample_params = Ret (Err VEInvalidSignature).
Proof.
  destruct (created_block_verdict 0%Z sample_header 5 0 sample_seed (sample_seed ++ sample_seed)
    [sample_tx] [sample_vote] sample_chain sample_params) as (b & Hc & _ & Hv);
    [discriminate|vm_compute; discriminate..|reflexivity|reflexivity|vm_compute; reflexivity|
     apply Forall_singleton, sample_tx_ok|apply sample_inputs_distinct|].
  exists b. split; [exact Hc|]. rewrite Hv.
  assert (verifyBlockSignature (bHeader b) = false) as ->; [|reflexivity].
  vm_compute in Hc. injection Hc as <-. vm_compute. reflexivity.
Defined.
