(* ===== verification/Validators.v ===== *)
(** The validator sets of the consensus specification
    (src/formal-protocol/crypto-coin-consensus/src/CryptoCoin/Consensus/Types.hs), the
    super-majority they vote with, and the round-robin proposer of Engine.hs.  Powers are
    [Word64], whose arithmetic wraps; validator identifiers and addresses are byte
    strings. *)
From S2P Require Import Prelude Haskell.

Definition ValidatorId : Type := list byte.

Inductive ValidatorStatus := Active | Inactive | Jailed | Tombstoned | Unbonding.

#[export] Instance ValidatorStatus_eq_decision : EqDecision ValidatorStatus.
Proof. solve_decision. Defined.

Record ValidatorInfo := mkValidatorInfo {
  viAddress : ValidatorId;
  viPower : Z;
  viStatus : ValidatorStatus;
  viPubKey : list byte;
  viVrfKey : list byte;
  viEndpoint : list byte;
  viMetadata : list byte;
}.

Record ValidatorSet := mkValidatorSet {
  vsValidators : list ValidatorInfo;
  vsTotalPower : Z;
  vsEpoch : Z;
  vsHash : list byte;
}.

Definition validatorSetSize (vset : ValidatorSet) : Z := len (vsValidators vset).

Definition superMajority (vset : ValidatorSet) (voters : gset ValidatorId) : bool :=
  let totalPower := vsTotalPower vset in
  let voterPower :=
    sum_word64 (viPower <$> filter (λ v, viAddress v ∈ voters) (vsValidators vset)) in
  bool_decide (wrap64 (voterPower * 3) > wrap64 (totalPower * 2))%Z.

Definition superMajorityCount (vset : ValidatorSet) : Z :=
  let n := validatorSetSize vset in
  int64 (int64 (n * 2) / 3 + 1).

Definition isValidatorActive (v : ValidatorInfo) : bool := bool_decide (viStatus v = Active).

Definition activeValidators (vset : ValidatorSet) : list ValidatorInfo :=
  filter (λ v, isValidatorActive v) (vsValidators vset).

(** [lookup] takes the first entry with the key. *)
Definition validatorPower (vset : ValidatorSet) (vid : ValidatorId) : Z :=
  match List.find (λ v, bool_decide (viAddress v = vid)) (vsValidators vset) with
  | Some v => viPower v
  | None => 0
  end.

(** [mod] by the length of an empty list and [!!] out of range are exceptions. *)
Definition roundProposer (round : Z) (vset : ValidatorSet) : exec ValidatorId :=
  let active := activeValidators vset in
  if bool_decide (len active = 0%Z) then Panic
  else
    let idx := (int64 round mod len active)%Z in
    v ← or_panic (active !! Z.to_nat idx);
    Ret (viAddress v).

Definition shouldPropose (round : Z) (vset : ValidatorSet) (validatorId : ValidatorId) : exec bool :=
  proposer ← roundProposer round vset;
  Ret (bool_decide (proposer = validatorId)).

Definition isRoundProposer : Z → ValidatorSet → ValidatorId → exec bool := shouldPropose.

(** * Specification *)

(** The power that the validators in [voters] really have. *)
Definition power_of (voters : gset ValidatorId) (vs : list ValidatorInfo) : Z :=
  sum_Z (viPower <$> filter (λ v, viAddress v ∈ voters) vs).

(** A set whose total is the sum of its powers and whose arithmetic does not wrap. *)
Record set_ok (vset : ValidatorSet) : Prop := {
  powers_nonneg : Forall (λ v, 0 ≤ viPower v)%Z (vsValidators vset);
  total_is_sum : vsTotalPower vset = sum_Z (viPower <$> vsValidators vset);
  total_small : (vsTotalPower vset * 3 ≤ u64_max)%Z;
}.

Lemma power_of_cons (voters : gset ValidatorId) (v : ValidatorInfo) (vs : list ValidatorInfo) :
  power_of voters (v :: vs) =
  ((if bool_decide (viAddress v ∈ voters) then viPower v else 0) + power_of voters vs)%Z.
Proof. unfold power_of. rewrite filter_cons. case_decide; case_bool_decide; done. Qed.

Lemma power_of_bounds (voters : gset ValidatorId) (vs : list ValidatorInfo) :
  Forall (λ v, 0 ≤ viPower v)%Z vs → (0 ≤ power_of voters vs ≤ sum_Z (viPower <$> vs))%Z.
Proof.
  unfold sum_Z. induction 1 as [|v vs Hv _ IH]; [done|]. rewrite power_of_cons. csimpl.
  case_bool_decide; lia.
Qed.

(** Two sets of voters, by inclusion and exclusion. *)
Lemma power_of_union (A B : gset ValidatorId) (vs : list ValidatorInfo) :
  (power_of A vs + power_of B vs = power_of (A ∪ B) vs + power_of (A ∩ B) vs)%Z.
Proof.
  induction vs as [|v vs IH]; [done|]. rewrite !power_of_cons.
  rewrite (bool_decide_ext (viAddress v ∈ A ∪ B) (viAddress v ∈ A ∨ viAddress v ∈ B)) by set_solver.
  rewrite (bool_decide_ext (viAddress v ∈ A ∩ B) (viAddress v ∈ A ∧ viAddress v ∈ B)) by set_solver.
  repeat case_bool_decide; try tauto; lia.
Qed.

(** Where nothing wraps, [superMajority] is more than two thirds of the power. *)
Lemma superMajority_iff (vset : ValidatorSet) (voters : gset ValidatorId) :
  set_ok vset →
  superMajority vset voters = true ↔ (power_of voters (vsValidators vset) * 3 > vsTotalPower vset * 2)%Z.
Proof.
  intros [Hn Ht Hs]. unfold superMajority. rewrite sum_word64_wrap, bool_decide_eq_true.
  change (sum_Z _) with (power_of voters (vsValidators vset)).
  pose proof (power_of_bounds voters _ Hn) as Hp. rewrite <-Ht in Hp.
  rewrite (wrap64_small (power_of _ _)) by (unfold is_u64, u64_max in *; lia).
  rewrite !wrap64_small by (unfold is_u64, u64_max in *; lia). done.
Qed.

(** A voter outside [F] exists where [voters] have more power than [F]. *)
Lemma power_of_exists (voters F : gset ValidatorId) (vs : list ValidatorInfo) :
  Forall (λ v, 0 ≤ viPower v)%Z vs → (power_of voters vs > power_of F vs)%Z →
  ∃ v, v ∈ vs ∧ viAddress v ∈ voters ∧ viAddress v ∉ F.
Proof.
  induction 1 as [|v vs Hv _ IH]; [intros H; vm_compute in H; done|]. rewrite !power_of_cons. intros Hp.
  destruct (decide (viAddress v ∈ voters ∧ viAddress v ∉ F)) as [[??]|Hno].
  - exists v. split; [apply list_elem_of_here|done].
  - destruct IH as (v' & Hv' & ?); [|exists v'; split; [by apply list_elem_of_further|done]].
    repeat case_bool_decide; try lia. destruct Hno. done.
Qed.

(** Two super-majorities share a validator outside a third of the power. *)
Lemma quorums_intersect (vset : ValidatorSet) (A B F : gset ValidatorId) :
  set_ok vset → superMajority vset A = true → superMajority vset B = true →
  (power_of F (vsValidators vset) * 3 ≤ vsTotalPower vset)%Z →
  (power_of (A ∩ B) (vsValidators vset) * 3 > vsTotalPower vset)%Z ∧
  ∃ v, v ∈ vsValidators vset ∧ viAddress v ∈ A ∧ viAddress v ∈ B ∧ viAddress v ∉ F.
Proof.
  intros Hok HA HB HF. apply superMajority_iff in HA, HB; [|done..]. destruct Hok as [Hn Ht Hs].
  pose proof (power_of_union A B (vsValidators vset)) as Hu.
  pose proof (power_of_bounds (A ∪ B) _ Hn) as Hb. rewrite <-Ht in Hb.
  split; [lia|]. destruct (power_of_exists (A ∩ B) F (vsValidators vset) Hn) as (v & Hv & Hin & Hout); [lia|].
  exists v. set_solver.
Qed.

(** C9: quorums intersect in a correct validator.  In a validator set whose total power is
    the sum of its powers and small enough not to wrap, two sets of voters that are both
    super-majorities have a validator in common that is outside any set [F] of at most a
    third of the power; in particular more than a third of the power voted twice. *)
Theorem quorum_intersection (vset : ValidatorSet) (A B F : gset ValidatorId) :
  set_ok vset → superMajority vset A = true → superMajority vset B = true →
  (power_of F (vsValidators vset) * 3 ≤ vsTotalPower vset)%Z →
  (power_of (A ∩ B) (vsValidators vset) * 3 > vsTotalPower vset)%Z ∧
  ∃ v, v ∈ vsValidators vset ∧ viAddress v ∈ A ∧ viAddress v ∈ B ∧ viAddress v ∉ F.
Proof. apply quorums_intersect. Qed.

(** * The count of a super-majority *)

(** The number of validators that are in [voters]. *)
Definition voter_count (voters : gset ValidatorId) (vs : list ValidatorInfo) : Z :=
  len (filter (λ v, viAddress v ∈ voters) vs).

Lemma sum_Z_constant (p : Z) (xs : list Z) : Forall (λ x, x = p) xs → sum_Z xs = (len xs * p)%Z.
Proof. unfold sum_Z, len. induction 1; simpl; subst; lia. Qed.

Lemma powers_constant (p : Z) (vs : list ValidatorInfo) :
  Forall (λ v, viPower v = p) vs → sum_Z (viPower <$> vs) = (len vs * p)%Z.
Proof.
  intros H. rewrite (sum_Z_constant p) by by apply Forall_fmap.
  unfold len. by rewrite length_fmap.
Qed.

(** [superMajority] and [superMajorityCount] agree.  Where all validators have the same
    positive power, a set of voters is a super-majority by power exactly when it holds at
    least [superMajorityCount] validators, whatever the remainder of the size by three. *)
Theorem superMajority_counts (vset : ValidatorSet) (voters : gset ValidatorId) (p : Z) :
  set_ok vset → (0 < p)%Z → Forall (λ v, viPower v = p) (vsValidators vset) →
  (validatorSetSize vset * 2 < 2 ^ 63)%Z →
  superMajority vset voters = true ↔
  (superMajorityCount vset ≤ voter_count voters (vsValidators vset))%Z.
Proof.
  intros Hok Hp Hall Hn. rewrite superMajority_iff by done. destruct Hok as [_ Ht _].
  rewrite Ht, (powers_constant p) by done. unfold power_of.
  rewrite (powers_constant p) by (rewrite Forall_forall in *; intros v [_ ?]%list_elem_of_filter; auto).
  unfold superMajorityCount, voter_count, validatorSetSize in *.
  set (k := len (filter _ _)). set (n := len _) in *.
  assert (0 ≤ n)%Z by (unfold n, len; lia).
  rewrite (int64_small (n * 2)) by (unfold is_int64; lia).
  rewrite int64_small by (unfold is_int64; split; [|apply Z.lt_le_trans with (n * 2 / 3 + 2)%Z];
    Z.to_euclidean_division_equations; lia).
  split; intros H'; Z.to_euclidean_division_equations; nia.
Qed.

(** * The proposers of consecutive rounds *)

Lemma roundProposer_Ret (round : Z) (vset : ValidatorSet) :
  activeValidators vset ≠ [] → (0 ≤ round < 2 ^ 63)%Z →
  ∃ v, activeValidators vset !! Z.to_nat (round mod len (activeValidators vset)) = Some v ∧
       roundProposer round vset = Ret (viAddress v).
Proof.
  intros Hne Hr. unfold roundProposer. rewrite int64_small by (unfold is_int64; lia).
  assert (0 < len (activeValidators vset))%Z as Hl.
  { unfold len. destruct (activeValidators vset); simpl; [done|lia]. }
  rewrite (bool_decide_eq_false_2 (len _ = 0%Z)) by lia.
  destruct (lookup_lt_is_Some_2 (activeValidators vset) (Z.to_nat (round mod len (activeValidators vset))))
    as [v Hv].
  { pose proof (Z.mod_pos_bound round _ Hl). unfold len in *. lia. }
  exists v. by rewrite Hv.
Qed.

Lemma rotate_Permutation {A} (n : nat) (l : list A) : rotate n l ≡ₚ l.
Proof. unfold rotate. rewrite Permutation_app_comm. by rewrite take_drop. Qed.

(** C19: the rotation is fair.  The proposers of as many consecutive rounds below 2^63 as
    there are active validators (a round is converted to a signed [Int]) are the active
    validators' addresses, each once, whatever their power, in the order of the set and
    starting at the first round's remainder; no round of them fails.  Stake has no
    influence on the selection. *)
Theorem proposers_rotate (round : Z) (vset : ValidatorSet) :
  activeValidators vset ≠ [] → (0 ≤ round)%Z →
  (round + len (activeValidators vset) ≤ 2 ^ 63)%Z →
  let addresses := viAddress <$> activeValidators vset in
  let order := rotate (Z.to_nat round) addresses in
  ((λ i, roundProposer i vset) <$> seqZ round (len (activeValidators vset))) = Ret <$> order ∧
  order ≡ₚ addresses.
Proof.
  intros Hne H0 Hr addresses order. split; [|apply rotate_Permutation].
  set (n := len (activeValidators vset)) in *.
  assert (length addresses = Z.to_nat n) as Hlen
    by (unfold addresses, n, len; rewrite length_fmap; lia).
  apply list_eq_same_length with (n := Z.to_nat n).
  - by rewrite length_fmap; unfold order; rewrite length_rotate.
  - rewrite length_fmap, length_seqZ. done.
  - intros i x y Hi. rewrite !list_lookup_fmap. unfold order.
    rewrite lookup_seqZ_lt by lia. rewrite lookup_rotate_r by lia. simpl.
    destruct (roundProposer_Ret (round + Z.of_nat i) vset) as (v & Hv & ->); [done|lia|].
    unfold rotate_nat_add. unfold addresses. rewrite list_lookup_fmap, length_fmap.
    rewrite Z2Nat.id by lia. change (Z.of_nat (length (activeValidators vset))) with n.
    fold n in Hv. rewrite Hv. simpl. congruence.
Qed.

(** Without an active validator, choosing the proposer divides by zero. *)
Theorem no_proposer (round : Z) (vset : ValidatorSet) (vid : ValidatorId) :
  Forall (λ v, viStatus v ≠ Active) (vsValidators vset) →
  shouldPropose round vset vid = Panic.
Proof.
  intros H. unfold shouldPropose, roundProposer.
  assert (activeValidators vset = []) as ->; [|done].
  unfold activeValidators, isValidatorActive. induction H as [|v vs Hv _ IH]; [done|].
  rewrite filter_cons_False; [done|]. by intros ?%bool_decide_unpack.
Qed.

(** * Samples *)

Definition sample_validator (name : byte) (power : Z) (status : ValidatorStatus) : ValidatorInfo :=
  mkValidatorInfo [name] power status [] [] [] [].

Definition sample_validators : list ValidatorInfo :=
  [sample_validator "a" 10 Active; sample_validator "b" 10 Active;
   sample_validator "c" 10 Jailed; sample_validator "d" 10 Active].

Definition sample_set : ValidatorSet := mkValidatorSet sample_validators 40 0 [].

Lemma sample_set_ok : set_ok sample_set.
Proof. split; [repeat constructor; simpl; lia|reflexivity|vm_compute; discriminate]. Qed.

Lemma quorum_intersection_witness :
  ∃ v, v ∈ sample_validators ∧ viAddress v ∈ ({[ ["a"%byte]; ["b"%byte]; ["c"%byte] ]} : gset ValidatorId) ∧
       viAddress v ∈ ({[ ["b"%byte]; ["c"%byte]; ["d"%byte] ]} : gset ValidatorId) ∧
       viAddress v ∉ ({[ ["c"%byte] ]} : gset ValidatorId).
Proof.
  apply (quorum_intersection sample_set); [apply sample_set_ok|vm_compute; reflexivity..|].
  vm_compute. discriminate.
Defined.

Lemma superMajority_counts_witness :
  (superMajorityCount sample_set ≤
   voter_count {[ ["a"%byte]; ["b"%byte]; ["d"%byte] ]} (vsValidators sample_set))%Z.
Proof.
  eapply (superMajority_counts sample_set _ 10 sample_set_ok); [lia| |vm_compute; reflexivity..].
  by repeat apply Forall_cons_2.
Defined.

Lemma proposers_rotate_witness :
  ((λ i, roundProposer i sample_set) <$> [4; 5; 6]%Z) = [Ret ["b"%byte]; Ret ["d"%byte]; Ret ["a"%byte]].
Proof.
  apply (proposers_rotate 4 sample_set); [discriminate|lia|vm_compute; discriminate].
Defined.

(** A set whose powers sum to 2^63: twice the total is 0 modulo 2^64. *)
Definition wrapping_set : ValidatorSet :=
  mkValidatorSet
    [sample_validator "a" 1 Active; sample_validator "b" 2 Active;
     sample_validator "c" (2 ^ 63 - 3) Active]
    (2 ^ 63) 0 [].

(** Large powers defeat the super-majority.  There is a validator set whose total is the
    exact sum of its powers, all of them in range, in which two disjoint sets of voters that
    together hold 3 of 2^63 are both super-majorities, because [Word64] products wrap. *)
Theorem superMajority_wraps :
  ∃ (vset : ValidatorSet) (A B : gset ValidatorId),
    Forall (λ v, is_u64 (viPower v)) (vsValidators vset) ∧
    vsTotalPower vset = sum_Z (viPower <$> vsValidators vset) ∧ is_u64 (vsTotalPower vset) ∧
    A ∩ B = ∅ ∧ superMajority vset A = true ∧ superMajority vset B = true ∧
    (power_of (A ∪ B) (vsValidators vset) * 2 ^ 61 < vsTotalPower vset)%Z.
Proof.
  exists wrapping_set, {[ ["a"%byte] ]}, {[ ["b"%byte] ]}.
  split; [repeat constructor; vm_compute; discriminate|].
  split; [vm_compute; reflexivity|]. split; [split; vm_compute; discriminate|].
  split; [set_solver|]. split; [vm_compute; reflexivity|]. split; vm_compute; reflexivity.
Qed.
