(* ===== verification/Engine.v ===== *)
(** The consensus engine of the specification (Consensus/Engine.hs and the message types of
    Consensus/Types.hs, under src/formal-protocol): proposals, votes, commits, view changes
    and timeouts as actions on the engine's variables.

    [IO] threads the variables ([TVar]s) and keeps the changes made before an exception.
    A queued message is a suspended value: [Panic] stands for the proposal that
    [proposeBlock] builds around [undefined].  The time an action reads is an argument.
    [pmBlockHash], which the sources use and do not define, is a parameter.  Where [handlePrecommit] passes a round to [startNextRound], which
    takes a state, it is the state that was read. *)
From S2P Require Import Prelude Haskell SpecCrypto SpecCryptoProofs SpecMerkle Blocks Validators.

Definition BlockHash : Type := Hash.

(** * Messages and state *)
Inductive ConsensusStep := ProposePhase | PrevotePhase | PrecommitPhase | CommitPhase.

#[export] Instance ConsensusStep_eq_decision : EqDecision ConsensusStep.
Proof. solve_decision. Defined.

Record ProposalMsg := mkProposalMsg {
  pmBlock : Block;
  pmRound : Z;
  pmValidRound : option Z;
  pmProposer : ValidatorId;
  pmSignature : ByteString;
}.

Record PrevoteMsg := mkPrevoteMsg {
  prBlockHash : option BlockHash;
  prRound : Z;
  prSender : ValidatorId;
  prSignature : ByteString;
}.

Record PrecommitMsg := mkPrecommitMsg {
  pcBlockHash : option BlockHash;
  pcRound : Z;
  pcSender : ValidatorId;
  pcSignature : ByteString;
}.

Record CommitMsg := mkCommitMsg {
  cmBlockHash : BlockHash;
  cmRound : Z;
  cmSender : ValidatorId;
  cmSignature : ByteString;
}.

Inductive PBFTPhase := PBFTPrePrepare | PBFTPrepare | PBFTCommit.

Record PBFTMessage := mkPBFTMessage {
  pbftType : PBFTPhase;
  pbftRound : Z;
  pbftView : Z;
  pbftBlock : option BlockHash;
  pbftSender : ValidatorId;
  pbftSig : ByteString;
}.

Record PBFTProof := mkPBFTProof {
  ppPrePrepare : PBFTMessage;
  ppPrepares : list PBFTMessage;
  ppCommits : list PBFTMessage;
}.

Record ViewChange := mkViewChange {
  vcNewView : Z;
  vcLastRound : Z;
  vcPreparedProof : option PBFTProof;
  vcSender : ValidatorId;
  vcSig : ByteString;
}.

Record NewView := mkNewView {
  nvView : Z;
  nvPrePrepares : list PBFTMessage;
  nvSender : ValidatorId;
  nvSig : ByteString;
}.

Inductive ConsensusMessage :=
| CProposal (p : ProposalMsg)
| CPrevote (p : PrevoteMsg)
| CPrecommit (p : PrecommitMsg)
| CCommit (c : CommitMsg)
| CViewChange (vc : ViewChange)
| CNewView (nv : NewView).

(** The hash of the proposed block is suspended. *)
Record ConsensusState := mkConsensusState {
  csRound : Z;
  csStep : ConsensusStep;
  csProposedBlock : option (exec BlockHash);
  csValidatorSet : ValidatorSet;
  csLockedBlock : option BlockHash;
  csLockedRound : option Z;
  csValidBlock : option BlockHash;
  csValidRound : option Z;
  csDecision : option BlockHash;
  csRoundStart : Timestamp;
  csTimeout : Z;
}.

(** The [Double] is its bit pattern. *)
Record ConsensusConfig := mkConsensusConfig {
  ccTimeoutPropose : Z;
  ccTimeoutPrevote : Z;
  ccTimeoutPrecommit : Z;
  ccTimeoutCommit : Z;
  ccMaxBlockSize : Z;
  ccMaxTxPerBlock : Z;
  ccSuperMajority : Z;
  ccRoundInterval : Z;
}.

Record ConsensusMetrics := mkConsensusMetrics {
  cmRoundsCompleted : Z;
  cmBlocksProposed : Z;
  cmBlocksCommitted : Z;
  cmViewChanges : Z;
  cmTimeouts : Z;
  cmAvgLatency : Z;
}.

Record ConsensusEngine := mkConsensusEngine {
  ceState : ConsensusState;
  ceConfig : ConsensusConfig;
  cePrivKey : ByteString;
  cePubKey : ByteString;
  ceValidator : ValidatorId;
  ceMsgQueue : list (exec ConsensusMessage);
  ceDecisions : list Block;
  ceMetrics : ConsensusMetrics;
}.

Definition roundInterval (c : ConsensusConfig) : Z := ccRoundInterval c.

(** * Actions *)
Definition IO (A : Type) : Type := ConsensusEngine → ConsensusEngine * exec A.

#[export] Instance IO_ret : MRet IO := λ A a e, (e, Ret a).
#[export] Instance IO_bind : MBind IO := λ A B k m e,
  match m e with
  | (e, Ret a) => k a e
  | (e, Panic) => (e, Panic)
  | (e, NoFuel) => (e, NoFuel)
  end.

(** Forces a suspended value. *)
Definition force {A} (a : exec A) : IO A := λ e, (e, a).

Definition readState : IO ConsensusState := λ e, (e, Ret (ceState e)).
Definition modifyState (f : ConsensusState → ConsensusState) : IO unit := λ e,
  (mkConsensusEngine (f (ceState e)) (ceConfig e) (cePrivKey e) (cePubKey e) (ceValidator e)
     (ceMsgQueue e) (ceDecisions e) (ceMetrics e), Ret tt).
Definition modifyMetrics (f : ConsensusMetrics → ConsensusMetrics) : IO unit := λ e,
  (mkConsensusEngine (ceState e) (ceConfig e) (cePrivKey e) (cePubKey e) (ceValidator e)
     (ceMsgQueue e) (ceDecisions e) (f (ceMetrics e)), Ret tt).
Definition setQueue (q : list (exec ConsensusMessage)) : IO unit := λ e,
  (mkConsensusEngine (ceState e) (ceConfig e) (cePrivKey e) (cePubKey e) (ceValidator e)
     q (ceDecisions e) (ceMetrics e), Ret tt).
Definition self : IO ConsensusEngine := λ e, (e, Ret e).

Definition when (b : bool) (m : IO unit) : IO unit := if b then m else mret tt.

Fixpoint forM_ {A} (l : list A) (f : A → IO unit) : IO unit :=
  match l with
  | [] => mret tt
  | a :: l => _ ← f a; forM_ l f
  end.

(** ** Record updates *)
Definition set_step (step : ConsensusStep) (s : ConsensusState) : ConsensusState :=
  mkConsensusState (csRound s) step (csProposedBlock s) (csValidatorSet s) (csLockedBlock s) (csLockedRound s)
    (csValidBlock s) (csValidRound s) (csDecision s) (csRoundStart s) (csTimeout s).
Definition set_round (round : Z) (s : ConsensusState) : ConsensusState :=
  mkConsensusState round (csStep s) (csProposedBlock s) (csValidatorSet s) (csLockedBlock s) (csLockedRound s)
    (csValidBlock s) (csValidRound s) (csDecision s) (csRoundStart s) (csTimeout s).
Definition set_proposed (h : option (exec BlockHash)) (s : ConsensusState) : ConsensusState :=
  mkConsensusState (csRound s) (csStep s) h (csValidatorSet s) (csLockedBlock s) (csLockedRound s)
    (csValidBlock s) (csValidRound s) (csDecision s) (csRoundStart s) (csTimeout s).
Definition set_lock (h : option BlockHash) (round : option Z) (s : ConsensusState) : ConsensusState :=
  mkConsensusState (csRound s) (csStep s) (csProposedBlock s) (csValidatorSet s) h round
    h round (csDecision s) (csRoundStart s) (csTimeout s).
Definition set_decision (h : option BlockHash) (s : ConsensusState) : ConsensusState :=
  mkConsensusState (csRound s) (csStep s) (csProposedBlock s) (csValidatorSet s) (csLockedBlock s) (csLockedRound s)
    (csValidBlock s) (csValidRound s) h (csRoundStart s) (csTimeout s).
Definition set_clock (start : Timestamp) (timeout : Z) (s : ConsensusState) : ConsensusState :=
  mkConsensusState (csRound s) (csStep s) (csProposedBlock s) (csValidatorSet s) (csLockedBlock s) (csLockedRound s)
    (csValidBlock s) (csValidRound s) (csDecision s) start timeout.

Definition count_round (m : ConsensusMetrics) : ConsensusMetrics :=
  mkConsensusMetrics (wrap64 (cmRoundsCompleted m + 1)) (cmBlocksProposed m) (cmBlocksCommitted m)
    (cmViewChanges m) (cmTimeouts m) (cmAvgLatency m).
Definition count_proposed (m : ConsensusMetrics) : ConsensusMetrics :=
  mkConsensusMetrics (cmRoundsCompleted m) (wrap64 (cmBlocksProposed m + 1)) (cmBlocksCommitted m)
    (cmViewChanges m) (cmTimeouts m) (cmAvgLatency m).
Definition count_committed (m : ConsensusMetrics) : ConsensusMetrics :=
  mkConsensusMetrics (cmRoundsCompleted m) (cmBlocksProposed m) (wrap64 (cmBlocksCommitted m + 1))
    (cmViewChanges m) (cmTimeouts m) (cmAvgLatency m).
Definition count_view_change (m : ConsensusMetrics) : ConsensusMetrics :=
  mkConsensusMetrics (cmRoundsCompleted m) (cmBlocksProposed m) (cmBlocksCommitted m)
    (wrap64 (cmViewChanges m + 1)) (cmTimeouts m) (cmAvgLatency m).
Definition count_timeout (m : ConsensusMetrics) : ConsensusMetrics :=
  mkConsensusMetrics (cmRoundsCompleted m) (cmBlocksProposed m) (cmBlocksCommitted m)
    (cmViewChanges m) (wrap64 (cmTimeouts m + 1)) (cmAvgLatency m).

(** * Construction and queries *)
Definition newConsensusEngine (now : Timestamp) (config : ConsensusConfig) (privKey pubKey : ByteString)
    (validator : ValidatorId) (vset : ValidatorSet) : ConsensusEngine :=
  mkConsensusEngine
    (mkConsensusState 0 ProposePhase None vset None None None None None now (ccTimeoutPropose config))
    config privKey pubKey validator [] [] (mkConsensusMetrics 0 0 0 0 0 0).

Definition engineState : IO ConsensusState := readState.
Definition engineConfig (e : ConsensusEngine) : ConsensusConfig := ceConfig e.
Definition engineValidatorSet : IO ValidatorSet := s ← readState; mret (csValidatorSet s).
Definition engineLatestBlock : IO (option BlockHash) := s ← readState; mret (csDecision s).
Definition decideBlock : IO (option BlockHash) := s ← readState; mret (csDecision s).
Definition shouldPrevote : IO bool := s ← readState; mret (bool_decide (csStep s = PrevotePhase)).
Definition shouldPrecommit : IO bool := s ← readState; mret (bool_decide (csStep s = PrecommitPhase)).

(** * Signing *)
Definition serializeConsensusRound (w : Z) : ByteString :=
  [byte_of_Z (Z.shiftr w 56); byte_of_Z (Z.shiftr w 48); byte_of_Z (Z.shiftr w 40); byte_of_Z (Z.shiftr w 32);
   byte_of_Z (Z.shiftr w 24); byte_of_Z (Z.shiftr w 16); byte_of_Z (Z.shiftr w 8); byte_of_Z w].
Definition serializeBlockHash (h : BlockHash) : ByteString := h.
Definition serializeProposal (round : Z) (validator : ValidatorId) : ByteString :=
  serializeConsensusRound round ++ serializeValidatorId validator.
Definition serializePrevote (mHash : option BlockHash) (round : Z) : ByteString :=
  match mHash with Some h => serializeBlockHash h | None => replicate 32 x00 end ++ serializeConsensusRound round.
Definition serializePrecommit (mHash : option BlockHash) (round : Z) : ByteString := serializePrevote mHash round.

Definition signMessage (e : ConsensusEngine) (data_ : ByteString) : ByteString :=
  match sign (cePrivKey e) data_ with Some sig => sig | None => [] end.

(** * Sending *)
Definition broadcastMessage (msg : exec ConsensusMessage) : IO unit :=
  e ← self; setQueue (msg :: ceMsgQueue e).

Definition sendPrevote (blockHash : option BlockHash) : IO unit :=
  e ← self;
  state ← readState;
  broadcastMessage (Ret (CPrevote (mkPrevoteMsg blockHash (csRound state) (ceValidator e)
    (signMessage e (serializePrevote blockHash (csRound state)))))).

Definition sendPrecommit (blockHash : option BlockHash) : IO unit :=
  e ← self;
  state ← readState;
  broadcastMessage (Ret (CPrecommit (mkPrecommitMsg blockHash (csRound state) (ceValidator e)
    (signMessage e (serializePrecommit blockHash (csRound state)))))).

(** * Transitions *)
Definition transitionStep (newStep : ConsensusStep) : IO unit := modifyState (set_step newStep).

Definition startNextRound (now : Timestamp) (state : ConsensusState) : IO unit :=
  let newRound := wrap64 (csRound state + 1) in
  e ← self;
  _ ← modifyState (λ s, set_clock now (ccTimeoutPropose (ceConfig e)) (set_step ProposePhase (set_round newRound s)));
  modifyMetrics count_round.

Definition timeoutHandler (now : Timestamp) : IO unit :=
  _ ← modifyMetrics count_timeout;
  state ← readState;
  startNextRound now state.

Definition commitBlock (blockHash : BlockHash) : IO unit := modifyMetrics count_committed.
Definition finalizeBlock (blockHash : BlockHash) : IO unit := modifyState (set_decision (Some blockHash)).

(** The proposal cannot be evaluated: its block is [undefined] and its fields are strict. *)
Definition proposeBlock : IO unit :=
  let msg : exec ConsensusMessage := Panic in
  e ← self;
  _ ← setQueue (msg :: ceMsgQueue e);
  _ ← modifyMetrics count_proposed;
  modifyState (λ s, set_step PrevotePhase (set_proposed (Some Panic) s)).

(** * Message collection *)
Definition collectVotes {A} (e : ConsensusEngine) (phase : ConsensusStep) (round : Z) : list A := [].
Definition collectViewChanges (e : ConsensusEngine) (targetView : Z) : list ViewChange := [].

(** * Handlers *)
Section Handlers.
Context (pmBlockHash : ProposalMsg → BlockHash).

(** [Nothing] is below every [Just]. *)
Definition later_round (a b : option Z) : bool :=
  match a, b with
  | Some x, Some y => bool_decide (x > y)%Z
  | Some _, None => true
  | None, _ => false
  end.

Definition handleProposal (proposal : ProposalMsg) : IO unit :=
  state ← readState;
  let round := csRound state in
  when (bool_decide (pmRound proposal = round)) (
    proposer ← force (isRoundProposer round (csValidatorSet state) (pmProposer proposal));
    when proposer (
      let shouldVote :=
        match csLockedBlock state with
        | None => true
        | Some lockedHash =>
            bool_decide (pmBlockHash proposal = lockedHash)
            || later_round (pmValidRound proposal) (csLockedRound state)
        end in
      when shouldVote (
        _ ← sendPrevote (Some (pmBlockHash proposal));
        modifyState (set_step PrevotePhase)))).

(** The hash of the first vote, if it is one. *)
Definition first_hash (hashes : list (option BlockHash)) : option BlockHash :=
  match hashes with Some h :: _ => Some h | _ => None end.

Definition handlePrevote (prevote : PrevoteMsg) : IO unit :=
  state ← readState;
  e ← self;
  let round := csRound state in
  let vset := csValidatorSet state in
  let prevotes : list PrevoteMsg := collectVotes e PrevotePhase round in
  if superMajority vset (list_to_set (prSender <$> prevotes)) then
    let blockHash := first_hash (prBlockHash <$> prevotes) in
    _ ← modifyState (λ s, set_step PrecommitPhase (set_lock blockHash (Some round) s));
    sendPrecommit blockHash
  else
    let nilPrevotes := filter (λ v, prBlockHash v = None) prevotes in
    if superMajority vset (list_to_set (prSender <$> nilPrevotes)) then
      _ ← sendPrecommit None;
      modifyState (set_step PrecommitPhase)
    else mret tt.

Definition handlePrecommit (now : Timestamp) (precommit : PrecommitMsg) : IO unit :=
  state ← readState;
  e ← self;
  let round := csRound state in
  let vset := csValidatorSet state in
  let precommits : list PrecommitMsg := collectVotes e PrecommitPhase round in
  if superMajority vset (list_to_set (pcSender <$> precommits)) then
    match first_hash (pcBlockHash <$> precommits) with
    | Some hash =>
        _ ← commitBlock hash;
        modifyState (λ s, set_step CommitPhase (set_decision (Some hash) s))
    | None => startNextRound now state
    end
  else mret tt.

Definition handleCommit (commit : CommitMsg) : IO unit :=
  state ← readState;
  when (bool_decide (csStep state = CommitPhase)) (
    when (bool_decide (cmBlockHash commit = default (cmBlockHash commit) (csDecision state))) (
      finalizeBlock (cmBlockHash commit))).

Definition handleNewView (newView : NewView) : IO unit :=
  modifyState (λ s, set_step ProposePhase (set_round (nvView newView) s)).

(** [run] is [runConsensusRound]. *)
Definition handleViewChange (run : IO unit) (viewChange : ViewChange) : IO unit :=
  state ← readState;
  e ← self;
  let vset := csValidatorSet state in
  let viewChanges := collectViewChanges e (vcNewView viewChange) in
  if superMajority vset (list_to_set (vcSender <$> viewChanges)) then
    let newRound := wrap64 (csRound state + 1) in
    _ ← modifyState (λ s, set_step ProposePhase (set_round newRound s));
    _ ← modifyMetrics count_view_change;
    run
  else mret tt.

Definition apply_message (run : IO unit) (now : Timestamp) (msg : ConsensusMessage) : IO unit :=
  match msg with
  | CProposal p => handleProposal p
  | CPrevote p => handlePrevote p
  | CPrecommit p => handlePrecommit now p
  | CCommit c => handleCommit c
  | CViewChange vc => handleViewChange run vc
  | CNewView nv => handleNewView nv
  end.

Definition processMessages (run : IO unit) (now : Timestamp) : IO unit :=
  e ← self;
  let messages := ceMsgQueue e in
  _ ← setQueue [];
  forM_ messages (λ m, msg ← force m; apply_message run now msg).

(** A view change inside a round starts another one: the fuel bounds the nesting. *)
Fixpoint runConsensusRound (fuel : nat) (now : Timestamp) : IO unit :=
  match fuel with
  | 0 => force NoFuel
  | S fuel =>
      state ← readState;
      e ← self;
      propose ← force (shouldPropose (csRound state) (csValidatorSet state) (ceValidator e));
      _ ← when propose proposeBlock;
      processMessages (runConsensusRound fuel now) now
  end.

Definition applyConsensusMessage (fuel : nat) (now : Timestamp) (msg : ConsensusMessage) : IO unit :=
  apply_message (runConsensusRound fuel now) now msg.

Definition startConsensus (fuel : nat) (now : Timestamp) : IO unit :=
  state ← readState;
  match csDecision state with
  | Some _ => mret tt
  | None => runConsensusRound fuel now
  end.

End Handlers.
