(* ===== verification/EngineProofs.v ===== *)
(** What the consensus engine of Engine.v can do, over all sequences of messages, timeouts and
    rounds: the votes it collects are none, so its decisions come from commit messages
    alone; what a round does with its queue. *)
From S2P Require Import Prelude Haskell SpecCrypto SpecCryptoProofs SpecMerkle Blocks Validators Engine.

(** * Actions that respect a relation *)

(** The engine after the action is related to the one before, also when it fails. *)
Definition keeps {A} (R : relation ConsensusEngine) (m : IO A) : Prop := ∀ e, R e (m e).1.

Create HintDb engine discriminated.

Section Keeps.
Context (R : relation ConsensusEngine) `{!PreOrder R}.

Lemma keeps_ret {A} (a : A) : keeps R (mret a).
Proof. intros e. done. Qed.

Lemma keeps_force {A} (a : exec A) : keeps R (force a).
Proof. intros e. done. Qed.

Lemma keeps_readState : keeps R readState.
Proof. intros e. done. Qed.

Lemma keeps_self : keeps R self.
Proof. intros e. done. Qed.

Lemma keeps_bind {A B} (m : IO A) (k : A → IO B) : keeps R m → (∀ a, keeps R (k a)) → keeps R (m ≫= k).
Proof.
  intros Hm Hk e. unfold mbind, IO_bind. specialize (Hm e). destruct (m e) as [e' [a| |]]; simpl in *; [|done..].
  etrans; [apply Hm|apply Hk].
Qed.

Lemma keeps_when (b : bool) (m : IO unit) : keeps R m → keeps R (when b m).
Proof. destruct b; [done|]. intros _. apply keeps_ret. Qed.

Lemma keeps_forM {A} (l : list A) (f : A → IO unit) : (∀ a, keeps R (f a)) → keeps R (forM_ l f).
Proof. intros Hf. induction l; cbn [forM_]; [apply keeps_ret|]. apply keeps_bind; auto. Qed.
End Keeps.

#[export] Hint Resolve keeps_ret keeps_force keeps_readState keeps_self : engine.

(** Follows the structure of an action down to the changes of variables. *)
Ltac solve_keeps :=
  repeat first
    [ solve [auto with engine]
    | apply keeps_bind; [done| |intros ?]
    | apply keeps_when; [done|]
    | apply keeps_forM; [done|intros ?] ].

Lemma bind_returns {A B} (m : IO A) (k : A → IO B) (e e' : ConsensusEngine) (a : A) :
  m e = (e', Ret a) → (m ≫= k) e = k a e'.
Proof. unfold mbind, IO_bind. by intros ->. Qed.

(** * No votes, no majority *)
Lemma superMajority_empty (vset : ValidatorSet) : superMajority vset ∅ = false.
Proof.
  unfold superMajority. apply bool_decide_eq_false_2. rewrite sum_word64_wrap.
  change (sum_Z _) with (power_of ∅ (vsValidators vset)).
  assert (power_of ∅ (vsValidators vset) = 0%Z) as ->.
  { induction (vsValidators vset) as [|v vs IH]; [done|]. rewrite power_of_cons, IH.
    by rewrite bool_decide_eq_false_2 by set_solver. }
  pose proof (wrap64_range (vsTotalPower vset * 2)) as [H _]. change (wrap64 (wrap64 0 * 3)) with 0%Z. lia.
Qed.

Lemma roundProposer_total (round : Z) (vset : ValidatorSet) :
  activeValidators vset ≠ [] → ∃ vid, roundProposer round vset = Ret vid.
Proof.
  intros Hne. unfold roundProposer.
  assert (0 < len (activeValidators vset))%Z as Hl by (unfold len; destruct (activeValidators vset); [done|simpl; lia]).
  rewrite bool_decide_eq_false_2 by lia.
  destruct (lookup_lt_is_Some_2 (activeValidators vset) (Z.to_nat (int64 round mod len (activeValidators vset)))) as [v Hv].
  { pose proof (Z.mod_pos_bound (int64 round) _ Hl). unfold len in *. lia. }
  exists (viAddress v). by rewrite Hv.
Qed.

(** * The engine of the sources *)
Section Engine.
Context (pmBlockHash : ProposalMsg → BlockHash).

Local Abbreviation run_round := (runConsensusRound pmBlockHash).
Local Abbreviation apply := (applyConsensusMessage pmBlockHash).
Local Abbreviation start := (startConsensus pmBlockHash).

Lemma prevote_idle (p : PrevoteMsg) (e : ConsensusEngine) : handlePrevote p e = (e, Ret tt).
Proof.
  unfold handlePrevote, mbind, IO_bind, readState, self, collectVotes. cbn [fmap list_fmap list_to_set filter list_filter].
  by rewrite !superMajority_empty.
Qed.

Lemma precommit_idle (now : Timestamp) (p : PrecommitMsg) (e : ConsensusEngine) : handlePrecommit now p e = (e, Ret tt).
Proof.
  unfold handlePrecommit, mbind, IO_bind, readState, self, collectVotes. cbn [fmap list_fmap list_to_set].
  by rewrite superMajority_empty.
Qed.

Lemma view_change_idle (run : IO unit) (vc : ViewChange) (e : ConsensusEngine) : handleViewChange run vc e = (e, Ret tt).
Proof.
  unfold handleViewChange, mbind, IO_bind, readState, self, collectViewChanges. cbn [fmap list_fmap list_to_set].
  by rewrite superMajority_empty.
Qed.

(** ** The steps of an engine *)

(** What can happen to an engine: a message is handled or queued, a timeout, a round, a
    transition requested from outside to an allowed step. *)
Inductive engine_step (allowed : ConsensusStep → Prop) : relation ConsensusEngine :=
| step_message fuel now msg e : engine_step allowed e (apply fuel now msg e).1
| step_queue msg e : engine_step allowed e (broadcastMessage msg e).1
| step_timeout now e : engine_step allowed e (timeoutHandler now e).1
| step_round fuel now e : engine_step allowed e (run_round fuel now e).1
| step_start fuel now e : engine_step allowed e (start fuel now e).1
| step_transition s e : allowed s → engine_step allowed e (transitionStep s e).1.

(** A relation that the changes of the engine's variables respect. *)
Record respects (allowed : ConsensusStep → Prop) (R : relation ConsensusEngine) : Prop := {
  respects_queue q : keeps R (setQueue q);
  respects_metrics f : keeps R (modifyMetrics f);
  respects_step s : allowed s ∨ s = ProposePhase ∨ s = PrevotePhase → keeps R (modifyState (set_step s));
  respects_proposed h : keeps R (modifyState (λ s, set_step PrevotePhase (set_proposed h s)));
  respects_round r : keeps R (modifyState (λ s, set_step ProposePhase (set_round r s)));
  respects_clock now t r : keeps R (modifyState (λ s, set_clock now t (set_step ProposePhase (set_round r s))));
  respects_commit c : keeps R (handleCommit c);
}.

Section Respects.
Context (allowed : ConsensusStep → Prop) (R : relation ConsensusEngine) `{!PreOrder R} (HR : respects allowed R).

Lemma keeps_broadcast (msg : exec ConsensusMessage) : keeps R (broadcastMessage msg).
Proof using All. unfold broadcastMessage. destruct HR. solve_keeps. Qed.

Lemma keeps_proposal (p : ProposalMsg) : keeps R (handleProposal pmBlockHash p).
Proof using All.
  pose proof keeps_broadcast. destruct HR. unfold handleProposal, sendPrevote.
  solve_keeps.
Qed.

Lemma keeps_apply (run : IO unit) (now : Timestamp) (msg : ConsensusMessage) :
  keeps R (apply_message pmBlockHash run now msg).
Proof using All.
  destruct msg; cbn [apply_message]; [apply keeps_proposal|..].
  - intros e. by rewrite prevote_idle.
  - intros e. by rewrite precommit_idle.
  - by destruct HR.
  - intros e. by rewrite view_change_idle.
  - unfold handleNewView. by destruct HR.
Qed.

Lemma keeps_run_round (fuel : nat) (now : Timestamp) : keeps R (run_round fuel now).
Proof using All.
  pose proof keeps_apply. destruct HR. destruct fuel as [|fuel]; cbn [runConsensusRound]; [auto with engine|].
  unfold proposeBlock, processMessages. solve_keeps.
Qed.

Lemma keeps_timeout (now : Timestamp) : keeps R (timeoutHandler now).
Proof using All. destruct HR. unfold timeoutHandler, startNextRound. solve_keeps. Qed.

Lemma engine_step_respects (e e' : ConsensusEngine) : engine_step allowed e e' → R e e'.
Proof using All.
  pose proof keeps_run_round as Hrun. pose proof keeps_apply as Happly. pose proof keeps_broadcast as Hb.
  pose proof HR as HR'. destruct HR'.
  intros [fuel now msg ?|msg ?|now ?|fuel now ?|fuel now ?|s ? Hs].
  - apply Happly.
  - apply Hb.
  - apply keeps_timeout.
  - apply Hrun.
  - unfold startConsensus, mbind, IO_bind, readState. simpl. by destruct (csDecision _); [|apply Hrun].
  - apply respects_step0. by left.
Qed.

Lemma engine_steps_respect (e e' : ConsensusEngine) : rtc (engine_step allowed) e e' → R e e'.
Proof using All. induction 1; [done|]. etrans; [by apply engine_step_respects|done]. Qed.
End Respects.

(** ** Decisions *)

(** A decision that has been made stays. *)
Definition decision_kept : relation ConsensusEngine := λ e e',
  ∀ h, csDecision (ceState e) = Some h → csDecision (ceState e') = Some h.

#[local] Instance decision_kept_preorder : PreOrder decision_kept.
Proof. split; [by intros e h|]. intros e1 e2 e3 H1 H2 h Hh. auto. Qed.

Lemma respects_decision (allowed : ConsensusStep → Prop) : respects allowed decision_kept.
Proof.
  constructor; try (intros; intros e' h' Hh'; exact Hh').
  intros c e h Hh. unfold handleCommit, mbind, IO_bind, readState, when. simpl. rewrite Hh. simpl.
  repeat case_bool_decide; simpl; congruence.
Qed.

(** C14: decisions are irrevocable.  Whatever messages are handled or queued, timeouts fire,
    rounds run and steps are requested, also when one of them fails, an engine that has
    decided a block keeps that decision. *)
Theorem decision_irrevocable (e e' : ConsensusEngine) (h : BlockHash) :
  rtc (engine_step (λ _, True)) e e' → csDecision (ceState e) = Some h → csDecision (ceState e') = Some h.
Proof. intros H. revert h. exact (engine_steps_respect _ decision_kept (respects_decision _) _ _ H). Qed.

(** Nothing decided or locked, and not in the commit step. *)
Definition undecided (e : ConsensusEngine) : Prop :=
  csDecision (ceState e) = None ∧ csLockedBlock (ceState e) = None ∧ csStep (ceState e) ≠ CommitPhase.
Definition undecided_kept : relation ConsensusEngine := λ e e', undecided e → undecided e'.

#[local] Instance undecided_kept_preorder : PreOrder undecided_kept.
Proof. split; [by intros e H|]. intros e1 e2 e3 H1 H2 H. by apply H2, H1. Qed.

Lemma respects_undecided : respects (λ s, s ≠ CommitPhase) undecided_kept.
Proof.
  constructor; try (intros; intros e (H1 & H2 & H3); by split).
  - intros s Hs e (H1 & H2 & H3). split; [done|]. split; [done|]. simpl. naive_solver.
  - intros c e (H1 & H2 & H3). unfold handleCommit, mbind, IO_bind, readState, when. simpl.
    by rewrite bool_decide_eq_false_2.
Qed.

(** C26: the engine never decides.  A new engine, whatever messages it is given (votes and
    commits of all validators among them) and whatever rounds and timeouts follow, has
    decided and locked nothing as long as nobody sets its step to the commit phase from
    outside: the votes it collects are the empty list. *)
Theorem never_decides (now : Timestamp) (config : ConsensusConfig) (privKey pubKey : ByteString)
    (validator : ValidatorId) (vset : ValidatorSet) (e : ConsensusEngine) :
  rtc (engine_step (λ s, s ≠ CommitPhase)) (newConsensusEngine now config privKey pubKey validator vset) e →
  csDecision (ceState e) = None ∧ csLockedBlock (ceState e) = None ∧ csStep (ceState e) ≠ CommitPhase.
Proof. intros H. by apply (engine_steps_respect _ undecided_kept respects_undecided _ _ H). Qed.

(** In the commit phase any commit message decides.  An undecided engine whose step is the
    commit phase decides the block of the first commit message it handles, whoever sent
    it, and ignores the commits for other blocks after it. *)
Theorem commit_without_votes (c c' : CommitMsg) (e : ConsensusEngine) :
  csStep (ceState e) = CommitPhase → csDecision (ceState e) = None → cmBlockHash c' ≠ cmBlockHash c →
  let e1 := (handleCommit c e).1 in
  csDecision (ceState e1) = Some (cmBlockHash c) ∧ handleCommit c' e1 = (e1, Ret tt).
Proof.
  intros Hs Hd Hne. unfold handleCommit, mbind, IO_bind, readState, when. simpl.
  rewrite Hs, Hd, !bool_decide_true by done. simpl.
  split; [done|]. by rewrite bool_decide_false.
Qed.

(** ** Rounds *)

(** A proposer's round fails.  When it is the engine's turn to propose, running a round
    counts a proposed block, moves to the prevote step, empties the queue without handling
    any of the messages in it, and ends with an exception. *)
Theorem proposer_round_fails (fuel : nat) (now : Timestamp) (e : ConsensusEngine) :
  shouldPropose (csRound (ceState e)) (csValidatorSet (ceState e)) (ceValidator e) = Ret true →
  run_round (S fuel) now e =
  (mkConsensusEngine (set_step PrevotePhase (set_proposed (Some Panic) (ceState e))) (ceConfig e) (cePrivKey e)
     (cePubKey e) (ceValidator e) [] (ceDecisions e) (count_proposed (ceMetrics e)), Panic).
Proof.
  intros Hp. cbn [runConsensusRound]. unfold mbind, IO_bind, readState, self, force, when. rewrite Hp. simpl. done.
Qed.

(** The messages of a round of which no proposal fails. *)
Lemma apply_returns (run : IO unit) (now : Timestamp) (msg : ConsensusMessage) (e : ConsensusEngine) :
  activeValidators (csValidatorSet (ceState e)) ≠ [] →
  ∃ e', apply_message pmBlockHash run now msg e = (e', Ret tt) ∧
    csValidatorSet (ceState e') = csValidatorSet (ceState e).
Proof.
  intros Ha. destruct msg as [p|p|p|c|vc|nv]; cbn [apply_message].
  - unfold handleProposal, sendPrevote, broadcastMessage, mbind, IO_bind, readState, self, when, force. simpl.
    case_bool_decide; [|by eexists]. unfold isRoundProposer, shouldPropose.
    destruct (roundProposer_total (csRound (ceState e)) _ Ha) as [vid ->]. simpl.
    case_bool_decide; [|by eexists]. case_match; [case_match|]; eexists; split; reflexivity.
  - rewrite prevote_idle. by eexists.
  - rewrite precommit_idle. by eexists.
  - unfold handleCommit, mbind, IO_bind, readState, when. simpl. repeat case_bool_decide; by eexists.
  - rewrite view_change_idle. by eexists.
  - by eexists.
Qed.

(** The engine after a message, handled outside of any round. *)
Definition after_message (now : Timestamp) (e : ConsensusEngine) (msg : ConsensusMessage) : ConsensusEngine :=
  (apply_message pmBlockHash (mret tt) now msg e).1.

(** No message starts a nested round. *)
Lemma apply_run_irrelevant (run : IO unit) (now : Timestamp) (msg : ConsensusMessage) (e : ConsensusEngine) :
  apply_message pmBlockHash run now msg e = apply_message pmBlockHash (mret tt) now msg e.
Proof. destruct msg; [done..| |done]. cbn [apply_message]. by rewrite !view_change_idle. Qed.

Lemma forM_returns (run : IO unit) (now : Timestamp) (msgs : list ConsensusMessage) (e : ConsensusEngine) :
  activeValidators (csValidatorSet (ceState e)) ≠ [] →
  forM_ (Ret <$> msgs) (λ m, msg ← force m; apply_message pmBlockHash run now msg) e =
  (foldl (after_message now) e msgs, Ret tt).
Proof.
  revert e. induction msgs as [|msg msgs IH]; intros e Ha; [done|]. csimpl. cbn [forM_].
  destruct (apply_returns run now msg e Ha) as (e1 & He & Hv).
  assert (after_message now e msg = e1) as -> by (unfold after_message; by rewrite <-(apply_run_irrelevant run), He).
  rewrite <-(IH e1) by by rewrite Hv. unfold mbind, IO_bind in *. unfold force at 1. by rewrite He.
Qed.

(** C22: a round handles its messages.  When there is an active validator, it is not the
    engine's turn and the queued messages are ones that were received, a round returns: it
    empties the queue and then handles every message that was in it, once, in the order of
    the queue, each in the engine its predecessors left (what they send is queued for the
    next round), without a nested round. *)
Theorem round_handles_queue (fuel : nat) (now : Timestamp) (e : ConsensusEngine) (msgs : list ConsensusMessage) :
  activeValidators (csValidatorSet (ceState e)) ≠ [] → ceMsgQueue e = Ret <$> msgs →
  shouldPropose (csRound (ceState e)) (csValidatorSet (ceState e)) (ceValidator e) = Ret false →
  run_round (S fuel) now e = (foldl (after_message now) (setQueue [] e).1 msgs, Ret tt).
Proof.
  intros Ha Hq Hp. cbn [runConsensusRound]. unfold processMessages.
  rewrite (bind_returns _ _ _ _ _ (eq_refl : readState e = _)), (bind_returns _ _ _ _ _ (eq_refl : self e = _)).
  rewrite (bind_returns (force _) _ e e false) by (unfold force; by rewrite Hp).
  rewrite (bind_returns _ _ _ _ _ (eq_refl : when false proposeBlock e = _)).
  rewrite (bind_returns _ _ _ _ _ (eq_refl : self e = _)), Hq.
  rewrite (bind_returns _ _ _ _ _ (eq_refl : setQueue [] e = _)). by rewrite forM_returns.
Qed.

End Engine.

(** * A validator that is not the first proposer *)
Section Sample.

Definition sample_config : ConsensusConfig := mkConsensusConfig 1000 1000 1000 1000 10000 100 0 1.
Definition sample_engine (name : byte) : ConsensusEngine :=
  newConsensusEngine 0%Z sample_config sample_seed sample_seed [name] sample_set.

Definition hash_a : BlockHash := replicate 32 x0a.
Definition hash_b : BlockHash := replicate 32 x0b.

Lemma hashes_differ : hash_a ≠ hash_b.
Proof. intros H. vm_compute in H. discriminate. Qed.

(** Some hash of a proposal's block. *)
Definition sample_hash (p : ProposalMsg) : BlockHash := hashBlock (pmBlock p).

Definition sample_commit (h : BlockHash) : CommitMsg := mkCommitMsg h 0 ["z"%byte] [].

(** The engine in the commit phase, after one commit. *)
Definition in_commit_phase : ConsensusEngine := (transitionStep CommitPhase (sample_engine "b")).1.
Definition decided_engine : ConsensusEngine := (handleCommit (sample_commit hash_a) in_commit_phase).1.

Lemma decision_irrevocable_witness :
  csDecision (ceState (timeoutHandler 5%Z decided_engine).1) = Some hash_a.
Proof.
  apply (decision_irrevocable sample_hash decided_engine); [|vm_compute; reflexivity].
  apply rtc_once, step_timeout.
Defined.

Lemma never_decides_witness :
  csDecision (ceState (timeoutHandler 5%Z (sample_engine "b")).1) = None.
Proof.
  apply (never_decides sample_hash 0%Z sample_config sample_seed sample_seed ["b"%byte] sample_set).
  apply rtc_once, step_timeout.
Defined.

Lemma commit_without_votes_witness : csDecision (ceState decided_engine) = Some hash_a.
Proof.
  apply (commit_without_votes (sample_commit hash_a) (sample_commit hash_b) in_commit_phase);
    [reflexivity|reflexivity|]. apply not_eq_sym, hashes_differ.
Defined.

Lemma proposer_round_fails_witness :
  (runConsensusRound sample_hash 1 5%Z (sample_engine "a")).2 = Panic.
Proof. rewrite (proposer_round_fails sample_hash 0 5%Z (sample_engine "a") eq_refl). reflexivity. Defined.

(** A queue with a proposal of the proposer of round 0 and two messages that move the
    engine on: the vote for the proposal is queued, and the last message sets the round. *)
Definition sample_proposal : ConsensusMessage :=
  CProposal (mkProposalMsg (mkBlock (mkBlockHeader hash_a 1 1 0 0%Z ["a"%byte] hash_a hash_a 0 1 []) (mkBlockBody [] []))
    0 None ["a"%byte] []).
Definition sample_queue : list ConsensusMessage :=
  [sample_proposal; CCommit (sample_commit hash_a); CNewView (mkNewView 7 [] ["a"%byte] [])].
Definition queued_engine : ConsensusEngine := (setQueue (Ret <$> sample_queue) (sample_engine "b")).1.

Lemma round_handles_queue_witness :
  let e' := (runConsensusRound sample_hash 1 5%Z queued_engine).1 in
  csRound (ceState e') = 7%Z ∧ csStep (ceState e') = ProposePhase ∧ length (ceMsgQueue e') = 1.
Proof.
  rewrite (round_handles_queue sample_hash 0 5%Z queued_engine sample_queue); [|discriminate|reflexivity|reflexivity].
  vm_compute. done.
Defined.

End Sample.
