(* ===== verification/Signatures.v ===== *)
(** The signature crate (src/crypto/signatures/src/lib.rs): keys, Ed25519
    signatures, addresses, the simplified VRF and the commitment scheme.  The
    crates it calls (ed25519-dalek, sha2, blake2, hkdf) are the parameters
    [Crates]; what their documentation promises is [CratesLaws]. *)
From S2P Require Import Prelude.

Definition SIGNATURE_LENGTH : nat := 64.
Definition PUBLIC_KEY_LENGTH : nat := 32.
Definition PRIVATE_KEY_LENGTH : nat := 32.
Definition ADDRESS_LENGTH : nat := 20.
Definition HASH_LENGTH : nat := 32.

Record Hash := mkHash { hash_bytes : array HASH_LENGTH }.
Record Signature := mkSignature { signature_bytes : array SIGNATURE_LENGTH }.
Record PublicKey := mkPublicKey { public_bytes : array PUBLIC_KEY_LENGTH }.
Record SecretKey := mkSecretKey { secret_bytes : array PRIVATE_KEY_LENGTH }.
Record KeyPair := mkKeyPair { secret : SecretKey; public : PublicKey }.
Record Address := mkAddress { address_bytes : array ADDRESS_LENGTH }.

#[export] Instance Hash_eq_decision : EqDecision Hash.
Proof. solve_decision. Defined.
#[export] Instance Signature_eq_decision : EqDecision Signature.
Proof. solve_decision. Defined.
#[export] Instance PublicKey_eq_decision : EqDecision PublicKey.
Proof. solve_decision. Defined.
#[export] Instance Address_eq_decision : EqDecision Address.
Proof. solve_decision. Defined.

Definition hash_new (bytes : list byte) : Hash := mkHash (copy_prefix 32 bytes).
Definition hash_zero : Hash := mkHash (zeroed 32).
Definition signature_new (bytes : list byte) : Signature := mkSignature (copy_prefix 64 bytes).

(** * The crates *)
Class Crates := {
  (** ed25519-dalek *)
  SigningKey : Type;
  VerifyingKey : Type;
  DalekSignature : Type;
  signing_key_from_bytes : array 32 → SigningKey;
  signing_key_to_bytes : SigningKey → array 32;
  verifying_key : SigningKey → VerifyingKey;
  verifying_key_from_bytes : array 32 → option VerifyingKey;
  verifying_key_to_bytes : VerifyingKey → array 32;
  signing_key_sign : SigningKey → list byte → DalekSignature;
  dalek_signature_from_bytes : array 64 → option DalekSignature;
  dalek_signature_to_bytes : DalekSignature → array 64;
  verifying_key_verify : VerifyingKey → list byte → DalekSignature → bool;
  (** sha2, blake2: [None] when the variable-size hasher refuses the size *)
  sha256_digest : list byte → array 32;
  blake2b_var (n : nat) : option (list byte → array n);
  blake2s256_digest : list byte → array 32;
  (** hkdf over SHA-256: salt, key material, info; [None] when the output is too long *)
  hkdf_expand (salt ikm info : list byte) (n : nat) : option (array n);
}.

Class CratesLaws `{Crates} : Prop := {
  signing_key_bytes k : signing_key_from_bytes (signing_key_to_bytes k) = k;
  verifying_key_bytes k :
    verifying_key_from_bytes (verifying_key_to_bytes (verifying_key k)) = Some (verifying_key k);
  dalek_signature_bytes k m :
    dalek_signature_from_bytes (dalek_signature_to_bytes (signing_key_sign k m)) =
    Some (signing_key_sign k m);
  sign_correct k m : verifying_key_verify (verifying_key k) m (signing_key_sign k m) = true;
  blake2b_sizes n : 1 ≤ n ≤ 64 → is_Some (blake2b_var n);
  hkdf_sizes salt ikm info n : n ≤ 255 * 32 → is_Some (hkdf_expand salt ikm info n);
}.

Section Operations.
Context `{CR : Crates}.

(** * Hashing *)
Definition sha3_256 (data : list byte) : Hash := mkHash (sha256_digest data).

Definition blake2b (N : nat) (data : list byte) : exec (array N) :=
  hasher ← or_panic (blake2b_var N);
  Ret (hasher data).

Definition blake2b_160 (data : list byte) : exec Address :=
  hash ← blake2b 20 data;
  Ret (mkAddress hash).

Definition blake2s_256 (data : list byte) : Hash := hash_new (abytes (blake2s256_digest data)).

(** * Keys *)
Definition keypair_of (signing_key : SigningKey) : KeyPair :=
  mkKeyPair (mkSecretKey (signing_key_to_bytes signing_key))
            (mkPublicKey (verifying_key_to_bytes (verifying_key signing_key))).

(** [signing_key] is the key that [SigningKey::generate] draws from the OS. *)
Definition generate_keypair (signing_key : SigningKey) : KeyPair := keypair_of signing_key.

Definition expand_to_32 (data : list byte) : array 32 := sha256_digest data.

Definition generate_keypair_from_seed (seed : list byte) : KeyPair :=
  keypair_of (signing_key_from_bytes (expand_to_32 seed)).

Definition derive_public_key (secret : SecretKey) : PublicKey :=
  mkPublicKey (verifying_key_to_bytes (verifying_key (signing_key_from_bytes (secret_bytes secret)))).

Definition keygen_deterministic (master_seed derivation_path : list byte) : exec KeyPair :=
  okm ← or_panic (hkdf_expand master_seed derivation_path (bytes_of_string "crypto-coin-key") 32);
  Ret (generate_keypair_from_seed (abytes okm)).

(** * Signatures *)
Definition sign (secret : SecretKey) (data : list byte) : Signature :=
  let signing_key := signing_key_from_bytes (secret_bytes secret) in
  mkSignature (dalek_signature_to_bytes (signing_key_sign signing_key data)).

Definition verify (public : PublicKey) (signature : Signature) (data : list byte) : bool :=
  match verifying_key_from_bytes (public_bytes public) with
  | None => false
  | Some verifying_key =>
      match dalek_signature_from_bytes (signature_bytes signature) with
      | None => false
      | Some sig => verifying_key_verify verifying_key data sig
      end
  end.

(** * Addresses *)
Definition derive_address (public : PublicKey) : exec Address :=
  blake2b_160 (abytes (public_bytes public)).

Definition verify_address (address : Address) (public : PublicKey) : exec bool :=
  derived ← derive_address public;
  Ret (bool_decide (derived = address)).

(** * VRF *)
Definition vrf_prove (secret : SecretKey) (input : list byte) : list byte :=
  let hash := sha3_256 (abytes (secret_bytes secret) ++ input) in
  let proof := sign secret (abytes (hash_bytes hash)) in
  abytes (hash_bytes hash) ++ abytes (signature_bytes proof).

Definition vrf_verify (public : PublicKey) (input proof : list byte) : option Hash :=
  if bool_decide (length proof < 64) then None
  else
    let hash_bytes_ := take 32 proof in
    let sig_bytes := drop 32 proof in
    let hash := hash_new hash_bytes_ in
    let sig := signature_new sig_bytes in
    if verify public sig (abytes (hash_bytes hash)) then Some hash else None.

(** * Commitments *)
Definition commit (value blinding : list byte) : Hash := sha3_256 (value ++ blinding).

Definition open (commitment : Hash) (value blinding : list byte) : bool :=
  bool_decide (commit value blinding = commitment).

End Operations.

(** ** Printing *)
Section Printing.
(** The hex crate's [encode]. *)
Context (hex_encode : list byte → string).

Definition hash_debug (h : Hash) : string := "0x" +:+ hex_encode (take 8 (abytes (hash_bytes h))).
Definition hash_display (h : Hash) : string := "0x" +:+ hex_encode (take 8 (abytes (hash_bytes h))).
Definition address_debug (a : Address) : string := "addr_" +:+ hex_encode (take 8 (abytes (address_bytes a))).
Definition address_display (a : Address) : string := "addr_" +:+ hex_encode (take 8 (abytes (address_bytes a))).

End Printing.

Definition hash_as_bytes (h : Hash) : list byte := abytes (hash_bytes h).
Definition signature_as_bytes (s : Signature) : list byte := abytes (signature_bytes s).

(** * Theorems *)
Section Theorems.
Context `{CR : Crates} {LAWS : CratesLaws}.

(** The key pairs the crate can produce. *)
Definition keypair_origin (kp : KeyPair) : Prop :=
  (∃ drawn, kp = generate_keypair drawn) ∨
  (∃ seed, kp = generate_keypair_from_seed seed) ∨
  (∃ master path, keygen_deterministic master path = Ret kp).

Lemma keypair_origin_key (kp : KeyPair) : keypair_origin kp → ∃ k, kp = keypair_of k.
Proof.
  intros [[k ->]|[[seed ->]|(m & p & H)]]; [by exists k|by eexists|].
  unfold keygen_deterministic in H. apply exec_bind_Ret in H as (okm & _ & [= <-]). by eexists.
Qed.

Lemma verify_keypair_of (k : SigningKey) (data : list byte) :
  verify (public (keypair_of k)) (sign (secret (keypair_of k)) data) data = true.
Proof.
  unfold verify, sign. simpl. rewrite signing_key_bytes, verifying_key_bytes.
  by rewrite dalek_signature_bytes, sign_correct.
Qed.

Lemma keygen_deterministic_total (master path : list byte) :
  ∃ kp, keygen_deterministic master path = Ret kp.
Proof.
  unfold keygen_deterministic. destruct (hkdf_sizes master path (bytes_of_string "crypto-coin-key") 32)
    as [okm ->]; [lia|]. by eexists.
Qed.

(** C36: keys, signatures and their byte forms fit together.  For every key pair the
    crate produces (drawn, from a seed, derived from a master seed), the public key
    is the one derived from the secret key, and a signature made with the secret
    key verifies under the public key; deriving a key never panics. *)
Theorem keypair_sign_verify (kp : KeyPair) (data : list byte) :
  keypair_origin kp →
  derive_public_key (secret kp) = public kp ∧
  verify (public kp) (sign (secret kp) data) data = true ∧
  ∀ master path, ∃ kp', keygen_deterministic master path = Ret kp' ∧ keypair_origin kp'.
Proof.
  intros [k ->]%keypair_origin_key. split; [|split].
  - unfold derive_public_key. simpl. by rewrite signing_key_bytes.
  - apply verify_keypair_of.
  - intros master path. destruct (keygen_deterministic_total master path) as [kp' Hkp].
    exists kp'. split; [done|]. unfold keypair_origin. eauto.
Qed.

(** [vrf_verify] on a hash followed by 64 bytes of signature and anything else. *)
Lemma vrf_verify_app (pk : PublicKey) (input : list byte) (h : Hash) (sig : Signature)
    (extra : list byte) :
  vrf_verify pk input (abytes (hash_bytes h) ++ abytes (signature_bytes sig) ++ extra) =
  if verify pk sig (abytes (hash_bytes h)) then Some h else None.
Proof.
  unfold vrf_verify. rewrite bool_decide_false
    by (rewrite !length_app, !length_abytes; unfold HASH_LENGTH, SIGNATURE_LENGTH; lia).
  rewrite take_app_length' by by rewrite length_abytes.
  rewrite drop_app_length' by by rewrite length_abytes.
  unfold hash_new, signature_new. destruct h, sig; simpl in *.
  by rewrite (copy_prefix_abytes (n := 32)), (copy_prefix_app (n := 64)).
Qed.

(** A VRF proof verifies under the public key and yields the hash of the secret
    key and the input. *)
Theorem vrf_prove_verify (kp : KeyPair) (input : list byte) :
  keypair_origin kp →
  vrf_verify (public kp) input (vrf_prove (secret kp) input) =
  Some (sha3_256 (abytes (secret_bytes (secret kp)) ++ input)).
Proof.
  intros [k ->]%keypair_origin_key. unfold vrf_prove.
  set (h := sha3_256 _). rewrite <-(app_nil_r (abytes (signature_bytes _))).
  by rewrite vrf_verify_app, verify_keypair_of.
Qed.

(** The VRF output is neither bound to the input nor unique.  [vrf_verify] does
    not read its input, and for every hash [h] whatsoever the holder of a key pair
    has a proof, accepted for every input, whose output is [h]. *)
Theorem vrf_output_unbound (kp : KeyPair) (h : Hash) :
  keypair_origin kp →
  (∀ pk input input' proof, vrf_verify pk input proof = vrf_verify pk input' proof) ∧
  ∀ input, vrf_verify (public kp) input
    (abytes (hash_bytes h) ++ abytes (signature_bytes (sign (secret kp) (abytes (hash_bytes h))))) =
    Some h.
Proof.
  intros [k ->]%keypair_origin_key. split; [done|]. intros input.
  rewrite <-(app_nil_r (abytes (signature_bytes _))).
  by rewrite vrf_verify_app, verify_keypair_of.
Qed.

Lemma copy_prefix_take (n m : nat) (bs : list byte) :
  n ≤ m → copy_prefix n (take m bs) = copy_prefix n bs.
Proof.
  intros Hnm. apply abytes_inj. unfold copy_prefix. rewrite !abytes_mk_array, length_take, take_take.
  replace ((m `min` length bs) `min` n) with (length bs `min` n) by lia.
  by replace ((length bs `min` n) `min` m) with (length bs `min` n) by lia.
Qed.

Lemma copy_prefix_zeros (n m : nat) (bs : list byte) :
  length bs + m ≤ n → copy_prefix n (bs ++ replicate m x00) = copy_prefix n bs.
Proof.
  intros Hn. apply abytes_inj. unfold copy_prefix. rewrite !abytes_mk_array, length_app, length_replicate.
  rewrite (Nat.min_l (length bs)), Nat.min_l by lia.
  rewrite !take_ge by (rewrite ?length_app, ?length_replicate; lia).
  rewrite <-app_assoc, <-replicate_add. do 2 f_equal. lia.
Qed.

(** The lengths [vrf_verify] accepts.  A proof shorter than 64 bytes is refused.
    A longer one is read as 96 bytes: what follows byte 96 is ignored, and a proof
    cut short after byte 64 is completed with zeros. *)
Theorem vrf_verify_lengths (pk : PublicKey) (input proof : list byte) :
  (length proof < 64 → vrf_verify pk input proof = None) ∧
  (96 ≤ length proof → ∀ extra, vrf_verify pk input (proof ++ extra) = vrf_verify pk input proof) ∧
  (64 ≤ length proof ≤ 96 →
    vrf_verify pk input (proof ++ replicate (96 - length proof) x00) = vrf_verify pk input proof).
Proof.
  unfold vrf_verify. split; [|split]; intros Hlen.
  - by rewrite bool_decide_true.
  - intros extra. rewrite !bool_decide_false by (rewrite ?length_app; lia).
    rewrite take_app_le, drop_app_le by lia.
    assert (signature_new (drop 32 proof ++ extra) = signature_new (drop 32 proof)) as ->; [|done].
    unfold signature_new. f_equal. rewrite <-(copy_prefix_take 64 64) by lia.
    rewrite take_app_le by (rewrite length_drop; lia). by rewrite copy_prefix_take.
  - rewrite !bool_decide_false by (rewrite ?length_app; lia).
    rewrite take_app_le, drop_app_le by lia.
    assert (signature_new (drop 32 proof ++ replicate (96 - length proof) x00) =
      signature_new (drop 32 proof)) as ->; [|done].
    unfold signature_new. f_equal. apply copy_prefix_zeros. rewrite length_drop. lia.
Qed.

(** The digest does not map [x] and [y], if distinct, to one value. *)
Definition sha256_no_collision (x y : list byte) : Prop :=
  sha256_digest x = sha256_digest y → x = y.

(** Commitments open with what they were made of, and bind it: an opening with a
    value of the same length is the committed value and blinding, unless the digest
    collides on the two committed strings. *)
Theorem commit_open_binding (value blinding value' blinding' : list byte) :
  open (commit value blinding) value blinding = true ∧
  (length value = length value' →
   sha256_no_collision (value' ++ blinding') (value ++ blinding) →
   open (commit value blinding) value' blinding' = true → value' = value ∧ blinding' = blinding).
Proof.
  split; [by apply bool_decide_eq_true|].
  intros Hlen Hnc Hopen. apply bool_decide_eq_true in Hopen.
  unfold commit, sha3_256 in Hopen. injection Hopen as Heq.
  apply Hnc in Heq. by apply app_inj_1 in Heq.
Qed.

(** The commitment does not separate value and blinding: one commitment opens to
    every split of the committed string, so to as many values as it has prefixes. *)
Theorem commit_split_ambiguous (v1 v2 blinding : list byte) :
  open (commit (v1 ++ v2) blinding) v1 (v2 ++ blinding) = true.
Proof. apply bool_decide_eq_true. unfold commit. by rewrite app_assoc. Qed.

(** [verify_address] never panics and accepts exactly the derived address. *)
Theorem verify_address_correct (pk : PublicKey) :
  ∃ a, derive_address pk = Ret a ∧
    ∀ a', verify_address a' pk = Ret (bool_decide (a = a')).
Proof.
  unfold verify_address, derive_address, blake2b_160, blake2b.
  destruct (blake2b_sizes 20) as [f ->]; [lia|]. simpl. by eexists.
Qed.

End Theorems.

(** * An instance of the crates

    A law-abiding (and insecure) signature scheme: the public key is the digest of
    the secret key and a signature is the digest of public key and message.  The
    laws hold of it, so the theorems above are not vacuous. *)
Section Sample.

Definition sample_crates : Crates := {|
  SigningKey := array 32;
  VerifyingKey := array 32;
  DalekSignature := array 64;
  signing_key_from_bytes := id;
  signing_key_to_bytes := id;
  verifying_key k := fnv_digest 32 (abytes k);
  verifying_key_from_bytes := Some;
  verifying_key_to_bytes := id;
  signing_key_sign k m := fnv_digest 64 (abytes (fnv_digest 32 (abytes k)) ++ m);
  dalek_signature_from_bytes := Some;
  dalek_signature_to_bytes := id;
  verifying_key_verify vk m s := bool_decide (fnv_digest 64 (abytes vk ++ m) = s);
  sha256_digest := fnv_digest 32;
  blake2b_var n := Some (fnv_digest n);
  blake2s256_digest := fnv_digest 32;
  hkdf_expand salt ikm info n := Some (fnv_digest n (salt ++ ikm ++ info));
|}.

Lemma sample_laws : CratesLaws (H := sample_crates).
Proof.
  constructor; try done.
  - intros k m. by apply bool_decide_eq_true.
Qed.

Definition sample_keypair : KeyPair :=
  generate_keypair_from_seed (CR := sample_crates) (bytes_of_string "my test seed").

Lemma sample_keypair_origin : keypair_origin (CR := sample_crates) sample_keypair.
Proof. right. left. by eexists. Qed.

Lemma keypair_sign_verify_witness :
  derive_public_key (CR := sample_crates) (secret sample_keypair) = public sample_keypair ∧
  verify (CR := sample_crates) (public sample_keypair)
    (sign (CR := sample_crates) (secret sample_keypair) [x01]) [x01] = true ∧
  ∀ master path, ∃ kp', keygen_deterministic (CR := sample_crates) master path = Ret kp' ∧
    keypair_origin (CR := sample_crates) kp'.
Proof.
  apply (keypair_sign_verify (CR := sample_crates) (LAWS := sample_laws)), sample_keypair_origin.
Defined.

Lemma vrf_prove_verify_witness :
  vrf_verify (CR := sample_crates) (public sample_keypair) [x01]
    (vrf_prove (CR := sample_crates) (secret sample_keypair) [x01]) =
  Some (sha3_256 (CR := sample_crates) (abytes (secret_bytes (secret sample_keypair)) ++ [x01])).
Proof.
  apply (vrf_prove_verify (CR := sample_crates) (LAWS := sample_laws)), sample_keypair_origin.
Defined.

Lemma vrf_output_unbound_witness :
  (∀ pk input input' proof, vrf_verify (CR := sample_crates) pk input proof =
    vrf_verify (CR := sample_crates) pk input' proof) ∧
  ∀ input, vrf_verify (CR := sample_crates) (public sample_keypair) input
    (abytes (hash_bytes hash_zero) ++ abytes (signature_bytes
      (sign (CR := sample_crates) (secret sample_keypair) (abytes (hash_bytes hash_zero))))) =
    Some hash_zero.
Proof.
  apply (vrf_output_unbound (CR := sample_crates) (LAWS := sample_laws)), sample_keypair_origin.
Defined.

Lemma verify_address_correct_witness :
  ∃ a, derive_address (CR := sample_crates) (public sample_keypair) = Ret a ∧
    ∀ a', verify_address (CR := sample_crates) a' (public sample_keypair) = Ret (bool_decide (a = a')).
Proof. apply (verify_address_correct (CR := sample_crates) (LAWS := sample_laws)). Defined.

End Sample.
