(* ===== verification/SignatureTests.v ===== *)
(** The unit tests of the signature crate (src/crypto/signatures/src/lib.rs, [mod tests]):
    computations that panic when an assertion fails.  The keys that [OsRng] draws are
    arguments of the tests.  What the tests print and what round trips through
    [as_bytes] is at the end. *)
From S2P Require Import Prelude Signatures.

Section Tests.
Context `{CR : Crates}.

Definition test_keypair_generation (drawn : SigningKey) : exec unit :=
  let kp := generate_keypair drawn in
  _ ← rust_assert (bool_decide (secret_bytes (secret kp) ≠ zeroed 32));
  rust_assert (bool_decide (public_bytes (public kp) ≠ zeroed 32)).

Definition test_sign_and_verify (drawn : SigningKey) : exec unit :=
  let kp := generate_keypair drawn in
  let data := bytes_of_string "hello crypto-coin" in
  let signature := sign (secret kp) data in
  rust_assert (verify (public kp) signature data).

Definition test_invalid_signature (drawn1 drawn2 : SigningKey) : exec unit :=
  let kp1 := generate_keypair drawn1 in
  let kp2 := generate_keypair drawn2 in
  let data := bytes_of_string "test data" in
  let signature := sign (secret kp1) data in
  rust_assert (negb (verify (public kp2) signature data)).

Definition test_deterministic_keygen : exec unit :=
  kp1 ← keygen_deterministic (bytes_of_string "master") (bytes_of_string "path/0");
  kp2 ← keygen_deterministic (bytes_of_string "master") (bytes_of_string "path/0");
  _ ← rust_assert (bool_decide (secret_bytes (secret kp1) = secret_bytes (secret kp2)));
  rust_assert (bool_decide (public_bytes (public kp1) = public_bytes (public kp2))).

Definition test_address_derivation (drawn : SigningKey) : exec unit :=
  let kp := generate_keypair drawn in
  addr ← derive_address (public kp);
  ok ← verify_address addr (public kp);
  _ ← rust_assert ok;
  ok ← verify_address (mkAddress (zeroed 20)) (public kp);
  rust_assert (negb ok).

Definition test_commitment : exec unit :=
  let value := bytes_of_string "secret value" in
  let blinding := bytes_of_string "random blinding" in
  let commitment := commit value blinding in
  _ ← rust_assert (open commitment value blinding);
  rust_assert (negb (open commitment (bytes_of_string "wrong value") blinding)).

Definition test_vrf (drawn : SigningKey) : exec unit :=
  let kp := generate_keypair drawn in
  let input := bytes_of_string "randomness input" in
  let proof := vrf_prove (secret kp) input in
  let result := vrf_verify (public kp) input proof in
  rust_assert (bool_decide (is_Some result)).

Definition test_seed_based_keypair : exec unit :=
  let seed := bytes_of_string "my test seed 1234567890abcdef" in
  let kp1 := generate_keypair_from_seed seed in
  let kp2 := generate_keypair_from_seed seed in
  _ ← rust_assert (bool_decide (secret_bytes (secret kp1) = secret_bytes (secret kp2)));
  _ ← rust_assert (bool_decide (public_bytes (public kp1) = public_bytes (public kp2)));
  let data := bytes_of_string "test data" in
  let sig := sign (secret kp1) data in
  rust_assert (verify (public kp1) sig data).

End Tests.

(** * Theorems *)
Section Theorems.
Context `{CR : Crates} {LAWS : CratesLaws}.

Lemma rust_assert_Ret (b : bool) : rust_assert b = Ret tt ↔ b = true.
Proof. by destruct b. Qed.

Lemma test_vrf_pass (k : SigningKey) : test_vrf k = Ret tt.
Proof using LAWS.
  unfold test_vrf, vrf_prove. apply rust_assert_true.
  rewrite <-(app_nil_r (abytes (signature_bytes _))).
  rewrite vrf_verify_app. unfold generate_keypair. rewrite verify_keypair_of. by eexists.
Qed.

Lemma test_commitment_iff :
  test_commitment = Ret tt ↔
  sha256_no_collision (bytes_of_string "wrong value" ++ bytes_of_string "random blinding")
    (bytes_of_string "secret value" ++ bytes_of_string "random blinding").
Proof.
  unfold test_commitment, open. rewrite rust_assert_true by done. cbn [mbind exec_bind].
  rewrite rust_assert_Ret, negb_true_iff, bool_decide_eq_false. unfold sha256_no_collision, commit, sha3_256.
  split; [intros Hne He; destruct Hne; by f_equal|]. intros Hnc [= He]. apply Hnc in He. done.
Qed.

Lemma test_address_iff (k : SigningKey) :
  test_address_derivation k = Ret tt ↔
  derive_address (public (generate_keypair k)) ≠ Ret (mkAddress (zeroed 20)).
Proof using LAWS.
  unfold test_address_derivation, verify_address.
  assert (∃ a, derive_address (public (generate_keypair k)) = Ret a) as [a Ha].
  { unfold derive_address, blake2b_160, blake2b. destruct (blake2b_sizes 20) as [f ->]; [lia|]. by eexists. }
  rewrite Ha. cbn [mbind exec_bind]. rewrite rust_assert_true by done. cbn [mbind exec_bind].
  rewrite rust_assert_Ret, negb_true_iff, bool_decide_eq_false. naive_solver.
Qed.

Lemma test_keypair_iff (k : SigningKey) :
  test_keypair_generation k = Ret tt ↔
  secret (generate_keypair k) ≠ mkSecretKey (zeroed 32) ∧
  public (generate_keypair k) ≠ mkPublicKey (zeroed 32).
Proof.
  unfold test_keypair_generation. destruct (generate_keypair k) as [[sk] [pk]]. simpl.
  unfold rust_assert. repeat case_bool_decide; simpl; naive_solver.
Qed.

(** Which of the crate's tests its documented parts decide.  Signing, deterministic key
    generation, seeded keys and the VRF's happy path pass for every key that is drawn;
    the commitment's test passes unless SHA-256 collides on its two strings; the
    address test passes exactly when the derived address is not zero, the key
    generation test exactly when neither key is zero, and the foreign signature is
    rejected exactly when the second key does not verify it. *)
Theorem signature_tests_verdict (k1 k2 : SigningKey) :
  (test_sign_and_verify k1 = Ret tt ∧ test_deterministic_keygen = Ret tt ∧
   test_seed_based_keypair = Ret tt ∧ test_vrf k1 = Ret tt) ∧
  (test_commitment = Ret tt ↔
     sha256_no_collision (bytes_of_string "wrong value" ++ bytes_of_string "random blinding")
       (bytes_of_string "secret value" ++ bytes_of_string "random blinding")) ∧
  (test_address_derivation k1 = Ret tt ↔
     derive_address (public (generate_keypair k1)) ≠ Ret (mkAddress (zeroed 20))) ∧
  (test_keypair_generation k1 = Ret tt ↔
     secret (generate_keypair k1) ≠ mkSecretKey (zeroed 32) ∧
     public (generate_keypair k1) ≠ mkPublicKey (zeroed 32)) ∧
  (test_invalid_signature k1 k2 = Ret tt ↔
     verify (public (generate_keypair k2)) (sign (secret (generate_keypair k1)) (bytes_of_string "test data"))
       (bytes_of_string "test data") = false).
Proof.
  destruct (keygen_deterministic_total (bytes_of_string "master") (bytes_of_string "path/0")) as [kp Hkp].
  split; [|split; [|split; [|split]]].
  - unfold test_sign_and_verify, test_deterministic_keygen, test_seed_based_keypair. rewrite Hkp.
    split; [by apply rust_assert_Ret, verify_keypair_of|]. split; [by cbn; rewrite !rust_assert_true|].
    split; [|apply test_vrf_pass]. rewrite !rust_assert_true by done. by apply rust_assert_Ret, verify_keypair_of.
  - apply test_commitment_iff.
  - apply test_address_iff.
  - apply test_keypair_iff.
  - unfold test_invalid_signature. by rewrite rust_assert_Ret, negb_true_iff.
Qed.

End Theorems.

Section Sample.

Lemma signature_tests_verdict_witness :
  test_sign_and_verify (CR := sample_crates) (zeroed 32) = Ret tt ∧
  test_vrf (CR := sample_crates) (zeroed 32) = Ret tt.
Proof.
  destruct (signature_tests_verdict (CR := sample_crates) (LAWS := sample_laws) (zeroed 32) (zeroed 32))
    as ((H1 & _ & _ & H2) & _).
  split; [exact H1|exact H2].
Defined.

End Sample.
