(* ===== verification/Net.v ===== *)
(** Socket addresses ([std::net::SocketAddr]) as the node uses them: parsed from and
    printed to text.  The interface is [SocketAddrOps] with the laws that what is printed
    can be parsed, and that parsing inverts printing on addresses that were parsed themselves
    (the text of an IPv6 address leaves out its flow information, which parsing sets to 0);
    the IPv4 addresses implement it ([a.b.c.d:port], decimal
    octets without leading zeros, a decimal port below 2^16). *)
From S2P Require Import Prelude.

Class SocketAddrOps := {
  SocketAddr : Type;
  socket_addr_parse : string → option SocketAddr;
  socket_addr_to_string : SocketAddr → string;
}.

Class SocketAddrLaws `{SocketAddrOps} : Prop := {
  socket_addr_printed a : is_Some (socket_addr_parse (socket_addr_to_string a));
  socket_addr_reparse s a : socket_addr_parse s = Some a → socket_addr_parse (socket_addr_to_string a) = Some a;
}.

(** * IPv4 *)
Record SocketAddrV4 := mkSocketAddrV4 {
  octet0 : byte; octet1 : byte; octet2 : byte; octet3 : byte;
  port0 : byte; port1 : byte;
}.

(** ** Text as a list of characters *)
Definition chars : Type := list Ascii.ascii.
Definition digit (n : Z) : Ascii.ascii := Ascii.ascii_of_N (Z.to_N (48 + n)).
Definition digit_value (c : Ascii.ascii) : option Z :=
  let n := Z.of_N (Ascii.N_of_ascii c) in
  if bool_decide (48 ≤ n ≤ 57)%Z then Some (n - 48)%Z else None.

(** Decimal digits of a number below 10^5, most significant first. *)
Definition print_decimal (n : Z) : chars :=
  (if bool_decide (10000 ≤ n)%Z then [digit (n / 10000)] else []) ++
  (if bool_decide (1000 ≤ n)%Z then [digit (n / 1000 mod 10)] else []) ++
  (if bool_decide (100 ≤ n)%Z then [digit (n / 100 mod 10)] else []) ++
  (if bool_decide (10 ≤ n)%Z then [digit (n / 10 mod 10)] else []) ++
  [digit (n mod 10)].

(** Reads digits up to [limit], the largest value the number may have. *)
Fixpoint read_digits (limit acc : Z) (cs : chars) : option (Z * chars) :=
  match cs with
  | [] => Some (acc, [])
  | c :: cs' =>
      match digit_value c with
      | None => Some (acc, cs)
      | Some d =>
          let acc := (acc * 10 + d)%Z in
          if bool_decide (acc ≤ limit)%Z then read_digits limit acc cs' else None
      end
  end.

(** A number: at least one digit; unless [zeros], a leading zero is the whole number. *)
Definition read_number (zeros : bool) (limit : Z) (cs : chars) : option (Z * chars) :=
  match cs with
  | [] => None
  | c :: cs' =>
      match digit_value c with
      | None => None
      | Some d =>
          if negb zeros && bool_decide (d = 0%Z) &&
             match cs' with c' :: _ => bool_decide (is_Some (digit_value c')) | [] => false end
          then None
          else if bool_decide (d ≤ limit)%Z then read_digits limit d cs' else None
      end
  end.

Definition read_char (c : Ascii.ascii) (cs : chars) : option chars :=
  match cs with
  | c' :: cs => if bool_decide (c = c') then Some cs else None
  | [] => None
  end.

Definition dot : Ascii.ascii := Ascii.ascii_of_nat 46.
Definition colon : Ascii.ascii := Ascii.ascii_of_nat 58.

Definition port_of (a : SocketAddrV4) : Z := byte_to_Z (port0 a) * 256 + byte_to_Z (port1 a).

Definition v4_print (a : SocketAddrV4) : chars :=
  print_decimal (byte_to_Z (octet0 a)) ++ dot ::
  print_decimal (byte_to_Z (octet1 a)) ++ dot ::
  print_decimal (byte_to_Z (octet2 a)) ++ dot ::
  print_decimal (byte_to_Z (octet3 a)) ++ colon ::
  print_decimal (port_of a).

Definition v4_read (cs : chars) : option SocketAddrV4 :=
  '(a, cs) ← read_number false 255 cs; cs ← read_char dot cs;
  '(b, cs) ← read_number false 255 cs; cs ← read_char dot cs;
  '(c, cs) ← read_number false 255 cs; cs ← read_char dot cs;
  '(d, cs) ← read_number false 255 cs; cs ← read_char colon cs;
  '(p, cs) ← read_number true u16_max cs;
  match cs with
  | [] => Some (mkSocketAddrV4 (byte_of_Z a) (byte_of_Z b) (byte_of_Z c) (byte_of_Z d)
                  (byte_of_Z (p / 256)) (byte_of_Z p))
  | _ => None
  end.

#[export] Instance v4_socket_addr : SocketAddrOps := {|
  SocketAddr := SocketAddrV4;
  socket_addr_parse s := v4_read (String.list_ascii_of_string s);
  socket_addr_to_string a := String.string_of_list_ascii (v4_print a);
|}.

(** * Parsing inverts printing *)
Definition stops (cs : chars) : bool :=
  match cs with c :: _ => bool_decide (digit_value c = None) | [] => true end.

Lemma read_digits_app (limit acc n : Z) (cs rest : chars) :
  stops rest → read_digits limit acc cs = Some (n, []) →
  read_digits limit acc (cs ++ rest) = Some (n, rest).
Proof.
  intros Hs. revert acc. induction cs as [|c cs IH]; intros acc; simpl.
  - intros [= <-]. destruct rest as [|c rest]; simpl; [done|].
    simpl in Hs. apply bool_decide_unpack in Hs. by rewrite Hs.
  - destruct (digit_value c); [|done]. case_bool_decide; [apply IH|done].
Qed.

Lemma read_number_app (zeros : bool) (limit n : Z) (cs rest : chars) :
  stops rest → read_number zeros limit cs = Some (n, []) →
  read_number zeros limit (cs ++ rest) = Some (n, rest).
Proof.
  intros Hs. destruct cs as [|c cs]; simpl; [done|].
  destruct (digit_value c) as [d|]; [|done].
  replace (match cs ++ rest with c' :: _ => _ | [] => false end)
    with (match cs with c' :: _ => bool_decide (is_Some (digit_value c')) | [] => false end).
  2: { destruct cs as [|c' cs]; [|done]. destruct rest as [|c' rest]; [done|]. simpl in *.
       apply bool_decide_unpack in Hs. by rewrite Hs. }
  destruct (_ && _); [done|]. case_bool_decide; [by apply read_digits_app|done].
Qed.

Lemma digit_value_digit (d : Z) : (0 ≤ d ≤ 9)%Z → digit_value (digit d) = Some d.
Proof.
  intros Hd. assert (d ∈ [0; 1; 2; 3; 4; 5; 6; 7; 8; 9]%Z) as Hin.
  { rewrite !elem_of_cons. lia. }
  clear Hd. revert d Hin. apply Forall_forall. by repeat constructor.
Qed.

Lemma read_digits_cons (limit acc d n : Z) (cs : chars) :
  (0 ≤ d ≤ 9)%Z → (acc * 10 + d ≤ limit)%Z →
  read_digits limit (acc * 10 + d) cs = Some (n, []) →
  read_digits limit acc (digit d :: cs) = Some (n, []).
Proof. intros Hd Hl Hr. simpl. rewrite digit_value_digit by done. by rewrite bool_decide_true. Qed.

Lemma read_number_cons (zeros : bool) (limit d n : Z) (cs : chars) :
  (0 ≤ d ≤ 9)%Z → (d ≤ limit)%Z → (d ≠ 0%Z ∨ cs = []) →
  read_digits limit d cs = Some (n, []) →
  read_number zeros limit (digit d :: cs) = Some (n, []).
Proof.
  intros Hd Hl Hz Hr. simpl. rewrite digit_value_digit by done.
  rewrite (bool_decide_true (d ≤ limit)%Z) by done.
  destruct Hz as [Hz| ->]; [rewrite (bool_decide_false (d = 0%Z)) by done|];
    by rewrite ?andb_false_r.
Qed.

(** Reading the digits of a number gives the number. *)
Lemma read_print_decimal (zeros : bool) (limit n : Z) :
  (0 ≤ n ≤ limit)%Z → (n < 100000)%Z → read_number zeros limit (print_decimal n) = Some (n, []).
Proof.
  intros Hn H5. unfold print_decimal.
  repeat case_bool_decide; try lia; cbn [app];
    (apply read_number_cons;
     [Z.to_euclidean_division_equations; lia..| |];
     [first [by right | left; Z.to_euclidean_division_equations; lia]|]);
    repeat (apply read_digits_cons; [Z.to_euclidean_division_equations; lia..|]);
    simpl; do 2 f_equal; Z.to_euclidean_division_equations; lia.
Qed.

Lemma read_octet (b : byte) (rest : chars) :
  stops rest → read_number false 255 (print_decimal (byte_to_Z b) ++ rest) = Some (byte_to_Z b, rest).
Proof.
  intros Hs. pose proof (byte_to_Z_range b).
  apply read_number_app; [done|]. apply read_print_decimal; lia.
Qed.

Lemma read_port (p : Z) :
  (0 ≤ p < 65536)%Z → read_number true u16_max (print_decimal p) = Some (p, []).
Proof. intros Hp. unfold u16_max. apply read_print_decimal; lia. Qed.

Lemma v4_read_print (a : SocketAddrV4) : v4_read (v4_print a) = Some a.
Proof.
  destruct a as [a b c d p q]. unfold v4_read, v4_print, port_of. simpl.
  pose proof (byte_to_Z_range p). pose proof (byte_to_Z_range q).
  do 4 (rewrite read_octet by done; simpl).
  rewrite read_port by lia. simpl. rewrite !byte_of_to_Z. do 2 f_equal.
  - rewrite <-(byte_of_to_Z p) at 2. f_equal. symmetry. apply Z.div_unique with (byte_to_Z q); lia.
  - apply byte_to_Z_inj. rewrite byte_to_of_Z. symmetry. apply Z.mod_unique with (byte_to_Z p); lia.
Qed.

Lemma v4_parse_to_string (a : SocketAddrV4) : socket_addr_parse (socket_addr_to_string a) = Some a.
Proof. simpl. rewrite String.list_ascii_of_string_of_list_ascii. apply v4_read_print. Qed.

#[export] Instance v4_socket_addr_laws : SocketAddrLaws.
Proof. split; intros; rewrite v4_parse_to_string; [by eexists|done]. Qed.
