(* ===== verification/Events.v ===== *)
(** The broadcast channels of events that the managers share
    ([tokio::sync::broadcast::channel(256)] of the transport, the discovery, the P2P layer
    and the runtime).  A channel is the list of the events sent so far; a receiver
    starts at the end of the list at the time it subscribes, and the channel retains the
    last 256 events, so a receiver that falls behind loses the older ones. *)
From S2P Require Import Prelude.

Definition broadcast_capacity : nat := 256.

(** The number of events sent before the receiver subscribed. *)
Record Receiver := mkReceiver { position : nat }.

Definition subscribe {E} (log : list E) : Receiver := mkReceiver (length log).

(** The events a receiver that has read nothing yet can still read. *)
Definition backlog {E} (r : Receiver) (log : list E) : list E :=
  drop (position r `max` (length log - broadcast_capacity)) log.

(** The number of events it has lost. *)
Definition lagged {E} (r : Receiver) (log : list E) : nat :=
  length log - broadcast_capacity - position r.

(** A subscriber reads the events sent after it subscribed, the last 256 of them. *)
Lemma backlog_app {E} (log es : list E) :
  backlog (subscribe log) (log ++ es) = drop (length es - broadcast_capacity) es ∧
  lagged (subscribe log) (log ++ es) = length es - broadcast_capacity.
Proof.
  unfold backlog, lagged, subscribe. simpl. rewrite length_app. split; [|lia].
  replace (length log `max` (length log + length es - broadcast_capacity))
    with (length log + (length es - broadcast_capacity)) by lia.
  by rewrite <-drop_drop, drop_app_length.
Qed.
