(* ===== verification/Protocol.v ===== *)
(** The wire protocol (src/node/p2p/src/protocol.rs): message and record types,
    and the length-prefixed, checksummed wire frame.  The sha2 crate is the
    parameter [Sha256]. *)
From stdpp Require Import pretty.
From S2P Require Import Prelude.

Class Sha256 := sha256_digest : list byte → array 32.

(** An [f64] is carried by its IEEE-754 bit pattern; the code stores and compares
    none of these values arithmetically. *)
Definition f64 : Type := Z.
Definition f64_one : f64 := 0x3FF0000000000000%Z.
Definition f64_half : f64 := 0x3FE0000000000000%Z.

(** * Types *)
Definition PROTOCOL_VERSION : Z := 1.
Definition MAGIC_BYTES : array 4 := mk_array (bytes_of_string "CCP1") eq_refl.

(** The crate version, [env!("CARGO_PKG_VERSION")]. *)
Definition CARGO_PKG_VERSION : string := "0.1.0".

Record Capabilities := mkCapabilities {
  version : Z;
  chain_id : string;
  listen_port : Z;
  agent_version : string;
  is_validator : bool;
  latest_height : Z;
  latest_hash : array 32;
}.

Definition default_capabilities : Capabilities := {|
  version := PROTOCOL_VERSION;
  chain_id := "crypto-coin-mainnet-1";
  listen_port := 26656;
  agent_version := "crypto-coin-node/" +:+ CARGO_PKG_VERSION;
  is_validator := false;
  latest_height := 0;
  latest_hash := zeroed 32;
|}.

Record PeerRecord := mkPeerRecord {
  peer_id : array 32;
  addr : string;
  public_key : array 32;
  capabilities : Capabilities;
  score : f64;
}.

Inductive ProtocolMessage :=
| Handshake (capabilities : Capabilities) (public_key : array 32) (signature : list byte)
| HandshakeAck (capabilities : Capabilities) (public_key : array 32) (signature : list byte)
| Gossip (topic : string) (data signature : list byte)
| Direct (data : list byte)
| FindPeer (target : array 32)
| PeerList (peers : list PeerRecord)
| Ping (timestamp : Z)
| Pong (timestamp : Z)
| Disconnect (reason : string).

Record WireFrame := mkWireFrame {
  magic : array 4;
  length_ : Z;
  checksum : array 32;
  payload : list byte;
}.

Inductive ProtocolError :=
| InvalidMagic
| InvalidLength
| ChecksumMismatch
| TooShort
| UnsupportedVersion (v : Z)
| InvalidHandshake (msg : string)
| DeserializationError (msg : string).

Definition protocol_error_display (e : ProtocolError) : string :=
  match e with
  | InvalidMagic => "Invalid magic bytes"
  | InvalidLength => "Invalid message length"
  | ChecksumMismatch => "Checksum mismatch"
  | TooShort => "Message too short"
  | UnsupportedVersion v => "Unsupported protocol version: " +:+ pretty v
  | InvalidHandshake msg => "Invalid handshake: " +:+ msg
  | DeserializationError msg => "Deserialization error: " +:+ msg
  end.

(** * Frames *)
Section Frames.
Context {SHA : Sha256}.

Definition compute_checksum (data : list byte) : array 32 := sha256_digest data.

Definition frame_new (payload : list byte) : WireFrame := {|
  magic := MAGIC_BYTES;
  length_ := as_u32 (len payload);
  checksum := compute_checksum payload;
  payload := payload;
|}.

Definition frame_validate (f : WireFrame) : Result unit ProtocolError :=
  if bool_decide (magic f ≠ MAGIC_BYTES) then Err InvalidMagic
  else if bool_decide (as_u32 (len (payload f)) ≠ length_ f) then Err InvalidLength
  else
    let expected_checksum := compute_checksum (payload f) in
    if bool_decide (checksum f ≠ expected_checksum) then Err ChecksumMismatch
    else Ok tt.

Definition frame_to_bytes (f : WireFrame) : list byte :=
  abytes (magic f) ++ u32_to_be_bytes (length_ f) ++ abytes (checksum f) ++ payload f.

Definition frame_from_bytes (bytes : list byte) : exec (Result WireFrame ProtocolError) :=
  if bool_decide (length bytes < 40) then Ret (Err TooShort)
  else
    b0 ← or_panic (bytes !! 0); b1 ← or_panic (bytes !! 1);
    b2 ← or_panic (bytes !! 2); b3 ← or_panic (bytes !! 3);
    let magic := mk_array [b0; b1; b2; b3] eq_refl in
    b4 ← or_panic (bytes !! 4); b5 ← or_panic (bytes !! 5);
    b6 ← or_panic (bytes !! 6); b7 ← or_panic (bytes !! 7);
    let length_ := u32_from_be_bytes b4 b5 b6 b7 in
    checksum_bytes ← slice bytes 8 40;
    checksum ← array_from_slice 32 checksum_bytes;
    if bool_decide (length bytes < 40 + Z.to_nat length_) then Ret (Err TooShort)
    else
      payload ← slice bytes 40 (40 + Z.to_nat length_);
      Ret (Ok (mkWireFrame magic length_ checksum payload)).

End Frames.

(** * Theorems *)
Section FrameTheorems.
Context {SHA : Sha256}.
#[local] Arguments Nat.add : simpl never.
#[local] Arguments frame_to_bytes f : simpl never.

(** The header: four magic bytes, four length bytes, the checksum. *)
Lemma bytes_header (bs : list byte) :
  40 ≤ length bs →
  ∃ b0 b1 b2 b3 b4 b5 b6 b7 (sum : array 32) rest,
    bs = [b0; b1; b2; b3; b4; b5; b6; b7] ++ abytes sum ++ rest.
Proof.
  intros Hlen. do 8 (destruct bs as [|? bs]; [simpl in Hlen; lia|]). simpl in Hlen.
  assert (Hs : length (take 32 bs) = 32) by (rewrite length_take; lia).
  do 8 eexists. exists (mk_array _ Hs), (drop 32 bs).
  by rewrite abytes_mk_array, take_drop.
Qed.

Lemma frame_from_bytes_header b0 b1 b2 b3 b4 b5 b6 b7 (sum : array 32) (rest : list byte) :
  frame_from_bytes ([b0; b1; b2; b3; b4; b5; b6; b7] ++ abytes sum ++ rest) =
  Ret (let n := u32_from_be_bytes b4 b5 b6 b7 in
       if bool_decide (length rest < Z.to_nat n) then Err TooShort
       else Ok (mkWireFrame (mk_array [b0; b1; b2; b3] eq_refl) n sum (take (Z.to_nat n) rest))).
Proof.
  pose proof (length_abytes sum) as Hsum. unfold frame_from_bytes.
  set (n := u32_from_be_bytes b4 b5 b6 b7).
  rewrite bool_decide_false by (rewrite !length_app, Hsum; simpl; lia). simpl.
  rewrite (slice_Ret _ 8 40) by (simpl; rewrite length_app; lia).
  change (40 - 8) with 32. cbn [mbind exec_bind drop]. rewrite drop_0.
  rewrite take_app_length' by by rewrite Hsum.
  rewrite array_from_slice_abytes. cbn [mbind exec_bind]. fold n. rewrite length_app, Hsum.
  case_bool_decide as H1; case_bool_decide as H2; try done; [lia|lia|].
  rewrite (slice_Ret _ 40) by (simpl; rewrite length_app; lia). cbn [mbind exec_bind].
  replace (40 + Z.to_nat n - 40) with (Z.to_nat n) by lia.
  change (drop 40 (?x0 :: ?x1 :: ?x2 :: ?x3 :: ?x4 :: ?x5 :: ?x6 :: ?x7 :: ?l)) with (drop 32 l).
  by rewrite drop_app_length' by by rewrite Hsum.
Qed.

Lemma frame_to_bytes_header (f : WireFrame) :
  ∃ b0 b1 b2 b3, magic f = mk_array [b0; b1; b2; b3] eq_refl ∧
  frame_to_bytes f = [b0; b1; b2; b3] ++ u32_to_be_bytes (length_ f) ++ abytes (checksum f) ++ payload f.
Proof.
  unfold frame_to_bytes. destruct f as [m n c p]. simpl. pose proof (length_abytes m) as Hm.
  destruct (abytes m) as [|b0 [|b1 [|b2 [|b3 [|]]]]] eqn:E; try done.
  exists b0, b1, b2, b3. split; [by apply abytes_inj|done].
Qed.

(** Decoding an encoded frame, with anything after it. *)
Lemma frame_decode (f : WireFrame) (extra : list byte) :
  is_u32 (length_ f) →
  frame_from_bytes (frame_to_bytes f ++ extra) =
  Ret (if bool_decide (length (payload f ++ extra) < Z.to_nat (length_ f)) then Err TooShort
       else Ok (mkWireFrame (magic f) (length_ f) (checksum f)
                  (take (Z.to_nat (length_ f)) (payload f ++ extra)))).
Proof.
  intros Hn. destruct (frame_to_bytes_header f) as (b0 & b1 & b2 & b3 & Hm & ->).
  rewrite <-!app_assoc. unfold u32_to_be_bytes.
  change ([b0; b1; b2; b3] ++ [?x; ?y; ?z; ?w] ++ ?l) with ([b0; b1; b2; b3; x; y; z; w] ++ l).
  rewrite frame_from_bytes_header. cbv zeta. by rewrite u32_be_bytes_roundtrip, Hm.
Qed.

(** C3: frames of payloads below 4 GiB round trip: the encoding, followed by any
    bytes, decodes to the frame, and the frame validates. *)
Theorem frame_roundtrip (p extra : list byte) :
  (len p ≤ u32_max)%Z →
  frame_from_bytes (frame_to_bytes (frame_new p) ++ extra) = Ret (Ok (frame_new p)) ∧
  frame_validate (frame_new p) = Ok tt.
Proof.
  intros Hp. assert (is_u32 (len p)) as Hu by (unfold is_u32, len in *; lia). split.
  - rewrite frame_decode by apply as_u32_range. simpl. rewrite as_u32_small by done.
    unfold len. rewrite Nat2Z.id, length_app. rewrite bool_decide_false by lia.
    rewrite take_app_length. unfold frame_new. by rewrite as_u32_small.
  - unfold frame_validate. simpl. rewrite !bool_decide_false by auto. done.
Qed.

(** C15: decoding is the exact inverse of encoding.  [from_bytes] never panics, its
    only error is [TooShort], and it returns a frame exactly when the input starts
    with the encoding of that frame and the frame's length is its payload's. *)
Theorem frame_from_bytes_exact (bs : list byte) :
  (∃ r, frame_from_bytes bs = Ret r ∧ ∀ e, r = Err e → e = TooShort) ∧
  ∀ f, frame_from_bytes bs = Ret (Ok f) ↔
       length_ f = len (payload f) ∧ (len (payload f) ≤ u32_max)%Z ∧
       ∃ extra, bs = frame_to_bytes f ++ extra.
Proof.
  split.
  - destruct (decide (length bs < 40)) as [Hs|Hs].
    { exists (Err TooShort). unfold frame_from_bytes. rewrite bool_decide_true by done. naive_solver. }
    destruct (bytes_header bs) as (b0&b1&b2&b3&b4&b5&b6&b7&sum&rest&->); [lia|].
    rewrite frame_from_bytes_header. eexists; split; [done|]. cbv zeta. intros e.
    case_bool_decide; naive_solver.
  - intros f. split.
    + destruct (decide (length bs < 40)) as [Hs|Hs].
      { unfold frame_from_bytes. by rewrite bool_decide_true. }
      destruct (bytes_header bs) as (b0&b1&b2&b3&b4&b5&b6&b7&sum&rest&->); [lia|].
      rewrite frame_from_bytes_header. cbv zeta.
      pose proof (u32_from_be_bytes_range b4 b5 b6 b7) as [Hn1 Hn2].
      case_bool_decide as Hlt; [done|]. intros [= <-]. cbn [length_ payload]. unfold len.
      rewrite length_take. repeat split; [lia..|].
      exists (drop (Z.to_nat (u32_from_be_bytes b4 b5 b6 b7)) rest).
      unfold frame_to_bytes. cbn [magic length_ checksum payload].
      rewrite u32_be_bytes_roundtrip', abytes_mk_array, <-!app_assoc, take_drop. done.
    + intros (Hn & Hle & extra & ->). assert (is_u32 (length_ f)) by (unfold is_u32, len in *; lia).
      rewrite frame_decode by done. rewrite Hn. unfold len. rewrite Nat2Z.id, length_app.
      rewrite bool_decide_false by lia. rewrite take_app_length.
      destruct f as [m n c p]. simpl in *. by subst n.
Qed.

(** [validate] accepts exactly the frames with the protocol's magic bytes, the
    32-bit length of their payload and its checksum; otherwise it names the first
    of the three that fails. *)
Theorem frame_validate_spec (f : WireFrame) :
  match frame_validate f with
  | Ok _ => magic f = MAGIC_BYTES ∧ length_ f = as_u32 (len (payload f)) ∧
            checksum f = compute_checksum (payload f)
  | Err InvalidMagic => magic f ≠ MAGIC_BYTES
  | Err InvalidLength => magic f = MAGIC_BYTES ∧ length_ f ≠ as_u32 (len (payload f))
  | Err ChecksumMismatch =>
      magic f = MAGIC_BYTES ∧ length_ f = as_u32 (len (payload f)) ∧
      checksum f ≠ compute_checksum (payload f)
  | Err _ => False
  end.
Proof.
  unfold frame_validate. repeat case_bool_decide; naive_solver.
Qed.

(** [x] and [y], if distinct, have distinct checksums. *)
Definition checksum_distinct (x y : list byte) : Prop :=
  compute_checksum x = compute_checksum y → x = y.

(** Above 4 GiB the length field wraps.  The frame built from such a payload
    validates, but its encoding decodes to a frame with only the first
    [len mod 2^32] bytes, which [validate] refuses with [ChecksumMismatch] unless
    the digest collides on the payload and that prefix. *)
Theorem frame_oversize (p : list byte) :
  (u32_max < len p)%Z →
  let q := take (Z.to_nat (as_u32 (len p))) p in
  frame_validate (frame_new p) = Ok tt ∧
  ∃ f, frame_from_bytes (frame_to_bytes (frame_new p)) = Ret (Ok f) ∧ payload f = q ∧
       length q < length p ∧
       (checksum_distinct p q → frame_validate f = Err ChecksumMismatch).
Proof.
  intros Hp q. pose proof (as_u32_range (len p)) as Hr. unfold is_u32 in Hr.
  assert (Hq : length q = Z.to_nat (as_u32 (len p))).
  { unfold q. rewrite length_take. unfold len in *. lia. }
  split. { unfold frame_validate. simpl. by rewrite !bool_decide_false by auto. }
  exists (mkWireFrame MAGIC_BYTES (as_u32 (len p)) (compute_checksum p) q).
  split; [|split; [done|split]].
  - rewrite <-(app_nil_r (frame_to_bytes _)), frame_decode by apply as_u32_range.
    simpl. rewrite app_nil_r. rewrite bool_decide_false by (unfold len in *; lia). done.
  - unfold len in *. lia.
  - intros Hd. unfold frame_validate. cbn [magic length_ checksum payload].
    assert (as_u32 (len q) = as_u32 (len p)) as Hlen.
    { unfold len at 1. rewrite Hq, Z2Nat.id by lia. apply as_u32_small, as_u32_range. }
    rewrite bool_decide_false by auto. rewrite bool_decide_false by auto.
    rewrite bool_decide_true; [done|].
    intros E%Hd. apply (f_equal length) in E. unfold len in *. lia.
Qed.

(** C37: a payload altered in transit is noticed: if the payload bytes of an encoded
    frame are replaced by others of the same length and the result decodes and
    validates, they are the original bytes, unless the digest collides on the two. *)
Theorem frame_tamper_detected (p q : list byte) (f : WireFrame) :
  (len p ≤ u32_max)%Z → length q = length p →
  frame_from_bytes (take 40 (frame_to_bytes (frame_new p)) ++ q) = Ret (Ok f) →
  frame_validate f = Ok tt → checksum_distinct q p →
  q = p ∧ f = frame_new p.
Proof.
  intros Hp Hlen Hdec Hval Hd.
  set (g := mkWireFrame MAGIC_BYTES (as_u32 (len p)) (compute_checksum p) q).
  assert (Hu : is_u32 (len p)) by (unfold is_u32, len in *; lia).
  assert (take 40 (frame_to_bytes (frame_new p)) ++ q = frame_to_bytes g ++ []) as Henc.
  { unfold frame_to_bytes, frame_new, g. cbn [magic length_ checksum payload].
    rewrite !app_assoc, app_nil_r. f_equal. apply take_app_length'.
    by rewrite !length_app, !length_abytes. }
  rewrite Henc, frame_decode in Hdec by apply as_u32_range.
  cbn [length_ payload g magic checksum] in Hdec. rewrite app_nil_r in Hdec.
  rewrite as_u32_small in Hdec by done. unfold len in Hdec. rewrite Nat2Z.id in Hdec.
  rewrite bool_decide_false in Hdec by lia. rewrite take_ge in Hdec by lia.
  injection Hdec as <-. pose proof (frame_validate_spec
    (mkWireFrame MAGIC_BYTES (Z.of_nat (length p)) (compute_checksum p) q)) as Hspec.
  rewrite Hval in Hspec. destruct Hspec as (_ & _ & Hsum). cbn [checksum payload] in Hsum.
  assert (q = p) as -> by (by apply Hd). split; [done|].
  unfold frame_new. by rewrite as_u32_small.
Qed.

End FrameTheorems.

(** * Evaluation *)
Section Sample.

Definition sample_sha256 : Sha256 := fnv_digest 32.
Definition sample_payload : list byte := bytes_of_string "hello crypto-coin p2p".

Lemma frame_roundtrip_witness :
  frame_from_bytes (frame_to_bytes (frame_new (SHA := sample_sha256) sample_payload) ++ [x07]) =
    Ret (Ok (frame_new (SHA := sample_sha256) sample_payload)) ∧
  frame_validate (SHA := sample_sha256) (frame_new (SHA := sample_sha256) sample_payload) = Ok tt.
Proof. apply (frame_roundtrip (SHA := sample_sha256) sample_payload [x07]). done. Defined.

(** A payload of 4 GiB, which no theorem below evaluates. *)
Definition big_payload : list byte := replicate (Z.to_nat (2 ^ 32)) x00.

Lemma big_payload_len : len big_payload = (2 ^ 32)%Z.
Proof. unfold len, big_payload. rewrite length_replicate. lia. Qed.

Lemma frame_oversize_witness :
  (u32_max < len big_payload)%Z ∧
  let q := take (Z.to_nat (as_u32 (len big_payload))) big_payload in
  frame_validate (SHA := sample_sha256) (frame_new (SHA := sample_sha256) big_payload) = Ok tt ∧
  ∃ f, frame_from_bytes (frame_to_bytes (frame_new (SHA := sample_sha256) big_payload)) = Ret (Ok f) ∧
       payload f = q ∧ length q < length big_payload ∧
       (checksum_distinct (SHA := sample_sha256) big_payload q →
        frame_validate (SHA := sample_sha256) f = Err ChecksumMismatch).
Proof.
  assert (u32_max < len big_payload)%Z as H by (rewrite big_payload_len; reflexivity).
  split; [exact H|]. apply (frame_oversize (SHA := sample_sha256) big_payload H).
Defined.

Lemma frame_tamper_detected_witness :
  sample_payload = sample_payload ∧
  frame_new (SHA := sample_sha256) sample_payload = frame_new (SHA := sample_sha256) sample_payload.
Proof.
  apply (frame_tamper_detected (SHA := sample_sha256) sample_payload sample_payload);
    [done|done|vm_compute; reflexivity|vm_compute; reflexivity|intros _; reflexivity].
Defined.

End Sample.
