(* ===== verification/ProtocolTests.v ===== *)
(** The unit tests of the wire protocol (src/node/p2p/src/protocol.rs, [mod tests]), as
    computations that panic when an assertion fails.  bincode's [serialize] and
    [deserialize] of peer records are parameters, with the law that the second inverts
    the first. *)
From S2P Require Import Prelude Protocol.

Class BincodeOps := {
  bincode_serialize : PeerRecord → Result (list byte) string;
  bincode_deserialize : list byte → Result PeerRecord string;
}.
Class BincodeLaws `{BincodeOps} : Prop := {
  bincode_total r : ∃ bs, bincode_serialize r = Ok bs;
  bincode_inverse r bs : bincode_serialize r = Ok bs → bincode_deserialize bs = Ok r;
}.

(** [Result::unwrap]. *)
Definition unwrap {T E} (r : Result T E) : exec T :=
  match r with Ok t => Ret t | Err _ => Panic end.

Section Tests.
Context `{SHA : Sha256} `{BIN : BincodeOps}.

Definition test_wire_frame_roundtrip : exec unit :=
  let payload_ := bytes_of_string "hello crypto-coin p2p" in
  let frame := frame_new payload_ in
  _ ← rust_assert (is_ok (frame_validate frame));
  let bytes := frame_to_bytes frame in
  decoded ← frame_from_bytes bytes;
  decoded ← unwrap decoded;
  rust_assert (bool_decide (payload decoded = payload_)).

Definition test_peer_record : exec unit :=
  let peer := {|
    peer_id := filled 32 x01;
    addr := "127.0.0.1:26656";
    public_key := filled 32 x02;
    capabilities := default_capabilities;
    score := f64_one;
  |} in
  serialized ← unwrap (bincode_serialize peer);
  deserialized ← unwrap (bincode_deserialize serialized);
  _ ← rust_assert (bool_decide (peer_id deserialized = peer_id peer));
  rust_assert (bool_decide (addr deserialized = addr peer)).

Definition test_protocol_version : exec unit :=
  _ ← rust_assert (bool_decide (PROTOCOL_VERSION = 1%Z));
  rust_assert (bool_decide (abytes MAGIC_BYTES = bytes_of_string "CCP1")).

(** The tests of the wire protocol pass, for every digest and every bincode that
    inverts itself. *)
Theorem protocol_tests_pass :
  BincodeLaws →
  test_wire_frame_roundtrip = Ret tt ∧ test_peer_record = Ret tt ∧ test_protocol_version = Ret tt.
Proof.
  intros Hb. split; [|split; [|reflexivity]].
  - unfold test_wire_frame_roundtrip.
    assert (frame_validate (frame_new (bytes_of_string "hello crypto-coin p2p")) = Ok tt) as ->.
    { unfold frame_validate. rewrite !bool_decide_false by (intros H; by apply H). done. }
    cbn [mbind exec_bind is_ok rust_assert].
    rewrite <-(app_nil_r (frame_to_bytes _)), frame_decode by apply as_u32_range.
    rewrite bool_decide_false by (vm_compute; lia). cbn [mbind exec_bind unwrap].
    by apply rust_assert_true.
  - unfold test_peer_record. destruct (bincode_total
      (mkPeerRecord (filled 32 x01) "127.0.0.1:26656" (filled 32 x02) default_capabilities f64_one)) as [bs Hbs].
    rewrite Hbs. cbn [mbind exec_bind unwrap]. rewrite (bincode_inverse _ _ Hbs). cbn [mbind exec_bind unwrap].
    by rewrite !rust_assert_true.
Qed.

End Tests.
