(* ===== verification/Transport.v ===== *)
(** The transport (src/node/p2p/src/transport.rs): the table of TCP connections, the
    length-prefixed messages written to them, and the events it emits.  tokio's
    streams and bincode are the parameters [Net]; what a connection attempt or an
    [accept] yields is an argument of the operation.  [event_tx] is the list of events
    handed to the broadcast channel (the results of its [send] are discarded). *)
From S2P Require Import Prelude Net Events.

(** [P2PMessage] of src/node/p2p/src/lib.rs. *)
Inductive P2PMessage :=
| BlockProposal (data : list byte)
| ConsensusVote (data : list byte)
| Transaction (data : list byte)
| FindPeer (data : list byte)
| PeerList (data : list byte)
| SyncRequest (data : list byte)
| SyncResponse (data : list byte)
| Ping
| Pong.

(** Durations are in milliseconds. *)
Record TransportConfig `{SocketAddrOps} := mkTransportConfig {
  listen_addr : SocketAddr;
  dial_timeout : Z;
  handshake_timeout : Z;
  max_message_size : Z;
  enable_encryption : bool;
}.
Arguments mkTransportConfig {_}.

Definition default_transport_config `{SocketAddrOps} : exec TransportConfig :=
  listen_addr ← or_panic (socket_addr_parse "0.0.0.0:26656");
  Ret (mkTransportConfig listen_addr 5000 3000 (10 * 1024 * 1024) true).

Inductive TransportEvent `{SocketAddrOps} :=
| ConnectionEstablished (peer_id : array 32) (addr : SocketAddr)
| ConnectionClosed (peer_id : array 32) (addr : SocketAddr) (reason : string)
| MessageReceived (peer_id : array 32) (message : P2PMessage)
| AcceptError (msg : string)
| DialError (addr : SocketAddr) (msg : string).

(** tokio's [TcpStream] and [write_all], bincode's [serialize], [hex::encode]. *)
Class NetOps := {
  TcpStream : Type;
  write_all : TcpStream → list byte → TcpStream * Result unit string;
  serialize : P2PMessage → Result (list byte) string;
  hex_encode : list byte → string;
}.

(** [sent] observes the bytes a stream has taken.  A [write_all] that succeeds writes
    the whole buffer, one that fails an initial part of it. *)
Class NetLaws `{NetOps} (sent : TcpStream → list byte) : Prop := {
  write_all_ok st bs st' : write_all st bs = (st', Ok tt) → sent st' = sent st ++ bs;
  write_all_err st bs st' e :
    write_all st bs = (st', Err e) → ∃ pre, pre `prefix_of` bs ∧ sent st' = sent st ++ pre;
}.

Section Operations.
Context `{SA : SocketAddrOps} `{NET : NetOps} {MI : MapIter (array 32)}.

Record TransportManager := mkTransportManager {
  config : TransportConfig;
  connections : gmap (array 32) TcpStream;
  event_tx : list TransportEvent;
}.

Definition transport_new (c : TransportConfig) : TransportManager :=
  mkTransportManager c ∅ [].

(** The handshake is a placeholder: every peer gets the identity [[0; 32]]. *)
Definition perform_handshake (stream : TcpStream) : Result (array 32) string :=
  let peer_id := zeroed 32 in
  Ok peer_id.

Definition handle_connection (stream : TcpStream) (addr : SocketAddr) : Result (array 32) string :=
  and_then (perform_handshake stream) (λ peer_id, Ok peer_id).

(** The event that the task spawned for an accepted connection sends. *)
Definition accept_event (stream : TcpStream) (addr : SocketAddr) : TransportEvent :=
  match handle_connection stream addr with
  | Ok peer_id => ConnectionEstablished peer_id addr
  | Err e => AcceptError ("Failed to handle connection from " +:+ socket_addr_to_string addr +:+ ": " +:+ e)
  end.

(** [listen]: the listener is bound, then connections are accepted until [accept]
    fails.  [accepts] are the connections accepted before that; each spawns a task
    that sends one event, here in the order in which the tasks send them. *)
Definition listen (bound : Result unit string) (accepts : list (TcpStream * SocketAddr))
    (failure : string) (m : TransportManager) : TransportManager * Result unit string :=
  match bound with
  | Err e => (m, Err e)
  | Ok _ =>
      (mkTransportManager (config m) (connections m)
         (event_tx m ++ ((λ '(stream, addr), accept_event stream addr) <$> accepts)),
       Err failure)
  end.

(** [attempt]: the outer [Err] is the elapsed timeout, the inner one the connect error. *)
Definition dial (addr : SocketAddr) (attempt : Result (Result TcpStream string) string)
    (m : TransportManager) : TransportManager * Result unit string :=
  match attempt with
  | Err elapsed => (m, Err elapsed)
  | Ok (Err e) => (m, Err e)
  | Ok (Ok stream) =>
      match perform_handshake stream with
      | Err e => (m, Err e)
      | Ok peer_id =>
          (mkTransportManager (config m) (<[peer_id := stream]> (connections m))
             (event_tx m ++ [ConnectionEstablished peer_id addr]),
           Ok tt)
      end
  end.

(** [{:?}] on a string. *)
Definition quote (s : string) : string :=
  String (Ascii.ascii_of_nat 34) (s +:+ String (Ascii.ascii_of_nat 34) EmptyString).

Definition set_stream (peer_id : array 32) (stream : TcpStream) (m : TransportManager)
    : TransportManager :=
  mkTransportManager (config m) (<[peer_id := stream]> (connections m)) (event_tx m).

Definition send (peer_id : array 32) (msg : P2PMessage) (m : TransportManager)
    : TransportManager * Result unit string :=
  match connections m !! peer_id with
  | Some stream =>
      match map_err (λ e, "Serialization error: " +:+ e) (serialize msg) with
      | Err e => (m, Err e)
      | Ok data =>
          let len_bytes := u32_to_be_bytes (as_u32 (len data)) in
          let '(stream, r) := write_all stream len_bytes in
          let m := set_stream peer_id stream m in
          match map_err (λ e, "Write error: " +:+ e) r with
          | Err e => (m, Err e)
          | Ok _ =>
              let '(stream, r) := write_all stream data in
              (set_stream peer_id stream m, map_err (λ e, "Write error: " +:+ e) r)
          end
      end
  | None =>
      (m, Err ("No connection to peer " +:+ quote (hex_encode (take 8 (abytes peer_id)))))
  end.

(** The result of each [send] is discarded. *)
Definition broadcast (msg : P2PMessage) (m : TransportManager) : TransportManager :=
  let peer_ids := (map_iter (connections m)).*1 in
  foldl (λ m peer_id, (send peer_id msg m).1) m peer_ids.

Definition disconnect (peer_id : array 32) (m : TransportManager) : TransportManager :=
  mkTransportManager (config m) (delete peer_id (connections m)) (event_tx m).

Definition transport_subscribe (m : TransportManager) : Receiver := subscribe (event_tx m).

Definition active_connections (m : TransportManager) : nat := size (connections m).

(** The operations of the transport, with what the network answers. *)
Inductive operation :=
| Listen (bound : Result unit string) (accepts : list (TcpStream * SocketAddr)) (failure : string)
| Dial (addr : SocketAddr) (attempt : Result (Result TcpStream string) string)
| Send (peer_id : array 32) (msg : P2PMessage)
| Broadcast (msg : P2PMessage)
| Close (peer_id : array 32).

Definition run (op : operation) (m : TransportManager) : TransportManager :=
  match op with
  | Listen bound accepts failure => (listen bound accepts failure m).1
  | Dial addr attempt => (dial addr attempt m).1
  | Send peer_id msg => (send peer_id msg m).1
  | Broadcast msg => broadcast msg m
  | Close peer_id => disconnect peer_id m
  end.

(** * Specification: the frames on a stream *)

(** A message on the wire. *)
Definition framed (data : list byte) : list byte := u32_to_be_bytes (as_u32 (len data)) ++ data.

(** A reader of such a stream: the messages it holds and the bytes left over. *)
Fixpoint deframe (fuel : nat) (bs : list byte) : list (list byte) * list byte :=
  match fuel with
  | 0 => ([], bs)
  | S fuel =>
      match bs with
      | b0 :: b1 :: b2 :: b3 :: rest =>
          let n := Z.to_nat (u32_from_be_bytes b0 b1 b2 b3) in
          if bool_decide (n ≤ length rest) then
            let '(msgs, left_over) := deframe fuel (drop n rest) in
            (take n rest :: msgs, left_over)
          else ([], bs)
      | _ => ([], bs)
      end
  end.

(** A sequence of [send] calls to one peer; [None] if one of them fails. *)
Fixpoint send_all (peer_id : array 32) (msgs : list P2PMessage) (m : TransportManager)
    : option TransportManager :=
  match msgs with
  | [] => Some m
  | msg :: msgs =>
      match send peer_id msg m with
      | (m, Ok _) => send_all peer_id msgs m
      | (_, Err _) => None
      end
  end.

End Operations.

(** * Theorems *)
Section Theorems.
Context `{SA : SocketAddrOps} `{NET : NetOps} {MI : MapIter (array 32)}.
Context (sent : TcpStream → list byte) `{LAWS : !NetLaws sent}.

Lemma write_all_prefix st bs st' r :
  write_all st bs = (st', r) →
  ∃ pre, pre `prefix_of` bs ∧ sent st' = sent st ++ pre ∧ (r = Ok tt → pre = bs).
Proof using LAWS.
  intros Hw. destruct r as [[]|e].
  - exists bs. split; [done|]. split; [by apply write_all_ok|done].
  - destruct (write_all_err _ _ _ _ Hw) as (pre & ? & ?). by exists pre.
Qed.

Lemma set_stream_twice id st st' m : set_stream id st' (set_stream id st m) = set_stream id st' m.
Proof. unfold set_stream. simpl. by rewrite insert_insert_eq. Qed.

Lemma set_stream_id id st m : connections m !! id = Some st → set_stream id st m = m.
Proof. intros H. unfold set_stream. rewrite insert_id by done. by destruct m. Qed.

Lemma send_stream (peer_id : array 32) (msg : P2PMessage) (m m' : TransportManager)
    (st : TcpStream) (r : Result unit string) :
  connections m !! peer_id = Some st → send peer_id msg m = (m', r) →
  ∃ st' pre, m' = set_stream peer_id st' m ∧ sent st' = sent st ++ pre ∧
    match serialize msg with
    | Ok data => pre `prefix_of` framed data ∧ (r = Ok tt → pre = framed data)
    | Err e => pre = [] ∧ r = Err ("Serialization error: " +:+ e)
    end.
Proof using LAWS.
  intros Hst. unfold send. rewrite Hst. destruct (serialize msg) as [data|e]; simpl.
  2: { intros [= <- <-]. exists st, []. by rewrite set_stream_id, app_nil_r. }
  destruct (write_all st _) as [st1 r1] eqn:Hw1.
  destruct (write_all_prefix _ _ _ _ Hw1) as (p1 & Hp1 & Hs1 & Hok1).
  destruct r1 as [[]|e1]; simpl.
  - rewrite Hok1 in Hs1 by done.
    destruct (write_all st1 data) as [st2 r2] eqn:Hw2. intros [= <- <-].
    destruct (write_all_prefix _ _ _ _ Hw2) as (p2 & Hp2 & Hs2 & Hok2).
    exists st2, (u32_to_be_bytes (as_u32 (len data)) ++ p2).
    rewrite set_stream_twice, Hs2, Hs1, app_assoc. split; [done|]. split; [done|].
    unfold framed. split; [by apply prefix_app|].
    destruct r2 as [[]|]; simpl; [|done]. intros _. by rewrite Hok2.
  - intros [= <- <-]. exists st1, p1. split; [done|]. split; [done|]. split; [|done].
    unfold framed. by apply prefix_app_r.
Qed.

(** What [send] puts on the wire.  It touches no connection but the peer's, and
    the peer's stream takes an initial part of the message's frame (the big-endian
    32-bit length of the serialized message, then the message): all of it when
    [send] succeeds, nothing when the message does not serialize. *)
Theorem send_wire (peer_id : array 32) (msg : P2PMessage) (m m' : TransportManager)
    (st : TcpStream) (r : Result unit string) :
  connections m !! peer_id = Some st → send peer_id msg m = (m', r) →
  ∃ st' pre, m' = set_stream peer_id st' m ∧ sent st' = sent st ++ pre ∧
    match serialize msg with
    | Ok data => pre `prefix_of` framed data ∧ (r = Ok tt → pre = framed data)
    | Err e => pre = [] ∧ r = Err ("Serialization error: " +:+ e)
    end.
Proof using LAWS. apply send_stream. Qed.

Lemma send_write_error (peer_id : array 32) (msg : P2PMessage) (m m' : TransportManager)
    (st : TcpStream) (data : list byte) (e : string) :
  connections m !! peer_id = Some st → serialize msg = Ok data → send peer_id msg m = (m', Err e) →
  ∃ we, e = "Write error: " +:+ we.
Proof using.
  intros Hst Hser. unfold send. rewrite Hst, Hser. cbn [map_err].
  destruct (write_all st _) as [st1 [|e1]]; cbn [map_err]; [|naive_solver].
  destruct (write_all st1 data) as [st2 [|e2]]; cbn [map_err]; naive_solver.
Qed.

(** C25: how [send] fails.  Without a connection to the peer nothing changes and the error
    names the peer by the hex of its first eight bytes; a message that does not serialize
    changes nothing either.  Any other failure is a write error: the stream has taken an
    initial part of the frame, and it stays in the table, so that a later [send] to the
    peer continues after the partial frame. *)
Theorem send_errors (peer_id : array 32) (msg : P2PMessage) (m m' : TransportManager) (e : string) :
  send peer_id msg m = (m', Err e) →
  match connections m !! peer_id, serialize msg with
  | None, _ =>
      m' = m ∧ e = "No connection to peer " +:+ quote (hex_encode (take 8 (abytes peer_id)))
  | Some _, Err se => m' = m ∧ e = "Serialization error: " +:+ se
  | Some st, Ok data =>
      ∃ st' pre we, m' = set_stream peer_id st' m ∧ connections m' !! peer_id = Some st' ∧
        sent st' = sent st ++ pre ∧ pre `prefix_of` framed data ∧ e = "Write error: " +:+ we
  end.
Proof using LAWS.
  intros Hsend. destruct (connections m !! peer_id) as [st|] eqn:Hst.
  2: { unfold send in Hsend. rewrite Hst in Hsend. by simplify_eq. }
  destruct (send_stream _ _ _ _ _ _ Hst Hsend) as (st' & pre & Hm & Hs & Hd).
  destruct (serialize msg) as [data|se] eqn:Hser.
  - destruct (send_write_error _ _ _ _ _ _ _ Hst Hser Hsend) as [we ->].
    exists st', pre, we. subst m'. split; [done|]. split; [apply lookup_insert_eq|]. by destruct Hd.
  - destruct Hd as [-> [= ->]]. split; [|done].
    clear Hm. unfold send in Hsend. rewrite Hst, Hser in Hsend. by injection Hsend as <-.
Qed.

Lemma send_Ok (peer_id : array 32) (msg : P2PMessage) (m m' : TransportManager) :
  send peer_id msg m = (m', Ok tt) →
  ∃ st st' data, connections m !! peer_id = Some st ∧ serialize msg = Ok data ∧
    m' = set_stream peer_id st' m ∧ sent st' = sent st ++ framed data.
Proof using LAWS.
  intros Hsend. destruct (connections m !! peer_id) as [st|] eqn:Hst.
  - destruct (send_stream _ _ _ _ _ _ Hst Hsend) as (st' & pre & -> & Hs & Hd).
    destruct (serialize msg) as [data|e]; [|by destruct Hd].
    destruct Hd as [_ Hd]. rewrite Hd in Hs by done. by exists st, st', data.
  - unfold send in Hsend. by rewrite Hst in Hsend.
Qed.

(** ** The stream decodes *)
Lemma deframe_framed (fuel : nat) (data rest : list byte) :
  (len data ≤ u32_max)%Z →
  deframe (S fuel) (framed data ++ rest) =
  (data :: (deframe fuel rest).1, (deframe fuel rest).2).
Proof.
  intros Hd. unfold framed, u32_to_be_bytes. cbn [app deframe].
  assert (is_u32 (len data)) as Hu by (unfold is_u32, len in *; lia).
  rewrite u32_be_bytes_roundtrip by apply as_u32_range. rewrite as_u32_small by done.
  unfold len. rewrite Nat2Z.id. rewrite bool_decide_true by (rewrite length_app; lia).
  rewrite take_app_length, drop_app_length. by destruct (deframe fuel rest).
Qed.

Lemma deframe_concat (datas : list (list byte)) (fuel : nat) :
  Forall (λ data, len data ≤ u32_max)%Z datas → length datas ≤ fuel →
  deframe fuel (concat (framed <$> datas)) = (datas, []).
Proof.
  revert fuel. induction datas as [|data datas IH]; intros fuel Hall Hf.
  { by destruct fuel. }
  destruct fuel as [|fuel]; [simpl in Hf; lia|]. apply Forall_cons in Hall as [Hd Hall].
  cbn [fmap list_fmap concat]. rewrite deframe_framed by done.
  simpl in Hf. by rewrite IH by (done || lia).
Qed.

(** C24: messages arrive as they were sent.  After any number of successful [send]s to
    a peer over a fresh stream, of messages that serialize to less than 4 GiB, a
    reader of the length prefixes recovers exactly the serialized messages, in
    order, with nothing left over. *)
Theorem send_all_decodes (peer_id : array 32) (msgs : list P2PMessage) (m m' : TransportManager)
    (st : TcpStream) :
  connections m !! peer_id = Some st → sent st = [] →
  (∀ msg data, msg ∈ msgs → serialize msg = Ok data → (len data ≤ u32_max)%Z) →
  send_all peer_id msgs m = Some m' →
  ∃ st' datas, connections m' !! peer_id = Some st' ∧
    Forall2 (λ msg data, serialize msg = Ok data) msgs datas ∧
    deframe (length msgs) (sent st') = (datas, []).
Proof using LAWS.
  intros Hst Hfresh Hsmall Hall.
  assert (∃ st' datas, connections m' !! peer_id = Some st' ∧
    Forall2 (λ msg data, serialize msg = Ok data) msgs datas ∧
    sent st' = sent st ++ concat (framed <$> datas)) as (st' & datas & Hst' & Hser & Hsent).
  { clear Hfresh Hsmall. revert m st Hst Hall. induction msgs as [|msg msgs IH]; intros m st Hst; simpl.
    { intros [= <-]. exists st, []. by rewrite app_nil_r. }
    destruct (send peer_id msg m) as [m1 [[]|e]] eqn:Hsend; [|done]. intros Hall.
    destruct (send_Ok _ _ _ _ Hsend) as (st0 & st1 & data & Hst0 & Hd & -> & Hs1). simplify_eq.
    destruct (IH (set_stream peer_id st1 m) st1) as (st' & datas & ? & ? & Hs); [|done|].
    { simpl. by rewrite lookup_insert_eq. }
    exists st', (data :: datas). split; [done|]. split; [by constructor|].
    simpl. by rewrite Hs, Hs1, <-app_assoc. }
  exists st', datas. split; [done|]. split; [done|].
  rewrite Hsent, Hfresh. simpl. apply deframe_concat.
  - apply Forall_forall. intros data Hin.
    apply list_elem_of_lookup in Hin as [i Hi].
    destruct (Forall2_lookup_r _ _ _ _ _ Hser Hi) as (msg & Hmsg & Hd).
    eapply Hsmall; [by eapply list_elem_of_lookup_2|done].
  - by rewrite (Forall2_length _ _ _ Hser).
Qed.

(** ** Broadcast *)
Lemma send_lookup_ne (id id' : array 32) (msg : P2PMessage) (m : TransportManager) :
  id ≠ id' → connections (send id msg m).1 !! id' = connections m !! id'.
Proof.
  intros Hne. unfold send. destruct (connections m !! id); [|done].
  destruct (serialize msg); simpl; [|done].
  destruct (write_all _ _) as [st1 [[]|]]; simpl; [|by rewrite lookup_insert_ne].
  destruct (write_all _ _) as [st2 r2]; simpl. by rewrite !lookup_insert_ne.
Qed.

(** [send] reads and writes only the entry of its peer. *)
Lemma send_local (id : array 32) (msg : P2PMessage) (m1 m2 : TransportManager) :
  connections m1 !! id = connections m2 !! id →
  connections (send id msg m1).1 !! id = connections (send id msg m2).1 !! id.
Proof.
  intros He. unfold send. rewrite He. destruct (connections m2 !! id) eqn:E; [|simpl; congruence].
  destruct (serialize msg); simpl; [|congruence].
  destruct (write_all _ _) as [st1 [[]|]]; simpl; [|by rewrite !lookup_insert_eq].
  destruct (write_all _ _) as [st2 r2]; simpl. by rewrite !lookup_insert_eq.
Qed.

Lemma send_is_Some (id id' : array 32) (msg : P2PMessage) (m : TransportManager) :
  is_Some (connections (send id msg m).1 !! id') ↔ is_Some (connections m !! id').
Proof.
  destruct (decide (id = id')) as [<-|Hne]; [|by rewrite send_lookup_ne].
  unfold send. destruct (connections m !! id) eqn:E; [|simpl; by rewrite E].
  destruct (serialize msg); simpl; [|by rewrite E].
  destruct (write_all _ _) as [st1 [[]|]]; simpl; [|rewrite lookup_insert_eq; naive_solver].
  destruct (write_all _ _) as [st2 r2]; simpl. rewrite lookup_insert_eq. naive_solver.
Qed.

Lemma fold_send_lookup (keys : list (array 32)) (msg : P2PMessage) (m : TransportManager) (id : array 32) :
  NoDup keys →
  connections (foldl (λ m id, (send id msg m).1) m keys) !! id =
  if bool_decide (id ∈ keys) then connections (send id msg m).1 !! id else connections m !! id.
Proof.
  revert m. induction keys as [|k keys IH]; intros m Hnd; simpl; [done|].
  apply NoDup_cons in Hnd as [Hk Hnd]. rewrite IH by done.
  destruct (decide (id = k)) as [->|Hne].
  - rewrite bool_decide_false by done. rewrite bool_decide_true by elem_list. done.
  - rewrite (bool_decide_ext (id ∈ k :: keys) (id ∈ keys)) by (rewrite elem_of_cons; naive_solver).
    case_bool_decide; [|by apply send_lookup_ne].
    apply send_local. by apply send_lookup_ne.
Qed.

(** [broadcast] is one [send] per connection, independently of each other: every
    connection ends up as the [send] to it alone would leave it, in whatever order
    the table is visited and whether or not the other sends fail. *)
Theorem broadcast_each (msg : P2PMessage) (m : TransportManager) (id : array 32) :
  MapIterLaws (array 32) →
  connections (broadcast msg m) !! id = connections (send id msg m).1 !! id.
Proof.
  intros MIL. unfold broadcast. rewrite fold_send_lookup by apply NoDup_map_iter_keys.
  case_bool_decide as Hin; [done|]. destruct (connections m !! id) as [st|] eqn:E.
  - destruct Hin. apply list_elem_of_fmap. exists (id, st). split; [done|]. by apply elem_of_map_iter.
  - symmetry. unfold send. by rewrite E.
Qed.

(** ** Identities *)

(** All connections are filed under the placeholder identity. *)
Definition placeholder_only (m : TransportManager) : Prop :=
  ∀ id, is_Some (connections m !! id) → id = zeroed 32.

Lemma fold_send_is_Some (keys : list (array 32)) (msg : P2PMessage) (m : TransportManager) (id : array 32) :
  is_Some (connections (foldl (λ m id, (send id msg m).1) m keys) !! id) ↔ is_Some (connections m !! id).
Proof.
  revert m. induction keys as [|k keys IH]; intros m; simpl; [done|].
  rewrite IH. apply send_is_Some.
Qed.

Lemma run_placeholder_only (op : operation) (m : TransportManager) :
  placeholder_only m → placeholder_only (run op m).
Proof.
  intros Hm id. destruct op as [[]| ? [[|]|]| | |]; simpl; auto.
  - rewrite lookup_insert_is_Some. intros [<-|[_ ?]]; auto.
  - rewrite send_is_Some. auto.
  - unfold broadcast. rewrite fold_send_is_Some. auto.
  - rewrite lookup_delete_is_Some. intros [_ ?]; auto.
Qed.

Lemma runs_placeholder_only (ops : list operation) (m : TransportManager) :
  placeholder_only m → placeholder_only (foldl (λ m op, run op m) m ops).
Proof.
  revert m. induction ops as [|op ops IH]; intros m Hm; simpl; [done|].
  by apply IH, run_placeholder_only.
Qed.

Lemma placeholder_only_size (m : TransportManager) : placeholder_only m → active_connections m ≤ 1.
Proof.
  intros Hm. unfold active_connections.
  assert (dom (connections m) ⊆ {[zeroed 32]}) as Hd.
  { intros id Hid. apply elem_of_dom in Hid. rewrite (Hm id Hid). set_solver. }
  rewrite <-size_dom. apply subseteq_size in Hd. by rewrite size_singleton in Hd.
Qed.

(** The transport never holds more than one connection.  The handshake gives every
    peer the identity [[0; 32]], so each successful [dial] replaces the stream of the
    one before, and accepted connections are not entered at all: after any sequence
    of operations, whatever the network answers, there is at most one connection. *)
Theorem at_most_one_connection (c : TransportConfig) (ops : list operation) :
  active_connections (foldl (λ m op, run op m) (transport_new c) ops) ≤ 1.
Proof.
  apply placeholder_only_size, runs_placeholder_only. intros id. simpl. rewrite lookup_empty.
  by intros [??].
Qed.

End Theorems.

(** * A network that accepts everything *)
Section Sample.

Definition sample_net : NetOps := {|
  TcpStream := list byte;
  write_all st bs := (st ++ bs, Ok tt);
  serialize msg := Ok (match msg with Ping => [x07] | Pong => [x08] | Transaction d => x02 :: d | _ => [x00] end);
  hex_encode _ := "00";
|}.

Lemma sample_net_laws : NetLaws (H := sample_net) id.
Proof. constructor; simpl; [|done]. by intros st bs st' [= <-]. Qed.

Definition sample_transport : TransportManager (NET := sample_net) :=
  mkTransportManager (NET := sample_net)
    (mkTransportConfig (mkSocketAddrV4 x00 x00 x00 x00 x68 x20) 5000 3000 10485760 true)
    {[zeroed 32 := []]} [].

Lemma sample_stream : connections sample_transport !! zeroed 32 = Some [].
Proof. unfold sample_transport. cbn [connections]. apply lookup_singleton_eq. Qed.

Lemma sample_send (m : TransportManager (NET := sample_net)) (msg : P2PMessage)
    (st : TcpStream (NetOps := sample_net)) (data : list byte) :
  connections m !! zeroed 32 = Some st → serialize (NetOps := sample_net) msg = Ok data →
  send (NET := sample_net) (zeroed 32) msg m =
  (set_stream (NET := sample_net) (zeroed 32) (st ++ framed data) m, Ok tt).
Proof.
  intros Hst Hd. unfold send. rewrite Hst, Hd. cbn [map_err write_all sample_net].
  rewrite set_stream_twice. unfold framed. by rewrite app_assoc.
Qed.

Lemma send_wire_witness :
  ∃ st' pre, (send (NET := sample_net) (zeroed 32) Ping sample_transport).1 =
      set_stream (NET := sample_net) (zeroed 32) st' sample_transport ∧
    id st' = id [] ++ pre ∧
    pre `prefix_of` framed [x07] ∧
    ((send (NET := sample_net) (zeroed 32) Ping sample_transport).2 = Ok tt → pre = framed [x07]).
Proof.
  exact (send_wire (NET := sample_net) id (LAWS := sample_net_laws) (zeroed 32) Ping sample_transport
    (send (NET := sample_net) (zeroed 32) Ping sample_transport).1 []
    (send (NET := sample_net) (zeroed 32) Ping sample_transport).2
    sample_stream (surjective_pairing _)).
Defined.

(** A network whose streams break after six bytes. *)
Definition breaking_net : NetOps := {|
  TcpStream := list byte;
  write_all st bs :=
    if bool_decide (length (st ++ bs) ≤ 6) then (st ++ bs, Ok tt)
    else (st ++ take (6 - length st) bs, Err "broken pipe");
  serialize _ := Ok [x01; x02; x03];
  hex_encode _ := "00";
|}.

Lemma breaking_net_laws : NetLaws (H := breaking_net) id.
Proof.
  constructor; cbn; intros st bs st'; case_bool_decide; [naive_solver..| |]; [done|].
  intros e [= <- _]. eexists. split; [|done]. apply prefix_take.
Qed.

Definition breaking_transport : TransportManager (NET := breaking_net) :=
  mkTransportManager (NET := breaking_net) (config sample_transport) {[zeroed 32 := []]} [].

Lemma send_errors_witness :
  ∃ st' pre we,
    (send (NET := breaking_net) (zeroed 32) Ping breaking_transport).1 =
      set_stream (NET := breaking_net) (zeroed 32) st' breaking_transport ∧
    connections (send (NET := breaking_net) (zeroed 32) Ping breaking_transport).1 !! zeroed 32 = Some st' ∧
    id st' = [] ++ pre ∧ pre `prefix_of` framed [x01; x02; x03] ∧
    "Write error: broken pipe" = "Write error: " +:+ we.
Proof.
  pose proof (send_errors (NET := breaking_net) id (LAWS := breaking_net_laws) (zeroed 32) Ping
    breaking_transport (send (NET := breaking_net) (zeroed 32) Ping breaking_transport).1
    "Write error: broken pipe") as H.
  assert (connections (NET := breaking_net) breaking_transport !! zeroed 32 =
    Some ([] : TcpStream (NetOps := breaking_net))) as Hst by apply lookup_singleton_eq.
  rewrite Hst in H. apply H. unfold send. rewrite Hst. reflexivity.
Defined.

Lemma send_all_decodes_witness :
  ∃ st' datas, Some st' = Some (framed [x07] ++ framed [x02; x05]) ∧
    Forall2 (λ msg data, serialize (NetOps := sample_net) msg = Ok data) [Ping; Transaction [x05]] datas ∧
    deframe 2 (id st') = (datas, []).
Proof.
  destruct (send_all_decodes (NET := sample_net) id (LAWS := sample_net_laws) (zeroed 32)
    [Ping; Transaction [x05]] sample_transport
    (set_stream (NET := sample_net) (zeroed 32) (framed [x07] ++ framed [x02; x05]) sample_transport) [])
    as (st' & datas & Hst & Hser & Hd).
  - exact sample_stream.
  - reflexivity.
  - intros msg data Hin Hser. repeat setoid_rewrite elem_of_cons in Hin.
    destruct Hin as [->|[->|[]%not_elem_of_nil]];
      injection Hser as <-; intros E; vm_compute in E; discriminate E.
  - cbn [send_all]. rewrite (sample_send _ Ping [] [x07] sample_stream eq_refl).
    rewrite (sample_send _ (Transaction [x05]) (framed [x07]) [x02; x05] (lookup_insert_eq _ _ _) eq_refl).
    rewrite set_stream_twice. reflexivity.
  - exists st', datas. split; [|split; [exact Hser|exact Hd]]. refine (eq_trans (eq_sym Hst) _).
    apply (lookup_insert_eq (M := gmap (array 32))).
Defined.

Lemma broadcast_each_witness :
  connections (NET := sample_net) (broadcast (NET := sample_net) (MI := map_iter_default) Ping sample_transport)
    !! zeroed 32 =
  connections (NET := sample_net) (send (NET := sample_net) (zeroed 32) Ping sample_transport).1 !! zeroed 32.
Proof.
  apply (broadcast_each (NET := sample_net) (MI := map_iter_default)). intros V m. reflexivity.
Defined.

End Sample.
