(* ===== verification/Discovery.v ===== *)
(** Peer discovery (src/node/p2p/src/discovery.rs): the table of known peers, the set
    of banned ones, and the operations on them.  [Instant::now()] is an argument of
    the operation that reads it (in milliseconds), a clock for the ones that read it
    repeatedly; the random shuffle of the rand crate is the parameter [Shuffle].
    [event_tx] is the list of events handed to the broadcast channel (the results of
    its [send] are discarded). *)
From S2P Require Import Prelude Net Events Protocol.

Definition Instant : Type := Z.
Definition Duration : Type := Z.
Bind Scope Z_scope with Instant Duration.

Definition from_secs (s : Z) : Duration := (s * 1000)%Z.

(** [Instant::duration_since] saturates at zero. *)
Definition duration_since (now earlier : Instant) : Duration := Z.max 0 (now - earlier)%Z.

(** [SliceRandom::shuffle]. *)
Class Shuffle := shuffle : ∀ {A : Type}, list A → list A.
Class ShuffleLaws `{Shuffle} : Prop := shuffle_perm : ∀ {A} (l : list A), shuffle l ≡ₚ l.

Record DiscoveryConfig `{SocketAddrOps} := mkDiscoveryConfig {
  bootstrap_peers : list SocketAddr;
  max_peers : nat;
  bootstrap_interval : Duration;
  pex_interval : Duration;
  peer_timeout : Duration;
  target_outgoing : nat;
}.
Arguments mkDiscoveryConfig {_}.

Definition default_discovery_config `{SocketAddrOps} : DiscoveryConfig := {|
  bootstrap_peers := [];
  max_peers := 500;
  bootstrap_interval := from_secs 300;
  pex_interval := from_secs 60;
  peer_timeout := from_secs 3600;
  target_outgoing := 8;
|}.

Inductive PeerStatus := Discovered | Connecting | Connected | Disconnected | Banned.

#[export] Instance PeerStatus_eq_decision : EqDecision PeerStatus.
Proof. solve_decision. Defined.

Record TrackedPeer := mkTrackedPeer {
  record : PeerRecord;
  status : PeerStatus;
  first_seen : Instant;
  last_seen : Instant;
  last_attempt : option Instant;
  connection_attempts : Z;
  success_rate : f64;
}.

Inductive DiscoveryEvent `{SocketAddrOps} :=
| NewPeerDiscovered (id : array 32) (a : SocketAddr)
| PeerConnected (id : array 32)
| PeerDisconnected (id : array 32)
| PeerBanned (id : array 32) (reason : string)
| NeedMorePeers (n : nat).

(** * The manager *)
Section Operations.
Context `{SA : SocketAddrOps} {MI : MapIter (array 32)} `{SH : Shuffle}.
(** What [unwrap_or_default] gives for an address that does not parse. *)
Context (default_addr : SocketAddr).

Record DiscoveryManager := mkDiscoveryManager {
  config : DiscoveryConfig;
  peers : gmap (array 32) TrackedPeer;
  banned : gset (array 32);
  event_tx : list DiscoveryEvent;
}.

Definition discovery_new (c : DiscoveryConfig) : DiscoveryManager :=
  mkDiscoveryManager c ∅ ∅ [].

Definition emit (e : DiscoveryEvent) (m : DiscoveryManager) : DiscoveryManager :=
  mkDiscoveryManager (config m) (peers m) (banned m) (event_tx m ++ [e]).

Definition set_peers (ps : gmap (array 32) TrackedPeer) (m : DiscoveryManager) : DiscoveryManager :=
  mkDiscoveryManager (config m) ps (banned m) (event_tx m).

Definition add_peer (now : Instant) (r : PeerRecord) (m : DiscoveryManager) : DiscoveryManager :=
  let peer_id := Protocol.peer_id r in
  if bool_decide (peer_id ∈ banned m) then m
  else
    let tracked := {|
      record := r;
      status := Discovered;
      first_seen := now;
      last_seen := now;
      last_attempt := None;
      connection_attempts := 0;
      success_rate := f64_one;
    |} in
    let is_new := negb (bool_decide (is_Some (peers m !! peer_id))) in
    let m := set_peers (<[peer_id := tracked]> (peers m)) m in
    if is_new then
      let addr := default default_addr (socket_addr_parse (Protocol.addr r)) in
      emit (NewPeerDiscovered peer_id addr) m
    else m.

(** [clock i] is the instant the [i]-th call of [add_peer] reads. *)
Fixpoint add_peers (clock : nat → Instant) (records : list PeerRecord) (m : DiscoveryManager)
    : DiscoveryManager :=
  match records with
  | [] => m
  | r :: records => add_peers (λ i, clock (S i)) records (add_peer (clock 0) r m)
  end.

Definition mark_connected (now : Instant) (peer_id : array 32) (m : DiscoveryManager) : DiscoveryManager :=
  let m :=
    match peers m !! peer_id with
    | Some peer =>
        set_peers (<[peer_id := mkTrackedPeer (record peer) Connected (first_seen peer) now
                                  (last_attempt peer) 0 f64_one]> (peers m)) m
    | None => m
    end in
  emit (PeerConnected peer_id) m.

Definition mark_disconnected (now : Instant) (peer_id : array 32) (m : DiscoveryManager)
    : DiscoveryManager :=
  let m :=
    match peers m !! peer_id with
    | Some peer =>
        set_peers (<[peer_id := mkTrackedPeer (record peer) Disconnected (first_seen peer) now
                                  (last_attempt peer) (connection_attempts peer)
                                  (success_rate peer)]> (peers m)) m
    | None => m
    end in
  emit (PeerDisconnected peer_id) m.

Definition ban_peer (peer_id : array 32) (reason : string) (m : DiscoveryManager) : DiscoveryManager :=
  emit (PeerBanned peer_id reason)
    (mkDiscoveryManager (config m) (delete peer_id (peers m)) ({[peer_id]} ∪ banned m) (event_tx m)).

(** The filter of [peers_to_connect]. *)
Definition is_candidate (m : DiscoveryManager) (p : TrackedPeer) : bool :=
  match status p with
  | Discovered | Disconnected => negb (bool_decide (Protocol.peer_id (record p) ∈ banned m))
  | _ => false
  end.

Definition peers_to_connect (count : nat) (m : DiscoveryManager) : list (SocketAddr * array 32) :=
  let candidates := filter (λ kp, is_candidate m kp.2) (map_iter (peers m)) in
  let candidates := shuffle candidates in
  let candidates := take count candidates in
  omap (λ kp, (λ a, (a, kp.1)) <$> socket_addr_parse (Protocol.addr (record kp.2))) candidates.

Definition connected_peers (m : DiscoveryManager) : list PeerRecord :=
  (λ kp, record kp.2) <$> filter (λ kp, status kp.2 = Connected) (map_iter (peers m)).

Definition peer_exchange_subset (count : nat) (m : DiscoveryManager) : list PeerRecord :=
  let connected :=
    (λ kp, record kp.2) <$> filter (λ kp, status kp.2 = Connected) (map_iter (peers m)) in
  let subset := shuffle connected in
  take count subset.

(** The filter of [prune_stale_peers]. *)
Definition is_stale (now : Instant) (timeout : Duration) (p : TrackedPeer) : bool :=
  negb (bool_decide (status p = Connected)) &&
  bool_decide (duration_since now (last_seen p) > timeout)%Z.

Definition prune_stale_peers (now : Instant) (m : DiscoveryManager) : DiscoveryManager :=
  let timeout := peer_timeout (config m) in
  let stale := (filter (λ kp, is_stale now timeout kp.2) (map_iter (peers m))).*1 in
  foldl (λ m peer_id, set_peers (delete peer_id (peers m)) m) m stale.

Definition connected_count (m : DiscoveryManager) : nat := length (connected_peers m).

Definition needs_more_peers (m : DiscoveryManager) : bool :=
  let connected_count := length (connected_peers m) in
  bool_decide (connected_count < target_outgoing (config m)).

Definition known_peers_count (m : DiscoveryManager) : nat := size (peers m).

Definition discovery_subscribe (m : DiscoveryManager) : Receiver := subscribe (event_tx m).

(** The record that [bootstrap] makes of a seed address. *)
Definition seed_record (a : SocketAddr) : PeerRecord := {|
  Protocol.peer_id := zeroed 32;
  Protocol.addr := socket_addr_to_string a;
  Protocol.public_key := zeroed 32;
  capabilities := default_capabilities;
  score := f64_half;
|}.

Fixpoint bootstrap_loop (clock : nat → Instant) (seeds : list SocketAddr) (m : DiscoveryManager)
    : DiscoveryManager :=
  match seeds with
  | [] => m
  | a :: seeds => bootstrap_loop (λ i, clock (S i)) seeds (add_peer (clock 0) (seed_record a) m)
  end.

Definition bootstrap (clock : nat → Instant) (m : DiscoveryManager) : DiscoveryManager :=
  bootstrap_loop clock (bootstrap_peers (config m)) m.

(** The managers that the operations make of [m0], with a clock that starts at [t0] and
    does not go back. *)
Inductive reachable (m0 : DiscoveryManager) (t0 : Instant) : Instant → DiscoveryManager → Prop :=
| reach_start : reachable m0 t0 t0 m0
| reach_add_peer t now r m :
    reachable m0 t0 t m → (t ≤ now)%Z → reachable m0 t0 now (add_peer now r m)
| reach_mark_connected t now id m :
    reachable m0 t0 t m → (t ≤ now)%Z → reachable m0 t0 now (mark_connected now id m)
| reach_mark_disconnected t now id m :
    reachable m0 t0 t m → (t ≤ now)%Z → reachable m0 t0 now (mark_disconnected now id m)
| reach_ban_peer t id reason m :
    reachable m0 t0 t m → reachable m0 t0 t (ban_peer id reason m)
| reach_prune t now m :
    reachable m0 t0 t m → (t ≤ now)%Z → reachable m0 t0 now (prune_stale_peers now m).

(** What every entry of the table satisfies at time [t]. *)
Record peer_ok (t : Instant) (bans : gset (array 32)) (id : array 32) (p : TrackedPeer) : Prop := {
  ok_key : Protocol.peer_id (record p) = id;
  ok_not_banned : id ∉ bans;
  ok_status : status p ∈ [Discovered; Connected; Disconnected];
  ok_seen : (first_seen p ≤ last_seen p ≤ t)%Z;
  ok_attempts : last_attempt p = None ∧ connection_attempts p = 0%Z ∧ success_rate p = f64_one;
}.

Definition table_ok (t : Instant) (m : DiscoveryManager) : Prop :=
  map_Forall (peer_ok t (banned m)) (peers m).

End Operations.

(** * Theorems *)
Section Theorems.
Context `{SA : SocketAddrOps} {MI : MapIter (array 32)} `{SH : Shuffle}.
Context {MIL : MapIterLaws (array 32)} {SHL : ShuffleLaws}.
Context (default_addr : SocketAddr).

(** ** Pruning *)
Lemma fold_delete_peers (ids : list (array 32)) (m : DiscoveryManager) :
  foldl (λ m id, set_peers (delete id (peers m)) m) m ids =
  set_peers (foldr delete (peers m) (reverse ids)) m.
Proof.
  revert m. induction ids as [|id ids IH]; intros m; simpl; [by destruct m|].
  rewrite IH, reverse_cons, foldr_app. done.
Qed.

Lemma lookup_foldr_delete {V} (ids : list (array 32)) (ps : gmap (array 32) V) (id : array 32) :
  foldr delete ps ids !! id = if bool_decide (id ∈ ids) then None else ps !! id.
Proof.
  induction ids as [|k ids IH]; simpl; [done|]. destruct (decide (k = id)) as [->|Hne].
  - rewrite lookup_delete_eq. by rewrite bool_decide_true by elem_list.
  - rewrite lookup_delete_ne, IH by done.
    erewrite (bool_decide_ext (id ∈ k :: ids)); [done|]. rewrite elem_of_cons. naive_solver.
Qed.

Lemma prune_lookup (now : Instant) (m : DiscoveryManager) (id : array 32) :
  peers (prune_stale_peers now m) !! id =
  p ← peers m !! id; if is_stale now (peer_timeout (config m)) p then None else Some p.
Proof using MIL.
  unfold prune_stale_peers. rewrite fold_delete_peers. simpl.
  rewrite lookup_foldr_delete.
  destruct (peers m !! id) as [p|] eqn:E; simpl; [|by case_bool_decide].
  erewrite (bool_decide_ext _ (Is_true (is_stale now (peer_timeout (config m)) p))).
  { by destruct (is_stale _ _ p). }
  rewrite elem_of_reverse, list_elem_of_fmap. split.
  - intros ([id' p'] & -> & [Hs Hin%elem_of_map_iter]%list_elem_of_filter). simpl in *. by simplify_eq.
  - intros Hs. exists (id, p). split; [done|]. apply list_elem_of_filter. split; [done|].
    by apply elem_of_map_iter.
Qed.

Lemma prune_frame (now : Instant) (m : DiscoveryManager) :
  config (prune_stale_peers now m) = config m ∧ banned (prune_stale_peers now m) = banned m ∧
  event_tx (prune_stale_peers now m) = event_tx m.
Proof. unfold prune_stale_peers. by rewrite fold_delete_peers. Qed.

(** C33: pruning is exact.  What [prune_stale_peers] leaves in the table are the peers
    that are connected or were seen within the timeout, with their records as they
    were; the bans and the configuration are untouched. *)
Theorem prune_exact (now : Instant) (m : DiscoveryManager) :
  (0 ≤ peer_timeout (config m))%Z →
  prune_stale_peers now m =
  set_peers (filter (λ kp, status kp.2 = Connected ∨ now - last_seen kp.2 ≤ peer_timeout (config m))%Z
               (peers m)) m.
Proof using MIL.
  intros Ht. destruct (prune_frame now m) as (Hc & Hb & He).
  destruct (prune_stale_peers now m) as [c ps bs ev] eqn:E. simpl in *. subst c bs ev.
  unfold set_peers. f_equal. apply map_eq. intros id.
  change ps with (peers (mkDiscoveryManager (config m) ps (banned m) (event_tx m))).
  rewrite <-E, prune_lookup, map_lookup_filter.
  destruct (peers m !! id) as [p|]; simpl; [|done].
  unfold is_stale, duration_since. case_guard as Hg; simpl in Hg.
  - destruct Hg as [->|Hg]; simpl; [done|].
    rewrite (bool_decide_false (_ > _)%Z) by lia. by rewrite andb_false_r.
  - apply Decidable.not_or in Hg as [Hs Hg]. rewrite bool_decide_false by done.
    by rewrite bool_decide_true by lia.
Qed.

(** ** The table *)
Lemma peer_ok_later (t t' : Instant) (bans : gset (array 32)) (id : array 32) (p : TrackedPeer) :
  (t ≤ t')%Z → peer_ok t bans id p → peer_ok t' bans id p.
Proof. intros Ht []. constructor; [done..|lia|done]. Qed.

Lemma table_ok_later (t t' : Instant) (m : DiscoveryManager) :
  (t ≤ t')%Z → table_ok t m → table_ok t' m.
Proof. intros Ht Hm id p Hp. by apply (peer_ok_later t), Hm. Qed.

Lemma add_peer_ok (t : Instant) (r : PeerRecord) (m : DiscoveryManager) :
  table_ok t m → table_ok t (add_peer default_addr t r m).
Proof.
  intros Hm. unfold add_peer. case_bool_decide as Hb; [done|].
  assert (table_ok t (set_peers (<[Protocol.peer_id r :=
    mkTrackedPeer r Discovered t t None 0 f64_one]> (peers m)) m)) as H.
  { apply map_Forall_insert_2; [|exact Hm]. constructor; simpl; [done|done|elem_list|lia|done]. }
  destruct (negb _); exact H.
Qed.

Lemma update_peer_ok (t now : Instant) (id : array 32) (p : TrackedPeer) (st : PeerStatus)
    (bans : gset (array 32)) (k : Z) (f : f64) :
  (t ≤ now)%Z → st ∈ [Discovered; Connected; Disconnected] → k = 0%Z → f = f64_one →
  peer_ok t bans id p →
  peer_ok now bans id (mkTrackedPeer (record p) st (first_seen p) now (last_attempt p) k f).
Proof. intros Ht Hst -> -> [Hk Hb _ Hs Ha]. constructor; simpl; [done|done|done|lia|]. by destruct Ha. Qed.

Lemma mark_connected_ok (t now : Instant) (id : array 32) (m : DiscoveryManager) :
  (t ≤ now)%Z → table_ok t m → table_ok now (mark_connected now id m).
Proof.
  intros Ht Hm. pose proof (table_ok_later _ _ _ Ht Hm) as Hm'.
  unfold mark_connected. destruct (peers m !! id) as [p|] eqn:E; [|exact Hm'].
  apply map_Forall_insert_2; [|exact Hm']. apply (update_peer_ok t); [done|elem_list|done..|by apply Hm].
Qed.

Lemma mark_disconnected_ok (t now : Instant) (id : array 32) (m : DiscoveryManager) :
  (t ≤ now)%Z → table_ok t m → table_ok now (mark_disconnected now id m).
Proof.
  intros Ht Hm. pose proof (table_ok_later _ _ _ Ht Hm) as Hm'.
  unfold mark_disconnected. destruct (peers m !! id) as [p|] eqn:E; [|exact Hm'].
  destruct (Hm _ _ E) as [_ _ _ _ (Ha & Hc & Hr)].
  apply map_Forall_insert_2; [|exact Hm'].
  apply (update_peer_ok t); [done|elem_list|done|done|by apply Hm].
Qed.

Lemma ban_peer_ok (t : Instant) (id : array 32) (reason : string) (m : DiscoveryManager) :
  table_ok t m → table_ok t (ban_peer id reason m).
Proof using.
  clear MIL SHL.
  intros Hm id' p. simpl. rewrite lookup_delete_Some. intros [Hne Hp].
  destruct (Hm _ _ Hp). constructor; simpl; [done|set_solver|done..].
Qed.

Lemma prune_ok (t : Instant) (m : DiscoveryManager) :
  table_ok t m → table_ok t (prune_stale_peers t m).
Proof using MIL.
  intros Hm id p. destruct (prune_frame t m) as (_ & -> & _). rewrite prune_lookup.
  intros (q & Hq & Hp)%bind_Some. destruct (is_stale _ _ q); simplify_eq. by apply Hm.
Qed.

(** C17: the routing table is well formed at all times.  In every manager that the
    operations make of a new one, whatever the records, identities and instants:
    each peer is filed under the identity in its record, no banned peer is in the
    table, a peer's status is Discovered, Connected or Disconnected (never Connecting
    or Banned), it was first seen no later than last seen and neither lies in the
    future, and its attempt counters still have their initial values. *)
Theorem discovery_invariant (c : DiscoveryConfig) (t0 t : Instant) (m : DiscoveryManager) :
  reachable default_addr (discovery_new c) t0 t m → table_ok t m.
Proof using MIL.
  induction 1; eauto using add_peer_ok, table_ok_later, mark_connected_ok, mark_disconnected_ok,
    ban_peer_ok, prune_ok.
  intros id p. simpl. by rewrite lookup_empty.
Qed.

(** ** Candidates *)
Definition parsed (kp : array 32 * TrackedPeer) : option (SocketAddr * array 32) :=
  (λ a, (a, kp.1)) <$> socket_addr_parse (Protocol.addr (record kp.2)).

Lemma parsed_Some (id : array 32) (p : TrackedPeer) (a : SocketAddr) (id' : array 32) :
  parsed (id, p) = Some (a, id') ↔ id' = id ∧ socket_addr_parse (Protocol.addr (record p)) = Some a.
Proof. unfold parsed. simpl. rewrite fmap_Some. naive_solver. Qed.

Lemma omap_parsed_ids (l : list (array 32 * TrackedPeer)) : (omap parsed l).*2 `sublist_of` l.*1.
Proof.
  induction l as [|[id p] l IH]; csimpl; [done|].
  destruct (parsed (id, p)) as [[a id']|] eqn:E; csimpl; [|by constructor].
  apply parsed_Some in E as [-> _]. by constructor.
Qed.

Lemma fmap_sublist {A B} (f : A → B) (l1 l2 : list A) :
  l1 `sublist_of` l2 → (f <$> l1) `sublist_of` (f <$> l2).
Proof. induction 1; csimpl; by constructor. Qed.

Lemma length_omap_le {A B} (f : A → option B) (l : list A) : length (omap f l) ≤ length l.
Proof. induction l as [|x l IH]; csimpl; [lia|]. destruct (f x); csimpl; lia. Qed.

Lemma elem_of_candidates (m : DiscoveryManager) (id : array 32) (p : TrackedPeer) :
  (id, p) ∈ shuffle (filter (λ kp, is_candidate m kp.2) (map_iter (peers m))) ↔
  peers m !! id = Some p ∧ is_candidate m p.
Proof using MIL SHL. rewrite shuffle_perm, list_elem_of_filter, elem_of_map_iter. naive_solver. Qed.

Lemma elem_of_peers_to_connect (count : nat) (m : DiscoveryManager) (a : SocketAddr) (id : array 32) :
  (a, id) ∈ peers_to_connect count m →
  ∃ p, peers m !! id = Some p ∧ is_candidate m p ∧ socket_addr_parse (Protocol.addr (record p)) = Some a.
Proof using MIL SHL.
  intros ([id' p] & Hin & [-> Ha]%parsed_Some)%list_elem_of_omap.
  apply elem_of_take in Hin as (i & Hin%list_elem_of_lookup_2 & _). apply elem_of_candidates in Hin. exists p. naive_solver.
Qed.

Lemma is_candidate_spec (t : Instant) (m : DiscoveryManager) (id : array 32) (p : TrackedPeer) :
  peers m !! id = Some p → table_ok t m → is_candidate m p ↔ status p ≠ Connected.
Proof.
  intros Hp Hm. destruct (Hm _ _ Hp) as [Hk Hb Hs _ _]. unfold is_candidate. rewrite Hk.
  rewrite bool_decide_false by done. simpl.
  rewrite !elem_of_cons, elem_of_nil in Hs. destruct (status p); naive_solver.
Qed.

Lemma peers_to_connect_ids (count : nat) (m : DiscoveryManager) :
  NoDup (peers_to_connect count m).*2 ∧ length (peers_to_connect count m) ≤ count.
Proof using MIL SHL.
  unfold peers_to_connect. split.
  - eapply sublist_NoDup; [|apply omap_parsed_ids].
    eapply sublist_NoDup; [|apply fmap_sublist, sublist_take].
    rewrite shuffle_perm. eapply sublist_NoDup; [apply (NoDup_map_iter_keys (peers m))|].
    apply fmap_sublist, sublist_filter.
  - etrans; [apply length_omap_le|]. rewrite length_take. lia.
Qed.

Lemma in_peers_to_connect (count : nat) (m : DiscoveryManager) (a : SocketAddr) (id : array 32)
    (p : TrackedPeer) :
  known_peers_count m ≤ count → peers m !! id = Some p → is_candidate m p →
  socket_addr_parse (Protocol.addr (record p)) = Some a → (a, id) ∈ peers_to_connect count m.
Proof using MIL SHL.
  intros Hcount Hp Hc Ha. unfold peers_to_connect. rewrite take_ge.
  - apply list_elem_of_omap. exists (id, p). split; [|by apply parsed_Some].
    by apply elem_of_candidates.
  - rewrite shuffle_perm. etrans; [apply length_filter|]. rewrite length_map_iter. exact Hcount.
Qed.

(** C18: [peers_to_connect] is a selection of the peers to dial.  It returns at most
    [count] peers, each at most once; each is in the table, not banned, not
    connected, and comes with the address its record holds.  When [count] is at
    least the number of known peers it returns all of these whose address parses. *)
Theorem peers_to_connect_correct (t : Instant) (m : DiscoveryManager) (count : nat) :
  table_ok t m →
  NoDup (peers_to_connect count m).*2 ∧ length (peers_to_connect count m) ≤ count ∧
  (∀ a id, (a, id) ∈ peers_to_connect count m →
     ∃ p, peers m !! id = Some p ∧ (id ∉ banned m) ∧ status p ≠ Connected ∧
       socket_addr_parse (Protocol.addr (record p)) = Some a) ∧
  (known_peers_count m ≤ count → ∀ a id p,
     peers m !! id = Some p → status p ≠ Connected →
     socket_addr_parse (Protocol.addr (record p)) = Some a → (a, id) ∈ peers_to_connect count m).
Proof using MIL SHL.
  intros Hm. destruct (peers_to_connect_ids count m) as [Hnd Hlen].
  split; [done|]. split; [done|]. split.
  - intros a id (p & Hp & Hc & Ha)%elem_of_peers_to_connect. exists p.
    split; [done|]. split; [by apply (Hm _ _ Hp)|]. by rewrite <-is_candidate_spec.
  - intros Hcount a id p Hp Hs Ha. eapply in_peers_to_connect; [done..| |done].
    by eapply is_candidate_spec.
Qed.

(** ** Bans *)
Lemma reachable_banned (m0 : DiscoveryManager) (t0 t : Instant) (m : DiscoveryManager) (id : array 32) :
  reachable default_addr m0 t0 t m →
  id ∈ banned m0 → peers m0 !! id = None → id ∈ banned m ∧ peers m !! id = None.
Proof using MIL.
  clear SHL. intros Hr Hb Hp. induction Hr as [|t now r m _ [IHb IHp]|t now i m _ [IHb IHp]|t now i m _ [IHb IHp]
    |t i reason m _ [IHb IHp]|t now m _ [IHb IHp]]; [done| | | | |].
  - unfold add_peer. case_bool_decide as Hr; [done|].
    assert (Protocol.peer_id r ≠ id) by congruence.
    destruct (negb _); simpl; by rewrite lookup_insert_ne.
  - unfold mark_connected. destruct (peers m !! i) eqn:E; simpl; [|done].
    rewrite lookup_insert_ne; [done|congruence].
  - unfold mark_disconnected. destruct (peers m !! i) eqn:E; simpl; [|done].
    rewrite lookup_insert_ne; [done|congruence].
  - simpl. split; [set_solver|]. rewrite lookup_delete_None. by right.
  - destruct (prune_frame now m) as (_ & -> & _). by rewrite prune_lookup, IHp.
Qed.

(** C4: a ban is permanent.  Once a peer is banned, no later sequence of operations
    (being announced again by another peer, being marked connected, ...) brings it
    back into the table, and [peers_to_connect] never proposes it. *)
Theorem ban_permanent (m m' : DiscoveryManager) (t0 t : Instant) (id : array 32) (reason : string)
    (count : nat) :
  reachable default_addr (ban_peer id reason m) t0 t m' →
  peers m' !! id = None ∧ id ∉ (peers_to_connect count m').*2.
Proof using MIL SHL.
  intros Hr. destruct (reachable_banned _ _ _ _ id Hr) as [Hb Hp]; simpl; [set_solver| |].
  { apply lookup_delete_eq. }
  split; [done|]. intros ([a id'] & -> & Hin)%list_elem_of_fmap. simpl in *.
  apply elem_of_peers_to_connect in Hin as (p & ? & _). congruence.
Qed.

(** ** Adding peers *)
Definition fresh_peer (now : Instant) (r : PeerRecord) : TrackedPeer :=
  mkTrackedPeer r Discovered now now None 0 f64_one.

Lemma add_peer_frame (now : Instant) (r : PeerRecord) (m : DiscoveryManager) :
  config (add_peer default_addr now r m) = config m ∧
  banned (add_peer default_addr now r m) = banned m.
Proof. unfold add_peer. case_bool_decide; [done|]. by destruct (negb _). Qed.

Lemma add_peer_peers (now : Instant) (r : PeerRecord) (m : DiscoveryManager) :
  Protocol.peer_id r ∉ banned m →
  peers (add_peer default_addr now r m) = <[Protocol.peer_id r := fresh_peer now r]> (peers m).
Proof. intros. unfold add_peer. rewrite bool_decide_false by done. by destruct (negb _). Qed.

Lemma add_peers_reachable (m0 : DiscoveryManager) (t0 t : Instant) (clock : nat → Instant)
    (rs : list PeerRecord) (m : DiscoveryManager) :
  reachable default_addr m0 t0 t m → (t ≤ clock 0%nat)%Z → (∀ i, clock i ≤ clock (S i))%Z →
  ∃ t', reachable default_addr m0 t0 t' (add_peers default_addr clock rs m).
Proof.
  revert t clock m. induction rs as [|r rs IH]; intros t clock m Hr Ht Hmono; simpl; [by exists t|].
  apply (IH (clock 0)); [by eapply reach_add_peer|apply Hmono|]. intros i. apply Hmono.
Qed.

Lemma bootstrap_loop_add_peers (clock : nat → Instant) (seeds : list SocketAddr) (m : DiscoveryManager) :
  bootstrap_loop default_addr clock seeds m = add_peers default_addr clock (seed_record <$> seeds) m.
Proof. revert clock m. induction seeds as [|a seeds IH]; intros clock m; simpl; [done|]. apply IH. Qed.

(** Whatever seeds came before, the last one is the entry that stays. *)
Lemma bootstrap_loop_last (clock : nat → Instant) (seeds : list SocketAddr) (a : SocketAddr)
    (m : DiscoveryManager) :
  zeroed 32 ∉ banned m →
  peers (bootstrap_loop default_addr clock (seeds ++ [a]) m) =
  <[zeroed 32 := fresh_peer (clock (length seeds)) (seed_record a)]> (peers m).
Proof.
  revert clock m. induction seeds as [|b seeds IH]; intros clock m Hb; cbn [app bootstrap_loop length].
  { by rewrite add_peer_peers. }
  destruct (add_peer_frame (clock 0) (seed_record b) m) as [_ Hb'].
  rewrite IH by (by rewrite Hb'). rewrite add_peer_peers by done. apply insert_insert_eq.
Qed.

(** Bootstrapping keeps only the last seed.  All seeds are filed under the
    identity [[0; 32]], so of the configured bootstrap peers exactly the last one is in
    the table afterwards, the rest of the table is as before, and the table grew by
    at most one entry however many seeds there are. *)
Theorem bootstrap_keeps_last_seed (clock : nat → Instant) (m : DiscoveryManager)
    (seeds : list SocketAddr) (a : SocketAddr) :
  zeroed 32 ∉ banned m → bootstrap_peers (config m) = seeds ++ [a] →
  peers (bootstrap default_addr clock m) =
    <[zeroed 32 := fresh_peer (clock (length seeds)) (seed_record a)]> (peers m) ∧
  known_peers_count (bootstrap default_addr clock m) ≤ known_peers_count m + 1.
Proof.
  intros Hb Hseeds. unfold known_peers_count, bootstrap. rewrite Hseeds.
  rewrite bootstrap_loop_last by done. split; [done|].
  destruct (peers m !! zeroed 32) eqn:E.
  - rewrite map_size_insert_Some by done. lia.
  - rewrite map_size_insert_None by done. lia.
Qed.

(** After bootstrapping a new manager, what the text of the last seed denotes is all there
    is to dial. *)
Lemma bootstrap_new_candidates (clock : nat → Instant) (c : DiscoveryConfig)
    (seeds : list SocketAddr) (a a' : SocketAddr) (count : nat) :
  bootstrap_peers c = seeds ++ [a] → 0 < count → socket_addr_parse (socket_addr_to_string a) = Some a' →
  peers_to_connect count (bootstrap default_addr clock (discovery_new c)) = [(a', zeroed 32)].
Proof using MIL SHL.
  intros Hseeds Hcount Ha. unfold peers_to_connect, bootstrap. cbn [discovery_new config]. rewrite Hseeds.
  rewrite bootstrap_loop_last by (simpl; set_solver).
  cbn [discovery_new peers]. rewrite insert_empty.
  set (p := fresh_peer _ _). set (m := bootstrap_loop _ _ _ _).
  assert (map_iter {[zeroed 32 := p]} = [(zeroed 32, p)]) as ->.
  { apply Permutation_singleton_r. by rewrite map_iter_perm, map_to_list_singleton. }
  assert (is_candidate m p) as Hc.
  { unfold is_candidate. simpl. unfold m. rewrite bootstrap_loop_add_peers.
    assert (∀ rs clock' m', banned (add_peers default_addr clock' rs m') = banned m') as ->.
    { intros rs. induction rs as [|r rs IH]; intros clock' m'; simpl; [done|].
      rewrite IH. apply add_peer_frame. }
    simpl. by rewrite bool_decide_false by set_solver. }
  rewrite filter_cons_True by done. rewrite filter_nil.
  assert (shuffle [(zeroed 32, p)] = [(zeroed 32, p)]) as ->.
  { apply Permutation_singleton_r. apply shuffle_perm. }
  destruct count as [|count]; [lia|]. cbn [take omap list_omap]. simpl.
  rewrite Ha. simpl. by rewrite take_nil.
Qed.

(** The size of the table has no bound.  Announced peers with distinct, new and
    unbanned identities are all taken, each adding one entry, whatever
    [max_peers] of the configuration is. *)
Theorem add_peers_unbounded (clock : nat → Instant) (rs : list PeerRecord) (m : DiscoveryManager) :
  NoDup (Protocol.peer_id <$> rs) →
  (∀ r, r ∈ rs → (Protocol.peer_id r ∉ banned m) ∧ peers m !! Protocol.peer_id r = None) →
  known_peers_count (add_peers default_addr clock rs m) = known_peers_count m + length rs.
Proof.
  revert clock m. induction rs as [|r rs IH]; intros clock m Hnd Hnew; simpl; [lia|].
  apply NoDup_cons in Hnd as [Hr Hnd]. destruct (Hnew r) as [Hb Hp]; [elem_list|].
  destruct (add_peer_frame (clock 0) r m) as [_ Hban].
  rewrite IH; [|done|].
  - unfold known_peers_count. rewrite add_peer_peers by done.
    rewrite map_size_insert_None by done. lia.
  - intros r' Hr'. destruct (Hnew r') as [Hb' Hp']; [elem_list|]. rewrite Hban.
    split; [done|]. rewrite add_peer_peers by done. rewrite lookup_insert_ne; [done|].
    intros He. apply Hr. rewrite He. by apply list_elem_of_fmap_2.
Qed.

(** ** Peer exchange *)
Lemma elem_of_connected (m : DiscoveryManager) (r : PeerRecord) :
  r ∈ connected_peers m ↔ ∃ id p, peers m !! id = Some p ∧ status p = Connected ∧ record p = r.
Proof using MIL.
  unfold connected_peers. rewrite list_elem_of_fmap. split.
  - intros ([id p] & -> & [Hs Hin%elem_of_map_iter]%list_elem_of_filter). by exists id, p.
  - intros (id & p & Hp & Hs & <-). exists (id, p). split; [done|].
    apply list_elem_of_filter. split; [done|]. by apply elem_of_map_iter.
Qed.

(** Peer exchange shares connected peers only: [peer_exchange_subset] returns
    [count] of the connected peers, or all of them if there are fewer. *)
Theorem peer_exchange_correct (count : nat) (m : DiscoveryManager) :
  length (peer_exchange_subset count m) = count `min` connected_count m ∧
  (∃ others, peer_exchange_subset count m ++ others ≡ₚ connected_peers m) ∧
  ∀ r, r ∈ peer_exchange_subset count m →
    ∃ id p, peers m !! id = Some p ∧ status p = Connected ∧ record p = r.
Proof using MIL SHL.
  set (others := drop count (shuffle (connected_peers m))).
  assert (peer_exchange_subset count m ++ others ≡ₚ connected_peers m) as Hperm.
  { unfold peer_exchange_subset, others. rewrite take_drop. apply shuffle_perm. }
  split; [|split; [by exists others|]].
  - unfold peer_exchange_subset, connected_count. rewrite length_take. by rewrite shuffle_perm.
  - intros r Hr. apply elem_of_connected. rewrite <-Hperm. elem_list.
Qed.

(** An announcement forgets a connection.  [add_peer] of the record of a peer that
    is connected files it as newly discovered: it no longer counts as connected, and
    it is again proposed for dialling. *)
Theorem add_peer_forgets_connection (t now : Instant) (r : PeerRecord) (m : DiscoveryManager)
    (p : TrackedPeer) (count : nat) :
  table_ok t m → peers m !! Protocol.peer_id r = Some p → status p = Connected →
  (t ≤ now)%Z → known_peers_count m ≤ count → is_Some (socket_addr_parse (Protocol.addr r)) →
  peers (add_peer default_addr now r m) !! Protocol.peer_id r = Some (fresh_peer now r) ∧
  (Protocol.peer_id r ∉ (peers_to_connect count m).*2) ∧
  Protocol.peer_id r ∈ (peers_to_connect count (add_peer default_addr now r m)).*2.
Proof using MIL SHL.
  intros Hm Hp Hs Ht Hcount [a Ha]. destruct (Hm _ _ Hp) as [_ Hb _ _ _].
  assert (table_ok now (add_peer default_addr now r m)) as Hm'.
  { apply add_peer_ok. by apply (table_ok_later t). }
  assert (peers (add_peer default_addr now r m) !! Protocol.peer_id r = Some (fresh_peer now r)) as Hp'.
  { rewrite add_peer_peers by done. apply lookup_insert_eq. }
  split; [done|]. split.
  - intros ([a' id] & Hid & Hin)%list_elem_of_fmap. simpl in Hid. subst id.
    apply elem_of_peers_to_connect in Hin as (q & Hq & Hc & _). simplify_eq.
    rewrite (is_candidate_spec t) in Hc by done. done.
  - apply list_elem_of_fmap. exists (a, Protocol.peer_id r). split; [done|].
    eapply in_peers_to_connect; [|done|by rewrite (is_candidate_spec now)|done].
    unfold known_peers_count. rewrite add_peer_peers by done.
    by rewrite map_size_insert_Some by (by eexists).
Qed.

End Theorems.

(** * A concrete network

    IPv4 addresses, the order of the model's own maps, and a shuffle that reverses. *)
Section Sample.

#[local] Existing Instance map_iter_default.
#[local] Instance sample_shuffle : Shuffle := @reverse.
#[local] Instance sample_shuffle_laws : ShuffleLaws.
Proof. intros A l. apply reverse_Permutation. Qed.
#[local] Instance sample_iter_laws : MapIterLaws (array 32).
Proof. intros V m. reflexivity. Qed.

Definition sample_addr (n : byte) : SocketAddr := mkSocketAddrV4 x0a x00 x00 n x68 x20.
Definition sample_id (b : byte) : array 32 := filled 32 b.
Definition sample_record (b : byte) : PeerRecord :=
  mkPeerRecord (sample_id b) (socket_addr_to_string (sample_addr b)) (zeroed 32) default_capabilities f64_half.

(** A limit of one peer, two seeds. *)
Definition sample_config : DiscoveryConfig :=
  mkDiscoveryConfig [sample_addr x01; sample_addr x02] 1 0%Z 0%Z 1000%Z 1.
Definition sample_default : SocketAddr := mkSocketAddrV4 x00 x00 x00 x00 x00 x00.

Definition one_peer : DiscoveryManager := add_peer sample_default 5 (sample_record x07) (discovery_new sample_config).

Lemma one_peer_reachable : reachable sample_default (discovery_new sample_config) 0 5 one_peer.
Proof. eapply reach_add_peer; [apply reach_start|lia]. Qed.

Lemma one_peer_peers : peers one_peer = {[sample_id x07 := fresh_peer 5 (sample_record x07)]}.
Proof. unfold one_peer. rewrite add_peer_peers; [done|]. simpl. set_solver. Qed.

Lemma discovery_invariant_witness :
  table_ok 6 (mark_connected 6 (sample_id x07) one_peer).
Proof.
  apply (discovery_invariant sample_default sample_config 0).
  eapply reach_mark_connected; [exact one_peer_reachable|lia].
Defined.

Lemma ban_permanent_witness :
  let m := add_peer sample_default 9 (sample_record x07) (ban_peer (sample_id x07) "spam" one_peer) in
  peers m !! sample_id x07 = None ∧ sample_id x07 ∉ (peers_to_connect 3 m).*2.
Proof.
  apply (ban_permanent sample_default one_peer _ 5 9 (sample_id x07) "spam" 3).
  eapply reach_add_peer; [apply reach_start|lia].
Defined.

Lemma peers_to_connect_correct_witness :
  (sample_addr x07, sample_id x07) ∈ peers_to_connect 1 one_peer ∧ length (peers_to_connect 1 one_peer) ≤ 1.
Proof.
  destruct (peers_to_connect_correct 5 one_peer 1) as (_ & Hlen & _ & Hall).
  - apply add_peer_ok. intros id p. simpl. by rewrite lookup_empty.
  - split; [|exact Hlen]. apply (Hall) with (fresh_peer 5 (sample_record x07)).
    + unfold known_peers_count. rewrite one_peer_peers. by rewrite map_size_singleton.
    + rewrite one_peer_peers. apply lookup_singleton_eq.
    + discriminate.
    + apply v4_parse_to_string.
Defined.

Lemma prune_exact_witness :
  peers (prune_stale_peers 2000 one_peer) =
  filter (λ kp, status kp.2 = Connected ∨ 2000 - last_seen kp.2 ≤ 1000)%Z (peers one_peer).
Proof. rewrite (prune_exact 2000 one_peer); [reflexivity|]. vm_compute. discriminate. Defined.

Lemma bootstrap_keeps_last_seed_witness :
  peers (bootstrap sample_default (λ i, Z.of_nat i) (discovery_new sample_config)) =
  {[zeroed 32 := fresh_peer 1 (seed_record (sample_addr x02))]}.
Proof.
  destruct (bootstrap_keeps_last_seed sample_default (λ i, Z.of_nat i) (discovery_new sample_config)
    [sample_addr x01] (sample_addr x02)) as [H _]; [simpl; set_solver|reflexivity|exact H].
Defined.

Lemma add_peers_unbounded_witness :
  max_peers sample_config = 1 ∧
  known_peers_count (add_peers sample_default (λ _, 5%Z) [sample_record x07; sample_record x08]
    (discovery_new sample_config)) = 2.
Proof.
  split; [reflexivity|].
  rewrite (add_peers_unbounded sample_default (λ _, 5%Z) [sample_record x07; sample_record x08]
    (discovery_new sample_config)); [reflexivity| |].
  - simpl. apply NoDup_cons. split; [|apply NoDup_singleton]. rewrite list_elem_of_singleton.
    intros H%(f_equal abytes). discriminate H.
  - intros r _. simpl. split; [set_solver|apply lookup_empty].
Defined.

Lemma add_peer_forgets_connection_witness :
  let m := mark_connected 6 (sample_id x07) one_peer in
  (sample_id x07 ∉ (peers_to_connect 1 m).*2) ∧
  sample_id x07 ∈ (peers_to_connect 1 (add_peer sample_default 7 (sample_record x07) m)).*2.
Proof.
  intros m.
  assert (peers m = {[sample_id x07 := mkTrackedPeer (sample_record x07) Connected 5 6 None 0 f64_one]}) as Hps.
  { unfold m, mark_connected. rewrite one_peer_peers, lookup_singleton_eq. apply insert_singleton_eq. }
  destruct (add_peer_forgets_connection sample_default 6 7 (sample_record x07) m
    (mkTrackedPeer (sample_record x07) Connected 5 6 None 0 f64_one) 1) as (_ & H1 & H2).
  - apply (mark_connected_ok 5); [lia|]. apply add_peer_ok. intros id p. simpl. by rewrite lookup_empty.
  - rewrite Hps. apply lookup_singleton_eq.
  - reflexivity.
  - lia.
  - unfold known_peers_count. rewrite Hps. by rewrite map_size_singleton.
  - eexists. apply v4_parse_to_string.
  - split; [exact H1|exact H2].
Defined.

End Sample.
