(* ===== verification/P2P.v ===== *)
(** The peer-to-peer layer (src/node/p2p/src/lib.rs): the manager that owns a transport
    and a discovery table and drives both.  An operation holds the lock it takes to its end
    and is one transition of the manager; [start] takes two locks one after the other, and its
    two critical sections are transitions of their own.  What the network
    answers to the connection attempts, and the instants the clock gives, are
    arguments of the operations. *)
From S2P Require Import Prelude Net Events Protocol Transport Discovery.

Record PeerInfo `{SocketAddrOps} := mkPeerInfo {
  id : array 32;
  addr : SocketAddr;
  public_key : array 32;
  agent_version : string;
  latest_height : Z;
  is_validator : bool;
  connected_since : Instant;
  score : f64;
}.

Record P2PConfig `{SocketAddrOps} := mkP2PConfig {
  listen_addr : SocketAddr;
  external_addr : option SocketAddr;
  bootstrap_peers : list SocketAddr;
  max_peers : nat;
  gossip_fanout : nat;
  heartbeat_interval : Duration;
  dial_timeout : Duration;
}.
Arguments mkP2PConfig {_}.

Definition default_p2p_config `{SocketAddrOps} : exec P2PConfig :=
  listen_addr ← or_panic (socket_addr_parse "0.0.0.0:26656");
  Ret (mkP2PConfig listen_addr None [] 50 8 (from_secs 10) (from_secs 5)).

Inductive P2PEvent `{SocketAddrOps} :=
| PeerConnected (id : array 32) (a : SocketAddr)
| PeerDisconnected (id : array 32)
| MessageReceived (msg : P2PMessage)
| Heartbeat.

(** The two [From<P2PConfig>]: the remaining fields come from [Default::default()]. *)
Definition transport_config_from `{SocketAddrOps} (c : P2PConfig) : exec TransportConfig :=
  d ← default_transport_config;
  Ret (mkTransportConfig (listen_addr c) (dial_timeout c) (handshake_timeout d)
         (max_message_size d) (enable_encryption d)).

Definition discovery_config_from `{SocketAddrOps} (c : P2PConfig) : DiscoveryConfig :=
  let d := default_discovery_config in
  mkDiscoveryConfig (bootstrap_peers c) (max_peers c) (bootstrap_interval d) (pex_interval d)
    (peer_timeout d) (target_outgoing d).

Section Operations.
Context `{SA : SocketAddrOps} `{NET : NetOps} {MI : MapIter (array 32)} `{SH : Shuffle}.
Context (default_addr : SocketAddr).

Record P2PManager := mkP2PManager {
  config : P2PConfig;
  transport : TransportManager;
  discovery : DiscoveryManager;
  peers : gmap (array 32) PeerInfo;
  event_tx : list P2PEvent;
  message_tx : list (P2PMessage * array 32);
}.

Definition p2p_new (c : P2PConfig) : exec P2PManager :=
  transport_config ← transport_config_from c;
  let transport := transport_new transport_config in
  let discovery := discovery_new (discovery_config_from c) in
  Ret (mkP2PManager c transport discovery ∅ [] []).

Definition set_transport (t : TransportManager) (m : P2PManager) : P2PManager :=
  mkP2PManager (config m) t (discovery m) (peers m) (event_tx m) (message_tx m).

Definition set_discovery (d : DiscoveryManager) (m : P2PManager) : P2PManager :=
  mkP2PManager (config m) (transport m) d (peers m) (event_tx m) (message_tx m).

(** What a connection attempt to an address yields; [connect i] is the [i]-th attempt. *)
Definition attempts : Type := nat → SocketAddr → Result (Result TcpStream string) string.

(** The loop of [start]: a failed [dial] is logged and the loop goes on. *)
Fixpoint dial_all (connect : attempts) (targets : list (SocketAddr * array 32)) (t : TransportManager)
    : TransportManager :=
  match targets with
  | [] => t
  | (a, _) :: targets => dial_all (λ i, connect (S i)) targets (dial a (connect 0 a) t).1
  end.

(** The section of [start] that holds the lock of the discovery table. *)
Definition start_bootstrap (clock : nat → Instant) (m : P2PManager)
    : P2PManager * list (SocketAddr * array 32) :=
  let discovery := bootstrap default_addr clock (discovery m) in
  let peers_to_connect := peers_to_connect (max_peers (config m)) discovery in
  (set_discovery discovery m, peers_to_connect).

(** The section of [start] that holds the lock of the transport. *)
Definition start_dial (connect : attempts) (targets : list (SocketAddr * array 32)) (m : P2PManager) : P2PManager :=
  set_transport (dial_all connect targets (transport m)) m.

Definition start (clock : nat → Instant) (connect : attempts) (m : P2PManager)
    : P2PManager * Result unit string :=
  let '(m, peers_to_connect) := start_bootstrap clock m in
  (start_dial connect peers_to_connect m, Ok tt).

Definition dial_peer (a : SocketAddr) (attempt : Result (Result TcpStream string) string) (m : P2PManager)
    : P2PManager * Result unit string :=
  let '(transport, r) := dial a attempt (transport m) in
  (set_transport transport m, and_then (map_err (λ e, e) r) (λ _, Ok tt)).

Definition broadcast (msg : P2PMessage) (m : P2PManager) : P2PManager :=
  set_transport (Transport.broadcast msg (transport m)) m.

Definition send_to (msg : P2PMessage) (peer_id : array 32) (m : P2PManager) : P2PManager :=
  set_transport (send peer_id msg (transport m)).1 m.

Definition p2p_subscribe (m : P2PManager) : Receiver := subscribe (event_tx m).

Definition peer_count (m : P2PManager) : nat := active_connections (transport m).

Definition peer_list (m : P2PManager) : list PeerInfo := (map_iter (peers m)).*2.

(** The calls a client makes; a [start] with calls of other tasks between its sections is
    its two sections, the second with the targets that the first selected. *)
Inductive call :=
| CallStart (clock : nat → Instant) (connect : attempts)
| CallBootstrap (clock : nat → Instant)
| CallDialAll (connect : attempts) (targets : list (SocketAddr * array 32))
| CallDial (a : SocketAddr) (attempt : Result (Result TcpStream string) string)
| CallBroadcast (msg : P2PMessage)
| CallSend (msg : P2PMessage) (peer_id : array 32).

Definition run_call (c : call) (m : P2PManager) : P2PManager :=
  match c with
  | CallStart clock connect => (start clock connect m).1
  | CallBootstrap clock => (start_bootstrap clock m).1
  | CallDialAll connect targets => start_dial connect targets m
  | CallDial a attempt => (dial_peer a attempt m).1
  | CallBroadcast msg => broadcast msg m
  | CallSend msg peer_id => send_to msg peer_id m
  end.

End Operations.

(** * Theorems *)
Section Theorems.
Context `{SA : SocketAddrOps} `{NET : NetOps} {MI : MapIter (array 32)} `{SH : Shuffle}.
Context {MIL : MapIterLaws (array 32)} {SHL : ShuffleLaws}.
Context (default_addr : SocketAddr).

Lemma p2p_new_Ret (c : P2PConfig) (m : P2PManager) :
  p2p_new c = Ret m →
  ∃ tc, transport_config_from c = Ret tc ∧
    m = mkP2PManager c (transport_new tc) (discovery_new (discovery_config_from c)) ∅ [] [].
Proof. unfold p2p_new. intros (tc & Htc & [= <-])%exec_bind_Ret. by exists tc. Qed.

(** C34: starting the layer dials the last seed only.  On a new manager whose
    configuration names at least one bootstrap peer and allows at least one peer,
    [start] makes exactly one connection attempt, to the address that the text of the last
    bootstrap peer denotes, leaves the transport as that attempt does, and succeeds whatever
    its outcome.  That address is the last bootstrap peer's, if it was read from text (the
    text of an IPv6 address leaves out its flow information). *)
Theorem start_dials_last_seed `{SAL : !SocketAddrLaws} (c : P2PConfig) (m : P2PManager)
    (clock : nat → Instant) (connect : attempts) (seeds : list SocketAddr) (a : SocketAddr) :
  p2p_new c = Ret m → bootstrap_peers c = seeds ++ [a] → 0 < max_peers c →
  ∃ a', socket_addr_parse (socket_addr_to_string a) = Some a' ∧
    start default_addr clock connect m =
      (set_transport (dial a' (connect 0 a') (transport m)).1
         (set_discovery (bootstrap default_addr clock (discovery m)) m), Ok tt) ∧
    ((∃ text, socket_addr_parse text = Some a) → a' = a).
Proof using MIL SHL.
  intros (tc & _ & ->)%p2p_new_Ret Hseeds Hmax. destruct (socket_addr_printed a) as [a' Ha].
  exists a'. split; [done|]. split.
  - unfold start, start_bootstrap. cbn [discovery config]. by rewrite (bootstrap_new_candidates _ _ _ seeds a a').
  - intros [text Ht%socket_addr_reparse]. congruence.
Qed.

(** ** What no sequence of calls changes *)
Record p2p_ok (m : P2PManager) : Prop := {
  ok_transport : placeholder_only (transport m);
  ok_discovery : ∀ i, is_Some (Discovery.peers (discovery m) !! i) → i = zeroed 32;
  ok_peers : peers m = ∅;
}.

Lemma dial_all_placeholder (connect : attempts) (targets : list (SocketAddr * array 32))
    (t : TransportManager) :
  placeholder_only t → placeholder_only (dial_all connect targets t).
Proof.
  revert connect t. induction targets as [|[a i] targets IH]; intros connect t Ht; simpl; [done|].
  apply IH. by apply (run_placeholder_only (Dial a (connect 0 a))).
Qed.

Lemma bootstrap_loop_ids (clock : nat → Instant) (seeds : list SocketAddr) (d : DiscoveryManager) :
  (∀ i, is_Some (Discovery.peers d !! i) → i = zeroed 32) →
  ∀ i, is_Some (Discovery.peers (bootstrap_loop default_addr clock seeds d) !! i) → i = zeroed 32.
Proof.
  revert clock d. induction seeds as [|a seeds IH]; intros clock d Hd; cbn [bootstrap_loop]; [done|].
  apply IH. intros i. destruct (decide (zeroed 32 ∈ banned d)) as [Hb|Hb].
  - unfold add_peer. rewrite bool_decide_true by done. apply Hd.
  - rewrite add_peer_peers by done. rewrite lookup_insert_is_Some. intros [<-|[_ ?]]; auto.
Qed.

Lemma run_call_ok (c : call) (m : P2PManager) : p2p_ok m → p2p_ok (run_call default_addr c m).
Proof.
  intros [Ht Hd Hp]. destruct c as [clock connect|clock|connect targets|a attempt|msg|msg i]; simpl.
  - constructor; simpl; [by apply dial_all_placeholder|by apply bootstrap_loop_ids|done].
  - constructor; simpl; [done|by apply bootstrap_loop_ids|done].
  - constructor; simpl; [by apply dial_all_placeholder|done|done].
  - unfold dial_peer. destruct (dial a attempt (transport m)) as [t r] eqn:E.
    constructor; simpl; [|done..]. replace t with (dial a attempt (transport m)).1 by (by rewrite E).
    by apply (run_placeholder_only (Dial a attempt)).
  - constructor; simpl; [|done..]. by apply (run_placeholder_only (Broadcast msg)).
  - constructor; simpl; [|done..]. by apply (run_placeholder_only (Send i msg)).
Qed.

Lemma run_calls_ok (cs : list call) (m : P2PManager) :
  p2p_ok m → p2p_ok (foldl (λ m c, run_call default_addr c m) m cs).
Proof. revert m. induction cs as [|c cs IH]; intros m Hm; simpl; [done|]. by apply IH, run_call_ok. Qed.

(** C35: the layer never knows more than one peer.  After any sequence of calls on a
    new manager, also with calls between the two sections of a [start], whatever the
    network answers: at most one connection is open, at most
    one peer is in the discovery table, and [peer_list] is empty, connected peers
    or not, because nothing enters the table it reads. *)
Theorem p2p_at_most_one_peer (c : P2PConfig) (m0 : P2PManager) (cs : list call) :
  p2p_new c = Ret m0 →
  let m := foldl (λ m c, run_call default_addr c m) m0 cs in
  peer_count m ≤ 1 ∧ known_peers_count (discovery m) ≤ 1 ∧ peer_list m = [].
Proof using MIL.
  intros (tc & _ & ->)%p2p_new_Ret m.
  assert (p2p_ok m) as [Ht Hd Hp].
  { apply run_calls_ok. constructor; simpl; [|intros i|done].
    - intros i. simpl. rewrite lookup_empty. by intros [??].
    - rewrite lookup_empty. by intros [??]. }
  split; [by apply placeholder_only_size|]. split.
  - unfold known_peers_count. assert (dom (Discovery.peers (discovery m)) ⊆ {[zeroed 32]}) as Hsub.
    { intros i Hi. apply elem_of_dom in Hi. rewrite (Hd i Hi). set_solver. }
    rewrite <-size_dom. apply subseteq_size in Hsub. by rewrite size_singleton in Hsub.
  - unfold peer_list. rewrite Hp. assert (map_iter (∅ : gmap (array 32) PeerInfo) = []) as ->; [|done].
    apply Permutation_nil_r. by rewrite map_iter_perm, map_to_list_empty.
Qed.

End Theorems.

(** * A node with two seeds *)
Section Sample.

#[local] Existing Instance map_iter_default.
#[local] Existing Instance sample_shuffle.
#[local] Existing Instance sample_shuffle_laws.
#[local] Existing Instance sample_iter_laws.
#[local] Existing Instance sample_net.

Definition sample_p2p_config : P2PConfig :=
  mkP2PConfig sample_default None [sample_addr x01; sample_addr x02] 50 8 10000 5000.
Definition sample_p2p : P2PManager :=
  mkP2PManager sample_p2p_config
    (transport_new (mkTransportConfig sample_default 5000 3000 10485760 true))
    (discovery_new (discovery_config_from sample_p2p_config)) ∅ [] [].
(** Every attempt gives a fresh stream. *)
Definition sample_connect : attempts := λ _ _, Ok (Ok []).

Lemma sample_p2p_new : p2p_new sample_p2p_config = Ret sample_p2p.
Proof. reflexivity. Qed.

Lemma start_dials_last_seed_witness :
  Transport.event_tx (transport (start sample_default (λ _, 0%Z) sample_connect sample_p2p).1) =
  [ConnectionEstablished (zeroed 32) (sample_addr x02)].
Proof.
  destruct (start_dials_last_seed sample_default sample_p2p_config sample_p2p (λ _, 0%Z) sample_connect
    [sample_addr x01] (sample_addr x02) sample_p2p_new eq_refl) as (a' & _ & -> & Ha); [simpl; lia|].
  rewrite Ha by (exists (socket_addr_to_string (sample_addr x02)); apply v4_parse_to_string). reflexivity.
Defined.

Lemma p2p_at_most_one_peer_witness :
  let m := foldl (λ m c, run_call sample_default c m) sample_p2p
    [CallStart (λ _, 0%Z) sample_connect; CallBootstrap (λ _, 0%Z); CallDial (sample_addr x07) (Ok (Ok []))] in
  peer_count m ≤ 1 ∧ known_peers_count (discovery m) ≤ 1 ∧ peer_list m = [].
Proof. apply (p2p_at_most_one_peer sample_default sample_p2p_config), sample_p2p_new. Defined.

End Sample.
