(* ===== verification/NodeCore.v ===== *)
(** The node core crate's data (src/node/node-core/src/{lib,config,error,metrics}.rs):
    identifiers, block heights, status, configuration with its validation, errors, and
    the metrics counters.  The runtime is in Runtime.v.  The log crate's
    [LevelFilter] is a parameter.  Paths are text, with Unix separators. *)
From stdpp Require Import pretty.
From S2P Require Import Prelude Net Protocol.

(** * Types (lib.rs) *)
Definition NodeId : Type := array 20.

Definition node_id_from_bytes (bytes : list byte) : NodeId := copy_prefix 20 bytes.

(** A block height is a [u64]. *)
Definition BlockHeight : Type := Z.
Definition GENESIS : BlockHeight := 0%Z.
Definition increment (p : profile) (h : BlockHeight) : exec BlockHeight := u64_add p h 1.

Definition block_height_display (h : BlockHeight) : string := pretty h.

Inductive SyncStatus :=
| Booting
| Syncing (current_height target_height : BlockHeight)
| InSync
| Stalled.

Definition sync_status_display (s : SyncStatus) : string :=
  match s with
  | Booting => "Booting"
  | Syncing current target =>
      "Syncing (" +:+ block_height_display current +:+ "/" +:+ block_height_display target +:+ ")"
  | InSync => "In Sync"
  | Stalled => "Stalled"
  end.

Record NodeInfo := mkNodeInfo {
  info_node_id : NodeId;
  info_version : string;
  uptime_secs : Z;
  info_sync_status : SyncStatus;
  latest_block_height : BlockHeight;
  peer_count : nat;
  is_validator : bool;
}.

Inductive NodeEvent `{SocketAddrOps} :=
| Started
| ShuttingDown (reason : string)
| SyncedToTip (h : BlockHeight)
| BlockCommitted (h : BlockHeight)
| RoundStarted (round : Z)
| PeerConnected (id : NodeId) (a : SocketAddr)
| PeerDisconnected (id : NodeId)
| Error (msg : string)
| MetricsTick.

Record NodeMetrics := mkNodeMetrics {
  blocks_received : Z;
  blocks_proposed : Z;
  transactions_processed : Z;
  peers_connected : Z;
  mempool_size : Z;
  cpu_usage : f64;
  memory_usage_bytes : Z;
  network_bytes_in : Z;
  network_bytes_out : Z;
}.

(** [0.0] has the bit pattern 0. *)
Definition default_metrics : NodeMetrics := mkNodeMetrics 0 0 0 0 0 0%Z 0 0 0.

(** * Errors (error.rs) *)
Inductive NodeError :=
| Config (msg : string)
| Init (msg : string)
| Network (msg : string)
| Consensus (msg : string)
| Storage (msg : string)
| Sync (msg : string)
| Runtime (msg : string)
| Io (msg : string).

Definition node_error_display (e : NodeError) : string :=
  match e with
  | Config msg => "Config error: " +:+ msg
  | Init msg => "Init error: " +:+ msg
  | Network msg => "Network error: " +:+ msg
  | Consensus msg => "Consensus error: " +:+ msg
  | Storage msg => "Storage error: " +:+ msg
  | Sync msg => "Sync error: " +:+ msg
  | Runtime msg => "Runtime error: " +:+ msg
  | Io msg => "IO error: " +:+ msg
  end.

Definition node_error_from_string (msg : string) : NodeError := Runtime msg.

(** An [std::io::Error] is known by its text. *)
Definition node_error_from_io (err : string) : NodeError := Io err.

(** * Configuration (config.rs) *)
Class LogOps := { LevelFilter : Type; Info : LevelFilter }.

Definition PathBuf : Type := string.

Fixpoint ends_with_slash (s : string) : bool :=
  match s with
  | EmptyString => false
  | String c EmptyString => bool_decide (c = Ascii.ascii_of_nat 47)
  | String _ s => ends_with_slash s
  end.

Definition is_absolute (p : PathBuf) : bool :=
  match p with
  | String c _ => bool_decide (c = Ascii.ascii_of_nat 47)
  | EmptyString => false
  end.

(** [Path::join]: an absolute path replaces, a relative one is appended, after a
    separator unless there is one or nothing before it. *)
Definition path_join (base p : PathBuf) : PathBuf :=
  if is_absolute p then p
  else if bool_decide (base = EmptyString) || ends_with_slash base then base +:+ p
  else base +:+ "/" +:+ p.

Section Configuration.
Context `{SA : SocketAddrOps} `{LOG : LogOps}.

Record NodeConfig := mkNodeConfig {
  listen_addr : SocketAddr;
  external_addr : option SocketAddr;
  bootstrap_peers : list SocketAddr;
  max_peers : nat;
  chain_id : string;
  genesis_path : PathBuf;
  data_dir : PathBuf;
  validator_key_path : option PathBuf;
  consensus_timeout_propose : Z;
  consensus_timeout_prevote : Z;
  consensus_timeout_precommit : Z;
  db_path : PathBuf;
  max_block_size_bytes : Z;
  prune_after_blocks : option Z;
  rpc_addr : SocketAddr;
  rpc_enabled : bool;
  ws_enabled : bool;
  log_level : LevelFilter;
  log_file : option PathBuf;
}.

(** Durations in milliseconds. *)
Definition default_node_config : exec NodeConfig :=
  listen ← or_panic (socket_addr_parse "0.0.0.0:26656");
  rpc ← or_panic (socket_addr_parse "127.0.0.1:26657");
  Ret {|
    listen_addr := listen;
    external_addr := None;
    bootstrap_peers := [];
    max_peers := 50;
    chain_id := "crypto-coin-mainnet-1";
    genesis_path := "genesis.json";
    data_dir := "data";
    validator_key_path := None;
    consensus_timeout_propose := 3000;
    consensus_timeout_prevote := 1000;
    consensus_timeout_precommit := 1000;
    db_path := "data/blockchain.db";
    max_block_size_bytes := 2 * 1024 * 1024;
    prune_after_blocks := Some 100000%Z;
    rpc_addr := rpc;
    rpc_enabled := true;
    ws_enabled := true;
    log_level := Info;
    log_file := None;
  |}.

Definition test_config (dir : string) : exec NodeConfig :=
  d ← default_node_config;
  Ret {|
    listen_addr := listen_addr d;
    external_addr := external_addr d;
    bootstrap_peers := bootstrap_peers d;
    max_peers := max_peers d;
    chain_id := chain_id d;
    genesis_path := path_join dir "genesis.json";
    data_dir := dir;
    validator_key_path := validator_key_path d;
    consensus_timeout_propose := consensus_timeout_propose d;
    consensus_timeout_prevote := consensus_timeout_prevote d;
    consensus_timeout_precommit := consensus_timeout_precommit d;
    db_path := path_join dir "blockchain.db";
    max_block_size_bytes := max_block_size_bytes d;
    prune_after_blocks := prune_after_blocks d;
    rpc_addr := rpc_addr d;
    rpc_enabled := rpc_enabled d;
    ws_enabled := ws_enabled d;
    log_level := log_level d;
    log_file := log_file d;
  |}.

Definition validate (c : NodeConfig) : Result unit string :=
  if bool_decide (chain_id c = EmptyString) then Err "chain_id must not be empty"
  else if bool_decide (max_peers c = 0) then Err "max_peers must be > 0"
  else if bool_decide (max_block_size_bytes c = 0%Z) then Err "max_block_size_bytes must be > 0"
  else Ok tt.

End Configuration.
Arguments NodeConfig {_ _}.

(** * Metrics (metrics.rs)

    The collector's methods take the write lock for their whole body, so each is one
    transition of the shared [NodeMetrics].  [+=] panics on overflow in a development
    build and wraps in a release build. *)
Record MetricsCollector := mkMetricsCollector {
  metrics : NodeMetrics;
  started_at : Z;
}.

Definition metrics_collector_new (m : NodeMetrics) (now : Z) : MetricsCollector :=
  mkMetricsCollector m now.

Definition record_block_received (p : profile) (m : NodeMetrics) : exec NodeMetrics :=
  n ← u64_add p (blocks_received m) 1;
  Ret (mkNodeMetrics n (blocks_proposed m) (transactions_processed m) (peers_connected m) (mempool_size m)
    (cpu_usage m) (memory_usage_bytes m) (network_bytes_in m) (network_bytes_out m)).

Definition record_block_proposed (p : profile) (m : NodeMetrics) : exec NodeMetrics :=
  n ← u64_add p (blocks_proposed m) 1;
  Ret (mkNodeMetrics (blocks_received m) n (transactions_processed m) (peers_connected m) (mempool_size m)
    (cpu_usage m) (memory_usage_bytes m) (network_bytes_in m) (network_bytes_out m)).

Definition record_tx_processed (p : profile) (m : NodeMetrics) : exec NodeMetrics :=
  n ← u64_add p (transactions_processed m) 1;
  Ret (mkNodeMetrics (blocks_received m) (blocks_proposed m) n (peers_connected m) (mempool_size m)
    (cpu_usage m) (memory_usage_bytes m) (network_bytes_in m) (network_bytes_out m)).

Definition record_bytes_in (p : profile) (bytes : Z) (m : NodeMetrics) : exec NodeMetrics :=
  n ← u64_add p (network_bytes_in m) bytes;
  Ret (mkNodeMetrics (blocks_received m) (blocks_proposed m) (transactions_processed m) (peers_connected m)
    (mempool_size m) (cpu_usage m) (memory_usage_bytes m) n (network_bytes_out m)).

Definition record_bytes_out (p : profile) (bytes : Z) (m : NodeMetrics) : exec NodeMetrics :=
  n ← u64_add p (network_bytes_out m) bytes;
  Ret (mkNodeMetrics (blocks_received m) (blocks_proposed m) (transactions_processed m) (peers_connected m)
    (mempool_size m) (cpu_usage m) (memory_usage_bytes m) (network_bytes_in m) n).

Definition set_peer_count (count : Z) (m : NodeMetrics) : NodeMetrics :=
  mkNodeMetrics (blocks_received m) (blocks_proposed m) (transactions_processed m) count (mempool_size m)
    (cpu_usage m) (memory_usage_bytes m) (network_bytes_in m) (network_bytes_out m).

Definition set_mempool_size (size : Z) (m : NodeMetrics) : NodeMetrics :=
  mkNodeMetrics (blocks_received m) (blocks_proposed m) (transactions_processed m) (peers_connected m) size
    (cpu_usage m) (memory_usage_bytes m) (network_bytes_in m) (network_bytes_out m).

(** [started_at.elapsed().as_secs()], instants in milliseconds. *)
Definition elapsed_secs (started now : Z) : Z := (Z.max 0 (now - started) / 1000)%Z.

Definition collector_uptime_secs (c : MetricsCollector) (now : Z) : Z := elapsed_secs (started_at c) now.

Definition snapshot (c : MetricsCollector) : NodeMetrics := metrics c.

(** A call on the collector. *)
Inductive metric_call :=
| BlockReceived | BlockProposed | TxProcessed
| BytesIn (bytes : Z) | BytesOut (bytes : Z)
| PeerCount (count : Z) | MempoolSize (size : Z).

Definition record_metric (p : profile) (e : metric_call) (m : NodeMetrics) : exec NodeMetrics :=
  match e with
  | BlockReceived => record_block_received p m
  | BlockProposed => record_block_proposed p m
  | TxProcessed => record_tx_processed p m
  | BytesIn bytes => record_bytes_in p bytes m
  | BytesOut bytes => record_bytes_out p bytes m
  | PeerCount count => Ret (set_peer_count count m)
  | MempoolSize size => Ret (set_mempool_size size m)
  end.

Fixpoint record_all (p : profile) (es : list metric_call) (m : NodeMetrics) : exec NodeMetrics :=
  match es with
  | [] => Ret m
  | e :: es => m ← record_metric p e m; record_all p es m
  end.

(** ** What the counters should hold *)
Inductive counter := Received | Proposed | Processed | In | Out.

Definition read_counter (c : counter) (m : NodeMetrics) : Z :=
  match c with
  | Received => blocks_received m
  | Proposed => blocks_proposed m
  | Processed => transactions_processed m
  | In => network_bytes_in m
  | Out => network_bytes_out m
  end.

Definition weight (c : counter) (e : metric_call) : Z :=
  match c, e with
  | Received, BlockReceived | Proposed, BlockProposed | Processed, TxProcessed => 1
  | In, BytesIn bytes | Out, BytesOut bytes => bytes
  | _, _ => 0
  end.

Definition total (c : counter) (es : list metric_call) : Z :=
  foldr (λ e acc, weight c e + acc)%Z 0%Z es.

(** The byte counts are [u64]s. *)
Definition call_ok (e : metric_call) : Prop := ∀ c, is_u64 (weight c e).
Definition metrics_ok (m : NodeMetrics) : Prop := ∀ c, is_u64 (read_counter c m).

Lemma u64_add_0 (p : profile) (a : Z) : is_u64 a → u64_add p a 0 = Ret a.
Proof. unfold is_u64. intros. rewrite u64_add_exact by lia. f_equal. lia. Qed.

Lemma u64_add_dev (a b : Z) :
  u64_add dev a b = if bool_decide (a + b ≤ u64_max)%Z then Ret (a + b)%Z else Panic.
Proof. unfold u64_add. by case_bool_decide. Qed.

Lemma u64_add_release (a b : Z) :
  is_u64 a → is_u64 b → u64_add release a b = Ret (wrap64 (a + b)).
Proof.
  unfold u64_add, is_u64, wrap64, u64_max. intros. case_bool_decide; [|done].
  f_equal. rewrite Z.mod_small; lia.
Qed.

(** Each call adds its weight to every counter; zero to all but one. *)
Lemma record_metric_counters (p : profile) (e : metric_call) (m : NodeMetrics) :
  metrics_ok m →
  match record_metric p e m with
  | Ret m' => ∀ c, u64_add p (read_counter c m) (weight c e) = Ret (read_counter c m')
  | Panic => ∃ c, u64_add p (read_counter c m) (weight c e) = Panic
  | NoFuel => False
  end.
Proof.
  intros Hm.
  assert (∀ c, u64_add p (read_counter c m) 0 = Ret (read_counter c m)) as H0.
  { intros c. apply u64_add_0, Hm. }
  assert (∀ a b, u64_add p a b = NoFuel → False) as Hfuel.
  { intros a b. unfold u64_add. case_bool_decide; [done|]. by destruct p. }
  pose proof (H0 Received); pose proof (H0 Proposed); pose proof (H0 Processed);
    pose proof (H0 In); pose proof (H0 Out).
  destruct e as [| | |bytes|bytes|count|size]; simpl in *;
    unfold record_block_received, record_block_proposed, record_tx_processed, record_bytes_in, record_bytes_out.
  - destruct (u64_add p (blocks_received m) 1) eqn:E; simpl; [intros []; by auto|by exists Received|eauto].
  - destruct (u64_add p (blocks_proposed m) 1) eqn:E; simpl; [intros []; by auto|by exists Proposed|eauto].
  - destruct (u64_add p (transactions_processed m) 1) eqn:E; simpl; [intros []; by auto|by exists Processed|eauto].
  - destruct (u64_add p (network_bytes_in m) bytes) eqn:E; simpl; [intros []; by auto|by exists In|eauto].
  - destruct (u64_add p (network_bytes_out m) bytes) eqn:E; simpl; [intros []; by auto|by exists Out|eauto].
  - intros []; by auto.
  - intros []; by auto.
Qed.

Lemma record_metric_ok (p : profile) (e : metric_call) (m m' : NodeMetrics) :
  call_ok e → metrics_ok m → record_metric p e m = Ret m' → metrics_ok m'.
Proof.
  intros He Hm Hr c. pose proof (record_metric_counters p e m Hm) as H. rewrite Hr in H.
  eapply u64_add_Ret; [apply Hm|apply He|apply H].
Qed.

Lemma total_nonneg (c : counter) (es : list metric_call) : Forall call_ok es → (0 ≤ total c es)%Z.
Proof.
  unfold total. induction 1 as [|e es He _ IH]; simpl; [lia|]. destruct (He c). lia.
Qed.

Lemma total_Permutation (c : counter) (es1 es2 : list metric_call) :
  es1 ≡ₚ es2 → total c es1 = total c es2.
Proof. unfold total. induction 1; simpl; lia. Qed.

Lemma record_all_release (es : list metric_call) (m : NodeMetrics) :
  Forall call_ok es → metrics_ok m →
  ∃ m', record_all release es m = Ret m' ∧
    ∀ c, read_counter c m' = wrap64 (read_counter c m + total c es).
Proof.
  intros Hes. revert m. induction Hes as [|e es He Hes IH]; intros m Hm; cbn [record_all].
  { exists m. split; [done|]. intros c. unfold total, wrap64. simpl. destruct (Hm c) as [??].
    unfold u64_max in *. rewrite Z.mod_small; lia. }
  pose proof (record_metric_counters release e m Hm) as H.
  destruct (record_metric release e m) as [m1| |] eqn:E; [| |done].
  - destruct (IH m1) as (m' & Hr & Hc); [by eapply record_metric_ok|].
    exists m'. split; [done|]. intros c. rewrite Hc. specialize (H c).
    rewrite u64_add_release in H by (apply Hm || apply He). injection H as <-.
    unfold wrap64, total. simpl. rewrite Zplus_mod_idemp_l. f_equal. lia.
  - destruct H as [c Hc]. rewrite u64_add_release in Hc by (apply Hm || apply He). done.
Qed.

Lemma record_all_dev (es : list metric_call) (m : NodeMetrics) :
  Forall call_ok es → metrics_ok m →
  match record_all dev es m with
  | Ret m' => ∀ c, (read_counter c m' = read_counter c m + total c es ∧ read_counter c m' ≤ u64_max)%Z
  | Panic => ∃ c, (u64_max < read_counter c m + total c es)%Z
  | NoFuel => False
  end.
Proof.
  intros Hes. revert m. induction Hes as [|e es He Hes IH]; intros m Hm; cbn [record_all].
  { simpl. intros c. unfold total. simpl. destruct (Hm c) as [??]. lia. }
  pose proof (record_metric_counters dev e m Hm) as H.
  destruct (record_metric dev e m) as [m1| |] eqn:E; [| |done]; simpl.
  - assert (∀ c, read_counter c m1 = (read_counter c m + weight c e)%Z) as H1.
    { intros c. specialize (H c). rewrite u64_add_dev in H. case_bool_decide; by simplify_eq. }
    specialize (IH m1 (record_metric_ok _ _ _ _ He Hm E)). unfold total in *. simpl.
    destruct (record_all dev es m1); [|destruct IH as [c IH]; exists c|done].
    + intros c. specialize (IH c). rewrite H1 in IH. lia.
    + rewrite H1 in IH. lia.
  - destruct H as [c Hc]. exists c. rewrite u64_add_dev in Hc. case_bool_decide; [done|].
    pose proof (total_nonneg c es Hes). unfold total in *. simpl. lia.
Qed.

Lemma default_metrics_ok : metrics_ok default_metrics.
Proof. intros []; by vm_compute. Qed.

(** C38: the metrics count what happened.  After any calls on the collector of a new
    node: in a release build every counter holds its total (the number of blocks
    received, ..., the sum of the bytes) modulo 2^64; in a development build every
    counter holds its exact total, and the node panics if and only if some total
    passes 2^64 - 1. *)
Theorem metrics_totals (es : list metric_call) :
  Forall call_ok es →
  (∃ m, record_all release es default_metrics = Ret m ∧ ∀ c, read_counter c m = wrap64 (total c es)) ∧
  ((∀ c, total c es ≤ u64_max)%Z →
   ∃ m, record_all dev es default_metrics = Ret m ∧ ∀ c, read_counter c m = total c es) ∧
  ((∃ c, u64_max < total c es)%Z → record_all dev es default_metrics = Panic).
Proof.
  intros Hes. assert (∀ c, read_counter c default_metrics = 0%Z) as H0 by (by intros []).
  split; [|pose proof (record_all_dev es _ Hes default_metrics_ok) as Hdev; split].
  - destruct (record_all_release es _ Hes default_metrics_ok) as (m & Hr & Hc).
    exists m. split; [done|]. intros c. by rewrite Hc, H0.
  - intros Hmax. destruct (record_all dev es default_metrics) as [m| |]; [|destruct Hdev as [c Hc]|done].
    + exists m. split; [done|]. intros c. specialize (Hdev c). rewrite H0 in Hdev. lia.
    + specialize (Hmax c). rewrite H0 in Hc. lia.
  - intros [c Hc]. destruct (record_all dev es default_metrics) as [m| |]; [|done..].
    specialize (Hdev c). rewrite H0 in Hdev. lia.
Qed.

(** The counters do not depend on the interleaving.  The calls of concurrent tasks,
    each atomic under the write lock, give the same counters in whatever order they
    are taken, and panic in every order or in none. *)
Theorem metrics_interleaving (p : profile) (es1 es2 : list metric_call) :
  Forall call_ok es1 → es1 ≡ₚ es2 →
  match record_all p es1 default_metrics, record_all p es2 default_metrics with
  | Ret m1, Ret m2 => ∀ c, read_counter c m1 = read_counter c m2
  | Panic, Panic => True
  | _, _ => False
  end.
Proof.
  intros H1 Hp. assert (Forall call_ok es2) as H2 by (by rewrite <-Hp).
  destruct p.
  - pose proof (record_all_dev es1 _ H1 default_metrics_ok) as D1.
    pose proof (record_all_dev es2 _ H2 default_metrics_ok) as D2.
    destruct (record_all dev es1 _), (record_all dev es2 _); try done.
    + intros c. specialize (D1 c); specialize (D2 c). rewrite (total_Permutation c _ _ Hp) in D1. lia.
    + destruct D2 as [c D2]. specialize (D1 c). rewrite (total_Permutation c _ _ Hp) in D1. lia.
    + destruct D1 as [c D1]. specialize (D2 c). rewrite (total_Permutation c _ _ Hp) in D1. lia.
  - destruct (record_all_release es1 _ H1 default_metrics_ok) as (m1 & -> & C1).
    destruct (record_all_release es2 _ H2 default_metrics_ok) as (m2 & -> & C2).
    intros c. by rewrite C1, C2, (total_Permutation c _ _ Hp).
Qed.

(** * Examples *)
Definition sample_calls : list metric_call := [BlockReceived; BytesIn 7; BlockReceived; BytesIn u64_max].

Lemma sample_calls_ok : Forall call_ok sample_calls.
Proof. repeat constructor; destruct c; vm_compute; discriminate. Qed.

Lemma metrics_totals_witness :
  (∃ m, record_all release sample_calls default_metrics = Ret m ∧ network_bytes_in m = 6%Z) ∧
  record_all dev sample_calls default_metrics = Panic.
Proof.
  destruct (metrics_totals sample_calls sample_calls_ok) as ((m & Hm & Hc) & _ & Hpanic). split.
  - exists m. split; [exact Hm|]. exact (Hc In).
  - apply Hpanic. exists In. reflexivity.
Defined.

Lemma metrics_interleaving_witness :
  match record_all release [BlockReceived; BytesIn 7] default_metrics,
        record_all release [BytesIn 7; BlockReceived] default_metrics with
  | Ret m1, Ret m2 => ∀ c, read_counter c m1 = read_counter c m2
  | Panic, Panic => True
  | _, _ => False
  end.
Proof.
  apply (metrics_interleaving release [BlockReceived; BytesIn 7] [BytesIn 7; BlockReceived]).
  - repeat constructor; destruct c; vm_compute; discriminate.
  - apply perm_swap.
Defined.
