(* ===== verification/Runtime.v ===== *)
(** The node runtime (src/node/node-core/src/runtime.rs): sync status, block height,
    events, and shutdown.  Every field behind a lock is one shared cell and each
    operation but [shutdown] takes a lock once, so it is one transition; [shutdown]
    can be left waiting, which its outcome says.  The shutdown channel is a bounded
    queue of capacity 1 whose receiver the runtime keeps and never reads; spawned
    tasks read it through the copies [spawn] gives them.  What tokio makes of a task,
    and what a copy of the receiver is, are parameters.  [event_tx] is the list of
    events handed to the broadcast channel. *)
From S2P Require Import Prelude Net Protocol NodeCore Events.

(** tokio's tasks: futures, the receivers of the shutdown channel and their copies, and
    [tokio::spawn] of the task that [NodeRuntime::spawn] builds from a name, a future
    and a receiver. *)
Class TaskOps := {
  JoinHandle : Type;
  Future : Type;
  ShutdownReceiver : Type;
  clone_receiver : ShutdownReceiver → ShutdownReceiver;
  spawn_task : string → Future → option ShutdownReceiver → JoinHandle;
}.

(** How far a [shutdown] gets: it waits for room in the channel, or for a task to
    end, or it completes. *)
Inductive shutdown_outcome `{TaskOps} :=
| WaitsForChannel
| WaitsForTask (handle : JoinHandle)
| Completed.

Section Operations.
Context `{SA : SocketAddrOps} `{LOG : LogOps} `{TASK : TaskOps}.

(** [shutdown_queue] is the number of signals in the shutdown channel. *)
Record NodeRuntime := mkNodeRuntime {
  config : NodeConfig;
  node_id : NodeId;
  started_at : Z;
  sync_status : SyncStatus;
  latest_height : BlockHeight;
  event_tx : list NodeEvent;
  shutdown_queue : nat;
  shutdown_rx : option ShutdownReceiver;
  handles : list JoinHandle;
  metrics : NodeMetrics;
}.

Definition shutdown_capacity : nat := 1.

(** [rx] is the receiver of the new shutdown channel. *)
Definition runtime_new (c : NodeConfig) (id : NodeId) (now : Z) (rx : ShutdownReceiver) : NodeRuntime := {|
  config := c;
  node_id := id;
  started_at := now;
  sync_status := Booting;
  latest_height := GENESIS;
  event_tx := [];
  shutdown_queue := 0;
  shutdown_rx := Some rx;
  handles := [];
  metrics := default_metrics;
|}.

Definition set_status (s : SyncStatus) (rt : NodeRuntime) : NodeRuntime :=
  mkNodeRuntime (config rt) (node_id rt) (started_at rt) s (latest_height rt) (event_tx rt)
    (shutdown_queue rt) (shutdown_rx rt) (handles rt) (metrics rt).

Definition emit (e : NodeEvent) (rt : NodeRuntime) : NodeRuntime :=
  mkNodeRuntime (config rt) (node_id rt) (started_at rt) (sync_status rt) (latest_height rt)
    (event_tx rt ++ [e]) (shutdown_queue rt) (shutdown_rx rt) (handles rt) (metrics rt).

Definition start (rt : NodeRuntime) : NodeRuntime * Result unit NodeError :=
  let rt := set_status InSync rt in
  let rt := emit Started rt in
  (rt, Ok tt).

(** The loop over the drained handles: the first task that has not ended is waited for. *)
Fixpoint await_all (finished : JoinHandle → bool) (hs : list JoinHandle) : option JoinHandle :=
  match hs with
  | [] => None
  | h :: hs => if finished h then await_all finished hs else Some h
  end.

Definition shutdown (finished : JoinHandle → bool) (reason : string) (rt : NodeRuntime)
    : NodeRuntime * shutdown_outcome :=
  let rt := emit (ShuttingDown reason) rt in
  if bool_decide (shutdown_queue rt < shutdown_capacity) then
    let hs := handles rt in
    let rt := mkNodeRuntime (config rt) (node_id rt) (started_at rt) (sync_status rt) (latest_height rt)
                (event_tx rt) (S (shutdown_queue rt)) (shutdown_rx rt) [] (metrics rt) in
    match await_all finished hs with
    | Some h => (rt, WaitsForTask h)
    | None => (rt, Completed)
    end
  else (rt, WaitsForChannel).

Definition info (now : Z) (rt : NodeRuntime) : NodeInfo := {|
  info_node_id := node_id rt;
  info_version := CARGO_PKG_VERSION;
  uptime_secs := elapsed_secs (started_at rt) now;
  info_sync_status := sync_status rt;
  latest_block_height := latest_height rt;
  peer_count := 0;
  is_validator := bool_decide (is_Some (validator_key_path (config rt)));
|}.

Definition update_height (height : BlockHeight) (rt : NodeRuntime) : NodeRuntime :=
  if bool_decide (height > latest_height rt)%Z then
    mkNodeRuntime (config rt) (node_id rt) (started_at rt) (sync_status rt) height (event_tx rt)
      (shutdown_queue rt) (shutdown_rx rt) (handles rt) (metrics rt)
  else rt.

Definition update_sync_status (status : SyncStatus) (rt : NodeRuntime) : NodeRuntime :=
  set_status status rt.

Definition runtime_subscribe (rt : NodeRuntime) : Receiver := subscribe (event_tx rt).

Definition runtime_metrics (rt : NodeRuntime) : NodeMetrics := metrics rt.
Definition runtime_config (rt : NodeRuntime) : NodeConfig := config rt.
Definition runtime_node_id (rt : NodeRuntime) : NodeId := node_id rt.

Definition spawn (name : string) (future : Future) (rt : NodeRuntime) : NodeRuntime :=
  let rx := clone_receiver <$> shutdown_rx rt in
  let handle := spawn_task name future rx in
  mkNodeRuntime (config rt) (node_id rt) (started_at rt) (sync_status rt) (latest_height rt) (event_tx rt)
    (shutdown_queue rt) (shutdown_rx rt) (handles rt ++ [handle]) (metrics rt).

(** A copy of the receiver takes a signal out of the channel. *)
Definition receive (rt : NodeRuntime) : NodeRuntime :=
  mkNodeRuntime (config rt) (node_id rt) (started_at rt) (sync_status rt) (latest_height rt) (event_tx rt)
    (pred (shutdown_queue rt)) (shutdown_rx rt) (handles rt) (metrics rt).

(** The body of a spawned task, [tokio::select!]: it ends when its future does or when
    its receiver gets a signal, whichever is first; without a receiver the second
    branch is pending forever.  [future_end] and [signal] say when, if ever. *)
Definition task_end (future_end : option Z) (rx : option ShutdownReceiver)
    (signal : ShutdownReceiver → option Z) : option Z :=
  match future_end, rx ≫= signal with
  | Some t1, Some t2 => Some (t1 `min` t2)%Z
  | Some t, None | None, Some t => Some t
  | None, None => None
  end.

(** The calls of the runtime that change it, and the receipt of a signal by a task. *)
Inductive runtime_call :=
| CallSpawn (name : string) (future : Future)
| CallReceive
| CallStart
| CallShutdown (finished : JoinHandle → bool) (reason : string)
| CallHeight (height : BlockHeight)
| CallStatus (status : SyncStatus).

Definition run_call (c : runtime_call) (rt : NodeRuntime) : NodeRuntime :=
  match c with
  | CallSpawn name future => spawn name future rt
  | CallReceive => receive rt
  | CallStart => (start rt).1
  | CallShutdown finished reason => (shutdown finished reason rt).1
  | CallHeight height => update_height height rt
  | CallStatus status => update_sync_status status rt
  end.

Definition run_calls (cs : list runtime_call) (rt : NodeRuntime) : NodeRuntime :=
  foldl (λ rt c, run_call c rt) rt cs.

(** ** What the calls announce *)
Definition announced (c : runtime_call) : option BlockHeight :=
  match c with CallHeight h => Some h | _ => None end.

Definition is_shutdown (c : runtime_call) : bool :=
  match c with CallShutdown _ _ => true | _ => false end.

Definition is_receive (c : runtime_call) : bool :=
  match c with CallReceive => true | _ => false end.

(** The handle of the task a call spawns on a runtime with the receiver [rx]. *)
Definition spawned (rx : ShutdownReceiver) (c : runtime_call) : option JoinHandle :=
  match c with
  | CallSpawn name future => Some (spawn_task name future (Some (clone_receiver rx)))
  | _ => None
  end.

(** The status after a call, and the events it emits. *)
Definition status_after (s : SyncStatus) (c : runtime_call) : SyncStatus :=
  match c with CallStart => InSync | CallStatus s' => s' | _ => s end.

Definition events_of (c : runtime_call) : list NodeEvent :=
  match c with
  | CallStart => [Started]
  | CallShutdown _ reason => [ShuttingDown reason]
  | _ => []
  end.

End Operations.

(** * Theorems *)
Section Theorems.
Context `{SA : SocketAddrOps} `{LOG : LogOps} `{TASK : TaskOps}.

(** The effect of a call on every field it may change. *)
Lemma run_call_effect (c : runtime_call) (rt : NodeRuntime) :
  let rt' := run_call c rt in
  config rt' = config rt ∧ node_id rt' = node_id rt ∧ started_at rt' = started_at rt ∧
  sync_status rt' = status_after (sync_status rt) c ∧
  latest_height rt' = from_option (Z.max (latest_height rt)) (latest_height rt) (announced c) ∧
  event_tx rt' = event_tx rt ++ events_of c.
Proof.
  destruct c as [name future| | |finished reason|h|s]; simpl; try (by rewrite ?app_nil_r).
  - unfold shutdown. simpl. case_bool_decide; [|done]. by destruct (await_all _ _).
  - unfold update_height. case_bool_decide; simpl; rewrite app_nil_r; repeat split; lia.
Qed.

Lemma run_calls_effect (cs : list runtime_call) (rt : NodeRuntime) :
  let rt' := run_calls cs rt in
  config rt' = config rt ∧ node_id rt' = node_id rt ∧ started_at rt' = started_at rt ∧
  sync_status rt' = foldl status_after (sync_status rt) cs ∧
  latest_height rt' = foldl Z.max (latest_height rt) (omap announced cs) ∧
  event_tx rt' = event_tx rt ++ (cs ≫= events_of).
Proof.
  revert rt. induction cs as [|c cs IH]; intros rt; csimpl; [by rewrite app_nil_r|].
  destruct (run_call_effect c rt) as (H1 & H2 & H3 & H4 & H5 & H6).
  destruct (IH (run_call c rt)) as (G1 & G2 & G3 & G4 & G5 & G6).
  unfold run_calls in *. rewrite G1, G2, G3, G4, G5, G6, H1, H2, H3, H4, H5, H6, <-app_assoc.
  repeat split. by destruct (announced c).
Qed.

Lemma foldl_max_Permutation (l1 l2 : list Z) (x : Z) :
  l1 ≡ₚ l2 → foldl Z.max x l1 = foldl Z.max x l2.
Proof.
  intros H. revert x. induction H as [|y l1 l2 _ IH|y z l|l1 l2 l3 _ IH1 _ IH2]; intros x; simpl.
  - done.
  - apply IH.
  - by rewrite <-!Z.max_assoc, (Z.max_comm y z).
  - by rewrite IH1.
Qed.

(** What [info] reports.  After any calls on a new runtime, [info] gives the
    configured identity, the status set last ([InSync] by a [start]), the largest
    height announced so far (genesis if none), and the whole seconds since the
    runtime was made. *)
Theorem info_reports (c : NodeConfig) (id : NodeId) (t0 now : Z) (rx : ShutdownReceiver)
    (cs : list runtime_call) :
  info now (run_calls cs (runtime_new c id t0 rx)) = {|
    info_node_id := id;
    info_version := CARGO_PKG_VERSION;
    uptime_secs := Z.max 0 (now - t0) / 1000;
    info_sync_status := foldl status_after Booting cs;
    latest_block_height := foldl Z.max GENESIS (omap announced cs);
    peer_count := 0;
    is_validator := bool_decide (is_Some (validator_key_path c));
  |}.
Proof.
  unfold info. destruct (run_calls_effect cs (runtime_new c id t0 rx)) as (-> & -> & -> & -> & -> & _).
  done.
Qed.

(** The height is order independent.  Tasks that announce block heights leave the
    same height in whatever order their calls interleave, and it is never below any
    height announced. *)
Theorem height_interleaving (c : NodeConfig) (id : NodeId) (t0 : Z) (rx : ShutdownReceiver)
    (cs1 cs2 : list runtime_call) :
  cs1 ≡ₚ cs2 →
  latest_height (run_calls cs1 (runtime_new c id t0 rx)) = latest_height (run_calls cs2 (runtime_new c id t0 rx)) ∧
  ∀ h, CallHeight h ∈ cs1 → (h ≤ latest_height (run_calls cs1 (runtime_new c id t0 rx)))%Z.
Proof.
  intros Hp. destruct (run_calls_effect cs1 (runtime_new c id t0 rx)) as (_ & _ & _ & _ & -> & _).
  destruct (run_calls_effect cs2 (runtime_new c id t0 rx)) as (_ & _ & _ & _ & -> & _). split.
  - apply foldl_max_Permutation. by rewrite Hp.
  - intros h Hh. assert (h ∈ omap announced cs1) as Hin by (apply list_elem_of_omap; by exists (CallHeight h)).
    clear Hh Hp. generalize (latest_height (runtime_new c id t0 rx)). revert Hin.
    assert (∀ l x, (x ≤ foldl Z.max x l)%Z) as Hle.
    { intros l. induction l as [|y l IH]; intros x; simpl; [lia|]. specialize (IH (x `max` y)%Z). lia. }
    induction (omap announced cs1) as [|y l IH]; [by intros ?%not_elem_of_nil|].
    rewrite elem_of_cons. intros [->|Hin] x; simpl; [|by apply IH].
    specialize (Hle l (x `max` y)%Z). lia.
Qed.

(** ** Subscribers *)

(** A subscriber of the runtime reads, of the events that the calls after its
    subscription emit, the last 256, in order. *)
Theorem subscriber_reads (rt : NodeRuntime) (cs : list runtime_call) :
  let sent := cs ≫= events_of in
  backlog (runtime_subscribe rt) (event_tx (run_calls cs rt)) = drop (length sent - broadcast_capacity) sent.
Proof.
  destruct (run_calls_effect cs rt) as (_ & _ & _ & _ & _ & ->). apply backlog_app.
Qed.

(** ** Shutdown *)
Lemma run_call_queue (c : runtime_call) (rt : NodeRuntime) (rx : ShutdownReceiver) :
  shutdown_rx rt = Some rx → shutdown_queue rt ≤ 1 → is_receive c = false →
  shutdown_rx (run_call c rt) = Some rx ∧
  shutdown_queue (run_call c rt) = (if is_shutdown c then 1 else shutdown_queue rt) ∧
  (is_shutdown c = false → handles (run_call c rt) = handles rt ++ option_list (spawned rx c)).
Proof.
  intros Hrx Hq Hr. destruct c as [name future| | |finished reason|h|s]; simpl in *; rewrite ?app_nil_r;
    try done.
  - unfold spawn. simpl. by rewrite Hrx.
  - unfold shutdown, shutdown_capacity. simpl. case_bool_decide; [destruct (await_all _ _)|];
      simpl; repeat split; (done || lia).
  - unfold update_height. by case_bool_decide.
Qed.

Lemma run_calls_queue (cs : list runtime_call) (rt : NodeRuntime) (rx : ShutdownReceiver) :
  shutdown_rx rt = Some rx → shutdown_queue rt ≤ 1 → existsb is_receive cs = false →
  shutdown_queue (run_calls cs rt) = (if existsb is_shutdown cs then 1 else shutdown_queue rt) ∧
  (existsb is_shutdown cs = false → handles (run_calls cs rt) = handles rt ++ omap (spawned rx) cs).
Proof.
  revert rt. induction cs as [|c cs IH]; intros rt Hrx Hq; cbn [existsb].
  { intros _. simpl. by rewrite app_nil_r. }
  intros [Hc Hcs]%orb_false_iff. destruct (run_call_queue c rt rx Hrx Hq Hc) as (Hrx' & Hq' & Hh).
  destruct (IH (run_call c rt)) as [Hq'' Hh'']; [done|destruct (is_shutdown c); lia|done|].
  change (run_calls (c :: cs) rt) with (run_calls cs (run_call c rt)). split.
  - rewrite Hq'', Hq'. by destruct (is_shutdown c), (existsb is_shutdown cs).
  - intros [Hs Hss]%orb_false_iff. rewrite Hh'', Hh by done. csimpl.
    by destruct (spawned rx c); simpl; rewrite <-app_assoc.
Qed.

(** C40: what [shutdown] waits for.  After calls among which no task took a signal from
    the shutdown channel: if there was no [shutdown] before, it waits for the first
    task, in the order they were spawned, that has not ended, and completes if all
    have; if there was one, it waits for room in the channel. *)
Theorem shutdown_once (c : NodeConfig) (id : NodeId) (t0 : Z) (rx : ShutdownReceiver)
    (cs : list runtime_call) (finished : JoinHandle → bool) (reason : string) :
  existsb is_receive cs = false →
  (shutdown finished reason (run_calls cs (runtime_new c id t0 rx))).2 =
  if existsb is_shutdown cs then WaitsForChannel
  else match List.find (λ h, negb (finished h)) (omap (spawned rx) cs) with
       | Some h => WaitsForTask h
       | None => Completed
       end.
Proof.
  intros Hr. destruct (run_calls_queue cs (runtime_new c id t0 rx) rx) as [Hq Hh]; [done|simpl; lia|done|].
  unfold shutdown, shutdown_capacity. simpl. rewrite Hq.
  destruct (existsb is_shutdown cs); [done|]. rewrite Hh by done. simpl.
  assert (∀ hs, await_all finished hs = List.find (λ h, negb (finished h)) hs) as ->.
  { intros hs. induction hs as [|h hs IH]; simpl; [done|]. by destruct (finished h). }
  by destruct (List.find _ _).
Qed.

(** A task without an end of its own outlives the runtime's signal exactly when no signal
    reaches its receiver. *)
Lemma task_end_None (future_end : option Z) (rx : option ShutdownReceiver)
    (signal : ShutdownReceiver → option Z) :
  task_end future_end rx signal = None ↔ future_end = None ∧ ∀ r, rx = Some r → signal r = None.
Proof.
  unfold task_end. destruct future_end, rx as [r|]; simpl; [destruct (signal r)|..|destruct (signal r) eqn:E|];
    naive_solver.
Qed.

End Theorems.

(** * A node with two tasks *)
Section Sample.

#[local] Instance sample_tasks : TaskOps := {|
  JoinHandle := string;
  Future := unit;
  ShutdownReceiver := unit;
  clone_receiver r := r;
  spawn_task name _ _ := name;
|}.
#[local] Instance sample_log_ops : LogOps := {| LevelFilter := nat; Info := 3 |}.

Definition sample_config : NodeConfig :=
  match default_node_config with
  | Ret c => c
  | _ => mkNodeConfig (mkSocketAddrV4 x00 x00 x00 x00 x00 x00) None [] 0 "" "" "" None 0 0 0 "" 0 None
           (mkSocketAddrV4 x00 x00 x00 x00 x00 x00) false false 0 None
  end.

Definition sample_calls : list (runtime_call (TASK := sample_tasks)) :=
  [CallSpawn (TASK := sample_tasks) "sync" tt; CallSpawn (TASK := sample_tasks) "gossip" tt].

Lemma shutdown_once_witness :
  (shutdown (TASK := sample_tasks) (λ h, bool_decide (h = "sync")) "test"
     (run_calls sample_calls (runtime_new (TASK := sample_tasks) sample_config (zeroed 20) 0 tt))).2 =
  WaitsForTask (H := sample_tasks) "gossip".
Proof.
  rewrite (shutdown_once (TASK := sample_tasks) sample_config (zeroed 20) 0 tt sample_calls);
    [reflexivity|reflexivity].
Defined.

End Sample.
