(* ===== verification/Api.v ===== *)
(** The API crate (src/node/api/src/lib.rs): its configuration, the JSON-RPC messages
    and how they are written as JSON, and the manager.  [serde_json::Value] and its
    constructors are parameters. *)
From S2P Require Import Prelude Net.

Record ApiConfig `{SocketAddrOps} := mkApiConfig {
  rpc_addr : SocketAddr;
  rpc_enabled : bool;
  ws_addr : SocketAddr;
  ws_enabled : bool;
  cors_allowed_origins : list string;
  max_request_size : Z;
}.
Arguments mkApiConfig {_}.

Definition default_api_config `{SocketAddrOps} : exec ApiConfig :=
  rpc ← or_panic (socket_addr_parse "127.0.0.1:26657");
  ws ← or_panic (socket_addr_parse "127.0.0.1:26658");
  Ret (mkApiConfig rpc true ws true ["*"] (10 * 1024 * 1024)).

(** JSON values; [json_members] reads the members of an object, in order. *)
Class JsonOps := {
  Value : Type;
  json_string : string → Value;
  json_int : Z → Value;
  json_null : Value;
  json_object : list (string * Value) → Value;
  json_members : Value → option (list (string * Value));
}.

Class JsonLaws `{JsonOps} : Prop :=
  json_members_object ms : json_members (json_object ms) = Some ms.

Section Operations.
Context `{SA : SocketAddrOps} `{JSON : JsonOps}.

Record JsonRpcRequest := mkJsonRpcRequest {
  request_jsonrpc : string;
  request_id : Value;
  method : string;
  params : list Value;
}.

Record JsonRpcError := mkJsonRpcError {
  code : Z;
  message : string;
  data : option Value;
}.

Record JsonRpcResponse := mkJsonRpcResponse {
  jsonrpc : string;
  id : Value;
  result : option Value;
  error : option JsonRpcError;
}.

Definition response_success (id : Value) (result : Value) : JsonRpcResponse :=
  mkJsonRpcResponse "2.0" id (Some result) None.

Definition response_error (id : Value) (code : Z) (message : string) : JsonRpcResponse :=
  mkJsonRpcResponse "2.0" id None (Some (mkJsonRpcError code message None)).

(** The derived [Serialize]: members in the order of the fields; [result] and [error]
    are left out when [None], [data] of an error is not. *)
Definition error_to_value (e : JsonRpcError) : Value :=
  json_object [("code", json_int (code e)); ("message", json_string (message e));
               ("data", default json_null (data e))].

Definition response_to_value (r : JsonRpcResponse) : Value :=
  json_object
    ([("jsonrpc", json_string (jsonrpc r)); ("id", id r)] ++
     match result r with Some v => [("result", v)] | None => [] end ++
     match error r with Some e => [("error", error_to_value e)] | None => [] end).

Record ApiManager := mkApiManager { config : ApiConfig }.

Definition api_new (c : ApiConfig) : ApiManager := mkApiManager c.

(** The lines logged, and the result. *)
Definition api_start (m : ApiManager) : list string * Result unit string :=
  let log1 :=
    if rpc_enabled (config m)
    then ["RPC API starting on " +:+ socket_addr_to_string (rpc_addr (config m))] else [] in
  let log2 :=
    if ws_enabled (config m)
    then ["WebSocket API starting on " +:+ socket_addr_to_string (ws_addr (config m))] else [] in
  (log1 ++ log2, Ok tt).

(** A member of a JSON object, by name. *)
Definition member (k : string) (v : Value) : option Value :=
  ms ← json_members v; snd <$> List.find (λ m, bool_decide (m.1 = k)) ms.

End Operations.

Section Theorems.
Context `{JSON : JsonOps} `{JL : !JsonLaws}.

(** A response is a JSON-RPC 2.0 response: it carries the version "2.0" and the
    identifier of its request, and exactly one of [result] and [error]: a successful
    one the result it was given and no error, a failed one an error object with
    the code and the message and no result. *)
Theorem response_well_formed (i v : Value) (c : Z) (msg : string) :
  (let r := response_to_value (response_success i v) in
   member "jsonrpc" r = Some (json_string "2.0") ∧ member "id" r = Some i ∧
   member "result" r = Some v ∧ member "error" r = None) ∧
  (let r := response_to_value (response_error i c msg) in
   member "jsonrpc" r = Some (json_string "2.0") ∧ member "id" r = Some i ∧
   member "result" r = None ∧
   ∃ e, member "error" r = Some e ∧ member "code" e = Some (json_int c) ∧
     member "message" e = Some (json_string msg)).
Proof using JL.
  unfold response_to_value, error_to_value, member. simpl.
  rewrite !json_members_object. simpl. split; [done|]. repeat split.
  eexists. split; [done|]. by rewrite json_members_object.
Qed.

End Theorems.

(** * A concrete JSON *)
Section Sample.

#[local] Unset Elimination Schemes.
Inductive json := JString (s : string) | JInt (n : Z) | JNull | JObject (ms : list (string * json)).
#[local] Set Elimination Schemes.

#[local] Instance sample_json : JsonOps := {|
  Value := json;
  json_string := JString;
  json_int := JInt;
  json_null := JNull;
  json_object := JObject;
  json_members v := match v with JObject ms => Some ms | _ => None end;
|}.
#[local] Instance sample_json_laws : JsonLaws.
Proof. intros ms. reflexivity. Qed.

Lemma response_well_formed_witness :
  member "error" (response_to_value (response_success (JSON := sample_json) (JInt 1) (JString "ok"))) = None ∧
  member "result" (response_to_value
    (response_error (JSON := sample_json) (JInt 1) (-32601) "Method not found")) = None.
Proof.
  destruct (response_well_formed (JSON := sample_json) (JInt 1) (JString "ok") (-32601) "Method not found")
    as ((_ & _ & _ & H1) & (_ & _ & H2 & _)).
  split; [exact H1|exact H2].
Defined.

End Sample.
