(* ===== verification/Storage.v ===== *)
(** The storage crate (src/node/storage/src/lib.rs), run by one task at a time: the
    in-memory indexes of [StorageManager], its operations, and their refinement of a
    log of stored blocks.  Interleaved calls are in StorageTasks.v.  The file system
    is the parameter of [init]. *)
From S2P Require Import Prelude.

Record StorageConfig := mkStorageConfig {
  data_dir : string;
  db_path : string;
  max_block_size : Z;
  prune_threshold : option Z;
  cache_size_mb : Z;
}.

Definition default_storage_config : StorageConfig := {|
  data_dir := "data";
  db_path := "data/blockchain.db";
  max_block_size := 2 * 1024 * 1024;
  prune_threshold := Some 100000%Z;
  cache_size_mb := 256;
|}.

Record StoredBlock := mkStoredBlock {
  height : Z;
  hash : array 32;
  data : list byte;
  timestamp : Z;
}.

#[export] Instance StoredBlock_eq_decision : EqDecision StoredBlock.
Proof. solve_decision. Defined.

(** The three fields behind an [Arc<RwLock<_>>] are three shared cells; a read or
    write lock on one of them is one atomic access. *)
Record StorageManager := mkStorageManager {
  config : StorageConfig;
  head : option StoredBlock;
  height_index : gmap Z (array 32);
  block_cache : gmap (array 32) StoredBlock;
}.

Definition storage_new (c : StorageConfig) : StorageManager :=
  mkStorageManager c None ∅ ∅.

(** [std::fs::create_dir_all] is the argument; the error is an I/O error. *)
Definition storage_init {E} (create_dir_all : string → Result unit E) (s : StorageManager)
    : Result unit E :=
  and_then (create_dir_all (data_dir (config s))) (λ _, Ok tt).

(** The critical sections of [store_block], in program order. *)
Definition insert_index (b : StoredBlock) (s : StorageManager) : StorageManager :=
  mkStorageManager (config s) (head s) (<[height b := hash b]> (height_index s)) (block_cache s).

Definition insert_cache (b : StoredBlock) (s : StorageManager) : StorageManager :=
  mkStorageManager (config s) (head s) (height_index s) (<[hash b := b]> (block_cache s)).

Definition update_head (b : StoredBlock) (s : StorageManager) : StorageManager :=
  let head' :=
    match head s with
    | Some current => if bool_decide (height b > height current)%Z then Some b else head s
    | None => Some b
    end in
  mkStorageManager (config s) head' (height_index s) (block_cache s).

Definition store_block (b : StoredBlock) (s : StorageManager) : StorageManager * Result unit string :=
  let s := insert_index b s in
  let s := insert_cache b s in
  let s := update_head b s in
  (s, Ok tt).

Definition get_by_hash (s : StorageManager) (k : array 32) : option StoredBlock :=
  block_cache s !! k.

Definition get_by_height (s : StorageManager) (h : Z) : option StoredBlock :=
  k ← height_index s !! h;
  get_by_hash s k.

Definition get_head (s : StorageManager) : option StoredBlock := head s.

Definition chain_height (s : StorageManager) : Z := default 0%Z (height <$> head s).

(** [prune] returns its initial counter: it removes nothing. *)
Definition prune (keep_height : Z) (s : StorageManager) : StorageManager * Result Z string :=
  let pruned := 0%Z in
  (s, Ok pruned).

Definition shutdown (s : StorageManager) : StorageManager := s.

(** * Specification: a log of stored blocks *)

(** The last block of the log that satisfies [P]. *)
Definition last_such (P : StoredBlock → Prop) `{∀ b, Decision (P b)} (log : list StoredBlock)
    : option StoredBlock :=
  last (filter P log).

(** [b] is the first block of the log whose height is the greatest of the log. *)
Definition first_highest (log : list StoredBlock) (b : StoredBlock) : Prop :=
  ∃ before after, log = before ++ b :: after ∧
    Forall (λ b', height b' < height b)%Z before ∧
    Forall (λ b', height b' ≤ height b)%Z after.

(** The blocks of a log stored one after the other. *)
Definition store_all (log : list StoredBlock) (s : StorageManager) : StorageManager :=
  foldl (λ s b, (store_block b s).1) s log.

(** The state refines the log. *)
Record refines (log : list StoredBlock) (s : StorageManager) : Prop := {
  refines_hash k : get_by_hash s k = last_such (λ b, hash b = k) log;
  refines_index h : height_index s !! h = hash <$> last_such (λ b, height b = h) log;
  refines_head : match head s with Some b => first_highest log b | None => log = [] end;
}.

(** * Theorems *)
Lemma last_such_snoc (P : StoredBlock → Prop) `{∀ b, Decision (P b)} log b :
  last_such P (log ++ [b]) = if decide (P b) then Some b else last_such P log.
Proof.
  unfold last_such. rewrite filter_app, filter_cons. case_decide.
  - by rewrite filter_nil, last_snoc.
  - by rewrite filter_nil, app_nil_r.
Qed.

Lemma first_highest_snoc log b b' :
  first_highest log b →
  first_highest (log ++ [b']) (if bool_decide (height b' > height b)%Z then b' else b).
Proof.
  intros (before & after & -> & Hb & Ha). case_bool_decide.
  - exists (before ++ b :: after), []. split; [done|]. split; [|done].
    apply Forall_app; split; [|constructor; [lia|]]; (eapply Forall_impl; [eassumption|]); simpl; lia.
  - exists before, (after ++ [b']). rewrite <-app_assoc. split; [done|]. split; [done|].
    apply Forall_app. split; [done|]. constructor; [lia|done].
Qed.

Lemma first_highest_unique log b1 b2 :
  first_highest log b1 → first_highest log b2 → height b1 = height b2.
Proof.
  assert (∀ b b', first_highest log b → b' ∈ log → height b' ≤ height b)%Z as Hle.
  { intros b b' (l1 & l2 & -> & H1 & H2). rewrite elem_of_app, elem_of_cons.
    rewrite Forall_forall in H1, H2. intros [H|[->|H]]; [apply H1 in H|..|apply H2 in H]; lia. }
  intros H1 H2. assert (∀ b, first_highest log b → b ∈ log) as Hin.
  { intros b (l1 & l2 & -> & _). elem_list. }
  apply Z.le_antisymm; eauto.
Qed.

Lemma refines_new c : refines [] (storage_new c).
Proof. by constructor. Qed.

(** The simulation step: storing a block appends it to the log. *)
Lemma refines_store log s b : refines log s → refines (log ++ [b]) (store_block b s).1.
Proof.
  intros [Hh Hi Hhd]. constructor; simpl.
  - intros k. unfold get_by_hash in *. simpl. rewrite last_such_snoc. case_decide as E.
    + subst. by rewrite lookup_insert_eq.
    + rewrite lookup_insert_ne by done. apply Hh.
  - intros h. rewrite last_such_snoc. case_decide as E.
    + subst. by rewrite lookup_insert_eq.
    + rewrite lookup_insert_ne by done. apply Hi.
  - destruct (head s) as [c|].
    + pose proof (first_highest_snoc _ _ b Hhd) as H. by case_bool_decide.
    + subst log. exists [], []. by repeat split.
Qed.

Lemma refines_store_all log log' s : refines log s → refines (log ++ log') (store_all log' s).
Proof.
  revert log s. induction log' as [|b log' IH]; intros log s H; [by rewrite app_nil_r|].
  simpl. rewrite cons_middle, app_assoc. by apply IH, refines_store.
Qed.

Lemma refines_height log s h :
  refines log s →
  get_by_height s h = last_such (λ b, height b = h) log ≫= λ b, last_such (λ b', hash b' = hash b) log.
Proof.
  intros [Hh Hi _]. unfold get_by_height. rewrite Hi.
  destruct (last_such _ log); simpl; [apply Hh|done].
Qed.

(** C1: the store implements the log.  After any sequence of [store_block] calls on a
    new manager, [get_by_hash] returns the last block stored with the hash,
    [get_by_height] the last block stored with the hash of the last block of the
    height, [head] the first block of the greatest height and [height] that height. *)
Theorem storage_refines_log (c : StorageConfig) (log : list StoredBlock) :
  let s := store_all log (storage_new c) in
  (∀ k, get_by_hash s k = last_such (λ b, hash b = k) log) ∧
  (∀ h, get_by_height s h =
        last_such (λ b, height b = h) log ≫= λ b, last_such (λ b', hash b' = hash b) log) ∧
  (log = [] → get_head s = None ∧ chain_height s = 0%Z) ∧
  (log ≠ [] → ∃ b, get_head s = Some b ∧ first_highest log b ∧ chain_height s = height b).
Proof.
  intros s. pose proof (refines_store_all [] log _ (refines_new c)) as Hr. simpl in Hr. fold s in Hr.
  split; [apply (refines_hash _ _ Hr)|]. split; [intros h; by apply refines_height|].
  pose proof (refines_head _ _ Hr) as Hhd. unfold get_head, chain_height. split.
  - intros ->. by subst s.
  - intros Hne. destruct (head s) as [b|]; [|done]. by exists b.
Qed.

(** A log in which the hash identifies the block. *)
Definition hash_identifies (log : list StoredBlock) : Prop :=
  ∀ b b', b ∈ log → b' ∈ log → hash b = hash b' → b = b'.

Lemma last_such_elem (P : StoredBlock → Prop) `{∀ b, Decision (P b)} log b :
  last_such P log = Some b → b ∈ log ∧ P b.
Proof.
  unfold last_such. intros Hl%last_Some_elem_of. apply list_elem_of_filter in Hl. tauto.
Qed.

Lemma last_such_is_Some (P : StoredBlock → Prop) `{∀ b, Decision (P b)} log b :
  b ∈ log → P b → is_Some (last_such P log).
Proof.
  intros Hb HP. unfold last_such. apply last_is_Some.
  intros E. assert (b ∈ filter P log) as Hin by (by apply list_elem_of_filter).
  rewrite E in Hin. by apply not_elem_of_nil in Hin.
Qed.

(** Where the hash identifies the block, a lookup by height returns the block
    stored last at that height, with that height, and misses no stored height. *)
Theorem get_by_height_correct (c : StorageConfig) (log : list StoredBlock) (h : Z) :
  hash_identifies log →
  get_by_height (store_all log (storage_new c)) h = last_such (λ b, height b = h) log ∧
  (∀ b, get_by_height (store_all log (storage_new c)) h = Some b → height b = h ∧ b ∈ log) ∧
  (∀ b, b ∈ log → height b = h → is_Some (get_by_height (store_all log (storage_new c)) h)).
Proof.
  intros Hid. pose proof (refines_store_all [] log _ (refines_new c)) as Hr. simpl in Hr.
  assert (get_by_height (store_all log (storage_new c)) h = last_such (λ b, height b = h) log) as Heq.
  { rewrite (refines_height _ _ _ Hr). destruct (last_such _ log) as [b|] eqn:E; simpl; [|done].
    apply last_such_elem in E as [Hb _].
    destruct (last_such_is_Some (λ b', hash b' = hash b) log b Hb eq_refl) as [b' E'].
    rewrite E'. apply last_such_elem in E' as [Hb' Hh]. f_equal. by apply Hid. }
  rewrite Heq. split; [done|]. split.
  - intros b [? ?]%last_such_elem. done.
  - intros b Hb Hh. by eapply last_such_is_Some.
Qed.

(** The head and the height index disagree about competing blocks.  When two blocks
    of one height are stored, the head stays the first one and the height index
    names the second one: looking up the chain height does not give the head. *)
Theorem head_height_index_disagree (c : StorageConfig) (b1 b2 : StoredBlock) :
  height b1 = height b2 → hash b1 ≠ hash b2 →
  let s := store_all [b1; b2] (storage_new c) in
  get_head s = Some b1 ∧ get_by_height s (chain_height s) = Some b2 ∧ b1 ≠ b2.
Proof.
  intros Hh Hk s. unfold s, get_head, get_by_height, get_by_hash, chain_height. simpl.
  rewrite bool_decide_false by lia. simpl. rewrite Hh, lookup_insert_eq. simpl.
  rewrite lookup_insert_eq. repeat split; congruence.
Qed.

(** * Evaluation *)
Section Sample.

Definition sample_block (h : Z) (k : byte) : StoredBlock :=
  mkStoredBlock h (filled 32 k) [k] 1700000000.

Definition sample_log : list StoredBlock := [sample_block 1 x01; sample_block 2 x02; sample_block 2 x03].

Lemma sample_log_hash_identifies : hash_identifies sample_log.
Proof.
  intros b b' Hb Hb' He. unfold sample_log in *.
  repeat setoid_rewrite elem_of_cons in Hb. repeat setoid_rewrite elem_of_cons in Hb'.
  destruct Hb as [->|[->|[->|[]%not_elem_of_nil]]], Hb' as [->|[->|[->|[]%not_elem_of_nil]]];
    done || (apply (f_equal abytes) in He; discriminate He).
Qed.

Lemma get_by_height_correct_witness :
  get_by_height (store_all sample_log (storage_new default_storage_config)) 2 =
    last_such (λ b, height b = 2%Z) sample_log ∧
  (∀ b, get_by_height (store_all sample_log (storage_new default_storage_config)) 2 = Some b →
     height b = 2%Z ∧ b ∈ sample_log) ∧
  (∀ b, b ∈ sample_log → height b = 2%Z →
     is_Some (get_by_height (store_all sample_log (storage_new default_storage_config)) 2)).
Proof.
  apply (get_by_height_correct default_storage_config sample_log 2), sample_log_hash_identifies.
Defined.

Lemma head_height_index_disagree_witness :
  let s := store_all [sample_block 2 x02; sample_block 2 x03] (storage_new default_storage_config) in
  get_head s = Some (sample_block 2 x02) ∧
  get_by_height s (chain_height s) = Some (sample_block 2 x03) ∧ sample_block 2 x02 ≠ sample_block 2 x03.
Proof.
  apply (head_height_index_disagree default_storage_config (sample_block 2 x02) (sample_block 2 x03));
    [done|].
  intros He. apply (f_equal abytes) in He. discriminate He.
Defined.

End Sample.
