(* ===== verification/Defaults.v ===== *)
(** The default configurations of the crates, which configure the same node, against
    each other (src/node/*/src). *)
From S2P Require Import Prelude Net Protocol Transport Discovery P2P NodeCore Storage Api.

Section Defaults.
Context `{SA : SocketAddrOps} `{LOG : LogOps}.

(** The defaults of the crates describe one node.  The node's default
    configuration passes its own validation, as does the test configuration of any
    directory; and it agrees with the defaults of the crates it configures: the P2P
    layer's listen address, bootstrap peers and peer limit, the transport's listen
    address, the API's RPC address and switches, the storage's directory, database,
    block size limit and pruning threshold, and the chain the peers announce. *)
Theorem defaults_agree (n : NodeConfig) (p : P2PConfig) (t : TransportConfig) (a : ApiConfig) (dir : string) :
  default_node_config = Ret n → default_p2p_config = Ret p → default_transport_config = Ret t →
  default_api_config = Ret a →
  validate n = Ok tt ∧
  (∃ c, test_config dir = Ret c ∧ validate c = Ok tt ∧ NodeCore.data_dir c = dir) ∧
  (NodeCore.listen_addr n = P2P.listen_addr p ∧ NodeCore.external_addr n = P2P.external_addr p ∧
   NodeCore.bootstrap_peers n = P2P.bootstrap_peers p ∧ NodeCore.max_peers n = P2P.max_peers p) ∧
  (transport_config_from p = Ret t) ∧
  (NodeCore.rpc_addr n = Api.rpc_addr a ∧ NodeCore.rpc_enabled n = Api.rpc_enabled a ∧
   NodeCore.ws_enabled n = Api.ws_enabled a) ∧
  (NodeCore.data_dir n = Storage.data_dir default_storage_config ∧
   NodeCore.db_path n = Storage.db_path default_storage_config ∧
   max_block_size_bytes n = max_block_size default_storage_config ∧
   prune_after_blocks n = prune_threshold default_storage_config) ∧
  NodeCore.chain_id n = Protocol.chain_id default_capabilities.
Proof.
  unfold test_config, transport_config_from. intros Hn Hp Ht Ha. rewrite Hn, Ht. simpl.
  unfold default_node_config in Hn. unfold default_p2p_config in Hp.
  unfold default_transport_config in Ht. unfold default_api_config in Ha.
  apply exec_bind_Ret in Hp as (l & Hl & [= <-]).
  rewrite Hl in Hn, Ht. injection Ht as <-.
  apply exec_bind_Ret in Ha as (r & Hr & Ha). apply exec_bind_Ret in Ha as (w & _ & [= <-]).
  rewrite Hr in Hn. injection Hn as <-. simpl.
  split; [done|]. split; [by eexists|]. done.
Qed.

End Defaults.

Section Sample.

#[local] Instance sample_log : LogOps := {| LevelFilter := nat; Info := 3 |}.

Lemma defaults_agree_witness :
  ∃ n : NodeConfig, default_node_config = Ret n ∧ validate n = Ok tt.
Proof.
  eexists. split; [reflexivity|].
  refine (proj1 (defaults_agree _ _ _ _ "data" eq_refl eq_refl eq_refl eq_refl)).
Defined.

End Sample.
