(* ===== verification/StorageTasks.v ===== *)
(** Concurrent calls on the storage manager (src/node/storage/src/lib.rs).

    [StorageManager]'s methods are [async] and take [&self]: calls from several tasks
    interleave at every lock.  [store_block] takes the locks of the height index, of
    the block cache and of the head one after the other, [get_by_height] those of the
    index and of the cache, [get_by_hash], [head] and [height] one lock each.  A task is a call with the lock it takes next; a step runs
    one critical section of one task; a schedule is a sequence of steps. *)
From S2P Require Import Prelude Storage.

Inductive task :=
| StoreIndex (b : StoredBlock)
| StoreCache (b : StoredBlock)
| StoreHead (b : StoredBlock)
| Stored (b : StoredBlock)
| ReadIndex (h : Z)
| ReadCache (h : Z) (k : array 32)
| ReadDone (h : Z) (r : option StoredBlock)
| HashRead (k : array 32)
| HashDone (k : array 32) (r : option StoredBlock)
| HeadRead
| HeadDone (r : option StoredBlock)
| HeightRead
| HeightDone (h : Z).

(** One critical section: the task after it and the state after it. *)
Definition run_section (t : task) (s : StorageManager) : option (task * StorageManager) :=
  match t with
  | StoreIndex b => Some (StoreCache b, insert_index b s)
  | StoreCache b => Some (StoreHead b, insert_cache b s)
  | StoreHead b => Some (Stored b, update_head b s)
  | Stored _ => None
  | ReadIndex h =>
      match height_index s !! h with
      | Some k => Some (ReadCache h k, s)
      | None => Some (ReadDone h None, s)
      end
  | ReadCache h k => Some (ReadDone h (get_by_hash s k), s)
  | ReadDone _ _ => None
  | HashRead k => Some (HashDone k (get_by_hash s k), s)
  | HashDone _ _ => None
  | HeadRead => Some (HeadDone (get_head s), s)
  | HeadDone _ => None
  | HeightRead => Some (HeightDone (chain_height s), s)
  | HeightDone _ => None
  end.

Inductive step : StorageManager * list task → StorageManager * list task → Prop :=
| step_task s s' before after t t' :
    run_section t s = Some (t', s') →
    step (s, before ++ t :: after) (s', before ++ t' :: after).

(** The call that a task makes has not begun; it has returned. *)
Definition begins (t : task) : bool :=
  match t with
  | StoreIndex _ | ReadIndex _ | HashRead _ | HeadRead | HeightRead => true
  | _ => false
  end.
Definition finished (t : task) : bool :=
  match t with
  | Stored _ | ReadDone _ _ | HashDone _ _ | HeadDone _ | HeightDone _ => true
  | _ => false
  end.

(** The blocks that the calls of [ts] store. *)
Definition task_block (t : task) : option StoredBlock :=
  match t with
  | StoreIndex b | StoreCache b | StoreHead b | Stored b => Some b
  | _ => None
  end.
Definition blocks_of (ts : list task) : list StoredBlock := omap task_block ts.

(** Locks a task still has to take. *)
Definition remaining (t : task) : nat :=
  match t with
  | StoreIndex _ => 3
  | StoreCache _ | ReadIndex _ => 2
  | StoreHead _ | ReadCache _ _ | HashRead _ | HeadRead | HeightRead => 1
  | Stored _ | ReadDone _ _ | HashDone _ _ | HeadDone _ | HeightDone _ => 0
  end.

(** How far the store of [b] is. *)
Definition indexed (ts : list task) (b : StoredBlock) : Prop :=
  StoreCache b ∈ ts ∨ StoreHead b ∈ ts ∨ Stored b ∈ ts.
Definition cached (ts : list task) (b : StoredBlock) : Prop :=
  StoreHead b ∈ ts ∨ Stored b ∈ ts.

(** The invariant of every schedule. *)
Record inv (s : StorageManager) (ts : list task) : Prop := {
  inv_index h k : height_index s !! h = Some k →
    ∃ b, indexed ts b ∧ height b = h ∧ hash b = k;
  inv_indexed b : indexed ts b → is_Some (height_index s !! height b);
  inv_cache k b : block_cache s !! k = Some b → cached ts b ∧ hash b = k;
  inv_cached b : cached ts b → is_Some (block_cache s !! hash b);
  inv_head b : head s = Some b → Stored b ∈ ts;
  inv_stored b : Stored b ∈ ts → ∃ c, head s = Some c ∧ (height b ≤ height c)%Z;
  inv_reading h k : ReadCache h k ∈ ts → ∃ b, indexed ts b ∧ height b = h ∧ hash b = k;
  inv_read h b : ReadDone h (Some b) ∈ ts →
    cached ts b ∧ ∃ b', indexed ts b' ∧ height b' = h ∧ hash b' = hash b;
  inv_hash_read k b : HashDone k (Some b) ∈ ts → cached ts b ∧ hash b = k;
  inv_head_read b : HeadDone (Some b) ∈ ts → Stored b ∈ ts;
  inv_height_read h : HeightDone h ∈ ts → h = 0%Z ∨ ∃ b, Stored b ∈ ts ∧ height b = h;
}.

(** * Steps preserve the invariant *)
Lemma elem_of_middle {A} (x t : A) (l r : list A) : x ∈ l ++ t :: r ↔ x = t ∨ x ∈ l ++ r.
Proof. rewrite !elem_of_app, elem_of_cons. tauto. Qed.

Lemma inv_begin c ts : Forall begins ts → inv (storage_new c) ts.
Proof.
  rewrite Forall_forall. intros Hb.
  constructor; unfold indexed, cached; simpl; try done; intros; destruct_or?;
    try (match goal with H : _ ∈ ts |- _ => by apply Hb in H end).
Qed.

(** A schedule moves each task forward: what was indexed, cached or stored stays so. *)
Lemma run_section_indexed s s' t t' l r b :
  run_section t s = Some (t', s') →
  indexed (l ++ t' :: r) b ↔ indexed (l ++ t :: r) b ∨ t = StoreIndex b.
Proof.
  intros Hrun. unfold indexed. rewrite !elem_of_middle.
  destruct t; simpl in Hrun; repeat case_match; simplify_eq; naive_solver.
Qed.

Lemma run_section_cached s s' t t' l r b :
  run_section t s = Some (t', s') →
  cached (l ++ t' :: r) b ↔ cached (l ++ t :: r) b ∨ t = StoreCache b.
Proof.
  intros Hrun. unfold cached. rewrite !elem_of_middle.
  destruct t; simpl in Hrun; repeat case_match; simplify_eq; naive_solver.
Qed.

Lemma run_section_stored s s' t t' l r b :
  run_section t s = Some (t', s') →
  Stored b ∈ l ++ t' :: r ↔ Stored b ∈ l ++ t :: r ∨ t = StoreHead b.
Proof.
  intros Hrun. rewrite !elem_of_middle.
  destruct t; simpl in Hrun; repeat case_match; simplify_eq; naive_solver.
Qed.

(** What a section does to the three cells. *)
Lemma run_section_index s s' t t' h k :
  run_section t s = Some (t', s') → height_index s' !! h = Some k →
  (∃ b, t = StoreIndex b ∧ height b = h ∧ hash b = k) ∨ height_index s !! h = Some k.
Proof.
  intros Hrun. destruct t; simpl in Hrun; repeat case_match; simplify_eq; simpl; auto.
  rewrite lookup_insert. case_decide; naive_solver.
Qed.

Lemma run_section_index_grows s s' t t' h :
  run_section t s = Some (t', s') →
  (is_Some (height_index s !! h) ∨ ∃ b, t = StoreIndex b ∧ height b = h) →
  is_Some (height_index s' !! h).
Proof.
  intros Hrun. destruct t; simpl in Hrun; repeat case_match; simplify_eq; simpl;
    try rewrite lookup_insert; try case_decide; naive_solver.
Qed.

Lemma run_section_cache s s' t t' k b :
  run_section t s = Some (t', s') → block_cache s' !! k = Some b →
  (t = StoreCache b ∧ hash b = k) ∨ block_cache s !! k = Some b.
Proof.
  intros Hrun. destruct t; simpl in Hrun; repeat case_match; simplify_eq; simpl; auto.
  rewrite lookup_insert. case_decide; naive_solver.
Qed.

Lemma run_section_cache_grows s s' t t' k :
  run_section t s = Some (t', s') →
  (is_Some (block_cache s !! k) ∨ ∃ b, t = StoreCache b ∧ hash b = k) →
  is_Some (block_cache s' !! k).
Proof.
  intros Hrun. destruct t; simpl in Hrun; repeat case_match; simplify_eq; simpl;
    try rewrite lookup_insert; try case_decide; naive_solver.
Qed.

Lemma run_section_head s s' t t' b :
  run_section t s = Some (t', s') → head s' = Some b → t = StoreHead b ∨ head s = Some b.
Proof.
  intros Hrun. destruct t; simpl in Hrun; repeat case_match; simplify_eq; simpl; auto.
  repeat case_match; naive_solver.
Qed.

Lemma run_section_head_grows s s' t t' b :
  run_section t s = Some (t', s') →
  (t = StoreHead b ∨ ∃ c, head s = Some c ∧ height b ≤ height c)%Z →
  ∃ c, head s' = Some c ∧ (height b ≤ height c)%Z.
Proof.
  intros Hrun [->|(c & Hc & Hle)].
  - simpl in Hrun. simplify_eq. simpl. destruct (head s) as [c|]; [|by eexists].
    case_bool_decide; eexists; (split; [done|]); lia.
  - destruct t; simpl in Hrun; repeat case_match; simplify_eq; simpl; eauto.
    rewrite Hc. case_bool_decide; eexists; (split; [done|]); lia.
Qed.

(** Where the reading tasks come from. *)
Lemma run_section_reading s s' t t' l r h k :
  run_section t s = Some (t', s') → ReadCache h k ∈ l ++ t' :: r →
  ReadCache h k ∈ l ++ t :: r ∨ height_index s !! h = Some k.
Proof.
  intros Hrun. rewrite !elem_of_middle.
  destruct t; simpl in Hrun; repeat case_match; simplify_eq; naive_solver.
Qed.

Lemma run_section_read s s' t t' l r h b :
  run_section t s = Some (t', s') → ReadDone h (Some b) ∈ l ++ t' :: r →
  ReadDone h (Some b) ∈ l ++ t :: r ∨ ∃ k, t = ReadCache h k ∧ block_cache s !! k = Some b.
Proof.
  intros Hrun. rewrite !elem_of_middle.
  destruct t; simpl in Hrun; repeat case_match; simplify_eq; unfold get_by_hash in *; naive_solver.
Qed.

Lemma run_section_hash_read s s' t t' l r k b :
  run_section t s = Some (t', s') → HashDone k (Some b) ∈ l ++ t' :: r →
  HashDone k (Some b) ∈ l ++ t :: r ∨ block_cache s !! k = Some b.
Proof.
  intros Hrun. rewrite !elem_of_middle.
  destruct t; simpl in Hrun; repeat case_match; simplify_eq; unfold get_by_hash in *; naive_solver.
Qed.

Lemma run_section_head_read s s' t t' l r b :
  run_section t s = Some (t', s') → HeadDone (Some b) ∈ l ++ t' :: r →
  HeadDone (Some b) ∈ l ++ t :: r ∨ head s = Some b.
Proof.
  intros Hrun. rewrite !elem_of_middle.
  destruct t; simpl in Hrun; repeat case_match; simplify_eq; unfold get_head in *; naive_solver.
Qed.

Lemma run_section_height_read s s' t t' l r h :
  run_section t s = Some (t', s') → HeightDone h ∈ l ++ t' :: r →
  HeightDone h ∈ l ++ t :: r ∨ h = 0%Z ∨ ∃ b, head s = Some b ∧ height b = h.
Proof.
  intros Hrun. rewrite !elem_of_middle.
  destruct t; simpl in Hrun; repeat case_match; simplify_eq; try naive_solver.
  unfold chain_height. destruct (head _); naive_solver.
Qed.

Lemma inv_step s ts s' ts' : inv s ts → step (s, ts) (s', ts') → inv s' ts'.
Proof.
  intros [I1 I2 C1 C2 H1 H2 R1 R2 D1 D2 D3] Hstep. inversion Hstep as [? ? l r t t' Hrun]; subst; clear Hstep.
  pose proof (λ b, run_section_indexed _ _ _ _ l r b Hrun) as Mi.
  pose proof (λ b, run_section_cached _ _ _ _ l r b Hrun) as Mc.
  pose proof (λ b, run_section_stored _ _ _ _ l r b Hrun) as Ms.
  constructor.
  - intros h k [(b & Ht & ?)|H]%(run_section_index _ _ _ _ _ _ Hrun).
    + exists b. split; [apply Mi|]; auto.
    + destruct (I1 _ _ H) as (b & Hb & ?). exists b. split; [apply Mi|]; auto.
  - intros b [Hb|Hb]%Mi; apply (run_section_index_grows _ _ _ _ _ Hrun); eauto.
  - intros k b [[Ht ?]|H]%(run_section_cache _ _ _ _ _ _ Hrun).
    + split; [apply Mc|]; auto.
    + destruct (C1 _ _ H). split; [apply Mc|]; auto.
  - intros b [Hb|Hb]%Mc; apply (run_section_cache_grows _ _ _ _ _ Hrun); eauto.
  - intros b [Hb|Hb]%(run_section_head _ _ _ _ _ Hrun); apply Ms; auto.
  - intros b Hb%Ms. apply (run_section_head_grows _ _ _ _ _ Hrun). destruct Hb; auto.
  - intros h k [H|H]%(run_section_reading _ _ _ _ _ _ _ _ Hrun).
    + destruct (R1 _ _ H) as (b & Hb & ?). exists b. split; [apply Mi|]; auto.
    + destruct (I1 _ _ H) as (b & Hb & ?). exists b. split; [apply Mi|]; auto.
  - intros h b [H|(k & -> & H)]%(run_section_read _ _ _ _ _ _ _ _ Hrun).
    + destruct (R2 _ _ H) as (Hc & b' & Hb' & ?). split; [apply Mc; auto|].
      exists b'. split; [apply Mi|]; auto.
    + destruct (C1 _ _ H) as [Hc <-]. split; [apply Mc; auto|].
      destruct (R1 h (hash b)) as (b' & Hb' & ?); [apply elem_of_middle; auto|].
      exists b'. split; [apply Mi|]; auto.
  - intros k b [H|H]%(run_section_hash_read _ _ _ _ _ _ _ _ Hrun); [apply D1 in H|apply C1 in H];
      (split; [apply Mc; left|]; apply H).
  - intros b [H|H]%(run_section_head_read _ _ _ _ _ _ _ Hrun); apply Ms; left; auto.
  - intros h [H|[H|(b & H & Hh)]]%(run_section_height_read _ _ _ _ _ _ _ Hrun); [|by left|].
    + destruct (D3 h H) as [?|(b & Hb & ?)]; [by left|right]. exists b. split; [apply Ms|]; auto.
    + right. exists b. split; [apply Ms|]; auto.
Qed.

Lemma inv_reachable s ts s' ts' : inv s ts → rtc step (s, ts) (s', ts') → inv s' ts'.
Proof.
  intros Hinv Hr. remember (s, ts) as x eqn:Ex. remember (s', ts') as y eqn:Ey.
  revert s ts Ex Hinv. induction Hr as [|x [s1 ts1] y Hstep Hr IH]; intros; simplify_eq; [done|].
  eapply IH; [done..|]. eapply inv_step; eauto.
Qed.

(** The blocks of the calls do not change. *)
Lemma run_section_block s s' t t' : run_section t s = Some (t', s') → task_block t' = task_block t.
Proof. destruct t; simpl; repeat case_match; naive_solver. Qed.

Lemma step_blocks s ts s' ts' : step (s, ts) (s', ts') → blocks_of ts' = blocks_of ts.
Proof.
  intros Hstep. inversion Hstep as [? ? l r t t' Hrun]; subst. unfold blocks_of.
  rewrite !omap_app. f_equal. simpl. by rewrite (run_section_block _ _ _ _ Hrun).
Qed.

Lemma reachable_blocks c c' : rtc step c c' → blocks_of c'.2 = blocks_of c.2.
Proof.
  induction 1 as [|[s ts] [s1 ts1] [s2 ts2] Hstep _ IH]; [done|]. simpl in *.
  rewrite IH. by eapply step_blocks.
Qed.

Lemma step_config s ts s' ts' : step (s, ts) (s', ts') → config s' = config s.
Proof.
  intros Hstep. inversion Hstep as [? ? l r t t' Hrun]; subst.
  destruct t; simpl in Hrun; repeat case_match; by simplify_eq.
Qed.

Lemma reachable_config c c' : rtc step c c' → config c'.1 = config c.1.
Proof.
  induction 1 as [|[s ts] [s1 ts1] [s2 ts2] Hstep _ IH]; [done|]. simpl in *.
  rewrite IH. by eapply step_config.
Qed.

(** When every call has returned, its block is stored. *)
Lemma finished_stored ts b : Forall finished ts → b ∈ blocks_of ts ↔ Stored b ∈ ts.
Proof.
  rewrite Forall_forall. intros Hf. unfold blocks_of. rewrite list_elem_of_omap. split.
  - intros (t & Ht & Hb). pose proof (Hf _ Ht). destruct t; simpl in *; by simplify_eq.
  - intros Ht. by exists (Stored b).
Qed.

Lemma finished_indexed ts b : Forall finished ts → indexed ts b ↔ b ∈ blocks_of ts.
Proof.
  intros Hf. rewrite finished_stored by done. rewrite Forall_forall in Hf. unfold indexed.
  split; [|auto]. intros [H|[H|H]]; [by apply Hf in H..|done].
Qed.

Lemma finished_cached ts b : Forall finished ts → cached ts b ↔ b ∈ blocks_of ts.
Proof.
  intros Hf. rewrite finished_stored by done. rewrite Forall_forall in Hf. unfold cached.
  split; [|auto]. intros [H|H]; [by apply Hf in H|done].
Qed.

(** * When every call has returned *)

(** What the three cells say about the stored blocks. *)
Record settled (bs : list StoredBlock) (s : StorageManager) : Prop := {
  settled_index h k : height_index s !! h = Some k → ∃ b, b ∈ bs ∧ height b = h ∧ hash b = k;
  settled_indexed b : b ∈ bs → is_Some (height_index s !! height b);
  settled_cache k b : block_cache s !! k = Some b → b ∈ bs ∧ hash b = k;
  settled_cached b : b ∈ bs → is_Some (block_cache s !! hash b);
  settled_head b : head s = Some b → b ∈ bs;
  settled_highest b : b ∈ bs → ∃ c, head s = Some c ∧ (height b ≤ height c)%Z;
}.

Lemma inv_settled s ts : Forall finished ts → inv s ts → settled (blocks_of ts) s.
Proof.
  intros Hf [I1 I2 C1 C2 H1 H2 _ _ _ _ _]. constructor.
  - intros h k (b & Hb & ?)%I1. exists b. by rewrite <-finished_indexed.
  - intros b Hb. apply I2. by rewrite finished_indexed.
  - intros k b [Hb ?]%C1. by rewrite finished_cached in Hb.
  - intros b Hb. apply C2. by rewrite finished_cached.
  - intros b Hb%H1. by rewrite finished_stored.
  - intros b Hb. apply H2. by rewrite <-finished_stored.
Qed.

(** Blocks that compete neither for a height nor for a hash. *)
Definition no_competition (bs : list StoredBlock) : Prop :=
  ∀ b b', b ∈ bs → b' ∈ bs → height b = height b' ∨ hash b = hash b' → b = b'.

Lemma settled_index_iff bs s h k :
  no_competition bs → settled bs s →
  height_index s !! h = Some k ↔ ∃ b, b ∈ bs ∧ height b = h ∧ hash b = k.
Proof.
  intros Hd Hs. split; [apply (settled_index _ _ Hs)|]. intros (b & Hb & <- & <-).
  destruct (settled_indexed _ _ Hs b Hb) as [k Hk]. rewrite Hk.
  destruct (settled_index _ _ Hs _ _ Hk) as (b' & Hb' & Hh & <-). f_equal.
  by rewrite (Hd b' b) by auto.
Qed.

Lemma settled_cache_iff bs s k b :
  no_competition bs → settled bs s → block_cache s !! k = Some b ↔ b ∈ bs ∧ hash b = k.
Proof.
  intros Hd Hs. split; [apply (settled_cache _ _ Hs)|]. intros [Hb <-].
  destruct (settled_cached _ _ Hs b Hb) as [b' Hk]. rewrite Hk.
  destruct (settled_cache _ _ Hs _ _ Hk) as [Hb' Hh]. f_equal. apply Hd; auto.
Qed.

Lemma settled_head_iff bs s b :
  no_competition bs → settled bs s →
  head s = Some b ↔ b ∈ bs ∧ ∀ b', b' ∈ bs → (height b' ≤ height b)%Z.
Proof.
  intros Hd Hs. split.
  - intros Hb. split; [by apply (settled_head _ _ Hs)|]. intros b' Hb'.
    destruct (settled_highest _ _ Hs b' Hb') as (c & Hc & ?). by simplify_eq.
  - intros [Hb Hmax]. destruct (settled_highest _ _ Hs b Hb) as (c & Hc & Hle). rewrite Hc.
    pose proof (settled_head _ _ Hs _ Hc) as Hcin. pose proof (Hmax c Hcin).
    f_equal. apply Hd; auto. left. lia.
Qed.

Lemma settled_unique bs s1 s2 :
  no_competition bs → settled bs s1 → settled bs s2 → config s1 = config s2 → s1 = s2.
Proof.
  intros Hd Hs1 Hs2 Hc. destruct s1 as [c1 h1 i1 b1] eqn:E1, s2 as [c2 h2 i2 b2] eqn:E2.
  simpl in Hc. subst c2. rewrite <-E1 in Hs1. rewrite <-E2 in Hs2. f_equal.
  - apply option_eq. intros b. change h1 with (head (mkStorageManager c1 h1 i1 b1)).
    change h2 with (head (mkStorageManager c1 h2 i2 b2)). rewrite <-E1, <-E2.
    by rewrite !(settled_head_iff bs).
  - apply map_eq. intros h. apply option_eq. intros k.
    change i1 with (height_index (mkStorageManager c1 h1 i1 b1)).
    change i2 with (height_index (mkStorageManager c1 h2 i2 b2)). rewrite <-E1, <-E2.
    by rewrite !(settled_index_iff bs).
  - apply map_eq. intros k. apply option_eq. intros b.
    change b1 with (block_cache (mkStorageManager c1 h1 i1 b1)).
    change b2 with (block_cache (mkStorageManager c1 h2 i2 b2)). rewrite <-E1, <-E2.
    by rewrite !(settled_cache_iff bs).
Qed.

(** Calls one after the other are one of the schedules. *)
Lemma sequential_schedule bs s before :
  rtc step (s, before ++ (StoreIndex <$> bs)) (store_all bs s, before ++ (Stored <$> bs)).
Proof.
  revert s before. induction bs as [|b bs IH]; intros s before; [done|]. simpl.
  eapply rtc_l; [by apply step_task|]. eapply rtc_l; [by apply step_task|].
  eapply rtc_l; [by apply step_task|].
  specialize (IH (store_block b s).1 (before ++ [Stored b])). by rewrite <-!app_assoc in IH.
Qed.

Lemma blocks_of_stored bs : blocks_of (Stored <$> bs) = bs.
Proof. induction bs as [|b bs IH]; [done|]. unfold blocks_of in *. simpl. f_equal. exact IH. Qed.

Lemma begin_inv_reachable c ts s ts' :
  Forall begins ts → rtc step (storage_new c, ts) (s, ts') → inv s ts'.
Proof. intros Hb. by apply inv_reachable, inv_begin. Qed.

(** Every schedule ends.  Each step takes a lock off the work that remains, and as
    long as a call has not returned some step is possible, so [n] stores return
    after at most [3 n] steps. *)
Theorem schedules_terminate (s s' : StorageManager) (ts ts' : list task) (n : nat) :
  nsteps step n (s, ts) (s', ts') →
  n + sum_list_with remaining ts' ≤ sum_list_with remaining ts ∧
  (Forall finished ts' ∨ ∃ c, step (s', ts') c).
Proof.
  intros Hn. split.
  - remember (s, ts) as x eqn:Ex. remember (s', ts') as y eqn:Ey. revert s ts Ex.
    induction Hn as [|n x [s1 ts1] y Hstep Hn IH]; intros; simplify_eq; [done|].
    specialize (IH eq_refl _ _ eq_refl). enough (S (sum_list_with remaining ts1) ≤ sum_list_with remaining ts) by lia.
    inversion Hstep as [? ? l r t t' Hrun]; subst. rewrite !sum_list_with_app. simpl.
    enough (S (remaining t') ≤ remaining t) by lia.
    destruct t; simpl in Hrun; repeat case_match; simplify_eq; simpl; lia.
  - destruct (decide (Forall finished ts')) as [|Hnf]; [by left|right].
    apply not_Forall_Exists in Hnf; [|solve_decision]. apply Exists_exists in Hnf as (t & Ht & Hf).
    apply list_elem_of_split in Ht as (l & r & ->).
    assert (∃ t' s'', run_section t s' = Some (t', s'')) as (t' & s'' & Hrun).
    { destruct t; simpl in *; try done; repeat case_match; eauto. }
    exists (s'', l ++ t' :: r). by constructor.
Qed.

(** C30: whatever the interleaving, once all calls have returned the indexes are
    consistent: every stored block is found by its hash (a stored block of that hash) and
    by its height (a stored block with the hash of a stored block of that height), and the
    head is a stored block of the greatest height.  And what a read returned was stored: by
    height, a block with the hash of a stored block of that height; by hash, a block with
    that hash; as the head, a block; as the height, that of a block, or 0. *)
Theorem schedules_settle (c : StorageConfig) (ts ts' : list task) (s : StorageManager) :
  Forall begins ts → rtc step (storage_new c, ts) (s, ts') → Forall finished ts' →
  (∀ b, b ∈ blocks_of ts →
     (∃ b', get_by_hash s (hash b) = Some b' ∧ b' ∈ blocks_of ts ∧ hash b' = hash b) ∧
     (∃ b1 b2, get_by_height s (height b) = Some b2 ∧ b1 ∈ blocks_of ts ∧ b2 ∈ blocks_of ts ∧
        height b1 = height b ∧ hash b2 = hash b1) ∧
     (∃ h, get_head s = Some h ∧ h ∈ blocks_of ts ∧ (height b ≤ height h)%Z)) ∧
  (∀ h b, ReadDone h (Some b) ∈ ts' →
     b ∈ blocks_of ts ∧ ∃ b', b' ∈ blocks_of ts ∧ height b' = h ∧ hash b' = hash b) ∧
  (∀ k b, HashDone k (Some b) ∈ ts' → b ∈ blocks_of ts ∧ hash b = k) ∧
  (∀ b, HeadDone (Some b) ∈ ts' → b ∈ blocks_of ts) ∧
  (∀ h, HeightDone h ∈ ts' → h = 0%Z ∨ ∃ b, b ∈ blocks_of ts ∧ height b = h).
Proof.
  intros Hb Hr Hf. pose proof (begin_inv_reachable _ _ _ _ Hb Hr) as Hinv.
  pose proof (reachable_blocks _ _ Hr) as Hbl. simpl in Hbl.
  pose proof (inv_settled _ _ Hf Hinv) as Hs. rewrite Hbl in Hs. split_and!.
  - intros b Hbin. split; [|split].
    + destruct (settled_cached _ _ Hs b Hbin) as [b' Hb']. exists b'. split; [done|].
      by apply (settled_cache _ _ Hs).
    + destruct (settled_indexed _ _ Hs b Hbin) as [k Hk]. unfold get_by_height. rewrite Hk. simpl.
      destruct (settled_index _ _ Hs _ _ Hk) as (b1 & Hb1 & Hh1 & <-).
      destruct (settled_cached _ _ Hs b1 Hb1) as [b2 Hb2].
      destruct (settled_cache _ _ Hs _ _ Hb2). by exists b1, b2.
    + destruct (settled_highest _ _ Hs b Hbin) as (h & Hh & ?). exists h. split; [done|].
      split; [by apply (settled_head _ _ Hs)|done].
  - intros h b [Hc (b' & Hb' & ?)]%(inv_read _ _ Hinv). rewrite <-Hbl.
    split; [by rewrite <-finished_cached|]. exists b'. by rewrite <-finished_indexed.
  - intros k b [Hc ?]%(inv_hash_read _ _ Hinv). rewrite <-Hbl. by rewrite <-finished_cached.
  - intros b Hst%(inv_head_read _ _ Hinv). rewrite <-Hbl. by rewrite finished_stored.
  - intros h [?|(b & Hst & ?)]%(inv_height_read _ _ Hinv); [by left|right]. exists b.
    rewrite <-Hbl. by rewrite finished_stored.
Qed.

(** C7: stores that compete neither for a height nor for a hash are serializable:
    every interleaving ends in the state that storing the blocks one after the
    other, in the order of the calls, produces. *)
Theorem stores_serializable (c : StorageConfig) (ts ts' : list task) (s : StorageManager) :
  Forall begins ts → no_competition (blocks_of ts) →
  rtc step (storage_new c, ts) (s, ts') → Forall finished ts' →
  s = store_all (blocks_of ts) (storage_new c).
Proof.
  intros Hb Hd Hr Hf. pose proof (begin_inv_reachable _ _ _ _ Hb Hr) as Hinv.
  pose proof (reachable_blocks _ _ Hr) as Hbl. simpl in Hbl.
  pose proof (inv_settled _ _ Hf Hinv) as Hs. rewrite Hbl in Hs.
  set (bs := blocks_of ts) in *.
  pose proof (sequential_schedule bs (storage_new c) []) as Hseq. simpl in Hseq.
  assert (Hb' : Forall begins (StoreIndex <$> bs)) by (apply Forall_fmap; by apply Forall_true).
  assert (Hf' : Forall finished (Stored <$> bs)) by (apply Forall_fmap; by apply Forall_true).
  pose proof (inv_settled _ _ Hf' (begin_inv_reachable _ _ _ _ Hb' Hseq)) as Hs'.
  rewrite blocks_of_stored in Hs'. eapply settled_unique; [done..|].
  pose proof (reachable_config _ _ Hr). pose proof (reachable_config _ _ Hseq). simpl in *. congruence.
Qed.

(** Runs the next section of the task between [l] and [r]. *)
Ltac run_next l r := eapply rtc_l; [eapply (step_task _ _ l r); reflexivity|cbn [app]].

(** Stores that compete for a height are not serializable.  There is a schedule of
    two stores after which the head and the height index both name the second block;
    storing them one after the other, in either order, leaves the head on one block
    and the index on the other. *)
Theorem competing_stores_race (c : StorageConfig) (b1 b2 : StoredBlock) :
  height b1 = height b2 → hash b1 ≠ hash b2 →
  ∃ s, rtc step (storage_new c, [StoreIndex b1; StoreIndex b2]) (s, [Stored b1; Stored b2]) ∧
       head s = Some b2 ∧ height_index s !! height b2 = Some (hash b2) ∧
       s ≠ store_all [b1; b2] (storage_new c) ∧ s ≠ store_all [b2; b1] (storage_new c).
Proof.
  intros Hh Hk.
  exists (update_head b1 (update_head b2 (insert_cache b2 (insert_index b2
    (insert_cache b1 (insert_index b1 (storage_new c))))))).
  split; [|split; [|split; [|split]]].
  - run_next (@nil task) [StoreIndex b2]. run_next (@nil task) [StoreIndex b2].
    run_next [StoreHead b1] (@nil task). run_next [StoreHead b1] (@nil task).
    run_next [StoreHead b1] (@nil task). run_next (@nil task) [Stored b2]. done.
  - simpl. by rewrite bool_decide_false by lia.
  - simpl. by rewrite lookup_insert_eq.
  - intros E%(f_equal head). simpl in E. rewrite !bool_decide_false in E by lia. congruence.
  - intros E%(f_equal (λ s, height_index s !! height b2)). simpl in E.
    rewrite Hh, !lookup_insert_eq in E. congruence.
Qed.

(** A reader can miss a height that is stored.  While a second block of the height
    is being stored, its hash is in the index before the block is in the cache:
    [get_by_height] then returns nothing although a block of that height was stored
    before the read began. *)
Theorem reader_transient_miss (c : StorageConfig) (b1 b2 : StoredBlock) :
  height b1 = height b2 → hash b1 ≠ hash b2 →
  ∃ s1 s2 ts, rtc step (storage_new c, [StoreIndex b1; StoreIndex b2; ReadIndex (height b1)])
                (s1, [Stored b1; StoreIndex b2; ReadIndex (height b1)]) ∧
    get_by_height s1 (height b1) = Some b1 ∧
    rtc step (s1, [Stored b1; StoreIndex b2; ReadIndex (height b1)]) (s2, ts) ∧
    ReadDone (height b1) None ∈ ts ∧ Stored b1 ∈ ts ∧ get_by_height s2 (height b1) = None.
Proof.
  intros Hh Hk.
  set (s1 := store_all [b1] (storage_new c)). set (s2 := insert_index b2 s1).
  exists s1, s2, [Stored b1; StoreCache b2; ReadDone (height b1) None].
  assert (height_index s2 !! height b1 = Some (hash b2)) as Hi.
  { simpl. by rewrite Hh, lookup_insert_eq. }
  assert (block_cache s2 !! hash b2 = None) as Hc.
  { simpl. by rewrite lookup_insert_ne, lookup_empty. }
  split; [|split; [|split; [|split; [|split]]]]; try elem_list.
  - do 3 run_next (@nil task) [StoreIndex b2; ReadIndex (height b1)]. done.
  - unfold get_by_height, get_by_hash. simpl. rewrite lookup_insert_eq. simpl. apply lookup_insert_eq.
  - run_next [Stored b1] [ReadIndex (height b1)]. fold s2.
    eapply rtc_l; [apply (step_task s2 s2 [Stored b1; StoreCache b2] [] _ (ReadCache (height b1) (hash b2)))|].
    { cbn [run_section]. by rewrite Hi. }
    simpl. eapply rtc_l; [apply (step_task s2 s2 [Stored b1; StoreCache b2] [] _ (ReadDone (height b1) None))|].
    { cbn [run_section]. unfold get_by_hash. by rewrite Hc. }
    done.
  - unfold get_by_height, get_by_hash. rewrite Hi. exact Hc.
Qed.

(** * Evaluation *)
Section Sample.

Let b1 := sample_block 1 x01.
Let b2 := sample_block 2 x02.

Let new := storage_new default_storage_config.
Let after1 := store_all [b1] new.

(** One store, then the four reads of what it stored. *)
Definition sample_readers : list task := [HashRead (hash b1); HeadRead; HeightRead; ReadIndex 1].
Definition sample_answers : list task := [HashDone (hash b1) (Some b1); HeadDone (Some b1); HeightDone 1; ReadDone 1 (Some b1)].

Lemma sample_index : height_index after1 !! 1%Z = Some (hash b1).
Proof. apply (lookup_insert_eq ∅ 1%Z (hash b1)). Qed.
Lemma sample_cache : get_by_hash after1 (hash b1) = Some b1.
Proof. apply (lookup_insert_eq ∅ (hash b1) b1). Qed.

Lemma sample_store ts : rtc step (new, StoreIndex b1 :: ts) (after1, Stored b1 :: ts).
Proof. do 3 run_next (@nil task) ts. done. Qed.

Lemma sample_reads : rtc step (after1, Stored b1 :: sample_readers) (after1, Stored b1 :: sample_answers).
Proof.
  unfold sample_readers, sample_answers.
  eapply rtc_l; [apply (step_task after1 after1 [Stored b1] [HeadRead; HeightRead; ReadIndex 1] (HashRead (hash b1))
    (HashDone (hash b1) (Some b1))); cbn [run_section]; by rewrite sample_cache|cbn [app]].
  run_next [Stored b1; HashDone (hash b1) (Some b1)] [HeightRead; ReadIndex 1].
  run_next [Stored b1; HashDone (hash b1) (Some b1); HeadDone (Some b1)] [ReadIndex 1].
  eapply rtc_l; [apply (step_task after1 after1 [Stored b1; HashDone (hash b1) (Some b1); HeadDone (Some b1); HeightDone 1]
    [] (ReadIndex 1) (ReadCache 1 (hash b1))); cbn [run_section]; by rewrite sample_index|cbn [app]].
  eapply rtc_l; [apply (step_task after1 after1 [Stored b1; HashDone (hash b1) (Some b1); HeadDone (Some b1); HeightDone 1]
    [] (ReadCache 1 (hash b1)) (ReadDone 1 (Some b1))); cbn [run_section]; by rewrite sample_cache|cbn [app]].
  reflexivity.
Qed.

Lemma sample_schedule :
  rtc step (storage_new default_storage_config, [StoreIndex b1; StoreIndex b2])
    (store_all [b1; b2] (storage_new default_storage_config), [Stored b1; Stored b2]).
Proof. apply (sequential_schedule [b1; b2] _ []). Qed.

Lemma sample_no_competition : no_competition [b1; b2].
Proof.
  intros b b' Hb Hb'. repeat setoid_rewrite elem_of_cons in Hb. repeat setoid_rewrite elem_of_cons in Hb'.
  destruct Hb as [->|[->|[]%not_elem_of_nil]], Hb' as [->|[->|[]%not_elem_of_nil]]; [done| | |done];
    (intros [He|He]; [discriminate He|apply (f_equal abytes) in He; discriminate He]).
Qed.

Lemma sample_hash_distinct : hash (sample_block 2 x02) ≠ hash (sample_block 2 x03).
Proof. intros He. apply (f_equal abytes) in He. discriminate He. Qed.

Lemma schedules_terminate_witness :
  nsteps step 1 (storage_new default_storage_config, [StoreIndex b1])
    (insert_index b1 (storage_new default_storage_config), [StoreCache b1]) ∧
  1 + 2 ≤ 3 ∧
  (Forall finished [StoreCache b1] ∨
   ∃ x, step (insert_index b1 (storage_new default_storage_config), [StoreCache b1]) x).
Proof.
  assert (nsteps step 1 (storage_new default_storage_config, [StoreIndex b1])
    (insert_index b1 (storage_new default_storage_config), [StoreCache b1])) as H.
  { apply nsteps_once. apply (step_task _ _ [] [] (StoreIndex b1) (StoreCache b1)). reflexivity. }
  split; [exact H|]. apply (schedules_terminate _ _ _ _ _ H).
Defined.

Lemma schedules_settle_witness :
  let s := store_all [b1] (storage_new default_storage_config) in
  (∃ h, get_head s = Some h ∧ h ∈ [b1] ∧ (height b1 ≤ height h)%Z) ∧
  (b1 ∈ [b1] ∧ ∃ b', b' ∈ [b1] ∧ height b' = 1%Z ∧ hash b' = hash b1) ∧
  (b1 ∈ [b1] ∧ hash b1 = hash b1) ∧ b1 ∈ [b1] ∧ (1 = 0 ∨ ∃ b, b ∈ [b1] ∧ height b = 1)%Z.
Proof.
  assert (Forall begins (StoreIndex b1 :: sample_readers)) as Hb by (unfold sample_readers; repeat constructor).
  assert (Forall finished (Stored b1 :: sample_answers)) as Hf by (unfold sample_answers; repeat constructor).
  destruct (schedules_settle default_storage_config (StoreIndex b1 :: sample_readers)
    (Stored b1 :: sample_answers) (store_all [b1] (storage_new default_storage_config)) Hb
    (transitivity (sample_store sample_readers) sample_reads) Hf) as (H1 & H2 & H3 & H4 & H5).
  assert (∀ i t, (Stored b1 :: sample_answers) !! i = Some t → t ∈ Stored b1 :: sample_answers) as Hin
    by (intros i t; apply list_elem_of_lookup_2).
  assert (blocks_of (StoreIndex b1 :: sample_readers) = [b1]) as Ebl by reflexivity.
  rewrite Ebl in H1, H2, H3, H4, H5.
  split; [exact (proj2 (proj2 (H1 b1 (list_elem_of_here _ _))))|].
  split; [exact (H2 1%Z b1 (Hin 4 _ eq_refl))|]. split; [exact (H3 (hash b1) b1 (Hin 1 _ eq_refl))|].
  split; [exact (H4 b1 (Hin 2 _ eq_refl))|exact (H5 1%Z (Hin 3 _ eq_refl))].
Defined.

Lemma stores_serializable_witness :
  store_all [b1; b2] (storage_new default_storage_config) =
  store_all (blocks_of [StoreIndex b1; StoreIndex b2]) (storage_new default_storage_config).
Proof.
  apply (stores_serializable default_storage_config [StoreIndex b1; StoreIndex b2] [Stored b1; Stored b2]);
    [by repeat constructor|exact sample_no_competition|exact sample_schedule|by repeat constructor].
Defined.

Lemma competing_stores_race_witness :
  ∃ s, rtc step (storage_new default_storage_config,
         [StoreIndex (sample_block 2 x02); StoreIndex (sample_block 2 x03)])
         (s, [Stored (sample_block 2 x02); Stored (sample_block 2 x03)]) ∧
       head s = Some (sample_block 2 x03) ∧
       height_index s !! 2%Z = Some (hash (sample_block 2 x03)) ∧
       s ≠ store_all [sample_block 2 x02; sample_block 2 x03] (storage_new default_storage_config) ∧
       s ≠ store_all [sample_block 2 x03; sample_block 2 x02] (storage_new default_storage_config).
Proof.
  apply (competing_stores_race default_storage_config (sample_block 2 x02) (sample_block 2 x03));
    [reflexivity|exact sample_hash_distinct].
Defined.

Lemma reader_transient_miss_witness :
  ∃ s1 s2 ts, rtc step (storage_new default_storage_config,
      [StoreIndex (sample_block 2 x02); StoreIndex (sample_block 2 x03); ReadIndex 2])
      (s1, [Stored (sample_block 2 x02); StoreIndex (sample_block 2 x03); ReadIndex 2]) ∧
    get_by_height s1 2 = Some (sample_block 2 x02) ∧
    rtc step (s1, [Stored (sample_block 2 x02); StoreIndex (sample_block 2 x03); ReadIndex 2]) (s2, ts) ∧
    ReadDone 2 None ∈ ts ∧ Stored (sample_block 2 x02) ∈ ts ∧ get_by_height s2 2 = None.
Proof.
  apply (reader_transient_miss default_storage_config (sample_block 2 x02) (sample_block 2 x03));
    [reflexivity|exact sample_hash_distinct].
Defined.

End Sample.
