(* ===== verification/StorageReads.v ===== *)
(** What concurrent readers of the storage manager observe (src/node/storage/src/lib.rs).

    The readers of StorageTasks.v against the sequential operations of Storage.v: each
    one-lock read ([get_by_hash], [head], [height]) returns what the sequential operation
    returns in one state between its call and its return, so that reads see the stores
    that returned before them and heights do not decrease.  [get_by_height] has this only
    without competition: reader_transient_miss of StorageTasks.v is a schedule where it
    misses a stored height. *)
From S2P Require Import Prelude Storage StorageTasks.

Implicit Types (s : StorageManager) (ts : list task) (t : task).

(** * The position of a task in a schedule *)
Lemma step_lookup s ts s' ts' i t :
  step (s, ts) (s', ts') → ts !! i = Some t →
  (ts' !! i = Some t) ∨
  (∃ t', run_section t s = Some (t', s') ∧ ts' !! i = Some t').
Proof.
  intros Hstep Hi. inversion Hstep as [? ? l r u u' Hrun]; subst.
  destruct (decide (i = length l)) as [->|Hne].
  - rewrite list_lookup_middle in Hi by done. simplify_eq. right. exists u'.
    by rewrite list_lookup_middle.
  - left. rewrite <-Hi. destruct (decide (i < length l)).
    + by rewrite !lookup_app_l.
    + rewrite !lookup_app_r by lia. destruct (i - length l) eqn:E; [lia|done].
Qed.

(** A task that has returned stays as it is. *)
Lemma finished_stays s ts s' ts' i t :
  rtc step (s, ts) (s', ts') → finished t → ts !! i = Some t → ts' !! i = Some t.
Proof.
  intros Hr Hf. remember (s, ts) as x eqn:Ex. remember (s', ts') as y eqn:Ey. revert s ts Ex.
  induction Hr as [|x [s1 ts1] y Hstep Hr IH]; intros; simplify_eq; [done|].
  eapply IH; [done..|].
  destruct (step_lookup _ _ _ _ _ _ Hstep ltac:(done)) as [?|(t' & Hrun & _)]; [done|].
  destruct t; simpl in *; done.
Qed.

(** A task that has moved made its first section in a state of the schedule. *)
Lemma section_point s1 ts1 s2 ts2 i t t2 :
  rtc step (s1, ts1) (s2, ts2) → ts1 !! i = Some t → ts2 !! i = Some t2 → t2 ≠ t →
  ∃ s ts t' s' ts', rtc step (s1, ts1) (s, ts) ∧ run_section t s = Some (t', s') ∧
    step (s, ts) (s', ts') ∧ ts' !! i = Some t' ∧ rtc step (s', ts') (s2, ts2).
Proof.
  intros Hr. remember (s1, ts1) as x eqn:Ex. remember (s2, ts2) as y eqn:Ey. revert s1 ts1 Ex.
  induction Hr as [|x [sm tsm] y Hstep Hr IH]; intros s1 ts1 Ex Hi Hj Hne; simplify_eq.
  destruct (step_lookup _ _ _ _ _ _ Hstep Hi) as [Hm|(t' & Hrun & Hm)].
  - destruct (IH eq_refl sm tsm eq_refl Hm Hj Hne) as (s & ts & t' & s' & ts' & Hr' & Hrest).
    exists s, ts, t', s', ts'. split; [by eapply rtc_l|done].
  - exists s1, ts1, t', sm, tsm. split_and!; auto. reflexivity.
Qed.

(** * Reads are atomic *)

(** The sequential operation that a one-lock read returns. *)
Definition answer (t : task) (s : StorageManager) : option task :=
  match t with
  | HashRead k => Some (HashDone k (get_by_hash s k))
  | HeadRead => Some (HeadDone (get_head s))
  | HeightRead => Some (HeightDone (chain_height s))
  | _ => None
  end.

(** Between its call and its return, a one-lock read is answered in one state. *)
Lemma read_point s1 ts1 s2 ts2 i t t2 :
  rtc step (s1, ts1) (s2, ts2) → ts1 !! i = Some t → ts2 !! i = Some t2 →
  is_Some (answer t s1) → finished t2 →
  ∃ s ts, rtc step (s1, ts1) (s, ts) ∧ rtc step (s, ts) (s2, ts2) ∧ answer t s = Some t2.
Proof.
  intros Hr Hi Hj [u Hu] Hf.
  assert (t2 ≠ t) as Hne by (intros ->; destruct t; simpl in *; done).
  destruct (section_point _ _ _ _ _ _ _ Hr Hi Hj Hne)
    as (s & ts & t' & s' & ts' & Hr1 & Hrun & Hstep & Hi' & Hr2).
  exists s, ts. split; [done|]. split; [by eapply rtc_l|].
  assert (finished t' ∧ answer t s = Some t') as [Hf' ->]
    by (destruct t; simpl in *; by simplify_eq).
  pose proof (finished_stays _ _ _ _ _ _ Hr2 Hf' Hi'). congruence.
Qed.

(** * What grows along a schedule *)
Lemma stored_stays s ts s' ts' b :
  rtc step (s, ts) (s', ts') → Stored b ∈ ts → Stored b ∈ ts'.
Proof.
  intros Hr [i Hi]%list_elem_of_lookup. apply list_elem_of_lookup. exists i.
  by eapply finished_stays.
Qed.

Lemma cached_block ts b : cached ts b → b ∈ blocks_of ts.
Proof.
  unfold blocks_of. rewrite list_elem_of_omap. intros [H|H]; eauto.
Qed.

Lemma indexed_block ts b : indexed ts b → b ∈ blocks_of ts.
Proof. unfold blocks_of. rewrite list_elem_of_omap. intros [H|[H|H]]; eauto. Qed.

Lemma stored_block ts b : Stored b ∈ ts → b ∈ blocks_of ts.
Proof. intros H. apply cached_block. by right. Qed.

(** * Reads see the stores that returned before them *)
Section Reads.

Context (c : StorageConfig) (ts0 ts1 ts2 : list task) (s1 s2 : StorageManager).
Hypothesis Hbegin : Forall begins ts0.
Hypothesis Hbefore : rtc step (storage_new c, ts0) (s1, ts1).
Hypothesis Hafter : rtc step (s1, ts1) (s2, ts2).

Lemma middle_inv s ts : rtc step (s1, ts1) (s, ts) → inv s ts ∧ blocks_of ts = blocks_of ts0.
Proof.
  intros Hr. assert (rtc step (storage_new c, ts0) (s, ts)) as Hr' by (by etrans).
  split; [by eapply begin_inv_reachable|]. exact (reachable_blocks _ _ Hr').
Qed.

(** A read by hash. *)
Lemma hash_read_sees b i k r :
  Stored b ∈ ts1 → ts1 !! i = Some (HashRead (hash b)) → ts2 !! i = Some (HashDone k r) →
  ∃ b', r = Some b' ∧ hash b' = hash b ∧ b' ∈ blocks_of ts0.
Proof.
  intros Hst Hi Hj.
  destruct (read_point _ _ _ _ _ _ _ Hafter Hi Hj) as (s & ts & Hr & _ & Ha); [by eexists|done|].
  simpl in Ha. simplify_eq. destruct (middle_inv _ _ Hr) as [Hinv <-].
  destruct (inv_cached _ _ Hinv b) as [b' Hb']; [right; by eapply stored_stays|].
  exists b'. destruct (inv_cache _ _ Hinv _ _ Hb') as [Hc ?].
  split_and!; [done..|by apply cached_block].
Qed.

(** A read of the head. *)
Lemma head_read_sees b i r :
  Stored b ∈ ts1 → ts1 !! i = Some HeadRead → ts2 !! i = Some (HeadDone r) →
  ∃ b', r = Some b' ∧ (height b ≤ height b')%Z ∧ b' ∈ blocks_of ts0.
Proof.
  intros Hst Hi Hj.
  destruct (read_point _ _ _ _ _ _ _ Hafter Hi Hj) as (s & ts & Hr & _ & Ha); [by eexists|done|].
  simpl in Ha. simplify_eq. destruct (middle_inv _ _ Hr) as [Hinv <-].
  destruct (inv_stored _ _ Hinv b) as (b' & Hb' & ?); [by eapply stored_stays|].
  exists b'. split_and!; [done..|]. apply stored_block. by apply (inv_head _ _ Hinv).
Qed.

(** A read of the height. *)
Lemma height_read_sees b i h :
  Stored b ∈ ts1 → ts1 !! i = Some HeightRead → ts2 !! i = Some (HeightDone h) →
  (height b ≤ h)%Z ∧ ∃ b', b' ∈ blocks_of ts0 ∧ height b' = h.
Proof.
  intros Hst Hi Hj.
  destruct (read_point _ _ _ _ _ _ _ Hafter Hi Hj) as (s & ts & Hr & _ & Ha); [by eexists|done|].
  simpl in Ha. simplify_eq. destruct (middle_inv _ _ Hr) as [Hinv <-].
  destruct (inv_stored _ _ Hinv b) as (b' & Hb' & ?); [by eapply stored_stays|].
  unfold chain_height. rewrite Hb'. simpl. split; [done|].
  exists b'. split; [|done]. apply stored_block. by apply (inv_head _ _ Hinv).
Qed.

(** A read by height, where no two blocks compete. *)
Lemma competition_free_index s ts b :
  no_competition (blocks_of ts0) → rtc step (s1, ts1) (s, ts) → Stored b ∈ ts1 →
  height_index s !! height b = Some (hash b) ∧ block_cache s !! hash b = Some b.
Proof.
  intros Hd Hr Hst. destruct (middle_inv _ _ Hr) as [Hinv Hbl]. rewrite <-Hbl in Hd.
  apply (stored_stays _ _ _ _ _ Hr) in Hst. pose proof (stored_block _ _ Hst) as Hb. split.
  - destruct (inv_indexed _ _ Hinv b) as [k Hk]; [by right; right|]. rewrite Hk.
    destruct (inv_index _ _ Hinv _ _ Hk) as (b' & Hb'%indexed_block & ? & <-).
    by rewrite (Hd b' b) by auto.
  - destruct (inv_cached _ _ Hinv b) as [b' Hk]; [by right|]. rewrite Hk.
    destruct (inv_cache _ _ Hinv _ _ Hk) as [Hb'%cached_block ?].
    by rewrite (Hd b' b) by auto.
Qed.

Lemma height_lookup_sees b i h r :
  no_competition (blocks_of ts0) →
  Stored b ∈ ts1 → ts1 !! i = Some (ReadIndex (height b)) → ts2 !! i = Some (ReadDone h r) →
  r = Some b.
Proof.
  intros Hd Hst Hi Hj.
  destruct (section_point _ _ _ _ _ _ _ Hafter Hi Hj) as (s & ts & t & s' & ts' & Hr & Hrun & Hstep & Ht & Hr');
    [done|].
  destruct (competition_free_index _ _ _ Hd Hr Hst) as [Hk _]. simpl in Hrun. rewrite Hk in Hrun.
  simplify_eq.
  destruct (section_point _ _ _ _ _ _ _ Hr' Ht Hj) as (u & us & t & u' & us' & Hr2 & Hrun & _ & Ht2 & Hr3);
    [done|].
  assert (rtc step (s1, ts1) (u, us)) as Hu by (etrans; [exact Hr|by eapply rtc_l]).
  destruct (competition_free_index _ _ _ Hd Hu Hst) as [_ Hc]. simpl in Hrun. unfold get_by_hash in Hrun.
  rewrite Hc in Hrun. simplify_eq.
  pose proof (finished_stays _ _ _ _ _ (ReadDone (height b) (Some b)) Hr3 I Ht2). congruence.
Qed.

(** What a task has learnt of the height of the chain: 0 where there is no head. *)
Definition seen_height (t : task) : option Z :=
  match t with
  | HeightDone h => Some h
  | HeadDone r => Some (default 0%Z (height <$> r))
  | _ => None
  end.

(** A height that was seen is 0 or that of a stored block. *)
Lemma seen_stored i t h :
  ts1 !! i = Some t → seen_height t = Some h → h = 0%Z ∨ ∃ b, Stored b ∈ ts1 ∧ height b = h.
Proof.
  intros Hi%list_elem_of_lookup_2 Hh. destruct (middle_inv s1 ts1) as [Hinv _]; [done|].
  destruct t as [| | | | | | | | | |[b|]| |]; simpl in Hh; simplify_eq.
  - right. exists b. split; [by apply (inv_head_read _ _ Hinv)|done].
  - by left.
  - by apply (inv_height_read _ _ Hinv).
Qed.

(** What a read of the head or of the height returns is the height of the chain in a state
    between its call and its return. *)
Lemma height_seen_point j t t2 h2 :
  ts1 !! j = Some t → t = HeadRead ∨ t = HeightRead → ts2 !! j = Some t2 → seen_height t2 = Some h2 →
  ∃ s ts, rtc step (s1, ts1) (s, ts) ∧ h2 = chain_height s.
Proof.
  intros Hj Ht Hj2 Hh. assert (finished t2) by (by destruct t2).
  destruct (read_point _ _ _ _ _ _ _ Hafter Hj Hj2) as (s & ts & Hr & _ & Ha); [by destruct Ht as [-> | ->]; eexists|done|].
  exists s, ts. split; [done|]. destruct Ht as [-> | ->]; simpl in Ha; simplify_eq; simpl in Hh; by simplify_eq.
Qed.

End Reads.

(** C8: reads see the stores that returned before they began: a read of a stored hash
    returns a stored block with that hash, a read of the head or of the height one at
    least as high, and, where no two blocks compete for a height or a hash, a read of a
    stored height returns exactly the block stored there. *)
Theorem reads_see_stores (c : StorageConfig) (ts0 ts1 ts2 : list task) (s1 s2 : StorageManager)
    (b : StoredBlock) :
  Forall begins ts0 → rtc step (storage_new c, ts0) (s1, ts1) → rtc step (s1, ts1) (s2, ts2) →
  Stored b ∈ ts1 →
  (∀ i r, ts1 !! i = Some (HashRead (hash b)) → ts2 !! i = Some (HashDone (hash b) r) →
     ∃ b', r = Some b' ∧ hash b' = hash b ∧ b' ∈ blocks_of ts0) ∧
  (∀ i r, ts1 !! i = Some HeadRead → ts2 !! i = Some (HeadDone r) →
     ∃ b', r = Some b' ∧ (height b ≤ height b')%Z ∧ b' ∈ blocks_of ts0) ∧
  (∀ i h, ts1 !! i = Some HeightRead → ts2 !! i = Some (HeightDone h) →
     (height b ≤ h)%Z ∧ ∃ b', b' ∈ blocks_of ts0 ∧ height b' = h) ∧
  (no_competition (blocks_of ts0) →
   ∀ i r, ts1 !! i = Some (ReadIndex (height b)) → ts2 !! i = Some (ReadDone (height b) r) →
     r = Some b).
Proof.
  intros Hb H1 H2 Hst. split_and!; intros.
  - by eapply hash_read_sees.
  - by eapply head_read_sees.
  - by eapply height_read_sees.
  - by eapply height_lookup_sees.
Qed.

(** C16: the chain does not go backwards for its readers.  A read of the head or of the
    height that begins after another read of the head or of the height has returned gives
    a height at least as great (no head counts as height 0, and heights are not negative),
    whatever is stored in between; and a head once read is followed by heads only. *)
Theorem observed_heights_monotone (c : StorageConfig) (ts0 ts1 ts2 : list task)
    (s1 s2 : StorageManager) (i j : nat) (t1 t t2 : task) (h1 h2 : Z) :
  Forall begins ts0 → Forall (λ b, 0 ≤ height b)%Z (blocks_of ts0) →
  rtc step (storage_new c, ts0) (s1, ts1) → rtc step (s1, ts1) (s2, ts2) →
  ts1 !! i = Some t1 → seen_height t1 = Some h1 →
  ts1 !! j = Some t → t = HeadRead ∨ t = HeightRead →
  ts2 !! j = Some t2 → seen_height t2 = Some h2 →
  (h1 ≤ h2)%Z ∧ ((∃ b, t1 = HeadDone (Some b)) → t2 ≠ HeadDone None).
Proof.
  intros Hb Hn H1 H2 Hi Hh1 Hj Ht Hj2 Hh2. split.
  - destruct (height_seen_point _ _ _ _ H2 _ _ _ _ Hj Ht Hj2 Hh2) as (s & ts & Hr & ->).
    destruct (middle_inv _ _ _ _ Hb H1 s ts Hr) as [Hinv Hbl]. unfold chain_height.
    destruct (seen_stored _ _ _ _ Hb H1 _ _ _ Hi Hh1) as [->|(b & Hst & <-)].
    + destruct (head s) as [b|] eqn:E; simpl; [|done]. rewrite <-Hbl in Hn.
      by apply (proj1 (Forall_forall _ _) Hn), stored_block, (inv_head _ _ Hinv).
    + destruct (inv_stored _ _ Hinv b) as (b' & -> & ?); [by eapply stored_stays|done].
  - intros [b ->] ->. destruct Ht as [-> | ->].
    + destruct (head_read_sees _ _ _ _ _ _ Hb H1 H2 b j None) as (b' & ? & _); [|done..].
      destruct (middle_inv _ _ _ _ Hb H1 s1 ts1) as [Hinv _]; [done|].
      by apply (inv_head_read _ _ Hinv), (list_elem_of_lookup_2 _ i).
    + destruct (read_point _ _ _ _ _ _ _ H2 Hj Hj2) as (s & ts & _ & _ & Ha); [by eexists|done|done].
Qed.

(** * Evaluation *)
Section Sample.

Let b1 := sample_block 1 x01.
Let b2 := sample_block 2 x02.
Let new := storage_new default_storage_config.
Let after1 := store_all [b1] new.
Let after2 := store_all [b1; b2] new.

Lemma reads_see_stores_witness :
  let ts1 := Stored b1 :: sample_readers in
  let ts2 := Stored b1 :: sample_answers in
  (∀ i r, ts1 !! i = Some (HashRead (hash b1)) → ts2 !! i = Some (HashDone (hash b1) r) →
     ∃ b', r = Some b' ∧ hash b' = hash b1 ∧ b' ∈ [b1]) ∧
  (∀ i r, ts1 !! i = Some HeadRead → ts2 !! i = Some (HeadDone r) →
     ∃ b', r = Some b' ∧ (height b1 ≤ height b')%Z ∧ b' ∈ [b1]) ∧
  (∀ i h, ts1 !! i = Some HeightRead → ts2 !! i = Some (HeightDone h) →
     (height b1 ≤ h)%Z ∧ ∃ b', b' ∈ [b1] ∧ height b' = h) ∧
  (no_competition [b1] →
   ∀ i r, ts1 !! i = Some (ReadIndex (height b1)) → ts2 !! i = Some (ReadDone (height b1) r) →
     r = Some b1).
Proof.
  apply (reads_see_stores default_storage_config (StoreIndex b1 :: sample_readers) (Stored b1 :: sample_readers)
    (Stored b1 :: sample_answers) after1 after1 b1).
  - by repeat constructor.
  - exact (sample_store sample_readers).
  - exact sample_reads.
  - apply list_elem_of_here.
Defined.

(** The height is read, a second block is stored, and the head is read. *)
Lemma observed_heights_monotone_witness :
  let ts0 := [StoreIndex b1; HeightRead; StoreIndex b2; HeadRead] in
  let ts1 := [Stored b1; HeightDone 1; StoreIndex b2; HeadRead] in
  let ts2 := [Stored b1; HeightDone 1; Stored b2; HeadDone (Some b2)] in
  rtc step (new, ts0) (after1, ts1) ∧ rtc step (after1, ts1) (after2, ts2) ∧ (1 ≤ height b2)%Z.
Proof.
  intros ts0 ts1 ts2.
  assert (rtc step (new, ts0) (after1, ts1)) as H1.
  { etrans; [apply sample_store|]. run_next [Stored b1] [StoreIndex b2; HeadRead]. reflexivity. }
  assert (rtc step (after1, ts1) (after2, ts2)) as H2.
  { unfold ts1, ts2. do 3 run_next [Stored b1; HeightDone 1] [HeadRead].
    run_next [Stored b1; HeightDone 1; Stored b2] (@nil task). reflexivity. }
  assert (Forall begins ts0) as Hb by (by repeat constructor).
  assert (Forall (λ b, 0 ≤ height b)%Z (blocks_of ts0)) as Hn by (repeat constructor; simpl; lia).
  split; [exact H1|]. split; [exact H2|].
  exact (proj1 (observed_heights_monotone default_storage_config ts0 ts1 ts2 after1 after2 1 3
    (HeightDone 1) HeadRead (HeadDone (Some b2)) 1 2 Hb Hn H1 H2 eq_refl eq_refl eq_refl (or_introl eq_refl) eq_refl eq_refl)).
Defined.

End Sample.
