(* ===== verification/Simulation.v ===== *)
(** The multi-node test framework (src/tests/integration/mod.rs): simulated validators, a
    network that runs consensus rounds on them, and the tests that use it.  A node's
    state behind [Arc<RwLock<_>>] is part of the network's map of nodes; sleeping and
    logging have no effect on it.  [start_blocking], which [TestNode] lacks, is the
    network's: it does nothing.  The [u64]-[u32] comparison of the quorum is one of
    integers. *)
From S2P Require Import Prelude Net.

Definition u32_add (p : profile) (a b : Z) : exec Z :=
  if bool_decide (a + b ≤ u32_max)%Z then Ret (a + b)%Z
  else match p with dev => Panic | release => Ret (as_u32 (a + b)) end.
Definition u32_mul (p : profile) (a b : Z) : exec Z :=
  if bool_decide (a * b ≤ u32_max)%Z then Ret (a * b)%Z
  else match p with dev => Panic | release => Ret (as_u32 (a * b)) end.
Definition as_u16 (x : Z) : Z := (x mod 2 ^ 16)%Z.

(** * Nodes *)
Section Nodes.
Context `{SA : SocketAddrOps}.

Record TestNodeConfig := mkTestNodeConfig {
  node_id : Z;
  listen_port : Z;
  is_validator : bool;
  is_faulty : bool;
  initial_peers : list SocketAddr;
}.

Record TestNodeState := mkTestNodeState {
  height : Z;
  last_block_hash : array 32;
  blocks_committed : list Z;
  rounds_participated : Z;
  is_running : bool;
  fault_injected : bool;
}.

Definition default_state : TestNodeState := mkTestNodeState 0 (zeroed 32) [] 0 false false.

Record TestNode := mkTestNode { config : TestNodeConfig; state : TestNodeState }.

Definition node_new (c : TestNodeConfig) : TestNode := mkTestNode c default_state.

Definition node_start (n : TestNode) : TestNode :=
  let s := state n in
  mkTestNode (config n) (mkTestNodeState (height s) (last_block_hash s) (blocks_committed s)
    (rounds_participated s) true (fault_injected s)).

Definition run_consensus_round (p : profile) (round total_validators : Z) (n : TestNode)
    : exec (TestNode * bool) :=
  if is_faulty (config n) then Ret (n, false)
  else
    let s := state n in
    rounds ← u64_add p (rounds_participated s) 1;
    Ret (mkTestNode (config n) (mkTestNodeState round (last_block_hash s)
           (blocks_committed s ++ [round]) rounds (is_running s) (fault_injected s)), true).

Definition current_height (n : TestNode) : Z := height (state n).

(** * The network *)
Record TestNetwork := mkTestNetwork {
  nodes : gmap Z TestNode;
  total_validators : Z;
  faulty_count : Z;
}.

Record TestResult := mkTestResult {
  total_rounds : Z;
  rounds_with_consensus : Z;
  total_commits : Z;
  result_validators : Z;
  result_faulty : Z;
}.

Definition make_node (p : profile) (i : Z) (validator faulty : bool) : exec TestNode :=
  port ← u32_add p 26656 i;
  Ret (node_new (mkTestNodeConfig i (as_u16 port) validator faulty [])).

(** The loop [for i in 0..n]; [ids] are the indices left. *)
Fixpoint add_validators (p : profile) (f : Z) (ids : list Z) (m : gmap Z TestNode)
    : exec (gmap Z TestNode) :=
  match ids with
  | [] => Ret m
  | i :: ids =>
      node ← make_node p i true (bool_decide (i < f)%Z);
      add_validators p f ids (<[i := node]> m)
  end.

Definition network_new (p : profile) (n f : Z) : exec TestNetwork :=
  m ← add_validators p f (seqZ 0 n) ∅;
  client ← make_node p n false false;
  Ret (mkTestNetwork (<[n := client]> m) n f).

(** One round over the nodes left to visit: their states and the commits counted. *)
Fixpoint run_round (p : profile) (round total : Z) (entries : list (Z * TestNode))
    (m : gmap Z TestNode) (commits : Z) : exec (gmap Z TestNode * Z) :=
  match entries with
  | [] => Ret (m, commits)
  | (id, node) :: entries =>
      if is_validator (config node) then
        r ← run_consensus_round p round total node;
        commits ← (if r.2 : bool then u64_add p commits 1 else Ret commits);
        run_round p round total entries (<[id := r.1]> m) commits
      else run_round p round total entries m commits
  end.

End Nodes.

Section Rounds.
Context `{SA : SocketAddrOps} {MI : MapIter Z}.

(** The loop [for round in 0..rounds]; [rounds] are the ones left. *)
Fixpoint run_rounds (p : profile) (rounds : list Z) (net : TestNetwork) (with_consensus commits : Z)
    : exec (TestNetwork * Z * Z) :=
  match rounds with
  | [] => Ret (net, with_consensus, commits)
  | round :: rounds =>
      r ← run_round p round (total_validators net) (map_iter (nodes net)) (nodes net) 0;
      double ← u32_mul p (total_validators net) 2;
      with_consensus ←
        (if bool_decide (r.2 > double / 3)%Z then u64_add p with_consensus 1 else Ret with_consensus);
      commits ← u64_add p commits r.2;
      run_rounds p rounds (mkTestNetwork r.1 (total_validators net) (faulty_count net)) with_consensus commits
  end.

Definition run_consensus (p : profile) (rounds : Z) (net : TestNetwork) : exec (TestNetwork * TestResult) :=
  r ← run_rounds p (seqZ 0 rounds) net 0 0;
  let '(net', with_consensus, commits) := r in
  Ret (net', mkTestResult rounds with_consensus commits (total_validators net) (faulty_count net)).

(** A partition and a delay only log and sleep. *)
Definition simulate_partition (partition_size : Z) (net : TestNetwork) : TestNetwork := net.
Definition simulate_message_delay (delay_ms : Z) (net : TestNetwork) : TestNetwork := net.

Definition verify_consistency (net : TestNetwork) : bool :=
  let heights :=
    (λ e, current_height e.2) <$>
      filter (λ e : Z * TestNode, negb (is_faulty (config e.2)) && is_validator (config e.2))
        (map_iter (nodes net)) in
  match heights with
  | [] => true
  | first_height :: _ => forallb (λ h, bool_decide (h = first_height)) heights
  end.

(** * The tests *)

(** A network of [n] validators, [f] of them faulty, that is disturbed and then runs. *)
Definition run_test (p : profile) (n f rounds : Z) (disturb : TestNetwork → TestNetwork)
    (check : TestResult → bool) (consistent : bool) : exec unit :=
  network ← network_new p n f;
  r ← run_consensus p rounds (disturb network);
  _ ← rust_assert (check r.2);
  if consistent then rust_assert (verify_consistency r.1) else Ret tt.

Definition at_least (k : Z) (r : TestResult) : bool := bool_decide (rounds_with_consensus r >= k)%Z.

Definition test_happy_path_4_validators_no_faults (p : profile) : exec unit :=
  run_test p 4 0 10 id (at_least 9) true.
Definition test_bft_threshold_4_validators_1_faulty (p : profile) : exec unit :=
  run_test p 4 1 10 id (at_least 8) false.
Definition test_bft_threshold_7_validators_2_faulty (p : profile) : exec unit :=
  run_test p 7 2 10 id (at_least 7) false.
Definition test_bft_threshold_exceeded (p : profile) : exec unit :=
  run_test p 4 2 10 id (λ r, bool_decide (rounds_with_consensus r < 5)%Z) false.
Definition test_network_partition_recovery (p : profile) : exec unit :=
  run_test p 4 0 5 (simulate_partition 1) (at_least 3) false.
Definition test_consistency_after_message_delays (p : profile) : exec unit :=
  run_test p 4 0 5 (simulate_message_delay 100) (at_least 3) true.
Definition test_7_validators_no_faults_all_rounds_consensus (p : profile) : exec unit :=
  run_test p 7 0 20 id (λ r, bool_decide (rounds_with_consensus r = 20)%Z) true.
Definition test_majority_partition_should_fail (p : profile) : exec unit :=
  run_test p 4 0 5 (simulate_partition 3) (λ r, bool_decide (rounds_with_consensus r <= 2)%Z) false.

End Rounds.

(** * Theorems *)
Section Theorems.
Context `{SA : SocketAddrOps}.

(** ** The nodes after [r] rounds *)
Definition config_at (n f i : Z) : TestNodeConfig :=
  mkTestNodeConfig i (as_u16 (26656 + i)) (bool_decide (i < n)%Z) (bool_decide (i < f)%Z) [].
Definition state_after (r : Z) : TestNodeState :=
  mkTestNodeState (Z.max 0 (r - 1)) (zeroed 32) (seqZ 0 r) r false false.
Definition node_at (n f r i : Z) : TestNode :=
  mkTestNode (config_at n f i) (if bool_decide (f ≤ i < n)%Z then state_after r else default_state).
Definition shape (n f r : Z) (m : gmap Z TestNode) : Prop :=
  ∀ i, m !! i = if bool_decide (0 ≤ i ≤ n)%Z then Some (node_at n f r i) else None.

Lemma node_at_0 (n f i : Z) : node_at n f 0 i = node_new (config_at n f i).
Proof. unfold node_at. by destruct (bool_decide _). Qed.

Lemma make_node_Ret (p : profile) (i : Z) (v f : bool) :
  (26656 + i ≤ u32_max)%Z →
  make_node p i v f = Ret (node_new (mkTestNodeConfig i (as_u16 (26656 + i)) v f [])).
Proof. intros Hi. unfold make_node, u32_add. by rewrite bool_decide_true. Qed.

Lemma add_validators_Ret (p : profile) (f : Z) (ids : list Z) (m : gmap Z TestNode) :
  Forall (λ i, 26656 + i ≤ u32_max)%Z ids →
  ∃ m', add_validators p f ids m = Ret m' ∧
    ∀ i, m' !! i = if bool_decide (i ∈ ids)
      then Some (node_new (mkTestNodeConfig i (as_u16 (26656 + i)) true (bool_decide (i < f)%Z) []))
      else m !! i.
Proof.
  intros Hids. revert m. induction Hids as [|j ids Hj _ IH]; intros m; simpl; [by exists m|].
  rewrite make_node_Ret by done. simpl.
  destruct (IH (<[j := node_new (mkTestNodeConfig j (as_u16 (26656 + j)) true (bool_decide (j < f)%Z) [])]> m))
    as (m' & Hm' & Hl).
  exists m'. split; [done|]. intros i. rewrite Hl. destruct (decide (i = j)) as [->|Hne].
  - rewrite (bool_decide_true (j ∈ j :: ids)) by elem_list.
    destruct (bool_decide (j ∈ ids)); [done|apply lookup_insert_eq].
  - rewrite lookup_insert_ne by done.
    rewrite (bool_decide_ext (i ∈ j :: ids) (i ∈ ids)) by (rewrite elem_of_cons; naive_solver). done.
Qed.

Lemma network_new_shape (p : profile) (n f : Z) :
  (0 ≤ f ≤ n)%Z → (26656 + n ≤ u32_max)%Z →
  ∃ m, network_new p n f = Ret (mkTestNetwork m n f) ∧ shape n f 0 m.
Proof.
  intros Hf Hn. unfold network_new.
  destruct (add_validators_Ret p f (seqZ 0 n) ∅) as (m & -> & Hm).
  { apply Forall_forall. intros i ?%elem_of_seqZ. lia. }
  cbn [mbind exec_bind]. rewrite make_node_Ret by done. cbn [mbind exec_bind].
  eexists. split; [done|]. intros i. rewrite node_at_0. unfold config_at.
  destruct (decide (i = n)) as [->|Hne].
  - rewrite lookup_insert_eq. rewrite (bool_decide_true (0 ≤ n ≤ n)%Z) by lia.
    by rewrite (bool_decide_false (n < n)%Z), (bool_decide_false (n < f)%Z) by lia.
  - rewrite lookup_insert_ne, Hm by done.
    rewrite (bool_decide_ext (i ∈ seqZ 0 n) (0 ≤ i < n)%Z) by (rewrite elem_of_seqZ; lia).
    destruct (decide (0 ≤ i < n)%Z).
    + rewrite (bool_decide_true (0 ≤ i < n)%Z), (bool_decide_true (0 ≤ i ≤ n)%Z), (bool_decide_true (i < n)%Z) by lia.
      done.
    + rewrite (bool_decide_false (0 ≤ i < n)%Z), (bool_decide_false (0 ≤ i ≤ n)%Z) by lia. apply lookup_empty.
Qed.

(** ** One round *)
Definition honest (e : Z * TestNode) : bool := is_validator (config e.2) && negb (is_faulty (config e.2)).

Definition stepped (round : Z) (node : TestNode) : TestNode :=
  if honest (0%Z, node) then
    let s := state node in
    mkTestNode (config node) (mkTestNodeState round (last_block_hash s) (blocks_committed s ++ [round])
      (rounds_participated s + 1) (is_running s) (fault_injected s))
  else node.

Lemma run_round_Ret (p : profile) (round total commits : Z) (entries : list (Z * TestNode))
    (m : gmap Z TestNode) :
  NoDup entries.*1 →
  (∀ id node, (id, node) ∈ entries →
     m !! id = Some node ∧ (rounds_participated (state node) + 1 ≤ u64_max)%Z) →
  (commits + Z.of_nat (length entries) ≤ u64_max)%Z →
  ∃ m', run_round p round total entries m commits =
      Ret (m', commits + Z.of_nat (length (filter (λ e, honest e) entries)))%Z ∧
    ∀ i, m' !! i = if bool_decide (i ∈ entries.*1) then stepped round <$> m !! i else m !! i.
Proof.
  revert m commits. induction entries as [|[id node] entries IH]; intros m commits Hnd Hm Hc.
  { exists m. cbn. split; [f_equal; f_equal; lia|done]. }
  cbn [fmap list_fmap fst] in Hnd |- *. apply NoDup_cons in Hnd as [Hid Hnd].
  destruct (Hm id node) as [Hnode Hrounds]; [elem_list|]. cbn [length] in Hc.
  set (b := honest (id, node)).
  assert (∃ m1, run_round p round total ((id, node) :: entries) m commits =
      run_round p round total entries m1 (commits + if b then 1 else 0)%Z ∧
      ∀ i, m1 !! i = if bool_decide (i = id) then Some (stepped round node) else m !! i) as (m1 & Hrun & Hm1).
  { cbn [run_round]. unfold run_consensus_round, b, stepped, honest. simpl.
    destruct (is_validator (config node)) eqn:Ev, (is_faulty (config node)) eqn:Ef; simpl.
    - eexists. rewrite Z.add_0_r. split; [done|]. intros i. rewrite lookup_insert. by case_decide; case_bool_decide.
    - rewrite (u64_add_exact p (rounds_participated (state node)) 1) by exact Hrounds. cbn [mbind exec_bind fst snd]. rewrite u64_add_exact by lia.
      eexists. split; [done|]. intros i. rewrite lookup_insert. by case_decide; case_bool_decide.
    - exists m. rewrite Z.add_0_r. split; [done|]. intros i. case_bool_decide; [by subst|done].
    - exists m. rewrite Z.add_0_r. split; [done|]. intros i. case_bool_decide; [by subst|done]. }
  destruct (IH m1 (commits + if b then 1 else 0)%Z) as (m' & Hr & Hl); [done| |destruct b; lia|].
  { intros id' node' Hin. rewrite Hm1, bool_decide_false; [apply Hm; elem_list|].
    intros ->. apply Hid. apply list_elem_of_fmap. by exists (id, node'). }
  exists m'. split.
  - rewrite Hrun, Hr. do 2 f_equal. rewrite filter_cons. fold b. destruct b; simpl; lia.
  - intros i. rewrite Hl, Hm1. destruct (decide (i = id)) as [->|Hne].
    + rewrite (bool_decide_true (id = id)) by done. rewrite (bool_decide_true (id ∈ id :: _)) by elem_list.
      rewrite bool_decide_false by done. by rewrite Hnode.
    + rewrite (bool_decide_false (i = id)) by done.
      rewrite (bool_decide_ext (i ∈ id :: entries.*1) (i ∈ entries.*1)) by (rewrite elem_of_cons; naive_solver).
      done.
Qed.

Lemma stepped_node_at (n f r i : Z) :
  (0 ≤ r)%Z → (0 ≤ f ≤ n)%Z → stepped r (node_at n f r i) = node_at n f (r + 1) i.
Proof.
  intros Hr Hf. unfold stepped, honest, node_at, config_at. simpl.
  destruct (decide (f ≤ i < n)%Z) as [Hi|Hi].
  - rewrite !(bool_decide_true (f ≤ i < n)%Z), (bool_decide_true (i < n)%Z), (bool_decide_false (i < f)%Z) by lia.
    cbn [andb negb state_after last_block_hash blocks_committed rounds_participated is_running fault_injected].
    unfold state_after. do 2 f_equal; [lia|].
    rewrite <-(Z2Nat.id r) by done. replace (Z.of_nat (Z.to_nat r) + 1)%Z with (Z.of_nat (S (Z.to_nat r))) by lia.
    by rewrite seqZ_S, Z.add_0_l.
  - rewrite !(bool_decide_false (f ≤ i < n)%Z) by done.
    destruct (decide (i < n)%Z); [rewrite (bool_decide_true (i < f)%Z) by lia|rewrite (bool_decide_false (i < n)%Z) by lia].
    + by rewrite andb_false_r.
    + done.
Qed.

Context {MI : MapIter Z} {MIL : MapIterLaws Z}.

Lemma shape_honest_count (n f r : Z) (m : gmap Z TestNode) :
  (0 ≤ f ≤ n)%Z → shape n f r m →
  Z.of_nat (length (filter (λ e, honest e) (map_iter m))) = (n - f)%Z.
Proof using MIL.
  intros Hf Hm.
  assert ((filter (λ e, honest e) (map_iter m)).*1 ≡ₚ seqZ f (n - f)) as Hp.
  { apply NoDup_Permutation; [|apply NoDup_seqZ|].
    - eapply sublist_NoDup; [apply (NoDup_map_iter_keys m)|].
      induction (map_iter m) as [|e l IH]; [done|]. rewrite filter_cons. case_decide; csimpl; by constructor.
    - intros i. rewrite elem_of_seqZ, list_elem_of_fmap. split.
      + intros ([j node] & -> & [Hh Hin%elem_of_map_iter]%list_elem_of_filter). simpl.
        rewrite Hm in Hin. case_bool_decide; simplify_eq. unfold honest in Hh. simpl in Hh.
        repeat case_bool_decide; simpl in Hh; (done || lia).
      + intros Hi. exists (i, node_at n f r i). split; [done|]. apply list_elem_of_filter. split.
        * unfold honest. simpl. rewrite bool_decide_true, bool_decide_false by lia. done.
        * apply elem_of_map_iter. rewrite Hm. by rewrite bool_decide_true by lia. }
  rewrite <-(length_fmap fst), Hp, length_seqZ. lia.
Qed.

Lemma shape_size (n f r : Z) (m : gmap Z TestNode) :
  (0 ≤ n)%Z → shape n f r m → Z.of_nat (size m) = (n + 1)%Z.
Proof.
  intros Hn Hm. rewrite <-size_dom.
  replace (dom m) with (list_to_set (seqZ 0 (n + 1)) : gset Z).
  - rewrite size_list_to_set by apply NoDup_seqZ. rewrite length_seqZ. lia.
  - apply set_eq. intros i. rewrite elem_of_list_to_set, elem_of_seqZ, elem_of_dom, Hm.
    case_bool_decide; [|rewrite is_Some_alt; lia]. split; [by eexists|lia].
Qed.

Lemma run_round_shape (p : profile) (n f r : Z) (m : gmap Z TestNode) :
  (0 ≤ f ≤ n)%Z → (0 ≤ r)%Z → (r + 1 ≤ u64_max)%Z → (n + 1 ≤ u64_max)%Z → shape n f r m →
  ∃ m', run_round p r n (map_iter m) m 0 = Ret (m', n - f)%Z ∧ shape n f (r + 1) m'.
Proof using MIL.
  intros Hf Hr Hr64 Hn Hm.
  destruct (run_round_Ret p r n 0 (map_iter m) m) as (m' & Hrun & Hl).
  - apply NoDup_map_iter_keys.
  - intros i node Hin%elem_of_map_iter. split; [done|].
    rewrite Hm in Hin. case_bool_decide; simplify_eq. unfold node_at. simpl.
    destruct (bool_decide (f ≤ i < n)%Z); simpl; lia.
  - rewrite length_map_iter, (shape_size n f r) by (done || lia). lia.
  - exists m'. rewrite Hrun, (shape_honest_count n f r) by done. split; [done|].
    intros i. rewrite Hl, Hm. destruct (decide (0 ≤ i ≤ n)%Z) as [Hi|Hi].
    + rewrite !(bool_decide_true (0 ≤ i ≤ n)%Z) by done.
      rewrite bool_decide_true; [simpl; by rewrite stepped_node_at|].
      apply list_elem_of_fmap. exists (i, node_at n f r i). split; [done|].
      apply elem_of_map_iter. by rewrite Hm, bool_decide_true.
    + rewrite !(bool_decide_false (0 ≤ i ≤ n)%Z) by done.
      destruct (bool_decide (i ∈ _)); [done|]. by rewrite Hm, (bool_decide_false (0 ≤ i ≤ n)%Z).
Qed.

(** ** All rounds *)
Lemma quorum_iff (n f : Z) : (0 ≤ f ≤ n)%Z → (n - f > n * 2 / 3 ↔ n > 3 * f)%Z.
Proof. intros. Z.to_euclidean_division_equations. lia. Qed.

Lemma run_rounds_shape (p : profile) (n f : Z) (k : nat) (r wc commits : Z) (m : gmap Z TestNode) :
  (0 ≤ f ≤ n)%Z → (n * 2 ≤ u32_max)%Z → (0 ≤ r)%Z → (0 ≤ wc ≤ r)%Z → (0 ≤ commits)%Z →
  (r + Z.of_nat k ≤ u64_max)%Z → (commits + Z.of_nat k * (n - f) ≤ u64_max)%Z → shape n f r m →
  ∃ m', run_rounds p (seqZ r (Z.of_nat k)) (mkTestNetwork m n f) wc commits =
      Ret (mkTestNetwork m' n f, (wc + if bool_decide (n > 3 * f) then Z.of_nat k else 0),
           (commits + Z.of_nat k * (n - f)))%Z ∧
    shape n f (r + Z.of_nat k) m'.
Proof using MIL.
  intros Hf Hn. revert r wc commits m. induction k as [|k IH]; intros r wc commits m Hr Hwc Hc Hk Hck Hm.
  { exists m. cbn. rewrite !Z.add_0_r. split; [|done]. by destruct (bool_decide _); rewrite ?Z.add_0_r. }
  rewrite seqZ_cons by lia. cbn [run_rounds total_validators nodes faulty_count].
  destruct (run_round_shape p n f r m) as (m1 & -> & Hm1);
    [done..|lia|unfold u32_max, u64_max in *; lia|done|].
  cbn [mbind exec_bind fst snd]. unfold u32_mul. rewrite (bool_decide_true (n * 2 ≤ u32_max)%Z) by done.
  cbn [mbind exec_bind].
  rewrite (bool_decide_ext (n - f > n * 2 / 3)%Z (n > 3 * f)%Z) by (by apply quorum_iff).
  assert ((if bool_decide (n > 3 * f)%Z then u64_add p wc 1 else Ret wc) =
    Ret (wc + if bool_decide (n > 3 * f) then 1 else 0)%Z) as ->.
  { case_bool_decide; [apply u64_add_exact; lia|by rewrite Z.add_0_r]. }
  cbn [mbind exec_bind]. rewrite u64_add_exact by nia. cbn [mbind exec_bind].
  replace (Z.pred (Z.of_nat (S k))) with (Z.of_nat k) by lia. replace (Z.succ r) with (r + 1)%Z by lia.
  destruct (IH (r + 1)%Z (wc + if bool_decide (n > 3 * f) then 1 else 0)%Z (commits + (n - f))%Z m1)
    as (m' & -> & Hm'); [lia|destruct (bool_decide _); lia|lia|lia|nia|done|].
  exists m'. split; [|by replace (r + Z.of_nat (S k))%Z with (r + 1 + Z.of_nat k)%Z by lia].
  f_equal. f_equal; [f_equal; destruct (bool_decide _); lia|lia].
Qed.

Lemma shape_consistent (n f r : Z) (net : TestNetwork) :
  (0 ≤ f ≤ n)%Z → shape n f r (nodes net) → verify_consistency net = true.
Proof using MIL.
  intros Hf Hm. unfold verify_consistency.
  set (hs := _ <$> filter _ _).
  assert (∀ h, h ∈ hs → h = Z.max 0 (r - 1)) as Hh.
  { intros h ([i node] & -> & [Hc Hin%elem_of_map_iter]%list_elem_of_filter)%list_elem_of_fmap.
    rewrite Hm in Hin. case_bool_decide; simplify_eq. unfold current_height, node_at in *. simpl in *.
    repeat case_bool_decide; simpl in *; (done || lia). }
  destruct hs as [|h0 hs]; [done|]. apply forallb_forall. intros h Hin%list_elem_of_In.
  apply bool_decide_eq_true. rewrite (Hh h Hin), (Hh h0); [done|]. apply list_elem_of_here.
Qed.

Lemma network_run (p : profile) (n f rounds : Z) :
  (0 ≤ f ≤ n)%Z → (n * 2 ≤ u32_max)%Z → (0 ≤ rounds ≤ u64_max)%Z → (rounds * (n - f) ≤ u64_max)%Z →
  ∃ net net', network_new p n f = Ret net ∧
    run_consensus p rounds net =
      Ret (net', mkTestResult rounds (if bool_decide (n > 3 * f) then rounds else 0)%Z (rounds * (n - f)) n f) ∧
    verify_consistency net' = true ∧
    ∀ i, (f ≤ i < n)%Z → ∃ node, nodes net' !! i = Some node ∧ blocks_committed (state node) = seqZ 0 rounds.
Proof using MIL.
  intros Hf Hn Hr Hc. destruct (network_new_shape p n f) as (m & -> & Hm); [done|unfold u32_max in *; lia|].
  destruct (run_rounds_shape p n f (Z.to_nat rounds) 0 0 0 m) as (m' & Hrun & Hm');
    [done|done|lia|lia|lia|lia|rewrite Z2Nat.id by lia; lia|done|].
  rewrite Z2Nat.id, !Z.add_0_l in Hrun, Hm' by lia.
  exists (mkTestNetwork m n f), (mkTestNetwork m' n f). split; [done|].
  split; [|split].
  - unfold run_consensus. rewrite Hrun. done.
  - by apply (shape_consistent n f rounds).
  - intros i Hi. exists (node_at n f rounds i). simpl. rewrite Hm', bool_decide_true by lia.
    split; [done|]. unfold node_at. simpl. by rewrite bool_decide_true.
Qed.


Lemma run_test_verdict (p : profile) (n f rounds : Z) (disturb : TestNetwork → TestNetwork)
    (check : TestResult → bool) (consistent : bool) :
  (0 ≤ f ≤ n)%Z → (n * 2 ≤ u32_max)%Z → (0 ≤ rounds ≤ u64_max)%Z → (rounds * (n - f) ≤ u64_max)%Z →
  (∀ net, disturb net = net) →
  run_test p n f rounds disturb check consistent =
  rust_assert (check (mkTestResult rounds (if bool_decide (n > 3 * f) then rounds else 0)%Z (rounds * (n - f)) n f)).
Proof using MIL.
  intros Hf Hn Hr Hc Hd. destruct (network_run p n f rounds) as (net & net' & Hnew & Hrun & Hv & _); [done..|].
  unfold run_test. rewrite Hnew. cbn [mbind exec_bind]. rewrite Hd, Hrun. cbn [mbind exec_bind fst snd].
  destruct (check _); [|done]. cbn [rust_assert mbind exec_bind]. destruct consistent; [by rewrite Hv|done].
Qed.

(** The verdict of the integration tests.  Seven of the eight tests pass, in both build
    profiles and whatever the order in which the nodes are visited; the test that expects
    a partition of three of four nodes to stop consensus fails, because
    [simulate_partition] disconnects nothing. *)
Theorem integration_tests_verdict (p : profile) :
  (test_happy_path_4_validators_no_faults p = Ret tt ∧
   test_bft_threshold_4_validators_1_faulty p = Ret tt ∧
   test_bft_threshold_7_validators_2_faulty p = Ret tt ∧
   test_bft_threshold_exceeded p = Ret tt ∧
   test_network_partition_recovery p = Ret tt ∧
   test_consistency_after_message_delays p = Ret tt ∧
   test_7_validators_no_faults_all_rounds_consensus p = Ret tt) ∧
  test_majority_partition_should_fail p = Panic.
Proof using MIL.
  repeat split; (etrans; [apply run_test_verdict; [lia|vm_compute; discriminate|split; [lia|vm_compute; discriminate]|
    vm_compute; discriminate|done]|reflexivity]).
Qed.

End Theorems.

(** * Ten validators *)
Section Sample.

#[local] Existing Instance map_iter_default.
#[local] Instance sample_iter_laws_Z : MapIterLaws Z.
Proof. intros V m. reflexivity. Qed.


Lemma integration_tests_verdict_witness : test_majority_partition_should_fail dev = Panic.
Proof. apply (proj2 (integration_tests_verdict dev)). Defined.

End Sample.
