(* ===== verification/Report.v ===== *)
(** The report of the test network (src/tests/integration/mod.rs, [Display] of
    [TestResult]).

    The rate of rounds with consensus is an [f64]: the conversions from [u64], the
    division and the product are those of IEEE binary64 with rounding to nearest, ties
    to even, as the Standard Library's SpecFloat specifies them.  [{:.1}] prints the exact
    value of the float rounded to one decimal, ties to even. *)
From Stdlib Require Import SpecFloat Zpower.
From stdpp Require Import pretty.
From S2P Require Import Prelude Net Simulation.

(** * Binary64 *)
Abbreviation f64 := spec_float.
Definition u64_as_f64 (n : Z) : f64 := binary_normalize 53 1024 n 0 false.
Definition f64_div : f64 → f64 → f64 := SFdiv 53 1024.
Definition f64_mul : f64 → f64 → f64 := SFmul 53 1024.

(** The quotient rounded to the nearest integer, ties to even. *)
Definition div_half_even (a b : Z) : Z :=
  let q := (a / b)%Z in
  match (2 * (a mod b) ?= b)%Z with
  | Lt => q
  | Gt => (q + 1)%Z
  | Eq => if Z.even q then q else (q + 1)%Z
  end.

Definition with_sign (s : bool) (digits : string) : string := (if s then "-" else "") +:+ digits.

(** [{:.1}] *)
Definition f64_fmt_1 (x : f64) : string :=
  match x with
  | S754_nan => "NaN"
  | S754_infinity s => with_sign s "inf"
  | S754_zero s => with_sign s "0.0"
  | S754_finite s m e =>
      let tenths :=
        if bool_decide (0 ≤ e)%Z then (10 * Z.pos m * 2 ^ e)%Z
        else div_half_even (10 * Z.pos m) (2 ^ (- e)) in
      with_sign s (pretty (tenths / 10)%Z +:+ "." +:+ pretty (tenths mod 10)%Z)
  end.

(** * The report *)
Definition consensus_rate (r : TestResult) : f64 :=
  if bool_decide (total_rounds r > 0)%Z then
    f64_mul (f64_div (u64_as_f64 (rounds_with_consensus r)) (u64_as_f64 (total_rounds r))) (u64_as_f64 100)
  else u64_as_f64 100.

Definition test_result_display (r : TestResult) : string :=
  "Rounds: " +:+ pretty (rounds_with_consensus r) +:+ "/" +:+ pretty (total_rounds r) +:+
  " with consensus (" +:+ f64_fmt_1 (consensus_rate r) +:+ "%), Validators: " +:+
  pretty (result_validators r) +:+ " (" +:+ pretty (result_faulty r) +:+
  " faulty), Total commits: " +:+ pretty (total_commits r).

(** * Conversions of positive counters are finite *)
Lemma Zdigits2_bounds (p : positive) :
  (2 ^ (Z.pos (digits2_pos p) - 1) ≤ Z.pos p < 2 ^ Z.pos (digits2_pos p))%Z.
Proof.
  induction p as [p IH|p IH|]; cbn [digits2_pos]; [..|done];
    rewrite Pos2Z.inj_succ, Z.pow_succ_r by lia;
    replace (Z.succ (Z.pos (digits2_pos p)) - 1)%Z with (Z.succ (Z.pos (digits2_pos p) - 1)) by lia;
    rewrite Z.pow_succ_r by lia; lia.
Qed.

Lemma Zdigits2_unique (p : positive) (d : Z) :
  (0 < d)%Z → (2 ^ (d - 1) ≤ Z.pos p < 2 ^ d)%Z → Z.pos (digits2_pos p) = d.
Proof.
  intros Hd Hp. pose proof (Zdigits2_bounds p) as Hb.
  assert (2 ^ (d - 1) < 2 ^ Z.pos (digits2_pos p))%Z as H1%Z.pow_lt_mono_r_iff by lia; [|lia..].
  assert (2 ^ (Z.pos (digits2_pos p) - 1) < 2 ^ d)%Z as H2%Z.pow_lt_mono_r_iff by lia; [|lia..]. lia.
Qed.

Lemma shr_1_m (r : shr_record) : (0 ≤ shr_m r)%Z → shr_m (shr_1 r) = Z.shiftr (shr_m r) 1.
Proof. destruct r as [[|[p|p|]|p] rb sb]; simpl; [done..|lia]. Qed.

Lemma shr_iter_m (p : positive) (r : shr_record) :
  (0 ≤ shr_m r)%Z → shr_m (SpecFloat.iter_pos shr_1 p r) = Z.shiftr (shr_m r) (Z.pos p).
Proof.
  revert r. induction p as [p IH|p IH|]; intros r Hr; cbn [SpecFloat.iter_pos].
  - rewrite !IH, shr_1_m by (rewrite ?IH, ?shr_1_m by (rewrite ?shr_1_m; rewrite ?Z.shiftr_nonneg; lia);
      rewrite ?Z.shiftr_nonneg; lia).
    rewrite !Z.shiftr_shiftr by lia. f_equal. lia.
  - rewrite !IH by (rewrite ?IH, ?Z.shiftr_nonneg by lia; lia).
    rewrite !Z.shiftr_shiftr by lia. f_equal. lia.
  - by apply shr_1_m.
Qed.

Lemma shr_fexp_m (p : positive) (e : Z) :
  (-1021 ≤ Z.pos (digits2_pos p) + e)%Z →
  let k := Z.max 0 (Z.pos (digits2_pos p) - 53) in
  ∃ r, shr_fexp 53 1024 (Z.pos p) e loc_Exact = (r, (e + k)%Z) ∧ shr_m r = Z.shiftr (Z.pos p) k.
Proof.
  intros Hd k. unfold shr_fexp, shr, fexp, emin, shr_record_of_loc. cbn [Zdigits2].
  assert (Z.max (Z.pos (digits2_pos p) + e - 53) (3 - 1024 - 53) - e = Z.pos (digits2_pos p) - 53)%Z as -> by lia.
  destruct (Z.pos (digits2_pos p) - 53)%Z as [|j|j] eqn:E; subst k; rewrite ?E.
  - eexists. split; [f_equal; simpl; lia|done].
  - eexists. split; [f_equal; lia|]. rewrite shr_iter_m by done. f_equal.
  - eexists. split; [f_equal; simpl; lia|done].
Qed.

(** A mantissa of at least 53 digits is rounded to a finite number. *)
Lemma binary_round_aux_finite (p : positive) (e : Z) :
  (53 ≤ Z.pos (digits2_pos p) ≤ 64)%Z → (-1000 ≤ e ≤ 900)%Z →
  ∃ m e', binary_round_aux 53 1024 false (Z.pos p) e loc_Exact = S754_finite false m e'.
Proof.
  intros Hd He. unfold binary_round_aux.
  destruct (shr_fexp_m p e) as (r & -> & Hr); [lia|].
  rewrite Z.max_r in Hr |- * by lia.
  assert (2 ^ 52 ≤ shr_m r < 2 ^ 53)%Z as Hm.
  { rewrite Hr, Z.shiftr_div_pow2 by lia. pose proof (Zdigits2_bounds p) as Hp.
    pose proof (Z.pow_pos_nonneg 2 (Z.pos (digits2_pos p) - 53)) as Hpos.
    set (k := (Z.pos (digits2_pos p) - 53)%Z) in *.
    replace (Z.pos (digits2_pos p)) with (k + 53)%Z in Hp by lia.
    replace (k + 53 - 1)%Z with (k + 52)%Z in Hp by lia. rewrite !Z.pow_add_r in Hp by lia.
    split; [apply Z.div_le_lower_bound|apply Z.div_lt_upper_bound]; lia. }
  assert (2 ^ 52 ≤ round_nearest_even (shr_m r) (loc_of_shr_record r) ≤ 2 ^ 53)%Z as Hq.
  { unfold round_nearest_even. repeat case_match; lia. }
  destruct (round_nearest_even _ _) as [|q|q]; [lia| |lia].
  assert (53 ≤ Z.pos (digits2_pos q) ≤ 54)%Z as Hdq.
  { destruct (decide (Z.pos q = 2 ^ 53)%Z) as [E|]; [rewrite (Zdigits2_unique q 54); [lia..|]; rewrite E; lia|].
    rewrite (Zdigits2_unique q 53); lia. }
  destruct (shr_fexp_m q (e + (Z.pos (digits2_pos p) - 53))) as (r' & -> & Hr'); [lia|].
  rewrite Z.max_r in Hr' |- * by lia.
  assert (0 < shr_m r')%Z as Hpos.
  { rewrite Hr', Z.shiftr_div_pow2 by lia. apply Z.div_str_pos.
    assert (2 ^ (Z.pos (digits2_pos q) - 53) ≤ 2 ^ 1)%Z by (apply Z.pow_le_mono_r; lia).
    pose proof (Z.pow_pos_nonneg 2 (Z.pos (digits2_pos q) - 53)). lia. }
  destruct (shr_m r') as [|m|m]; [lia| |lia].
  rewrite (proj2 (Z.leb_le _ _)) by lia. by do 2 eexists.
Qed.

Lemma u64_as_f64_finite (n : Z) :
  (0 < n ≤ u64_max)%Z → ∃ m e, u64_as_f64 n = S754_finite false m e.
Proof.
  intros Hn. destruct n as [|p|p]; [lia| |lia]. unfold u64_as_f64. cbn [binary_normalize].
  unfold binary_round, shl_align, fexp, emin. pose proof (Zdigits2_bounds p) as Hp.
  assert (Z.pos (digits2_pos p) ≤ 64)%Z as Hd.
  { destruct (decide (Z.pos (digits2_pos p) ≤ 64)%Z) as [|Hgt]; [done|].
    assert (2 ^ 64 ≤ 2 ^ (Z.pos (digits2_pos p) - 1))%Z by (apply Z.pow_le_mono_r; lia).
    unfold u64_max in Hn. lia. }
  rewrite Z.add_0_r, Z.sub_0_r, Z.max_l by lia.
  destruct (Z.pos (digits2_pos p) - 53)%Z as [|j|j] eqn:E; [apply binary_round_aux_finite; lia..|].
  assert (Z.pos (digits2_pos (Pos.iter xO p j)) = 53%Z) as Hj.
  { apply Zdigits2_unique; [lia|].
    assert (Z.pos (Pos.iter xO p j) = Z.pos p * 2 ^ Z.pos j)%Z as ->.
    { change (Pos.iter xO p j) with (shift_pos j p). rewrite shift_pos_correct. simpl (_ ^ _)%Z. lia. }
    pose proof (Z.pow_pos_nonneg 2 (Z.pos j)) as Hpos.
    replace (53 - 1)%Z with (Z.pos (digits2_pos p) - 1 + Z.pos j)%Z by lia.
    replace 53%Z with (Z.pos (digits2_pos p) + Z.pos j)%Z by lia.
    rewrite !Z.pow_add_r by lia. nia. }
  apply binary_round_aux_finite; lia.
Qed.

(** * The printed rate *)
Lemma f64_div_self (m : positive) (e : Z) :
  f64_div (S754_finite false m e) (S754_finite false m e) = u64_as_f64 1.
Proof.
  unfold f64_div, SFdiv.
  assert (SFdiv_core_binary 53 1024 (Z.pos m) e (Z.pos m) e = (2 ^ 53, -53, loc_Exact)%Z) as ->; [|done].
  unfold SFdiv_core_binary. rewrite !Z.sub_diag. cbn [fexp emin Z.sub Z.add Z.max Z.compare Z.min Z.opp].
  rewrite Z.shiftl_mul_pow2 by lia.
  pose proof (Z_div_mod (Z.pos m * 2 ^ 53) (Z.pos m)) as Hdm.
  destruct (Z.div_eucl _ _) as [q r]. destruct Hdm as [Hq Hr]; [lia|].
  destruct (Z.div_mod_unique (Z.pos m) (2 ^ 53) q 0 r) as [<- <-]; [lia..|].
  unfold new_location, new_location_even, new_location_odd. by case_match.
Qed.

(** The rate when no round, or every round, reached consensus. *)
Lemma consensus_rate_none (r : TestResult) :
  (0 < total_rounds r ≤ u64_max)%Z → rounds_with_consensus r = 0%Z → consensus_rate r = S754_zero false.
Proof.
  intros Ht Hw. unfold consensus_rate. rewrite bool_decide_true by lia. rewrite Hw.
  by destruct (u64_as_f64_finite _ Ht) as (m & e & ->).
Qed.

Lemma consensus_rate_all (r : TestResult) :
  (0 ≤ total_rounds r ≤ u64_max)%Z → rounds_with_consensus r = total_rounds r →
  consensus_rate r = u64_as_f64 100.
Proof.
  intros Ht Hw. unfold consensus_rate. case_bool_decide; [|done]. rewrite Hw.
  destruct (u64_as_f64_finite (total_rounds r)) as (m & e & ->); [lia|]. rewrite f64_div_self.
  vm_compute. reflexivity.
Qed.

(** C39: what a run reports.  After [rounds] rounds of a network of [n] validators of which [f]
    are faulty, where twice [n] is a [u32] and the commits are a [u64], the line printed
    gives the rounds with consensus (all of them where [n > 3f], else 0) of all rounds, the
    rate, the validators, the faulty ones and the commits; and the rate, which the code
    computes in floating point and prints with one decimal, is exactly 100.0 where the
    fault bound holds or there are no rounds, and exactly 0.0 elsewhere. *)
Theorem report_of_run `{SA : SocketAddrOps} {MI : MapIter Z} {MIL : MapIterLaws Z}
    (p : profile) (n f rounds : Z) :
  (0 ≤ f ≤ n)%Z → (n * 2 ≤ u32_max)%Z → (0 ≤ rounds ≤ u64_max)%Z → (rounds * (n - f) ≤ u64_max)%Z →
  ∃ net net' r, network_new p n f = Ret net ∧ run_consensus p rounds net = Ret (net', r) ∧
    test_result_display r =
      "Rounds: " +:+ pretty (if bool_decide (n > 3 * f) then rounds else 0)%Z +:+ "/" +:+ pretty rounds +:+
      " with consensus (" +:+ (if bool_decide (rounds = 0 ∨ n > 3 * f)%Z then "100.0" else "0.0") +:+
      "%), Validators: " +:+ pretty n +:+ " (" +:+ pretty f +:+
      " faulty), Total commits: " +:+ pretty (rounds * (n - f))%Z.
Proof.
  intros Hf Hn Hr Hc. destruct (network_run p n f rounds) as (net & net' & Hnew & Hrun & _); [done..|].
  exists net, net'. eexists. split; [exact Hnew|]. split; [exact Hrun|].
  unfold test_result_display. cbn [rounds_with_consensus total_rounds result_validators result_faulty total_commits].
  do 4 f_equal. set (r := mkTestResult _ _ _ _ _).
  enough (f64_fmt_1 (consensus_rate r) = if bool_decide (rounds = 0 ∨ n > 3 * f)%Z then "100.0" else "0.0") as ->
    by done.
  destruct (decide (rounds = 0 ∨ n > 3 * f)%Z) as [Hb|Hb];
    [rewrite (bool_decide_true (_ ∨ _)) by done|rewrite (bool_decide_false (_ ∨ _)) by done].
  - rewrite consensus_rate_all; [vm_compute; reflexivity|done|]. simpl. case_bool_decide; [done|]. lia.
  - rewrite consensus_rate_none; [done|simpl; lia|]. simpl. by rewrite bool_decide_false by lia.
Qed.

(** * Evaluation *)
Section Sample.

#[local] Existing Instance map_iter_default.
#[local] Instance report_iter_laws : MapIterLaws Z.
Proof. intros V m. reflexivity. Qed.

(** Rates in between: repeating decimals, a tie, and a rate that is rounded up to 100.0. *)
Example rates_printed :
  (λ q, f64_fmt_1 (consensus_rate (mkTestResult q.2 q.1 0 0 0))) <$>
    [(1, 3); (2, 3); (1, 16); (3, 16); (9999, 10000)]%Z =
  ["33.3"; "66.7"; "6.2"; "18.8"; "100.0"].
Proof. vm_compute. reflexivity. Qed.

Lemma report_of_run_witness :
  ∃ net net' r, network_new dev 4 2 = Ret net ∧ run_consensus dev 10 net = Ret (net', r) ∧
    test_result_display r =
      "Rounds: 0/10 with consensus (0.0%), Validators: 4 (2 faulty), Total commits: 20".
Proof.
  apply (report_of_run dev 4 2 10); [lia|vm_compute; discriminate|split; [lia|vm_compute; discriminate]|
    vm_compute; discriminate].
Defined.

End Sample.
